(** * P_USDExporter: the export chaser and the stage assembler

    A shallow embedding of the structural algorithms of
    [chasers/Clone_USD_PropertiesChaser.py] and
    [chasers/Clone_USD_StageAssembler.py], with the properties their
    specification states about them.

    Conventions of the embedding.
    - A Python [str] is a [string]; [s[n:]] is [drop_str n s],
      [s.startswith(p)] is [startswith s p].
    - An [Sdf.Path] handled as text by the chaser is the [string] that
      [str(path)] gives; [Sdf.Path(s)] is read back as [s].
    - [None] is [None]; a value tested for truth ([if nest_target], [if parent])
      goes through [truthy]: set and not the empty string. *)

From Stdlib Require Import Ascii String List Bool Arith Lia.
From stdpp Require Import gmap strings list.

Import ListNotations.
Local Open Scope stdpp_scope.

(** ** Python string primitives *)

Fixpoint startswith (s p : string) {struct p} : bool :=
  match p with
  | EmptyString => true
  | String a p' =>
      match s with
      | EmptyString => false
      | String b s' => Ascii.eqb a b && startswith s' p'
      end
  end.

Fixpoint drop_str (n : nat) (s : string) : string :=
  match n, s with
  | O, _ => s
  | S _, EmptyString => EmptyString
  | S n', String _ s' => drop_str n' s'
  end.

Definition slash : ascii := "/"%char.

(** [s.rstrip("/")] *)
Fixpoint rstrip_slash (s : string) : string :=
  match s with
  | EmptyString => EmptyString
  | String c s' =>
      match rstrip_slash s' with
      | EmptyString => if Ascii.eqb c slash then EmptyString else String c EmptyString
      | r => String c r
      end
  end.

(** [s.lstrip("/")] *)
Fixpoint lstrip_slash (s : string) : string :=
  match s with
  | EmptyString => EmptyString
  | String c s' => if Ascii.eqb c slash then lstrip_slash s' else s
  end.

Definition nonempty (s : string) : bool :=
  match s with EmptyString => false | String _ _ => true end.

Definition truthy (o : option string) : bool :=
  match o with Some s => nonempty s | None => false end.

(** ** Path Reference Remapper ([Clone_USD_PropertiesChaser.py]) *)

(** The loop [for mtl_name in mtl_names] of [_remap_path_str]: the first
    material scope the path equals or lies under decides. *)
Fixpoint remap_mtl (path_str strip_prefix nest_target : string)
    (mtl_names : list string) : option string :=
  match mtl_names with
  | [] => None
  | mtl_name :: rest =>
      let mtl_prefix := strip_prefix +:+ "/" +:+ mtl_name in
      if startswith path_str (mtl_prefix +:+ "/") || String.eqb path_str mtl_prefix
      then Some ("/" +:+ nest_target +:+ "/" +:+ mtl_name
                     +:+ drop_str (String.length mtl_prefix) path_str)
      else remap_mtl path_str strip_prefix nest_target rest
  end.

(** The first block of [_remap_path_str], entered under
    [if nest_target and mtl_names]. *)
Definition nested_stage (path_str strip_prefix : string) (nest_target : option string)
    (mtl_names : list string) : option string :=
  match nest_target, mtl_names with
  | Some nt, _ :: _ =>
      if nonempty nt then remap_mtl path_str strip_prefix nt mtl_names else None
  | _, _ => None
  end.

Definition _remap_path_str (path_str strip_prefix : string)
    (nest_target : option string) (mtl_names : list string)
    (replacement_prefix : option string) : option string :=
  match nested_stage path_str strip_prefix nest_target mtl_names with
  | Some r => Some r
  | None =>
      if startswith path_str (strip_prefix +:+ "/") then
        let suffix := drop_str (String.length strip_prefix) path_str in
        match replacement_prefix with
        | None => Some suffix
        | Some rp =>
            if String.eqb rp "/" then Some suffix
            else Some (rstrip_slash rp +:+ suffix)
        end
      else if String.eqb path_str strip_prefix then
        match replacement_prefix with
        | Some rp => Some (if nonempty rp then rp else "/")
        | None => Some "/"
        end
      else None
  end.

(** The inner loop of [_remap_paths_in_place] over one target (or connection)
    list: the rebuilt list and the [changed] flag. *)
Fixpoint remap_entries (strip_prefix : string) (nest_target : option string)
    (mtl_names : list string) (replacement_prefix : option string)
    (entries : list string) : list string * bool :=
  match entries with
  | [] => ([], false)
  | t :: rest =>
      let '(new_rest, changed) :=
        remap_entries strip_prefix nest_target mtl_names replacement_prefix rest in
      match _remap_path_str t strip_prefix nest_target mtl_names replacement_prefix with
      | Some new_str => (new_str :: new_rest, true)
      | None => (t :: new_rest, changed)
      end
  end.

(** What [_remap_paths_in_place] does with one relationship or attribute:
    [Some l] when it calls [SetTargets l] / [SetConnections l], [None] when it
    leaves the property as authored. *)
Definition reauthor (strip_prefix : string) (nest_target : option string)
    (mtl_names : list string) (replacement_prefix : option string)
    (entries : list string) : option (list string) :=
  match entries with
  | [] => None
  | _ =>
      let '(new_entries, changed) :=
        remap_entries strip_prefix nest_target mtl_names replacement_prefix entries in
      if changed then Some new_entries else None
  end.

(** A property that carries paths: a relationship with its targets or an
    attribute with its connections. *)
Record PathProperty := {
  prop_name : string;
  prop_paths : list string
}.

Record StagePrim := {
  prim_path : string;
  relationships : list PathProperty;
  attributes : list PathProperty
}.

(** [rel.SetTargets(l)] and [attr.SetConnections(l)]: the list of the property
    is cleared and made explicit, then the paths are added one at a time. A
    path the list has already is not added again, and the root path [/] is
    neither a target nor a connection: it is not added, and the call raises
    once it has gone through the list. [add_paths] is the loop; [SetTargets]
    gives the list that is authored and whether the call raises. *)
Fixpoint add_paths (authored l : list string) : list string :=
  match l with
  | [] => authored
  | p :: rest =>
      add_paths (if String.eqb p "/" || existsb (String.eqb p) authored
                 then authored
                 else authored ++ [p])
                rest
  end.

Definition SetTargets (l : list string) : list string * bool :=
  (add_paths [] l, existsb (String.eqb "/") l).

(** One relationship or attribute in [_remap_paths_in_place]: the property it
    leaves, what it adds to [remapped], and whether [SetTargets] or
    [SetConnections] raised (then [remapped += 1] is not reached). *)
Definition remap_property (strip_prefix : string) (nest_target : option string)
    (mtl_names : list string) (replacement_prefix : option string)
    (p : PathProperty) : PathProperty * nat * bool :=
  match reauthor strip_prefix nest_target mtl_names replacement_prefix (prop_paths p) with
  | Some l =>
      let '(authored, raised) := SetTargets l in
      ({| prop_name := prop_name p; prop_paths := authored |},
       if raised then 0 else 1, raised)
  | None => (p, 0, false)
  end.

(** The loop over the relationships (or the attributes) of a prim; it ends at
    the first call that raises, the properties after it left as they are. *)
Fixpoint remap_properties (strip_prefix : string) (nest_target : option string)
    (mtl_names : list string) (replacement_prefix : option string)
    (ps : list PathProperty) : list PathProperty * nat * bool :=
  match ps with
  | [] => ([], 0, false)
  | p :: rest =>
      let '(p', n, raised) :=
        remap_property strip_prefix nest_target mtl_names replacement_prefix p in
      if raised then (p' :: rest, n, true)
      else
        let '(rest', m, raised) :=
          remap_properties strip_prefix nest_target mtl_names replacement_prefix rest in
        (p' :: rest', n + m, raised)
  end.

(** [_remap_paths_in_place]: every prim of the traversal, relationships then
    attributes. Returns the stage, the count [remapped] and whether the run
    was ended by an exception, which the function does not catch. *)
Fixpoint _remap_paths_in_place (strip_prefix : string) (nest_target : option string)
    (mtl_names : list string) (replacement_prefix : option string)
    (stage : list StagePrim) : list StagePrim * nat * bool :=
  match stage with
  | [] => ([], 0, false)
  | prim :: rest =>
      let '(rels, n, raised) :=
        remap_properties strip_prefix nest_target mtl_names replacement_prefix
          (relationships prim) in
      if raised
      then ({| prim_path := prim_path prim; relationships := rels;
               attributes := attributes prim |} :: rest, n, true)
      else
        let '(atts, m, raised) :=
          remap_properties strip_prefix nest_target mtl_names replacement_prefix
            (attributes prim) in
        if raised
        then ({| prim_path := prim_path prim; relationships := rels;
                 attributes := atts |} :: rest, n + m, true)
        else
          let '(rest', k, raised) :=
            _remap_paths_in_place strip_prefix nest_target mtl_names replacement_prefix
              rest in
          ({| prim_path := prim_path prim; relationships := rels; attributes := atts |}
             :: rest',
           n + m + k, raised)
  end.

(** ** Skeleton joint tokens ([Clone_USD_PropertiesChaser.py]) *)

Definition _format_joint_token_path (path_str : string) (had_leading_slash : bool) : string :=
  if had_leading_slash then path_str else lstrip_slash path_str.

(** [stage.GetPrimAtPath(p).IsValid()]: the stage has a prim at that path. *)
Definition prim_valid (stage : list StagePrim) (p : string) : bool :=
  existsb (fun q => String.eqb (prim_path q) p) stage.

(** Step 1 of [_remap_skeleton_joint_token], the value of [remapped]: the path
    remapper on the token, then on the token made absolute, then the relative
    strip prefix. *)
Definition primary_joint_remap (token strip_prefix : string) (nest_target : option string)
    (mtl_names : list string) (replacement_prefix relative_strip_prefix : option string)
  : option string :=
  let had_leading_slash := startswith token "/" in
  let remapped :=
    _remap_path_str token strip_prefix nest_target mtl_names replacement_prefix in
  let remapped :=
    match remapped with
    | None =>
        if negb had_leading_slash
        then _remap_path_str ("/" +:+ token) strip_prefix nest_target mtl_names
               replacement_prefix
        else None
    | Some r => Some r
    end in
  match remapped, relative_strip_prefix with
  | None, Some rsp =>
      if negb had_leading_slash && nonempty rsp then
        let rel_prefix := lstrip_slash (rstrip_slash rsp) in
        if startswith token (rel_prefix +:+ "/")
        then Some (drop_str (String.length rel_prefix + 1) token)
        else None
      else None
  | r, _ => r
  end.

Definition _remap_skeleton_joint_token (stage : list StagePrim)
    (token strip_prefix : string) (nest_target : option string)
    (mtl_names : list string) (content_root replacement_prefix
    relative_strip_prefix : option string) : string :=
  if negb (nonempty token) then token else
  let had_leading_slash := startswith token "/" in
  match primary_joint_remap token strip_prefix nest_target mtl_names
          replacement_prefix relative_strip_prefix with
  | Some r => _format_joint_token_path r had_leading_slash
  | None =>
      match content_root with
      | None => token
      | Some root =>
          if negb (nonempty root) then token else
          let token_abs := if had_leading_slash then token else "/" +:+ token in
          if prim_valid stage token_abs then token else
          let prefixed_abs := "/" +:+ root +:+ token_abs in
          if prim_valid stage prefixed_abs
          then _format_joint_token_path prefixed_abs had_leading_slash
          else token
      end
  end.

(** The two configurations [_remap_skeleton_joint_tokens] is called with: after
    the wrapper is stripped ([_strip_root_wrapper]) and after a scene wrapper is
    flattened under a skeletal root ([_flatten_scene_wrapper_under_skel_root]). *)
Definition joint_token_after_strip (stage : list StagePrim) (token strip_prefix : string)
    (nest_target : option string) (mtl_names : list string) (default_name : string) : string :=
  _remap_skeleton_joint_token stage token strip_prefix nest_target mtl_names
    (Some default_name) None None.

Definition joint_token_after_flatten (stage : list StagePrim)
    (token strip_prefix scene_wrapper_name : string) : string :=
  _remap_skeleton_joint_token stage token strip_prefix None [] None
    (Some "/root") (Some scene_wrapper_name).

(** ** Character classes

    A string holds one [ascii] for each character of the Python string, not
    the bytes of an encoding of it: the characters of the embedding are those
    with a code below 256.
    [str.isalnum], [str.isdigit] and the regular expression class [\w] are
    fixed on the ASCII range; what they answer on a code above 127 comes from
    the Unicode tables and is a parameter of the development.
    [re.IGNORECASE] is taken on the ASCII letters: of the characters above
    127 it lets two, U+0130 and U+0131, match the letter [I] of a pattern, and
    a marker written with one of them is outside the embedding. *)

Class CodeTable := {
  hi_alnum : ascii -> bool;
  hi_digit : ascii -> bool
}.

Definition code (c : ascii) : nat := nat_of_ascii c.

Definition is_upper (c : ascii) : bool := (65 <=? code c) && (code c <=? 90).
Definition is_lower (c : ascii) : bool := (97 <=? code c) && (code c <=? 122).
Definition is_dec (c : ascii) : bool := (48 <=? code c) && (code c <=? 57).
Definition is_ascii (c : ascii) : bool := code c <? 128.

Definition to_lower (c : ascii) : ascii :=
  if is_upper c then ascii_of_nat (code c + 32) else c.

Definition ci_eq (a b : ascii) : bool := Ascii.eqb (to_lower a) (to_lower b).

(** ** White space

    What [str.strip] takes for white space is fixed on the ASCII range; on a
    code above 127 it is a parameter, as for the other character classes. *)

Class SpaceTable := {
  hi_space : ascii -> bool
}.

(** The table with no white space above 127. *)
Definition ascii_spaces : SpaceTable := {| hi_space := fun _ => false |}.

Section WhiteSpace.
Context {spaces : SpaceTable}.

Definition isspace (c : ascii) : bool :=
  if is_ascii c
  then ((9 <=? code c) && (code c <=? 13)) || ((28 <=? code c) && (code c <=? 32))
  else hi_space c.

Fixpoint lstrip (s : string) : string :=
  match s with
  | EmptyString => EmptyString
  | String c s' => if isspace c then lstrip s' else s
  end.

Fixpoint rstrip (s : string) : string :=
  match s with
  | EmptyString => EmptyString
  | String c s' =>
      match rstrip s' with
      | EmptyString => if isspace c then EmptyString else String c EmptyString
      | r => String c r
      end
  end.

(** [s.strip()] *)
Definition strip (s : string) : string := rstrip (lstrip s).

End WhiteSpace.

Section Names.
Context {table : CodeTable}.

Definition isalnum (c : ascii) : bool :=
  if is_ascii c then is_upper c || is_lower c || is_dec c else hi_alnum c.

Definition isdigit (c : ascii) : bool :=
  if is_ascii c then is_dec c else hi_digit c.

Definition underscore : ascii := "_"%char.

(** [\w] *)
Definition is_word (c : ascii) : bool := isalnum c || Ascii.eqb c underscore.

(** ** Name sanitizer ([Clone_USD_StageAssembler.py]) *)

Fixpoint sanitize_chars (name : string) : string :=
  match name with
  | EmptyString => EmptyString
  | String char rest =>
      String (if isalnum char || Ascii.eqb char underscore then char else underscore)
             (sanitize_chars rest)
  end.

Definition make_valid_prim_name (name : string) : string :=
  let valid_name := sanitize_chars name in
  let valid_name :=
    match valid_name with
    | String c _ => if isdigit c then String underscore valid_name else valid_name
    | EmptyString => valid_name
    end in
  if nonempty valid_name then valid_name else "prim".

(** ** Regular expressions of the suffix grammar *)

(** [re.search]: the leftmost position at which [here] matches, with what it
    captured there. *)
Fixpoint re_search {A : Type} (here : string -> option A) (s : string) : option (nat * A) :=
  match here s with
  | Some a => Some (0, a)
  | None =>
      match s with
      | EmptyString => None
      | String _ s' =>
          match re_search here s' with
          | Some (i, a) => Some (S i, a)
          | None => None
          end
      end
  end.

(** A literal under [re.IGNORECASE]; returns what follows it. *)
Fixpoint match_lit_ci (pat s : string) : option string :=
  match pat with
  | EmptyString => Some s
  | String p pat' =>
      match s with
      | EmptyString => None
      | String c s' => if ci_eq p c then match_lit_ci pat' s' else None
      end
  end.

Definition newline : ascii := ascii_of_nat 10.

(** [$] without [re.MULTILINE]: at the end, or before a newline that ends the
    string. *)
Definition at_dollar (s : string) : bool :=
  match s with
  | EmptyString => true
  | String c EmptyString => Ascii.eqb c newline
  | _ => false
  end.

(** The longest run of [\w] at the head of [s], and the rest. *)
Fixpoint span_word (s : string) : string * string :=
  match s with
  | EmptyString => (EmptyString, EmptyString)
  | String c s' =>
      if is_word c
      then let '(w, r) := span_word s' in (String c w, r)
      else (EmptyString, s)
  end.

Fixpoint take_str (n : nat) (s : string) : string :=
  match n, s with
  | O, _ => EmptyString
  | S _, EmptyString => EmptyString
  | S n', String c s' => String c (take_str n' s')
  end.

Inductive Purpose := render | proxy | guide.

(** A literal under [re.IGNORECASE] and then [$]. *)
Definition lit_dollar (pat s : string) : bool :=
  match match_lit_ci pat s with
  | Some r => at_dollar r
  | None => false
  end.

(** [_PAYLOAD$] *)
Definition payload_here (s : string) : option unit :=
  if lit_dollar "_PAYLOAD" s then Some tt else None.

(** [_(RENDER|PROXY|GUIDE)$]; the value is [group(1).lower()]. *)
Definition purpose_here (s : string) : option Purpose :=
  if lit_dollar "_RENDER" s then Some render
  else if lit_dollar "_PROXY" s then Some proxy
  else if lit_dollar "_GUIDE" s then Some guide
  else None.

(** The variant pattern: [_VARIANT], a captured run of [\w] of any length, [$];
    the value is [group(1)]. *)
Definition variant_here (s : string) : option string :=
  match match_lit_ci "_VARIANT" s with
  | Some r => let '(w, r') := span_word r in if at_dollar r' then Some w else None
  | None => None
  end.

(** ** Suffix Parser ([Clone_USD_StageAssembler.py]) *)

Definition parse_name_suffixes (name : string)
  : string * option Purpose * option string * bool :=
  let base_name := name in
  let '(base_name, is_payload) :=
    match re_search payload_here base_name with
    | Some (start, _) => (take_str start base_name, true)
    | None => (base_name, false)
    end in
  let '(base_name, purpose) :=
    match re_search purpose_here base_name with
    | Some (start, p) => (take_str start base_name, Some p)
    | None => (base_name, None)
    end in
  let '(base_name, variant) :=
    match re_search variant_here base_name with
    | Some (start, w) => (take_str start base_name, Some (if nonempty w then w else "1"))
    | None => (base_name, None)
    end in
  (base_name, purpose, variant, is_payload).

(** The pattern of [_process_variants] under [re.match]: a lazy non-empty run of
    [.] (the base, no newline in it) and then the variant pattern. The value is
    [(group(1), group(2))]. *)
Fixpoint match_variant_name (s : string) : option (string * string) :=
  match s with
  | EmptyString => None
  | String c s' =>
      if Ascii.eqb c newline then None else
      match variant_here s' with
      | Some w => Some (String c EmptyString, w)
      | None =>
          match match_variant_name s' with
          | Some (b, w) => Some (String c b, w)
          | None => None
          end
      end
  end.

End Names.

(** The table that classifies no code above 127, used to run the definitions
    on ASCII names. *)
Definition ascii_only : CodeTable :=
  {| hi_alnum := fun _ => false; hi_digit := fun _ => false |}.

(** ** Python dictionaries

    A [dict] keeps its keys in insertion order and the loops of the assembler
    run in that order: a dictionary is the list of its items. *)

Section Dict.
Context {V : Type}.

Fixpoint dict_get (k : string) (d : list (string * V)) : option V :=
  match d with
  | [] => None
  | (k', v) :: rest => if String.eqb k' k then Some v else dict_get k rest
  end.

Definition dict_mem (k : string) (d : list (string * V)) : bool :=
  match dict_get k d with Some _ => true | None => false end.

(** [d[k] = v] *)
Fixpoint dict_set (k : string) (v : V) (d : list (string * V)) : list (string * V) :=
  match d with
  | [] => [(k, v)]
  | (k', v') :: rest =>
      if String.eqb k' k then (k', v) :: rest else (k', v') :: dict_set k v rest
  end.

(** [d[k]] changed in place by [f]; nothing happens when [k] is no key. *)
Fixpoint dict_alter (f : V -> V) (k : string) (d : list (string * V)) : list (string * V) :=
  match d with
  | [] => []
  | (k', v') :: rest =>
      if String.eqb k' k then (k', f v') :: rest else (k', v') :: dict_alter f k rest
  end.

(** [d.pop(k)]: the dictionary without the key. *)
Fixpoint dict_remove (k : string) (d : list (string * V)) : list (string * V) :=
  match d with
  | [] => []
  | (k', v') :: rest =>
      if String.eqb k' k then rest else (k', v') :: dict_remove k rest
  end.

Definition dict_keys (d : list (string * V)) : list string := map fst d.

End Dict.

(** [if k not in d: d[k] = []] and then [d[k].append(x)] *)
Definition dict_append {A : Type} (k : string) (x : A) (d : list (string * list A))
  : list (string * list A) :=
  if dict_mem k d then dict_alter (fun l => l ++ [x]) k d else d ++ [(k, [x])].

(** ** Hierarchy Tree Builder ([Clone_USD_StageAssembler.py]) *)

(** The loop of [read_hierarchy_metadata] over the entries [name|parent] of the
    table, once a line is split: [hierarchy[name] = parent], where an empty
    parent field has become [None]. *)
Definition hierarchy_of_entries (entries : list (string * option string))
  : list (string * option string) :=
  fold_left (fun hierarchy e => dict_set (fst e) (snd e) hierarchy) entries [].

Record TreeNode := {
  parent : option string;
  children : list string
}.

Definition append_child (name : string) (node : TreeNode) : TreeNode :=
  {| parent := parent node; children := children node ++ [name] |}.

(** The second loop of [build_hierarchy_tree]: one step per item of the tree. *)
Definition link_child (tree : list (string * TreeNode)) (item : string * option string)
  : list (string * TreeNode) :=
  match snd item with
  | Some p =>
      if nonempty p && dict_mem p tree
      then dict_alter (append_child (fst item)) p tree
      else tree
  | None => tree
  end.

Definition build_hierarchy_tree (hierarchy_data : list (string * option string))
  : list (string * TreeNode) :=
  let tree :=
    map (fun e => (fst e, {| parent := snd e; children := [] |})) hierarchy_data in
  fold_left link_child hierarchy_data tree.

Definition get_root_nodes (hierarchy_tree : list (string * TreeNode)) : list string :=
  map fst (List.filter (fun e => match parent (snd e) with None => true | Some _ => false end)
                  hierarchy_tree).

Section Grouping.
Context {table : CodeTable}.

(** ** Variant validation and sibling groups ([Clone_USD_StageAssembler.py]) *)

Definition base_of (name : string) : string :=
  let '(b, _, _, _) := parse_name_suffixes name in b.
Definition purpose_of (name : string) : option Purpose :=
  let '(_, p, _, _) := parse_name_suffixes name in p.
Definition variant_of (name : string) : option string :=
  let '(_, _, v, _) := parse_name_suffixes name in v.
Definition payload_of (name : string) : bool :=
  let '(_, _, _, pl) := parse_name_suffixes name in pl.

(** First loop of [validate_variants]: the variant-tagged names by base. *)
Definition variant_bases (children : list string) : list (string * list string) :=
  fold_left (fun vb name =>
               if truthy (variant_of name) then dict_append (base_of name) name vb else vb)
            children [].

Definition children_of (hierarchy_tree : list (string * TreeNode)) (name : string)
  : list string :=
  match dict_get name hierarchy_tree with
  | Some node => children node
  | None => []
  end.

(** The first child of [var_name] that is itself a variant of [base]. *)
Definition nested_variant (hierarchy_tree : list (string * TreeNode)) (base var_name : string)
  : option string :=
  List.find (fun child => truthy (variant_of child) && String.eqb (base_of child) base)
       (children_of hierarchy_tree var_name).

Fixpoint first_error {A : Type} (f : A -> option string) (l : list A) : option string :=
  match l with
  | [] => None
  | x :: rest => match f x with Some e => Some e | None => first_error f rest end
  end.

(** Returns the error message, or [None] when the children are valid. *)
Definition validate_variants (children : list string)
    (hierarchy_tree : list (string * TreeNode)) : option string :=
  first_error
    (fun bv : string * list string =>
       first_error
         (fun var_name =>
            match nested_variant hierarchy_tree (fst bv) var_name with
            | Some child =>
                Some ("Invalid: Variant '" +:+ child +:+ "' cannot be under variant '"
                        +:+ var_name +:+ "'")
            | None => None
            end)
         (snd bv))
    (variant_bases children).

Record Item := {
  name : string;
  base : string;
  purpose : option Purpose;
  variant : option string;
  is_payload : bool;
  group_key : string
}.

Definition item_of (n : string) : Item :=
  let '(b, p, v, pl) := parse_name_suffixes n in
  {| name := n; base := b; purpose := p; variant := v; is_payload := pl; group_key := b |}.

Definition get_sibling_groups (children : list string) : list (string * list Item) :=
  fold_left (fun groups n => let it := item_of n in dict_append (group_key it) it groups)
            children [].

End Grouping.

(** ** Purpose buckets

    The keys of [by_purpose]: a purpose token, or ['default'] for the items
    without a purpose suffix. *)

Definition purpose_token (p : Purpose) : string :=
  match p with render => "render" | proxy => "proxy" | guide => "guide" end.

Definition bucket_key (it : Item) : string :=
  match purpose it with Some p => purpose_token p | None => "default" end.

(** [purposes & {'proxy', 'guide'}], with [purposes] the set of the purposes of
    the group. *)
Definition has_proxy_or_guide (group : list Item) : bool :=
  existsb (fun g => match purpose g with
                    | Some proxy | Some guide => true
                    | _ => false
                    end) group.

(** The first loop over the group: [by_purpose] filled item by item. *)
Definition filled (group : list Item) : list (string * list Item) :=
  fold_left (fun bp it => dict_append (bucket_key it) it bp) group [].

(** The dictionary [by_purpose] as the loop over the purpose group receives it:
    filled, then the ['default'] bucket folded into ['render'] when a proxy or a
    guide is in the group. *)
Definition by_purpose (group : list Item) : list (string * list Item) :=
  let bp := filled group in
  match dict_get "default" bp with
  | Some defaults =>
      if has_proxy_or_guide group then
        if dict_mem "render" bp
        then dict_alter (fun l => l ++ defaults) "render" (dict_remove "default" bp)
        else dict_remove "default" bp ++ [("render", defaults)]
      else bp
  | None => bp
  end.

(** What [auto_assemble_stage] builds from the entries of the table. *)
Definition tree_of_entries (entries : list (string * option string))
  : list (string * TreeNode) :=
  build_hierarchy_tree (hierarchy_of_entries entries).

(** ** Predicates of the statements *)

(** The names and parents of a tree, item by item. *)
Definition skeleton (tree : list (string * TreeNode)) : list (string * option string) :=
  map (fun e => (fst e, parent (snd e))) tree.

Fixpoint all_chars (P : ascii -> bool) (s : string) : bool :=
  match s with
  | EmptyString => true
  | String c s' => P c && all_chars P s'
  end.

Definition first_char (s : string) : option ascii :=
  match s with EmptyString => None | String c _ => Some c end.

(** [path] is [prefix] itself or lies under it; [rest] is what follows the
    prefix: nothing, or a suffix that starts with a slash. *)
Definition under_or_at (path prefix rest : string) : Prop :=
  path = prefix +:+ rest /\ (rest = "" \/ startswith rest "/" = true).

(** Rule (1) applies: a nest target is set and the path is at or under
    [strip_prefix/<name>] for a material name of the list. *)
Definition in_nested_scope (path strip_prefix : string) (nest_target : option string)
    (mtl_names : list string) : Prop :=
  exists nt m rest,
    nest_target = Some nt /\ nt <> "" /\ In m mtl_names
    /\ under_or_at path (strip_prefix +:+ "/" +:+ m) rest.

(** The replacement for the prefix itself: the replacement prefix, the
    document root when there is none. *)
Definition root_or (replacement_prefix : option string) : string :=
  match replacement_prefix with
  | Some rp => if nonempty rp then rp else "/"
  | None => "/"
  end.

(** The prefix put before a suffix that starts with a slash. *)
Definition prefix_of_replacement (replacement_prefix : option string) : string :=
  match replacement_prefix with
  | Some rp => rstrip_slash rp
  | None => ""
  end.

(** An entry after the loop: the remapped path, or the entry itself. *)
Definition entry_after (strip_prefix : string) (nest_target : option string)
    (mtl_names : list string) (replacement_prefix : option string) (t : string) : string :=
  match _remap_path_str t strip_prefix nest_target mtl_names replacement_prefix with
  | Some new_str => new_str
  | None => t
  end.

(** A replacement prefix that keeps an absolute path absolute: none, the empty
    string, or one that starts with a slash. Both callers pass such a prefix
    (none after a strip, [/root] after a flatten). *)
Definition absolute_replacement (replacement_prefix : option string) : Prop :=
  match replacement_prefix with
  | None => True
  | Some rp => rp = "" \/ startswith rp "/" = true
  end.


Definition purpose_eqb (p q : Purpose) : bool :=
  match p, q with
  | render, render | proxy, proxy | guide, guide => true
  | _, _ => false
  end.

Definition purpose_items (p : Purpose) (group : list Item) : list Item :=
  List.filter (fun it => match purpose it with Some q => purpose_eqb q p | None => false end)
              group.

(** What a bucket holds: [None] when the key is absent. *)
Definition bucket_of (items : list Item) : option (list Item) :=
  match items with [] => None | _ => Some items end.

(** A character a prim name may hold: alphanumeric or underscore. *)
Definition name_char {table : CodeTable} (c : ascii) : bool :=
  isalnum c || Ascii.eqb c underscore.

(** The entries of a hierarchy whose parent is null, in order. *)
Definition null_parent_names (hierarchy_data : list (string * option string)) : list string :=
  map fst (List.filter (fun e => match snd e with None => true | Some _ => false end)
                       hierarchy_data).

(** ** The naming grammar

    [BaseName_VARIANT*_PURPOSE_PAYLOAD], as the docstring of
    [parse_name_suffixes] writes it: a stem and, each optional and in this
    order, a variant marker with its tag, a purpose marker, the payload
    marker. *)

Definition variant_suffix (v : option string) : string :=
  match v with Some tag => "_VARIANT" +:+ tag | None => "" end.

Definition purpose_suffix (p : option Purpose) : string :=
  match p with
  | Some render => "_RENDER"
  | Some proxy => "_PROXY"
  | Some guide => "_GUIDE"
  | None => ""
  end.

Definition payload_suffix (pl : bool) : string :=
  if pl then "_PAYLOAD" else "".

Definition grammar_name (stem : string) (v : option string) (p : option Purpose)
    (pl : bool) : string :=
  ((stem +:+ variant_suffix v) +:+ purpose_suffix p) +:+ payload_suffix pl.

(** The variant the parser reports for a tag: the tag, ["1"] when it is empty. *)
Definition variant_value (v : option string) : option string :=
  match v with
  | Some tag => Some (if nonempty tag then tag else "1")
  | None => None
  end.

Section GrammarPredicates.
Context {table : CodeTable}.

(** No suffix of the string is matched by one of the three patterns: the
    string ends in no marker. *)
Definition marker_free (s : string) : Prop :=
  re_search payload_here s = None
  /\ re_search purpose_here s = None
  /\ re_search variant_here s = None.

(** A tag of the grammar: alphanumeric characters only. *)
Definition alnum_tag (v : option string) : Prop :=
  match v with Some tag => all_chars isalnum tag = true | None => True end.

End GrammarPredicates.

(** ** The assembled stage ([Clone_USD_StageAssembler.py])

    What [auto_assemble_stage] authors: prims by path, each with its type, its
    kind, its instanceable flag, its purpose, its reference and payload arcs
    and its variant set [modelVariant]. An [Sdf.Path] is the list of its
    names, [[]] the pseudo-root; [AppendChild] puts a name at the end. The
    functions of this part take every call of the library to return; the
    calls that raise, and the run that ends at the first of them, come after
    the assembler. *)

Abbreviation Path := (list string).

Record Arc := {
  arc_is_payload : bool;
  arc_asset : string
}.

(** A variant set: the names of its variants in the order they were added,
    what was authored inside each variant, and the selection. *)
Record VariantSet (A : Type) := {
  variant_names : list string;
  variant_content : list (string * A);
  variant_selection : option string
}.

Arguments variant_names {A} _.
Arguments variant_content {A} _.
Arguments variant_selection {A} _.

Record Prim := {
  type_name : string;
  kind : option string;
  instanceable : bool;
  purpose_attr : option Purpose;
  arcs : list Arc;
  variant_set : option (VariantSet Arc)
}.

Definition empty_prim : Prim :=
  {| type_name := ""; kind := None; instanceable := false; purpose_attr := None;
     arcs := []; variant_set := None |}.

Definition empty_variant_set {A : Type} : VariantSet A :=
  {| variant_names := []; variant_content := []; variant_selection := None |}.

(** [AddVariant]: a name the set has already is not added again. *)
Definition AddVariant {A : Type} (n : string) (vs : VariantSet A) : VariantSet A :=
  if existsb (String.eqb n) (variant_names vs) then vs
  else {| variant_names := variant_names vs ++ [n];
          variant_content := variant_content vs;
          variant_selection := variant_selection vs |}.

Definition SetVariantSelection {A : Type} (n : string) (vs : VariantSet A) : VariantSet A :=
  {| variant_names := variant_names vs;
     variant_content := variant_content vs;
     variant_selection := Some n |}.

(** An arc authored under [GetVariantEditContext]: it goes into the selected
    variant. *)
Definition add_arc_in_variant (a : Arc) (vs : VariantSet Arc) : VariantSet Arc :=
  match variant_selection vs with
  | Some sel =>
      {| variant_names := variant_names vs;
         variant_content := variant_content vs ++ [(sel, a)];
         variant_selection := variant_selection vs |}
  | None => vs
  end.

Definition set_type (t : string) (p : Prim) : Prim :=
  {| type_name := t; kind := kind p; instanceable := instanceable p;
     purpose_attr := purpose_attr p; arcs := arcs p; variant_set := variant_set p |}.

Definition SetKind (k : string) (p : Prim) : Prim :=
  {| type_name := type_name p; kind := Some k; instanceable := instanceable p;
     purpose_attr := purpose_attr p; arcs := arcs p; variant_set := variant_set p |}.

Definition SetInstanceable (b : bool) (p : Prim) : Prim :=
  {| type_name := type_name p; kind := kind p; instanceable := b;
     purpose_attr := purpose_attr p; arcs := arcs p; variant_set := variant_set p |}.

Definition CreatePurposeAttr (q : Purpose) (p : Prim) : Prim :=
  {| type_name := type_name p; kind := kind p; instanceable := instanceable p;
     purpose_attr := Some q; arcs := arcs p; variant_set := variant_set p |}.

Definition add_arc (a : Arc) (p : Prim) : Prim :=
  {| type_name := type_name p; kind := kind p; instanceable := instanceable p;
     purpose_attr := purpose_attr p; arcs := arcs p ++ [a]; variant_set := variant_set p |}.

(** [GetVariantSets().AddVariantSet("modelVariant")]: the set the prim has, or
    a new empty one. *)
Definition AddVariantSet (p : Prim) : Prim :=
  {| type_name := type_name p; kind := kind p; instanceable := instanceable p;
     purpose_attr := purpose_attr p; arcs := arcs p;
     variant_set := Some (match variant_set p with
                          | Some vs => vs
                          | None => empty_variant_set
                          end) |}.

Definition on_variant_set (f : VariantSet Arc -> VariantSet Arc) (p : Prim) : Prim :=
  {| type_name := type_name p; kind := kind p; instanceable := instanceable p;
     purpose_attr := purpose_attr p; arcs := arcs p;
     variant_set := option_map f (variant_set p) |}.

(** The paths from the first name down to the path itself. *)
Fixpoint prefixes (p : Path) : list Path :=
  match p with
  | [] => []
  | x :: rest => [x] :: map (cons x) (prefixes rest)
  end.

Definition ensure_prim (stage : gmap Path Prim) (p : Path) : gmap Path Prim :=
  match stage !! p with
  | Some _ => stage
  | None => <[p := empty_prim]> stage
  end.

(** [stage.DefinePrim(path)] when it returns: the prim and the ancestors it
    lacks; a prim that is there stays as it is. *)
Definition DefinePrim (p : Path) (stage : gmap Path Prim) : gmap Path Prim :=
  fold_left ensure_prim (prefixes p) stage.

(** [UsdGeom.Xform.Define(stage, path)] *)
Definition XformDefine (p : Path) (stage : gmap Path Prim) : gmap Path Prim :=
  alter (set_type "Xform") p (DefinePrim p stage).

(** The prims authored directly under [p]. *)
Definition authored_children (stage : gmap Path Prim) (p : Path) : list Path :=
  List.filter (fun q => bool_decide (removelast q = p) && negb (bool_decide (q = [])))
              (map fst (map_to_list stage)).

(** What [read_prim_custom_data] reads of a source document, with the path
    [get_relative_path] gives for it. *)
Record SourceDoc := {
  ref_path : string;
  use_payload : bool;
  src_instanceable : option bool;
  src_kind : option string
}.

(** The state of one run: the stage, [created_prims], the default prim of the
    stage, and the messages about skipped flags and errors. [file_custom_data]
    is written and never read, and is left out with the other messages. *)
Record Assembly := {
  stage : gmap Path Prim;
  created_prims : gmap string Path;
  default_prim : option Path;
  messages : list string
}.

Definition on_stage (f : gmap Path Prim -> gmap Path Prim) (st : Assembly) : Assembly :=
  {| stage := f (stage st); created_prims := created_prims st;
     default_prim := default_prim st; messages := messages st |}.

Definition set_created (n : string) (p : Path) (st : Assembly) : Assembly :=
  {| stage := stage st; created_prims := <[n := p]> (created_prims st);
     default_prim := default_prim st; messages := messages st |}.

Definition say (m : string) (st : Assembly) : Assembly :=
  {| stage := stage st; created_prims := created_prims st;
     default_prim := default_prim st; messages := messages st ++ [m] |}.

Definition path_text (p : Path) : string :=
  fold_left (fun acc n => acc +:+ "/" +:+ n) p "".

Definition apply_prim_properties (prim : Path) (props : SourceDoc) (has_children : bool)
    (st : Assembly) : bool * Assembly :=
  match stage st !! prim with
  | None => (false, st)
  | Some _ =>
      let st :=
        if truthy (src_kind props)
        then on_stage (alter (SetKind (default "" (src_kind props))) prim) st
        else st in
      match src_instanceable props with
      | Some true =>
          if has_children
          then (false, say ("Skipping Instanceable on " +:+ path_text prim
                              +:+ " (has children in hierarchy)") st)
          else (true, on_stage (alter (SetInstanceable true) prim) st)
      | _ => (false, st)
      end
  end.

Definition arc_of (props : SourceDoc) (payload : bool) : Arc :=
  {| arc_is_payload := payload; arc_asset := ref_path props |}.

Definition add_reference_to_parent (parent_path : Path) (usd_file : SourceDoc)
    (expected_name : string) (payload : bool) (st : Assembly) : Path * Assembly :=
  let prim_path := parent_path ++ [expected_name] in
  (prim_path,
   on_stage (fun s => alter (add_arc (arc_of usd_file payload)) prim_path
                        (DefinePrim prim_path s)) st).

(** One more step of a loop that may run out of fuel. *)
Fixpoint fold_option {A S : Type} (f : A -> S -> option S) (l : list A) (s : S) : option S :=
  match l with
  | [] => Some s
  | x :: rest =>
      match f x s with
      | Some s' => fold_option f rest s'
      | None => None
      end
  end.

(** ** Composition Assembler ([Clone_USD_StageAssembler.py])

    The hierarchy branch of [auto_assemble_stage]. The files of the export
    directory are the dictionary [files]: [find_usd_file] and
    [read_prim_custom_data] look a name up in it. *)

Section Assembler.
Context {table : CodeTable} {spaces : SpaceTable}.
Variable files : list (string * SourceDoc).
Variable hierarchy_tree : list (string * TreeNode).

Definition find_usd_file (n : string) : option SourceDoc := dict_get n files.

(** [item['variant'] if item['variant'] else "default"] *)
Definition var_name_of (it : Item) : string :=
  match variant it with
  | Some w => if nonempty w then w else "default"
  | None => "default"
  end.

Definition tagged (it : Item) : bool := truthy (variant it).

(** The body of the loop [for item in group] (and [for item in purpose_items])
    that fills a variant set on [prim]. *)
Definition add_variant_item (prim : Path) (st : Assembly) (it : Item) : Assembly :=
  match find_usd_file (name it) with
  | None => st
  | Some item_props =>
      let var_name := var_name_of it in
      let st :=
        on_stage (alter (on_variant_set
                           (fun vs => SetVariantSelection var_name (AddVariant var_name vs)))
                        prim) st in
      let payload := use_payload item_props || is_payload it in
      let st :=
        on_stage (alter (on_variant_set (add_arc_in_variant (arc_of item_props payload)))
                        prim) st in
      let st := snd (apply_prim_properties prim item_props false st) in
      set_created (name it) prim st
  end.

(** The selection that ends a variant set: ["default"] when a member has no
    tag, else the tag of the first tagged member. *)
Definition select_default (prim : Path) (items variants : list Item) (st : Assembly)
  : Assembly :=
  match List.find (fun it => negb (tagged it)) items, variants with
  | Some _, _ =>
      on_stage (alter (on_variant_set (SetVariantSelection "default")) prim) st
  | None, v :: _ =>
      on_stage (alter (on_variant_set (SetVariantSelection (default "" (variant v)))) prim) st
  | None, [] => st
  end.

Definition fill_variant_set (prim : Path) (items variants : list Item) (st : Assembly)
  : Assembly :=
  select_default prim items variants (fold_left (add_variant_item prim) items st).

Definition purpose_of_bucket (purpose_name : string) : option Purpose :=
  if String.eqb purpose_name "render" then Some render
  else if String.eqb purpose_name "proxy" then Some proxy
  else if String.eqb purpose_name "guide" then Some guide
  else None.

(** [if purpose_name in ['render', 'proxy', 'guide']: CreatePurposeAttr] *)
Definition stamp_purpose (prim : Path) (purpose_name : string) (st : Assembly) : Assembly :=
  match purpose_of_bucket purpose_name with
  | Some q => on_stage (alter (CreatePurposeAttr q) prim) st
  | None => st
  end.

(** The body of [for purpose_name, purpose_items in by_purpose.items()]. *)
Definition process_bucket (group_prim_path : Path) (st : Assembly)
    (bucket : string * list Item) : Assembly :=
  let purpose_name := fst bucket in
  let purpose_items := snd bucket in
  let purpose_variants := List.filter tagged purpose_items in
  let purpose_prim_path := group_prim_path ++ [purpose_name] in
  if (1 <? length purpose_variants)
     || ((length purpose_variants =? 1) && (1 <? length purpose_items))
  then
    let st :=
      on_stage (fun s => alter AddVariantSet purpose_prim_path
                           (DefinePrim purpose_prim_path s)) st in
    let st := stamp_purpose purpose_prim_path purpose_name st in
    fill_variant_set purpose_prim_path purpose_items purpose_variants st
  else
    match purpose_items with
    | [item] =>
        match find_usd_file (name item) with
        | Some item_props =>
            let payload := use_payload item_props || is_payload item in
            let st :=
              on_stage (fun s => alter (add_arc (arc_of item_props payload))
                                   purpose_prim_path (DefinePrim purpose_prim_path s)) st in
            let st := stamp_purpose purpose_prim_path purpose_name st in
            let st := snd (apply_prim_properties purpose_prim_path item_props false st) in
            set_created (name item) purpose_prim_path st
        | None => st
        end
    | _ => st
    end.

Definition has_purposes (group : list Item) : bool :=
  existsb (fun g => match purpose g with Some _ => true | None => false end) group.

(** The body of [for group_key, group in sibling_groups.items()], with the
    recursive call as [rec]. *)
Definition process_group (rec : string -> Path -> Assembly -> option Assembly)
    (prim_path : Path) (g : string * list Item) (st : Assembly) : option Assembly :=
  let group_key := fst g in
  let group := snd g in
  let variants := List.filter tagged group in
  let has_variants := 0 <? length variants in
  let group_prim_path := prim_path ++ [make_valid_prim_name group_key] in
  match group with
  | [single] =>
      if negb (has_purposes group) && negb has_variants
      then rec (name single) prim_path st
      else if has_purposes group then
        let st := on_stage (XformDefine group_prim_path) st in
        let st := set_created group_key group_prim_path st in
        Some (fold_left (process_bucket group_prim_path) (by_purpose group) st)
      else
        let st :=
          on_stage (fun s => alter AddVariantSet group_prim_path
                               (DefinePrim group_prim_path s)) st in
        let st := fill_variant_set group_prim_path group variants st in
        fold_option
          (fun item st =>
             fold_option (fun child st => rec child group_prim_path st)
                         (children_of hierarchy_tree (name item)) st)
          group st
  | _ =>
      if has_purposes group then
        let st := on_stage (XformDefine group_prim_path) st in
        let st := set_created group_key group_prim_path st in
        Some (fold_left (process_bucket group_prim_path) (by_purpose group) st)
      else if has_variants then
        let st :=
          on_stage (fun s => alter AddVariantSet group_prim_path
                               (DefinePrim group_prim_path s)) st in
        let st := fill_variant_set group_prim_path group variants st in
        fold_option
          (fun item st =>
             fold_option (fun child st => rec child group_prim_path st)
                         (children_of hierarchy_tree (name item)) st)
          group st
      else
        fold_option (fun item st => rec (name item) prim_path st) group st
  end.

(** The first half of [create_prim_recursive]: the prim of the name itself, a
    reference (or payload) to its document with the properties read from it,
    or an Xform when no document is found. Returns the path, the state and
    [is_instanceable]. *)
Definition create_node (n : string) (parent_path : Path) (st : Assembly)
  : Path * Assembly * bool :=
  let has_children :=
    match children_of hierarchy_tree n with [] => false | _ :: _ => true end in
  match find_usd_file n with
  | Some props =>
      let payload := use_payload props || payload_of n in
      let '(prim_path, st) := add_reference_to_parent parent_path props n payload st in
      let '(is_instanceable, st) :=
        apply_prim_properties prim_path props has_children st in
      let st :=
        match purpose_of n with
        | Some q => on_stage (alter (CreatePurposeAttr q) prim_path) st
        | None => st
        end in
      (prim_path, st, is_instanceable)
  | None =>
      let prim_path := parent_path ++ [make_valid_prim_name n] in
      (prim_path, on_stage (XformDefine prim_path) st, false)
  end.

(** [create_prim_recursive]; [None] when the fuel does not reach the leaves. *)
Fixpoint create_prim_recursive (fuel : nat) (n : string) (parent_path : Path)
    (st : Assembly) : option Assembly :=
  match fuel with
  | O => None
  | S fuel' =>
      let '(prim_path, st, is_instanceable) := create_node n parent_path st in
      let st := set_created n prim_path st in
      if is_instanceable then Some st
      else if dict_mem n hierarchy_tree then
        let children := children_of hierarchy_tree n in
        match validate_variants children hierarchy_tree with
        | Some error => Some (say ("  ERROR: " +:+ error) st)
        | None =>
            fold_option (process_group (create_prim_recursive fuel') prim_path)
                        (get_sibling_groups children) st
        end
      else Some st
  end.

(** [configured_default_prim]: the sanitized name, when a name is given and
    is not blank ([if default_prim_name and str(default_prim_name).strip()]). *)
Definition configured_default_prim (default_prim_name : option string) : option string :=
  match default_prim_name with
  | Some d =>
      if nonempty d && nonempty (strip d)
      then Some (make_valid_prim_name (strip d))
      else None
  | None => None
  end.

(** The stage before the first prim: empty, or with the configured default
    prim as an Xform of kind assembly. *)
Definition initial_assembly (default_prim_name : option string) : Path * Assembly :=
  let empty :=
    {| stage := ∅; created_prims := ∅; default_prim := None; messages := [] |} in
  match configured_default_prim default_prim_name with
  | Some configured =>
      let root := [configured] in
      (root,
       {| stage := alter (SetKind "assembly") root (XformDefine root ∅);
          created_prims := ∅; default_prim := Some root; messages := [] |})
  | None => ([], empty)
  end.

(** The loop over the roots; the first root that was created becomes the
    default prim when none is configured. *)
Definition assemble_root (fuel : nat) (assembly_root_path : Path) (configured : bool)
    (root_name : string) (acc : Assembly * bool) : option (Assembly * bool) :=
  match create_prim_recursive fuel root_name assembly_root_path (fst acc) with
  | None => None
  | Some st =>
      match created_prims st !! root_name with
      | Some p =>
          if negb configured && negb (snd acc)
          then Some ({| stage := stage st; created_prims := created_prims st;
                        default_prim := match stage st !! p with
                                        | Some _ => Some p
                                        | None => default_prim st
                                        end;
                        messages := messages st |}, true)
          else Some (st, snd acc)
      | None => Some (st, snd acc)
      end
  end.

Definition assemble_hierarchy (fuel : nat) (default_prim_name : option string)
  : option Assembly :=
  let '(assembly_root_path, st) := initial_assembly default_prim_name in
  let configured :=
    match configured_default_prim default_prim_name with
    | Some _ => true
    | None => false
    end in
  match fold_option (assemble_root fuel assembly_root_path configured)
                    (get_root_nodes hierarchy_tree) (st, false) with
  | Some (st, _) => Some st
  | None => None
  end.

End Assembler.

(** ** The calls of the assembler that raise ([Clone_USD_StageAssembler.py])

    The definitions above take every call of the library to return.
    [stage.DefinePrim] and [UsdGeom.Xform.Define] do not always: they raise
    when the path is no prim path (a name that [AppendChild] refuses gives the
    empty path) and when it lies under an instance, and
    [auto_assemble_stage] catches nothing, so the run ends at the call and no
    stage is exported. The checked functions below are the functions above
    with that test in front of each of these calls; [Raised] carries the state
    the call found. A name is an identifier of the library by the ASCII rule;
    what holds of a code above 127 is a parameter. A prim is an instance when
    it is instanceable and composes a reference or a payload, its own or one
    of the selected variant. *)

Class IdentifierTable := {
  hi_id_start : ascii -> bool;
  hi_id_continue : ascii -> bool
}.

(** The table of a library with ASCII identifiers only. *)
Definition ascii_identifiers : IdentifierTable :=
  {| hi_id_start := fun _ => false; hi_id_continue := fun _ => false |}.

Inductive Run (A : Type) :=
  | Returned (a : A) (st : Assembly)
  | Raised (st : Assembly).

Arguments Returned {A} _ _.
Arguments Raised {A} _.

(** A loop whose body may raise or run out of fuel. *)
Fixpoint fold_run {A : Type} (f : A -> Assembly -> option (Run unit)) (l : list A)
    (st : Assembly) : option (Run unit) :=
  match l with
  | [] => Some (Returned tt st)
  | x :: rest =>
      match f x st with
      | Some (Returned _ st') => fold_run f rest st'
      | Some (Raised st') => Some (Raised st')
      | None => None
      end
  end.

Section CheckedAssembler.
Context {table : CodeTable} {spaces : SpaceTable} {ids : IdentifierTable}.
Variable files : list (string * SourceDoc).
Variable hierarchy_tree : list (string * TreeNode).

Definition id_start (c : ascii) : bool :=
  if is_ascii c then is_upper c || is_lower c || Ascii.eqb c underscore
  else hi_id_start c.

Definition id_continue (c : ascii) : bool :=
  if is_ascii c then is_upper c || is_lower c || is_dec c || Ascii.eqb c underscore
  else hi_id_continue c.

(** [Sdf.Path.IsValidIdentifier] *)
Definition IsValidIdentifier (n : string) : bool :=
  match n with
  | EmptyString => false
  | String c rest => id_start c && all_chars id_continue rest
  end.

Definition composes_arc (p : Prim) : bool :=
  match arcs p with
  | _ :: _ => true
  | [] =>
      match variant_set p with
      | Some vs =>
          match variant_selection vs with
          | Some sel => existsb (fun e => String.eqb (fst e) sel) (variant_content vs)
          | None => false
          end
      | None => false
      end
  end.

(** [prim.IsInstance()] *)
Definition IsInstance (p : Prim) : bool := instanceable p && composes_arc p.

(** A prim above [p] is an instance. *)
Definition under_instance (p : Path) (stage : gmap Path Prim) : bool :=
  existsb (fun q => match stage !! q with
                    | Some prim => IsInstance prim
                    | None => false
                    end)
          (removelast (prefixes p)).

(** [stage.DefinePrim(p)] raises (and so does [UsdGeom.Xform.Define]). *)
Definition define_raises (p : Path) (stage : gmap Path Prim) : bool :=
  negb (forallb IsValidIdentifier p) || under_instance p stage.

Definition checked_define {A : Type} (p : Path) (st : Assembly) (k : Run A) : Run A :=
  if define_raises p (stage st) then Raised st else k.

(** [create_node] with the call of line 377 (or line 437) checked. *)
Definition create_node_checked (n : string) (parent_path : Path) (st : Assembly)
  : Run (Path * bool) :=
  let prim_path :=
    match find_usd_file files n with
    | Some _ => parent_path ++ [n]
    | None => parent_path ++ [make_valid_prim_name n]
    end in
  checked_define prim_path st
    (let '(prim_path, st, is_instanceable) :=
       create_node files hierarchy_tree n parent_path st in
     Returned (prim_path, is_instanceable) st).

(** [process_bucket] with the calls of lines 503 and 559 checked. *)
Definition process_bucket_checked (group_prim_path : Path) (bucket : string * list Item)
    (st : Assembly) : option (Run unit) :=
  let purpose_name := fst bucket in
  let purpose_items := snd bucket in
  let purpose_variants := List.filter tagged purpose_items in
  let purpose_prim_path := group_prim_path ++ [purpose_name] in
  if (1 <? length purpose_variants)
     || ((length purpose_variants =? 1) && (1 <? length purpose_items))
  then
    Some (checked_define purpose_prim_path st
            (Returned tt (process_bucket files group_prim_path st bucket)))
  else
    match purpose_items with
    | [item] =>
        match find_usd_file files (name item) with
        | Some _ =>
            Some (checked_define purpose_prim_path st
                    (Returned tt (process_bucket files group_prim_path st bucket)))
        | None => Some (Returned tt st)
        end
    | _ => Some (Returned tt st)
    end.

(** [process_group] with the calls of lines 474 and 584 checked. *)
Definition process_group_checked (rec : string -> Path -> Assembly -> option (Run unit))
    (prim_path : Path) (g : string * list Item) (st : Assembly) : option (Run unit) :=
  let group_key := fst g in
  let group := snd g in
  let variants := List.filter tagged group in
  let has_variants := 0 <? length variants in
  let group_prim_path := prim_path ++ [make_valid_prim_name group_key] in
  let grouped :=
    if has_purposes group then
      match checked_define group_prim_path st
              (Returned tt (set_created group_key group_prim_path
                              (on_stage (XformDefine group_prim_path) st))) with
      | Returned _ st =>
          fold_run (process_bucket_checked group_prim_path) (by_purpose group) st
      | Raised st => Some (Raised st)
      end
    else if has_variants then
      match checked_define group_prim_path st
              (Returned tt
                 (fill_variant_set files group_prim_path group variants
                    (on_stage (fun s => alter AddVariantSet group_prim_path
                                          (DefinePrim group_prim_path s)) st))) with
      | Returned _ st =>
          fold_run
            (fun item st =>
               fold_run (fun child st => rec child group_prim_path st)
                        (children_of hierarchy_tree (name item)) st)
            group st
      | Raised st => Some (Raised st)
      end
    else fold_run (fun item st => rec (name item) prim_path st) group st in
  match group with
  | [single] =>
      if negb (has_purposes group) && negb has_variants
      then match rec (name single) prim_path st with
           | Some (Returned _ st) => Some (Returned tt st)
           | r => r
           end
      else grouped
  | _ => grouped
  end.

(** [create_prim_recursive], checked; [None] when the fuel does not reach the
    leaves. *)
Fixpoint create_prim_recursive_checked (fuel : nat) (n : string) (parent_path : Path)
    (st : Assembly) : option (Run unit) :=
  match fuel with
  | O => None
  | S fuel' =>
      match create_node_checked n parent_path st with
      | Raised st => Some (Raised st)
      | Returned (prim_path, is_instanceable) st =>
          let st := set_created n prim_path st in
          if is_instanceable then Some (Returned tt st)
          else if dict_mem n hierarchy_tree then
            let children := children_of hierarchy_tree n in
            match validate_variants children hierarchy_tree with
            | Some error => Some (Returned tt (say ("  ERROR: " +:+ error) st))
            | None =>
                fold_run (process_group_checked (create_prim_recursive_checked fuel')
                                                prim_path)
                         (get_sibling_groups children) st
            end
          else Some (Returned tt st)
      end
  end.

(** The loop over the roots, checked; [first_prim] tells whether the default
    prim has been set by the loop. *)
Fixpoint assemble_roots_checked (fuel : nat) (assembly_root_path : Path)
    (configured : bool) (root_nodes : list string) (first_prim : bool) (st : Assembly)
  : option (Run unit) :=
  match root_nodes with
  | [] => Some (Returned tt st)
  | root_name :: rest =>
      match create_prim_recursive_checked fuel root_name assembly_root_path st with
      | Some (Returned _ st) =>
          match created_prims st !! root_name with
          | Some p =>
              if negb configured && negb first_prim
              then assemble_roots_checked fuel assembly_root_path configured rest true
                     {| stage := stage st; created_prims := created_prims st;
                        default_prim := match stage st !! p with
                                        | Some _ => Some p
                                        | None => default_prim st
                                        end;
                        messages := messages st |}
              else assemble_roots_checked fuel assembly_root_path configured rest
                     first_prim st
          | None =>
              assemble_roots_checked fuel assembly_root_path configured rest first_prim st
          end
      | Some (Raised st) => Some (Raised st)
      | None => None
      end
  end.

(** The hierarchy branch of [auto_assemble_stage], checked, from the call of
    line 335 on. *)
Definition assemble_hierarchy_checked (fuel : nat) (default_prim_name : option string)
  : option (Run unit) :=
  let '(assembly_root_path, st) := initial_assembly default_prim_name in
  let empty :=
    {| stage := ∅; created_prims := ∅; default_prim := None; messages := [] |} in
  match configured_default_prim default_prim_name with
  | Some configured =>
      match checked_define [configured] empty (Returned tt st) with
      | Returned _ st =>
          assemble_roots_checked fuel assembly_root_path true
            (get_root_nodes hierarchy_tree) false st
      | Raised st => Some (Raised st)
      end
  | None =>
      assemble_roots_checked fuel assembly_root_path false
        (get_root_nodes hierarchy_tree) false st
  end.

End CheckedAssembler.

(** ** Inputs of the statements about the assembler *)

Definition plain_doc (path : string) : SourceDoc :=
  {| ref_path := path; use_payload := false; src_instanceable := None; src_kind := None |}.

Definition instanceable_doc (path : string) : SourceDoc :=
  {| ref_path := path; use_payload := false; src_instanceable := Some true;
     src_kind := None |}.

(** A chair in two variants under [Root]; the first variant has a child [Leg]
    in the hierarchy and its document is instanceable. *)
Definition chair_files : list (string * SourceDoc) :=
  [("Root", plain_doc "Root.usd");
   ("Chair_VARIANT1", instanceable_doc "Chair_VARIANT1.usd");
   ("Chair_VARIANT2", plain_doc "Chair_VARIANT2.usd");
   ("Leg", plain_doc "Leg.usd")].

Definition chair_entries : list (string * option string) :=
  [("Root", None);
   ("Chair_VARIANT1", Some "Root");
   ("Chair_VARIANT2", Some "Root");
   ("Leg", Some "Chair_VARIANT1")].

(** A chair in two variants and a table under [Root]; a third variant of the
    chair is a child of the first. *)
Definition nested_files : list (string * SourceDoc) :=
  [("Root", plain_doc "Root.usd");
   ("Chair_VARIANT1", plain_doc "Chair_VARIANT1.usd");
   ("Chair_VARIANT2", plain_doc "Chair_VARIANT2.usd");
   ("Table", plain_doc "Table.usd");
   ("Chair_VARIANT3", plain_doc "Chair_VARIANT3.usd")].

Definition nested_entries : list (string * option string) :=
  [("Root", None);
   ("Chair_VARIANT1", Some "Root");
   ("Chair_VARIANT2", Some "Root");
   ("Table", Some "Root");
   ("Chair_VARIANT3", Some "Chair_VARIANT1")].

(** The same with the third variant one level further down, under a seat. *)
Definition deep_entries : list (string * option string) :=
  [("Root", None);
   ("Chair_VARIANT1", Some "Root");
   ("Chair_VARIANT2", Some "Root");
   ("Seat", Some "Chair_VARIANT1");
   ("Chair_VARIANT3", Some "Seat")].

Definition instanceable_at (st : Assembly) (p : Path) : option bool :=
  option_map instanceable (stage st !! p).

(** A variant-tagged name of the children list with a direct child in the
    hierarchy that is variant-tagged and has the same base name. *)
Definition illegal_nesting {table : CodeTable} (children : list string)
    (hierarchy_tree : list (string * TreeNode)) : Prop :=
  exists var_name child,
    In var_name children /\ truthy (variant_of var_name) = true
    /\ In child (children_of hierarchy_tree var_name)
    /\ truthy (variant_of child) = true
    /\ base_of child = base_of var_name.

(** ** Variant Restructurer ([Clone_USD_PropertiesChaser.py])

    The root layer as [_process_variants] sees it: the prim specs by path, in
    the order of [stage.Traverse()], and the variant set [modelVariant] of the
    prims that have one. What [Sdf.CopySpec] puts into a variant is recorded
    by the name it gets there and the path it was copied from. *)

Record CopiedSpec := {
  copy_name : string;
  copy_source : Path
}.

Record Layer := {
  layer_specs : list Path;
  layer_variant_sets : gmap Path (VariantSet CopiedSpec)
}.

Definition has_spec (l : Layer) (p : Path) : bool :=
  existsb (fun q => bool_decide (q = p)) (layer_specs l).

(** [q] is [p] or a path below it. *)
Fixpoint is_under (p q : Path) : bool :=
  match p, q with
  | [], _ => true
  | x :: p', y :: q' => String.eqb x y && is_under p' q'
  | _ :: _, [] => false
  end.

(** [stage.RemovePrim(p)]: the spec and everything below it. *)
Definition RemovePrim (p : Path) (l : Layer) : Layer :=
  {| layer_specs := List.filter (fun q => negb (is_under p q)) (layer_specs l);
     layer_variant_sets :=
       filter (fun kv => is_under p (fst kv) = false) (layer_variant_sets l) |}.

Definition on_layer_set (f : VariantSet CopiedSpec -> VariantSet CopiedSpec) (p : Path)
    (l : Layer) : Layer :=
  {| layer_specs := layer_specs l;
     layer_variant_sets := alter f p (layer_variant_sets l) |}.

(** [parent_prim.GetVariantSets().AddVariantSet("modelVariant")] *)
Definition layer_add_variant_set (p : Path) (l : Layer) : Layer :=
  {| layer_specs := layer_specs l;
     layer_variant_sets :=
       match layer_variant_sets l !! p with
       | Some _ => layer_variant_sets l
       | None => <[p := empty_variant_set]> (layer_variant_sets l)
       end |}.

(** A spec copied to [var_name]/[copy_name c] replaces what was copied there
    before. *)
Definition put_copy (var_name : string) (c : CopiedSpec) (vs : VariantSet CopiedSpec)
  : VariantSet CopiedSpec :=
  {| variant_names := variant_names vs;
     variant_content :=
       List.filter (fun e => negb (String.eqb (fst e) var_name
                                   && String.eqb (copy_name (snd e)) (copy_name c)))
                   (variant_content vs)
       ++ [(var_name, c)];
     variant_selection := variant_selection vs |}.

(** [Sdf.CopySpec(layer, child_path, layer, dst_path)] with [dst_path] the
    child [base_name] of the variant [var_name] of [parent]; nothing is copied
    when the source has no spec. *)
Definition CopySpec (child_path parent : Path) (var_name base_name : string) (l : Layer)
  : Layer :=
  if has_spec l child_path
  then on_layer_set (put_copy var_name {| copy_name := base_name;
                                          copy_source := child_path |}) parent l
  else l.

(** [if key not in variant_groups: variant_groups[key] = []] and the append,
    for the keys [(parent path, base name)]. *)
Fixpoint group_append {A : Type} (k : Path * string) (x : A)
    (d : list ((Path * string) * list A)) : list ((Path * string) * list A) :=
  match d with
  | [] => [(k, [x])]
  | (k', l) :: rest =>
      if bool_decide (k' = k) then (k', l ++ [x]) :: rest
      else (k', l) :: group_append k x rest
  end.

Section Restructurer.
Context {table : CodeTable}.

(** The first loop of [_process_variants]: the prims whose name carries a
    variant marker, by parent and base name. The prims directly under the
    pseudo-root are left out. *)
Definition collect_variant_groups (prims : list Path)
  : list ((Path * string) * list (string * Path)) :=
  fold_left
    (fun groups prim =>
       match match_variant_name (List.last prim "") with
       | None => groups
       | Some (base_name, tag) =>
           match removelast prim with
           | [] => groups
           | parent_path =>
               group_append (parent_path, base_name)
                            (if nonempty tag then tag else "1", prim) groups
           end
       end)
    prims [].

(** The body of the second loop, for one group. *)
Definition process_variant_group (l : Layer)
    (g : (Path * string) * list (string * Path)) : Layer :=
  let parent_path := fst (fst g) in
  let base_name := snd (fst g) in
  let variants := snd g in
  if length variants <? 2 then l
  else if negb (has_spec l parent_path) then l
  else
    let l := layer_add_variant_set parent_path l in
    let l :=
      fold_left
        (fun l v =>
           CopySpec (snd v) parent_path (fst v) base_name
                    (on_layer_set (AddVariant (fst v)) parent_path l))
        variants l in
    let l := fold_left (fun l v => RemovePrim (snd v) l) variants l in
    match variants with
    | first :: _ => on_layer_set (SetVariantSelection (fst first)) parent_path l
    | [] => l
    end.

Definition _process_variants (l : Layer) : Layer :=
  fold_left process_variant_group (collect_variant_groups (layer_specs l)) l.

End Restructurer.

(** The names a variant set ends with when [new] are added one by one. *)
Definition names_after (names new : list string) : list string :=
  fold_left (fun acc n => if existsb (String.eqb n) acc then acc else acc ++ [n]) new names.

Definition set_names {A : Type} (o : option (VariantSet A)) : list string :=
  match o with Some vs => variant_names vs | None => [] end.

(** The variant set of a prim in the layer. *)
Definition set_at (parent : Path) (l : Layer) : option (VariantSet CopiedSpec) :=
  layer_variant_sets l !! parent.

(** The variant set of a prim of the assembled stage. *)
Definition variant_set_at (st : Assembly) (p : Path) : option (VariantSet Arc) :=
  match stage st !! p with
  | Some prim => variant_set prim
  | None => None
  end.

(** A member whose document [find_usd_file] finds. *)
Definition found (files : list (string * SourceDoc)) (it : Item) : bool :=
  match find_usd_file files (name it) with Some _ => true | None => false end.

(** The selection [select_default] makes. *)
Definition default_selection (items variants : list Item) : option string :=
  match List.find (fun it => negb (tagged it)) items, variants with
  | Some _, _ => Some "default"
  | None, v :: _ => Some (default "" (variant v))
  | None, [] => None
  end.

(** Inputs of the statements about variant sets. Two teapots that differ only
    in how the tag ["1"] is written; two groups under one parent; a chair
    whose first variant has no document. *)
Definition twin_layer : Layer :=
  {| layer_specs := [["Set"]; ["Set"; "Teapot_VARIANT"]; ["Set"; "Teapot_VARIANT1"]];
     layer_variant_sets := ∅ |}.

Definition two_base_layer : Layer :=
  {| layer_specs := [["Set"]; ["Set"; "A_VARIANT1"]; ["Set"; "A_VARIANT2"];
                     ["Set"; "B_VARIANT3"]; ["Set"; "B_VARIANT4"]];
     layer_variant_sets := ∅ |}.

Definition teapot_layer : Layer :=
  {| layer_specs := [["Set"]; ["Set"; "Teapot_VARIANT1"]; ["Set"; "Teapot_VARIANT2"]];
     layer_variant_sets := ∅ |}.

Definition twin_files : list (string * SourceDoc) :=
  [("Root", plain_doc "Root.usd");
   ("Chair_VARIANT", plain_doc "Chair_VARIANT.usd");
   ("Chair_VARIANT1", plain_doc "Chair_VARIANT1.usd")].

Definition twin_entries : list (string * option string) :=
  [("Root", None); ("Chair_VARIANT", Some "Root"); ("Chair_VARIANT1", Some "Root")].

Definition missing_files : list (string * SourceDoc) :=
  [("Root", plain_doc "Root.usd");
   ("Chair_VARIANT2", plain_doc "Chair_VARIANT2.usd");
   ("Chair_VARIANT3", plain_doc "Chair_VARIANT3.usd")].

Definition missing_entries : list (string * option string) :=
  [("Root", None); ("Chair_VARIANT1", Some "Root"); ("Chair_VARIANT2", Some "Root");
   ("Chair_VARIANT3", Some "Root")].

(** ** Wrapper stripping ([Clone_USD_PropertiesChaser.py])

    The root layer as [_strip_root_wrapper] edits it: the tree of prim specs
    and [layer.defaultPrim] (the empty string when unset). The run is a trace:
    every edit of the layer with the layer it leaves. Whether
    [layer.Apply(edit)] succeeds is the answer of the library and an input
    here. The remap calls that end the function change no prim spec and not
    the default prim, and are not in the trace: the trace is of the runs in
    which they return. Those of the fall-back (lines 492-494) come between
    the removal of [/root] and the assignment of the default prim, and a run
    in which one of them raises ends before the assignment. The branch for a
    skeletal root
    ([_flatten_scene_wrapper_under_skel_root]) keeps [/root]; the model is of
    the runs that do not take it. *)

#[warnings="-register-all"]
Inductive PrimSpec := Spec (n : string) (is_class : bool) (nameChildren : list PrimSpec).

Definition spec_name (s : PrimSpec) : string := match s with Spec n _ _ => n end.
Definition spec_is_class (s : PrimSpec) : bool := match s with Spec _ c _ => c end.
Definition nameChildren (s : PrimSpec) : list PrimSpec :=
  match s with Spec _ _ cs => cs end.

Record SdfLayer := {
  rootPrims : list PrimSpec;
  defaultPrim : string
}.

Definition find_spec (n : string) (specs : list PrimSpec) : option PrimSpec :=
  List.find (fun s => String.eqb (spec_name s) n) specs.

(** [layer.GetPrimAtPath(path)] *)
Fixpoint spec_at (specs : list PrimSpec) (p : Path) : option PrimSpec :=
  match p with
  | [] => None
  | n :: rest =>
      match find_spec n specs with
      | Some s => match rest with [] => Some s | _ => spec_at (nameChildren s) rest end
      | None => None
      end
  end.

(** The loop that finds the deepest wrapper: down while the only child is
    named [root]. *)
Fixpoint deepest_wrapper (s : PrimSpec) (current_path : Path) : Path :=
  match s with
  | Spec _ _ [c] =>
      if String.eqb (spec_name c) "root"
      then deepest_wrapper c (current_path ++ ["root"])
      else current_path
  | Spec _ _ _ => current_path
  end.

(** The spec at a path replaced by [f] of it. *)
Fixpoint update_at (p : Path) (f : PrimSpec -> PrimSpec) (specs : list PrimSpec)
  : list PrimSpec :=
  match p with
  | [] => specs
  | n :: rest =>
      map (fun s =>
             if String.eqb (spec_name s) n
             then match rest with
                  | [] => f s
                  | _ => Spec (spec_name s) (spec_is_class s)
                              (update_at rest f (nameChildren s))
                  end
             else s)
          specs
  end.

(** A spec put among [specs]: in the place of the one with its name, else at
    the end. *)
Definition put_spec (s : PrimSpec) (specs : list PrimSpec) : list PrimSpec :=
  if existsb (fun t => String.eqb (spec_name t) (spec_name s)) specs
  then map (fun t => if String.eqb (spec_name t) (spec_name s) then s else t) specs
  else specs ++ [s].

Definition add_child_spec (c : PrimSpec) (s : PrimSpec) : PrimSpec :=
  Spec (spec_name s) (spec_is_class s) (put_spec c (nameChildren s)).

Definition without_children (names : list string) (s : PrimSpec) : PrimSpec :=
  Spec (spec_name s) (spec_is_class s)
       (List.filter (fun c => negb (existsb (String.eqb (spec_name c)) names))
                    (nameChildren s)).

Definition remove_root (n : string) (specs : list PrimSpec) : list PrimSpec :=
  List.filter (fun s => negb (String.eqb (spec_name s) n)) specs.

Inductive Event :=
| EApply (ok : bool)
| ECopySpec (src dst : Path) (ok : bool)
| ERemovePrim (p : Path)
| ESetDefaultPrim (n : string)
| EDeleteRootPrim (n : string).

Definition with_prims (specs : list PrimSpec) (l : SdfLayer) : SdfLayer :=
  {| rootPrims := specs; defaultPrim := defaultPrim l |}.

Definition mtl_scope_names : list string := ["mtl"; "Looks"; "Materials"].

Definition is_mtl_scope (n : string) : bool := existsb (String.eqb n) mtl_scope_names.

(** One move of the namespace edit, or one [Sdf.CopySpec] when [keep_source]:
    the spec at [src] put at [dst], a root prim or a child of a root prim.
    Fails when the source or the parent of the destination is missing. *)
Definition place_spec (keep_source : bool) (src : Path) (dst : Path) (specs : list PrimSpec)
  : list PrimSpec * bool :=
  match spec_at specs src with
  | None => (specs, false)
  | Some s =>
      let removed :=
        if keep_source then specs
        else update_at (removelast src) (without_children [List.last src ""]) specs in
      let moved := Spec (List.last dst "") (spec_is_class s) (nameChildren s) in
      match dst with
      | [_] => (put_spec moved removed, true)
      | [parent; _] =>
          match find_spec parent removed with
          | Some _ => (update_at [parent] (add_child_spec moved) removed, true)
          | None => (specs, false)
          end
      | _ => (specs, false)
      end
  end.

(** The batch of moves, applied in order. *)
Definition apply_edit (edit : list (Path * Path)) (specs : list PrimSpec) : list PrimSpec :=
  fold_left (fun acc e => fst (place_spec false (fst e) (snd e) acc)) edit specs.

(** The copies of [_strip_root_fallback], each with its event; [nested] tells
    for a material scope that its first destination is under the default
    prim, with the root as second choice. *)
Definition copy_step (current_path : Path) (default_name : string) (nested : bool)
    (acc : SdfLayer * list (Event * SdfLayer)) (n : string)
  : SdfLayer * list (Event * SdfLayer) :=
  let l := fst acc in
  let src := current_path ++ [n] in
  let dst := if nested then [default_name; n] else [n] in
  let '(specs, ok) := place_spec true src dst (rootPrims l) in
  let l1 := with_prims specs l in
  if nested && negb ok then
    let '(specs2, ok2) := place_spec true src [n] (rootPrims l1) in
    let l2 := with_prims specs2 l1 in
    (l2, snd acc ++ [(ECopySpec src dst ok, l1); (ECopySpec src [n] ok2, l2)])
  else (l1, snd acc ++ [(ECopySpec src dst ok, l1)]).

Definition _strip_root_fallback (l : SdfLayer) (wrapper_path : Path)
    (main_children mtl_children : list string) (default_name : string) (nest_mtl : bool)
  : SdfLayer * list (Event * SdfLayer) :=
  let acc := fold_left (copy_step wrapper_path default_name false) main_children (l, []) in
  let acc := fold_left (copy_step wrapper_path default_name nest_mtl) mtl_children acc in
  let l' := with_prims (remove_root "root" (rootPrims (fst acc))) (fst acc) in
  (l', snd acc ++ [(ERemovePrim ["root"], l')]).

(** [_strip_root_wrapper] on a layer whose [/root] is no skeletal root. *)
Definition _strip_root_wrapper (apply_ok : bool) (l : SdfLayer)
  : list (Event * SdfLayer) :=
  match find_spec "root" (rootPrims l) with
  | None => []
  | Some root_spec =>
      let current_path := deepest_wrapper root_spec ["root"] in
      match spec_at (rootPrims l) current_path with
      | None => []
      | Some wrapper_spec =>
          let all_children := nameChildren wrapper_spec in
          let mtl_children :=
            map spec_name (List.filter (fun c => is_mtl_scope (spec_name c)) all_children) in
          let main_specs :=
            List.filter (fun c => negb (is_mtl_scope (spec_name c))) all_children in
          let main_children := map spec_name main_specs in
          let content_children :=
            map spec_name
                (List.filter (fun c => negb (spec_is_class c)
                                       && negb (startswith (spec_name c) "_class_"))
                             main_specs) in
          match all_children, main_children with
          | [], _ => []
          | _, [] => []
          | _, first_main :: _ =>
              let default_name :=
                match content_children with c :: _ => c | [] => first_main end in
              let nest_mtl :=
                (length content_children =? 1) && (0 <? length mtl_children) in
              let edit :=
                map (fun n => (current_path ++ [n], [n])) main_children
                ++ map (fun n => (current_path ++ [n],
                                  if nest_mtl then [default_name; n] else [n]))
                       mtl_children in
              let '(l1, trace) :=
                if apply_ok then
                  let l1 := with_prims (apply_edit edit (rootPrims l)) l in
                  (l1, [(EApply true, l1)])
                else
                  let '(l1, copies) :=
                    _strip_root_fallback l current_path main_children mtl_children
                                         default_name nest_mtl in
                  (l1, (EApply false, l) :: copies) in
              let l2 := {| rootPrims := rootPrims l1; defaultPrim := default_name |} in
              let trace := trace ++ [(ESetDefaultPrim default_name, l2)] in
              match find_spec "root" (rootPrims l2) with
              | Some _ =>
                  trace ++ [(EDeleteRootPrim "root",
                             with_prims (remove_root "root" (rootPrims l2)) l2)]
              | None => trace
              end
          end
      end
  end.

(** The layer has the wrapper, or it has a default prim. *)
Definition has_wrapper (l : SdfLayer) : bool :=
  match find_spec "root" (rootPrims l) with Some _ => true | None => false end.

Definition has_default_prim (l : SdfLayer) : bool := nonempty (defaultPrim l).

Definition entry_reachable (l : SdfLayer) : bool := has_wrapper l || has_default_prim l.

(** A wrapper with the content prim [Hero] beside a root prim [Hero] that is
    already there: the destination of the move is taken, so the namespace edit
    fails. No default prim is set yet. *)
Definition occupied_layer : SdfLayer :=
  {| rootPrims := [Spec "root" false [Spec "Hero" false [Spec "Mesh" false []];
                                      Spec "mtl" false [Spec "Gold" false []]];
                   Spec "Hero" false []];
     defaultPrim := "" |}.

(** The layer of the scenario of the specification: a wrapper with [Hero] and
    the material scope [mtl]. *)
Definition hero_layer : SdfLayer :=
  {| rootPrims := [Spec "root" false [Spec "Hero" false [Spec "Mesh" false []];
                                      Spec "mtl" false [Spec "Gold" false []]]];
     defaultPrim := "" |}.

(** ** Shapes of the statements about the remapper *)

(** What a remap leaves as it is: the names of the properties. *)
Definition property_names (ps : list PathProperty) : list string := map prop_name ps.

(** The prims of a stage with the names of their relationships and of their
    attributes. *)
Definition stage_names (stage : list StagePrim)
  : list (string * list string * list string) :=
  map (fun p => (prim_path p, property_names (relationships p),
                 property_names (attributes p)))
      stage.

(** [SetTargets] or [SetConnections] is called on [p] with a list that holds
    the root path. *)
Definition authors_root (strip_prefix : string) (nest_target : option string)
    (mtl_names : list string) (replacement_prefix : option string)
    (p : PathProperty) : bool :=
  match reauthor strip_prefix nest_target mtl_names replacement_prefix (prop_paths p) with
  | Some l => existsb (String.eqb "/") l
  | None => false
  end.

Definition property_count (stage : list StagePrim) : nat :=
  list_sum (map (fun p => length (relationships p) + length (attributes p)) stage).

(** The entry names [m] as its parent. *)
Definition parent_is (m : string) (e : string * option string) : bool :=
  match snd e with Some p => String.eqb p m | None => false end.

(** The items of all the buckets of a dictionary, bucket after bucket. *)
Definition bucket_items {A : Type} (d : list (string * list A)) : list A :=
  concat (map snd d).

(** ** Depth in the hierarchy

    [n] is [d] steps below a root of the tree, a root being a name of
    [get_root_nodes] and a step going from a node to one of its children. *)
Inductive depth_in (tree : list (string * TreeNode)) : string -> nat -> Prop :=
| depth_root (r : string) :
    In r (get_root_nodes tree) -> depth_in tree r 0
| depth_child (c m : string) (d : nat) :
    In c (children_of tree m) -> depth_in tree m d -> depth_in tree c (S d).

(** The prim [auto_assemble_stage] defines for a configured default prim
    name: an Xform of kind assembly. *)
Definition assembly_root_prim : Prim := SetKind "assembly" (set_type "Xform" empty_prim).

(** Every name of [created_prims] is recorded with the path of a prim of the
    stage. *)
Definition created_are_prims (st : Assembly) : Prop :=
  forall n p, created_prims st !! n = Some p -> is_Some (stage st !! p).

(** ** The joint tokens of the stage ([Clone_USD_PropertiesChaser.py])

    [_remap_skeleton_joint_tokens] goes through every attribute of every prim
    of the stage. An attribute is its name, the name of its type and, for a
    token array, its tokens (none when it has no value). *)

Record TokenAttr := {
  attr_name : string;
  attr_type : string;
  attr_tokens : list string
}.

Record JointPrim := {
  joint_prim_path : string;
  joint_attrs : list TokenAttr
}.

(** The prims of the stage as [stage.GetPrimAtPath] sees them. *)
Definition prims_of (stage : list JointPrim) : list StagePrim :=
  map (fun p => {| prim_path := joint_prim_path p; relationships := []; attributes := [] |})
      stage.

(** The attributes the loop does not skip: named [skel:joints] or [joints],
    of type [token[]], with a value that is not empty. *)
Definition is_joint_attr (a : TokenAttr) : bool :=
  (String.eqb (attr_name a) "skel:joints" || String.eqb (attr_name a) "joints")
  && String.eqb (attr_type a) "token[]"
  && match attr_tokens a with [] => false | _ :: _ => true end.

(** The loop [for token in tokens]: the new tokens and how many differ from
    the token they replace. *)
Fixpoint remap_tokens (f : string -> string) (tokens : list string) : list string * nat :=
  match tokens with
  | [] => ([], 0)
  | token :: rest =>
      let '(new_rest, n) := remap_tokens f rest in
      let new_token := f token in
      (new_token :: new_rest, if String.eqb new_token token then n else S n)
  end.

(** One attribute: the attribute after the loop, 1 when [attr.Set] was called,
    and the number of tokens that changed. *)
Definition remap_joint_attr (f : string -> string) (a : TokenAttr) : TokenAttr * nat * nat :=
  if is_joint_attr a then
    let '(new_tokens, n) := remap_tokens f (attr_tokens a) in
    if 0 <? n
    then ({| attr_name := attr_name a; attr_type := attr_type a;
             attr_tokens := new_tokens |}, 1, n)
    else (a, 0, 0)
  else (a, 0, 0).

Fixpoint remap_joint_attrs (f : string -> string) (attrs : list TokenAttr)
  : list TokenAttr * nat * nat :=
  match attrs with
  | [] => ([], 0, 0)
  | a :: rest =>
      let '(a', n, k) := remap_joint_attr f a in
      let '(rest', m, j) := remap_joint_attrs f rest in
      (a' :: rest', n + m, k + j)
  end.

Fixpoint remap_joint_prims (f : string -> string) (prims : list JointPrim)
  : list JointPrim * nat * nat :=
  match prims with
  | [] => ([], 0, 0)
  | p :: rest =>
      let '(attrs, n, k) := remap_joint_attrs f (joint_attrs p) in
      let '(rest', m, j) := remap_joint_prims f rest in
      ({| joint_prim_path := joint_prim_path p; joint_attrs := attrs |} :: rest',
       n + m, k + j)
  end.

(** Returns the stage with [(remapped_attrs, remapped_tokens)]. *)
Definition _remap_skeleton_joint_tokens (stage : list JointPrim) (strip_prefix : string)
    (nest_target : option string) (mtl_names : list string)
    (content_root replacement_prefix relative_strip_prefix : option string)
  : list JointPrim * nat * nat :=
  remap_joint_prims
    (fun token =>
       _remap_skeleton_joint_token (prims_of stage) token strip_prefix nest_target
         mtl_names content_root replacement_prefix relative_strip_prefix)
    stage.

(** What a remap of tokens leaves as it is. *)
Definition attrs_shape (attrs : list TokenAttr) : list (string * string * nat) :=
  map (fun a => (attr_name a, attr_type a, length (attr_tokens a))) attrs.

Definition joints_shape (stage : list JointPrim)
  : list (string * list (string * string * nat)) :=
  map (fun p => (joint_prim_path p, attrs_shape (joint_attrs p))) stage.

(** The attributes of the stage the loop skips, prim by prim. *)
Definition other_attrs (stage : list JointPrim) : list (list TokenAttr) :=
  map (fun p => List.filter (fun a => negb (is_joint_attr a)) (joint_attrs p)) stage.

(** ** The skeletal root ([Clone_USD_PropertiesChaser.py])

    When [/root] is a SkelRoot, [_strip_root_wrapper] keeps it and calls
    [_flatten_scene_wrapper_under_skel_root]. Whether each [layer.Apply]
    succeeds and the type the stage reports for a child of [/root] are the
    answers of the library and inputs here. *)

(** [stage.RemovePrim(path)] on the prim specs. *)
Definition remove_spec (p : Path) (specs : list PrimSpec) : list PrimSpec :=
  match p with
  | [] => specs
  | [n] => remove_root n specs
  | _ => update_at (removelast p) (without_children [List.last p ""]) specs
  end.

(** The fall-back of [_move_children_to_parent] for one child: the copy, and
    the removal of the source when the copy succeeded. *)
Definition copy_child (src_parent_path dst_parent_path : Path)
    (acc : list PrimSpec * list string) (child_name : string)
  : list PrimSpec * list string :=
  let src := src_parent_path ++ [child_name] in
  let dst := dst_parent_path ++ [child_name] in
  let '(specs, ok) := place_spec true src dst (fst acc) in
  if ok then (remove_spec src specs, snd acc ++ [child_name]) else (fst acc, snd acc).

(** Returns the prim specs with the names that were moved. *)
Definition _move_children_to_parent (apply_ok : bool) (specs : list PrimSpec)
    (src_parent_path dst_parent_path : Path) : list PrimSpec * list string :=
  match spec_at specs src_parent_path with
  | None => (specs, [])
  | Some src_spec =>
      let child_names := map spec_name (nameChildren src_spec) in
      match child_names with
      | [] => (specs, [])
      | _ :: _ =>
          let edit :=
            map (fun child_name =>
                   (src_parent_path ++ [child_name], dst_parent_path ++ [child_name]))
                (List.filter
                   (fun child_name =>
                      negb (bool_decide (src_parent_path ++ [child_name]
                                         = dst_parent_path ++ [child_name])))
                   child_names) in
          if apply_ok then (apply_edit edit specs, child_names)
          else fold_left (copy_child src_parent_path dst_parent_path) child_names (specs, [])
      end
  end.

(** The pattern [^scene($|_)] under [re.match] and [re.IGNORECASE]. *)
Definition is_scene_wrapper (candidate : string) : bool :=
  match match_lit_ci "scene" candidate with
  | Some r => at_dollar r || startswith r "_"
  | None => false
  end.

(** [child_name == "Bones" or child_type == "Skeleton"] *)
Definition is_skeleton_scope (child_type : string -> string) (c : PrimSpec) : bool :=
  String.eqb (spec_name c) "Bones" || String.eqb (child_type (spec_name c)) "Skeleton".

(** The children of [/root] the loop does not skip. *)
Definition is_content_candidate (child_type : string -> string) (c : PrimSpec) : bool :=
  negb (is_mtl_scope (spec_name c) || String.eqb (spec_name c) "Bones"
        || String.eqb (spec_name c) "root")
  && negb (String.eqb (child_type (spec_name c)) "Skeleton")
  && negb (spec_is_class c || startswith (spec_name c) "_class_").

Definition _flatten_scene_wrapper_under_skel_root (apply_ok1 apply_ok2 : bool)
    (child_type : string -> string) (l : SdfLayer) (current_path : Path) : SdfLayer :=
  let specs :=
    if bool_decide (current_path = ["root"]) then rootPrims l
    else remove_spec current_path
           (fst (_move_children_to_parent apply_ok1 (rootPrims l) current_path ["root"])) in
  match find_spec "root" specs with
  | None => with_prims specs l
  | Some root_spec =>
      match nameChildren root_spec with
      | [] => {| rootPrims := specs; defaultPrim := "root" |}
      | root_children =>
          let has_skeleton_scope := existsb (is_skeleton_scope child_type) root_children in
          let content_candidates :=
            map spec_name (List.filter (is_content_candidate child_type) root_children) in
          let scene_wrapper_name :=
            match content_candidates with
            | [candidate] =>
                let candidate_children :=
                  match spec_at specs ["root"; candidate] with
                  | Some candidate_spec => nameChildren candidate_spec
                  | None => []
                  end in
                if has_skeleton_scope && is_scene_wrapper candidate
                   && match candidate_children with [] => false | _ :: _ => true end
                then Some candidate else None
            | _ => None
            end in
          let specs :=
            match scene_wrapper_name with
            | Some scene_wrapper_name =>
                let scene_path := ["root"; scene_wrapper_name] in
                remove_spec scene_path
                  (fst (_move_children_to_parent apply_ok2 specs scene_path ["root"]))
            | None => specs
            end in
          {| rootPrims := specs; defaultPrim := "root" |}
      end
  end.

(** [_strip_root_wrapper] on a layer whose [/root] is a skeletal root. *)
Definition strip_skel_root (apply_ok1 apply_ok2 : bool) (child_type : string -> string)
    (l : SdfLayer) : SdfLayer :=
  match find_spec "root" (rootPrims l) with
  | None => l
  | Some root_spec =>
      let current_path := deepest_wrapper root_spec ["root"] in
      match spec_at (rootPrims l) current_path with
      | None => l
      | Some wrapper_spec =>
          match nameChildren wrapper_spec with
          | [] => l
          | _ :: _ =>
              _flatten_scene_wrapper_under_skel_root apply_ok1 apply_ok2 child_type l
                current_path
          end
      end
  end.

(** The children of [/root] in the layer. *)
Definition root_children_of (l : SdfLayer) : list PrimSpec :=
  match find_spec "root" (rootPrims l) with
  | Some root_spec => nameChildren root_spec
  | None => []
  end.

(** A skeletal character under a scene wrapper, one wrapper too deep. *)
Definition skel_layer : SdfLayer :=
  {| rootPrims :=
       [Spec "root" false
          [Spec "root" false
             [Spec "Bones" false [Spec "Hip" false []];
              Spec "Scene_Hero" false [Spec "Body" false []];
              Spec "mtl" false [Spec "Skin" false []]]]];
     defaultPrim := "" |}.

(** ** The hierarchy table ([Clone_USD_StageAssembler.py])

    [read_hierarchy_metadata] reads [_hierarchy.txt] line by line. The file is
    the list of its lines, [None] when it does not exist. *)

Definition bar : ascii := "|"%char.

(** [s.split('|')] *)
Fixpoint split_bar (s : string) : list string :=
  match s with
  | EmptyString => [EmptyString]
  | String c s' =>
      if Ascii.eqb c bar then EmptyString :: split_bar s'
      else match split_bar s' with
           | field :: rest => String c field :: rest
           | [] => [String c EmptyString]
           end
  end.

Section Metadata.
Context {spaces : SpaceTable}.

(** The body of the loop over the lines: the entry a line gives, [None] for a
    line that is skipped. *)
Definition parse_hierarchy_line (line : string) : option (string * option string) :=
  let line := strip line in
  if negb (nonempty line) || startswith line "#" then None
  else
    match split_bar line with
    | name :: parent :: _ => Some (name, if nonempty parent then Some parent else None)
    | _ => None
    end.

Definition read_hierarchy_metadata (file : option (list string))
  : list (string * option string) :=
  match file with
  | None => []
  | Some lines =>
      fold_left (fun hierarchy line =>
                   match parse_hierarchy_line line with
                   | Some (name, parent) => dict_set name parent hierarchy
                   | None => hierarchy
                   end)
                lines []
  end.

(** The entries of the lines that are not skipped, in order. *)
Fixpoint line_entries (lines : list string) : list (string * option string) :=
  match lines with
  | [] => []
  | line :: rest =>
      match parse_hierarchy_line line with
      | Some e => e :: line_entries rest
      | None => line_entries rest
      end
  end.

End Metadata.

Definition no_bar (s : string) : bool := all_chars (fun c => negb (Ascii.eqb c bar)) s.

Definition line_feed : string := String newline EmptyString.

Definition carriage_return : ascii := ascii_of_nat 13.

(** The lines that iterating over a file opened with [open(path, 'r')] gives
    for its text: a line ends at a line feed, at a carriage return or at the
    two together, each read as one line feed, which the line keeps; the last
    line has none when the text does not end in one. *)
Fixpoint file_lines (text : string) : list string :=
  match text with
  | EmptyString => []
  | String c rest =>
      if Ascii.eqb c newline then line_feed :: file_lines rest
      else if Ascii.eqb c carriage_return then
        match rest with
        | String d rest' =>
            if Ascii.eqb d newline then line_feed :: file_lines rest'
            else line_feed :: file_lines rest
        | EmptyString => [line_feed]
        end
      else
        match file_lines rest with
        | line :: lines => String c line :: lines
        | [] => [String c EmptyString]
        end
  end.

(** No line feed and no carriage return. *)
Definition no_line_break (s : string) : bool :=
  all_chars (fun c => negb (Ascii.eqb c newline) && negb (Ascii.eqb c carriage_return)) s.

(** ** Inherit and specialize arcs ([Clone_USD_PropertiesChaser.py])

    [_remap_primspec_path_lists] goes through the prim specs of the layer and
    remaps the five item lists of the two path list-ops of each. A list-op is
    taken as there on every spec; one with no item is left as it is by the
    remap in any case. *)

Record PathListOp := {
  explicitItems : list string;
  addedItems : list string;
  prependedItems : list string;
  appendedItems : list string;
  deletedItems : list string
}.

#[warnings="-register-all"]
Inductive ArcSpec :=
  ASpec (n : string) (inheritPathList specializesList : PathListOp)
        (children : list ArcSpec).

Definition arc_spec_name (s : ArcSpec) : string := match s with ASpec n _ _ _ => n end.
Definition arc_inherits (s : ArcSpec) : PathListOp := match s with ASpec _ i _ _ => i end.
Definition arc_specializes (s : ArcSpec) : PathListOp := match s with ASpec _ _ p _ => p end.
Definition arc_children (s : ArcSpec) : list ArcSpec := match s with ASpec _ _ _ cs => cs end.

(** Depth-first, a spec before its children. *)
Fixpoint _iter_prim_specs (prim_spec : ArcSpec) : list ArcSpec :=
  match prim_spec with
  | ASpec _ _ _ cs => prim_spec :: flat_map _iter_prim_specs cs
  end.

(** One field of a list-op: the items after the loop and [changed_field]. *)
Definition remap_items (strip_prefix : string) (nest_target : option string)
    (mtl_names : list string) (replacement_prefix : option string) (items : list string)
  : list string * bool :=
  match reauthor strip_prefix nest_target mtl_names replacement_prefix items with
  | Some remapped_items => (remapped_items, true)
  | None => (items, false)
  end.

(** Returns the list-op with [changed_any]. *)
Definition _remap_path_list_op (strip_prefix : string) (nest_target : option string)
    (mtl_names : list string) (replacement_prefix : option string) (op : PathListOp)
  : PathListOp * bool :=
  let remap := remap_items strip_prefix nest_target mtl_names replacement_prefix in
  let '(e, c1) := remap (explicitItems op) in
  let '(a, c2) := remap (addedItems op) in
  let '(p, c3) := remap (prependedItems op) in
  let '(q, c4) := remap (appendedItems op) in
  let '(d, c5) := remap (deletedItems op) in
  ({| explicitItems := e; addedItems := a; prependedItems := p; appendedItems := q;
      deletedItems := d |},
   c1 || c2 || c3 || c4 || c5).

(** [changed_spec] for one prim spec. *)
Definition changes_spec (strip_prefix : string) (nest_target : option string)
    (mtl_names : list string) (replacement_prefix : option string) (s : ArcSpec) : bool :=
  snd (_remap_path_list_op strip_prefix nest_target mtl_names replacement_prefix
         (arc_inherits s))
  || snd (_remap_path_list_op strip_prefix nest_target mtl_names replacement_prefix
            (arc_specializes s)).

(** A spec with its list-ops remapped, and its children in turn. *)
Fixpoint remap_spec_tree (strip_prefix : string) (nest_target : option string)
    (mtl_names : list string) (replacement_prefix : option string) (s : ArcSpec) : ArcSpec :=
  match s with
  | ASpec n inherits specializes cs =>
      ASpec n
        (fst (_remap_path_list_op strip_prefix nest_target mtl_names replacement_prefix
                inherits))
        (fst (_remap_path_list_op strip_prefix nest_target mtl_names replacement_prefix
                specializes))
        (map (remap_spec_tree strip_prefix nest_target mtl_names replacement_prefix) cs)
  end.

(** Returns the root prims of the layer with [remapped_specs]: the specs of
    the traversal for which a list-op changed. *)
Definition _remap_primspec_path_lists (layer : list ArcSpec) (strip_prefix : string)
    (nest_target : option string) (mtl_names : list string)
    (replacement_prefix : option string) : list ArcSpec * nat :=
  (map (remap_spec_tree strip_prefix nest_target mtl_names replacement_prefix) layer,
   length (List.filter (changes_spec strip_prefix nest_target mtl_names replacement_prefix)
                       (flat_map _iter_prim_specs layer))).

(** What the remap of a list-op leaves as it is: the number of items of each
    field. *)
Definition list_op_shape (op : PathListOp) : list nat :=
  [length (explicitItems op); length (addedItems op); length (prependedItems op);
   length (appendedItems op); length (deletedItems op)].

(** The specs of a layer in the order of the traversal, each by its name and
    the shapes of its two list-ops. *)
Definition arcs_shape (layer : list ArcSpec) : list (string * list nat * list nat) :=
  map (fun s => (arc_spec_name s, list_op_shape (arc_inherits s),
                 list_op_shape (arc_specializes s)))
      (flat_map _iter_prim_specs layer).

(** ** The flat branch of [auto_assemble_stage]

    Without a hierarchy table the assembler groups the documents of the export
    directory by base name. [all_files] is the dictionary from the name of a
    document to the document; an item of a group carries its document with
    it, and no document is looked up. This branch sets no default prim of its
    own. *)

Section Flat.
Context {table : CodeTable} {spaces : SpaceTable}.

Definition flat_groups (all_files : list (string * SourceDoc))
  : list (string * list (Item * SourceDoc)) :=
  fold_left (fun groups f =>
               let it := item_of (fst f) in dict_append (base it) (it, snd f) groups)
            all_files [].

Definition flat_filled (group : list (Item * SourceDoc))
  : list (string * list (Item * SourceDoc)) :=
  fold_left (fun bp it => dict_append (bucket_key (fst it)) it bp) group [].

Definition flat_by_purpose (group : list (Item * SourceDoc))
  : list (string * list (Item * SourceDoc)) :=
  let bp := flat_filled group in
  match dict_get "default" bp with
  | Some defaults =>
      if has_proxy_or_guide (map fst group) then
        if dict_mem "render" bp
        then dict_alter (fun l => l ++ defaults) "render" (dict_remove "default" bp)
        else dict_remove "default" bp ++ [("render", defaults)]
      else bp
  | None => bp
  end.

Definition flat_add_variant_item (prim : Path) (st : Assembly) (it : Item * SourceDoc)
  : Assembly :=
  let var_name := var_name_of (fst it) in
  let st :=
    on_stage (alter (on_variant_set
                       (fun vs => SetVariantSelection var_name (AddVariant var_name vs)))
                    prim) st in
  let payload := use_payload (snd it) || is_payload (fst it) in
  let st :=
    on_stage (alter (on_variant_set (add_arc_in_variant (arc_of (snd it) payload)))
                    prim) st in
  let st := snd (apply_prim_properties prim (snd it) false st) in
  set_created (name (fst it)) prim st.

Definition flat_fill_variant_set (prim : Path) (items variants : list (Item * SourceDoc))
    (st : Assembly) : Assembly :=
  select_default prim (map fst items) (map fst variants)
                 (fold_left (flat_add_variant_item prim) items st).

Definition flat_process_bucket (group_prim_path : Path) (st : Assembly)
    (bucket : string * list (Item * SourceDoc)) : Assembly :=
  let purpose_name := fst bucket in
  let purpose_items := snd bucket in
  let purpose_variants := List.filter (fun it => tagged (fst it)) purpose_items in
  let purpose_prim_path := group_prim_path ++ [purpose_name] in
  if (1 <? length purpose_variants)
     || ((length purpose_variants =? 1) && (1 <? length purpose_items))
  then
    let st :=
      on_stage (fun s => alter AddVariantSet purpose_prim_path
                           (DefinePrim purpose_prim_path s)) st in
    let st := stamp_purpose purpose_prim_path purpose_name st in
    flat_fill_variant_set purpose_prim_path purpose_items purpose_variants st
  else
    match purpose_items with
    | [item] =>
        let payload := use_payload (snd item) || is_payload (fst item) in
        let st :=
          on_stage (fun s => alter (add_arc (arc_of (snd item) payload))
                               purpose_prim_path (DefinePrim purpose_prim_path s)) st in
        let st := stamp_purpose purpose_prim_path purpose_name st in
        let st := snd (apply_prim_properties purpose_prim_path (snd item) false st) in
        set_created (name (fst item)) purpose_prim_path st
    | _ => st
    end.

(** A document added under the root by itself. *)
Definition flat_add_reference (assembly_root_path : Path) (st : Assembly)
    (it : Item * SourceDoc) : Assembly :=
  let payload := use_payload (snd it) || is_payload (fst it) in
  let '(prim_path, st) :=
    add_reference_to_parent assembly_root_path (snd it) (name (fst it)) payload st in
  let st := snd (apply_prim_properties prim_path (snd it) false st) in
  set_created (name (fst it)) prim_path st.

(** The body of [for base_name, group in flat_groups.items()]. *)
Definition flat_process_group (assembly_root_path : Path) (st : Assembly)
    (g : string * list (Item * SourceDoc)) : Assembly :=
  let base_name := fst g in
  let group := snd g in
  let variants := List.filter (fun it => tagged (fst it)) group in
  let has_variants := 0 <? length variants in
  let group_prim_path := assembly_root_path ++ [make_valid_prim_name base_name] in
  let grouped :=
    if has_purposes (map fst group) then
      let st := on_stage (XformDefine group_prim_path) st in
      let st := set_created base_name group_prim_path st in
      fold_left (flat_process_bucket group_prim_path) (flat_by_purpose group) st
    else if has_variants then
      let st :=
        on_stage (fun s => alter AddVariantSet group_prim_path
                             (DefinePrim group_prim_path s)) st in
      flat_fill_variant_set group_prim_path group variants st
    else fold_left (flat_add_reference assembly_root_path) group st in
  match group with
  | [item] =>
      if negb (has_purposes (map fst group)) && negb has_variants
      then flat_add_reference assembly_root_path st item
      else grouped
  | _ => grouped
  end.

Definition assemble_flat (all_files : list (string * SourceDoc))
    (default_prim_name : option string) : Assembly :=
  let '(assembly_root_path, st) := initial_assembly default_prim_name in
  fold_left (flat_process_group assembly_root_path) (flat_groups all_files) st.

End Flat.




(** ** What [_strip_root_wrapper] decides before it edits
    ([Clone_USD_PropertiesChaser.py], lines 219-322)

    The wrapper path, the two lists of children, the default prim name and the
    nesting flag, as the function computes them; [plan_edit] is the namespace
    edit built from them (lines 277-298) and [plan_nest_target] the
    [nest_target] handed to the remapping functions (line 320). *)
Record StripPlan := {
  plan_path : Path;
  plan_main : list string;
  plan_mtl : list string;
  plan_default : string;
  plan_nest : bool
}.

Definition strip_plan (l : SdfLayer) : option StripPlan :=
  match find_spec "root" (rootPrims l) with
  | None => None
  | Some root_spec =>
      let current_path := deepest_wrapper root_spec ["root"] in
      match spec_at (rootPrims l) current_path with
      | None => None
      | Some wrapper_spec =>
          let all_children := nameChildren wrapper_spec in
          let mtl_children :=
            map spec_name (List.filter (fun c => is_mtl_scope (spec_name c)) all_children) in
          let main_specs :=
            List.filter (fun c => negb (is_mtl_scope (spec_name c))) all_children in
          let main_children := map spec_name main_specs in
          let content_children :=
            map spec_name
                (List.filter (fun c => negb (spec_is_class c)
                                       && negb (startswith (spec_name c) "_class_"))
                             main_specs) in
          match all_children, main_children with
          | [], _ => None
          | _, [] => None
          | _, first_main :: _ =>
              Some {| plan_path := current_path;
                      plan_main := main_children;
                      plan_mtl := mtl_children;
                      plan_default :=
                        match content_children with c :: _ => c | [] => first_main end;
                      plan_nest :=
                        (length content_children =? 1) && (0 <? length mtl_children) |}
          end
      end
  end.

Definition plan_edit (p : StripPlan) : list (Path * Path) :=
  map (fun n => (plan_path p ++ [n], [n])) (plan_main p)
  ++ map (fun n => (plan_path p ++ [n],
                    if plan_nest p then [plan_default p; n] else [n]))
         (plan_mtl p).

Definition plan_nest_target (p : StripPlan) : option string :=
  if plan_nest p then Some (plan_default p) else None.

(** A prim name as USD has it: not empty and without a slash. *)
Definition no_slash (s : string) : bool :=
  all_chars (fun c => negb (Ascii.eqb c slash)) s.

Definition plain_name (s : string) : bool := nonempty s && no_slash s.


(** ** Properties of the modifier ([Clone_USD_PropertiesChaser.py], lines 34-205)

    Step 1 of [PostExport] copies the settings of the [USD Properties]
    modifier of a node to the prim exported for it. A prim is what these
    functions and [read_prim_custom_data] touch; a setting the modifier lacks
    raises in the source and the function that reads it does nothing: it is
    [None] here. The messages are left out. *)

Inductive CustomValue :=
  | CStr (s : string)
  | CBool (b : bool)
  | COther (is_true : bool).

(** The truth value Python gives a custom value. *)
Definition value_truth (v : CustomValue) : bool :=
  match v with
  | CStr s => nonempty s
  | CBool b => b
  | COther b => b
  end.

Record ExportPrim := {
  customData : list (string * CustomValue);
  authored_instanceable : option bool;
  model_kind : string;
  purpose_value : option string;
  visibility_token : option string;
  is_active : bool;
  asset_version : option string;
  geom_model_api : bool;
  draw_mode_token : option string
}.

Record Modifier := {
  mod_name : string;
  USD_GeomType : option Z;
  USD_Kind : option Z;
  USD_Purpose : option Z;
  USD_Instanceable : option bool;
  USD_Hidden : option bool;
  USD_Active : option bool;
  USD_AssetVersion : option string;
  USD_DrawMode : option Z;
  USD_Payload : option bool
}.

(** [node.modifiers]; [None] when reading it raises. *)
Record MaxNode := {
  modifiers : option (list Modifier)
}.

Definition _get_usd_properties_modifier (node : MaxNode) : option Modifier :=
  match modifiers node with
  | Some mods => List.find (fun m => String.eqb (mod_name m) "USD Properties") mods
  | None => None
  end.

Definition SetCustomDataByKey (k : string) (v : CustomValue) (prim : ExportPrim)
  : ExportPrim :=
  {| customData := dict_set k v (customData prim);
     authored_instanceable := authored_instanceable prim;
     model_kind := model_kind prim;
     purpose_value := purpose_value prim;
     visibility_token := visibility_token prim;
     is_active := is_active prim;
     asset_version := asset_version prim;
     geom_model_api := geom_model_api prim;
     draw_mode_token := draw_mode_token prim |}.

Definition geom_type_map (v : Z) : option string :=
  if (v =? 2)%Z then Some "Xform"
  else if (v =? 3)%Z then Some "Scope"
  else None.

Definition _apply_geom_type (prim : ExportPrim) (m : Modifier) : ExportPrim :=
  match USD_GeomType m with
  | Some geom_type_val =>
      match geom_type_map geom_type_val with
      | Some t => SetCustomDataByKey "geomType" (CStr t) prim
      | None => prim
      end
  | None => prim
  end.

Definition kind_map (v : Z) : option string :=
  if (v =? 2)%Z then Some "assembly"
  else if (v =? 3)%Z then Some "group"
  else if (v =? 4)%Z then Some "component"
  else if (v =? 5)%Z then Some "subcomponent"
  else if (v =? 6)%Z then Some "model"
  else None.

Definition _apply_kind (prim : ExportPrim) (m : Modifier) : ExportPrim :=
  match USD_Kind m with
  | Some kind_val =>
      match kind_map kind_val with
      | Some k =>
          {| customData := customData prim;
             authored_instanceable := authored_instanceable prim;
             model_kind := k;
             purpose_value := purpose_value prim;
             visibility_token := visibility_token prim;
             is_active := is_active prim;
             asset_version := asset_version prim;
             geom_model_api := geom_model_api prim;
             draw_mode_token := draw_mode_token prim |}
      | None => prim
      end
  | None => prim
  end.

Definition purpose_map (v : Z) : option string :=
  if (v =? 2)%Z then Some "render"
  else if (v =? 3)%Z then Some "proxy"
  else if (v =? 4)%Z then Some "guide"
  else None.

Definition _apply_purpose (prim : ExportPrim) (m : Modifier) : ExportPrim :=
  match USD_Purpose m with
  | Some purpose_val =>
      match purpose_map purpose_val with
      | Some p =>
          {| customData := customData prim;
             authored_instanceable := authored_instanceable prim;
             model_kind := model_kind prim;
             purpose_value := Some p;
             visibility_token := visibility_token prim;
             is_active := is_active prim;
             asset_version := asset_version prim;
             geom_model_api := geom_model_api prim;
             draw_mode_token := draw_mode_token prim |}
      | None => prim
      end
  | None => prim
  end.

Definition _apply_instanceable (prim : ExportPrim) (m : Modifier) : ExportPrim :=
  match USD_Instanceable m with
  | Some true =>
      {| customData := customData prim;
         authored_instanceable := Some true;
         model_kind := model_kind prim;
         purpose_value := purpose_value prim;
         visibility_token := visibility_token prim;
         is_active := is_active prim;
         asset_version := asset_version prim;
         geom_model_api := geom_model_api prim;
         draw_mode_token := draw_mode_token prim |}
  | _ => prim
  end.

Definition _apply_hidden (prim : ExportPrim) (m : Modifier) : ExportPrim :=
  match USD_Hidden m with
  | Some true =>
      {| customData := customData prim;
         authored_instanceable := authored_instanceable prim;
         model_kind := model_kind prim;
         purpose_value := purpose_value prim;
         visibility_token := Some "invisible";
         is_active := is_active prim;
         asset_version := asset_version prim;
         geom_model_api := geom_model_api prim;
         draw_mode_token := draw_mode_token prim |}
  | _ => prim
  end.

Definition _apply_active (prim : ExportPrim) (m : Modifier) : ExportPrim :=
  match USD_Active m with
  | Some false =>
      {| customData := customData prim;
         authored_instanceable := authored_instanceable prim;
         model_kind := model_kind prim;
         purpose_value := purpose_value prim;
         visibility_token := visibility_token prim;
         is_active := false;
         asset_version := asset_version prim;
         geom_model_api := geom_model_api prim;
         draw_mode_token := draw_mode_token prim |}
  | _ => prim
  end.

Definition draw_mode_map (v : Z) : option string :=
  if (v =? 2)%Z then Some "bounds"
  else if (v =? 3)%Z then Some "origin"
  else if (v =? 4)%Z then Some "cards"
  else None.

(** [UsdGeom.ModelAPI.Apply] comes before the look-up in the map: a value
    above 4 applies the schema and writes no draw mode. *)
Definition _apply_draw_mode (prim : ExportPrim) (m : Modifier) : ExportPrim :=
  match USD_DrawMode m with
  | Some draw_mode_val =>
      if (1 <? draw_mode_val)%Z
      then {| customData := customData prim;
              authored_instanceable := authored_instanceable prim;
              model_kind := model_kind prim;
              purpose_value := purpose_value prim;
              visibility_token := visibility_token prim;
              is_active := is_active prim;
              asset_version := asset_version prim;
              geom_model_api := true;
              draw_mode_token :=
                match draw_mode_map draw_mode_val with
                | Some d => Some d
                | None => draw_mode_token prim
                end |}
      else prim
  | None => prim
  end.

Definition _apply_payload_flag (prim : ExportPrim) (m : Modifier) : ExportPrim :=
  match USD_Payload m with
  | Some true => SetCustomDataByKey "usePayload" (CBool true) prim
  | _ => prim
  end.

(** The paths above a path: its beginnings that end just before a [/]. *)
Fixpoint ancestor_paths (prim_path : string) : list string :=
  match prim_path with
  | EmptyString => []
  | String c rest =>
      let below := map (String c) (ancestor_paths rest) in
      if startswith rest "/" then String c EmptyString :: below else below
  end.

(** [stage.GetPrimAtPath(prim_path).IsValid()] on the exported stage, whose
    map holds the prims of its layer: the stage composes nothing below a prim
    that is not active, so the prim is there when the map has it and every
    prim above it is active. The prim of [SetActive(False)] itself stays. *)
Definition IsValid (stage : gmap string ExportPrim) (prim_path : string) : bool :=
  match stage !! prim_path with
  | Some _ =>
      forallb (fun above => match stage !! above with
                            | Some prim => is_active prim
                            | None => true
                            end)
              (ancestor_paths prim_path)
  | None => false
  end.

Section ModifierProperties.
Context {spaces : SpaceTable}.

Definition _apply_asset_version (prim : ExportPrim) (m : Modifier) : ExportPrim :=
  match USD_AssetVersion m with
  | Some version =>
      if nonempty version && nonempty (strip version)
      then {| customData := customData prim;
              authored_instanceable := authored_instanceable prim;
              model_kind := model_kind prim;
              purpose_value := purpose_value prim;
              visibility_token := visibility_token prim;
              is_active := is_active prim;
              asset_version := Some (strip version);
              geom_model_api := geom_model_api prim;
              draw_mode_token := draw_mode_token prim |}
      else prim
  | None => prim
  end.

(** The nine calls of the loop body, in the order of the source. *)
Definition apply_modifier (prim : ExportPrim) (m : Modifier) : ExportPrim :=
  let prim := _apply_geom_type prim m in
  let prim := _apply_kind prim m in
  let prim := _apply_purpose prim m in
  let prim := _apply_instanceable prim m in
  let prim := _apply_hidden prim m in
  let prim := _apply_active prim m in
  let prim := _apply_asset_version prim m in
  let prim := _apply_draw_mode prim m in
  _apply_payload_flag prim m.

(** Step 1 of [PostExport]: [primsToNodeHandles] is the list of its items,
    each handle with the node [getNodeByHandle] gives for it; the stage maps
    the text of a path to the prim there. An item is passed over when it has
    no node, when its prim is not valid at that point of the loop, a prim
    above it having been made inactive by an earlier item or before, or when
    the node has no modifier. The result is the stage and [processed]. *)
Definition apply_properties (primsToNodeHandles : list (string * option MaxNode))
    (stage : gmap string ExportPrim) : gmap string ExportPrim * nat :=
  fold_left
    (fun acc item =>
       let '(stage, processed) := acc in
       let '(prim_path, node) := item in
       match node with
       | None => acc
       | Some node =>
           match stage !! prim_path with
           | None => acc
           | Some prim =>
               if IsValid stage prim_path then
                 match _get_usd_properties_modifier node with
                 | None => acc
                 | Some usd_props_mod =>
                     (<[prim_path := apply_modifier prim usd_props_mod]> stage,
                      S processed)
                 end
               else acc
           end
       end)
    primsToNodeHandles (stage, 0).

End ModifierProperties.

(** ** Reading the properties back ([Clone_USD_StageAssembler.py], lines 167-211)

    A source file is what the three look-ups of [read_prim_custom_data]
    answer: the default prim, the prim at [/name] and the children of the
    pseudo-root, an invalid prim being [None]. The file is [None] when it
    cannot be opened. *)
Record SourceFile := {
  GetDefaultPrim : option ExportPrim;
  GetPrimAtPath : string -> option ExportPrim;
  GetChildren : list ExportPrim
}.

Record Props := {
  props_customData : list (string * CustomValue);
  props_instanceable : option bool;
  props_kind : option string
}.

Definition read_prim_custom_data (usd_file : option SourceFile)
    (expected_name : option string) : Props :=
  let props := {| props_customData := []; props_instanceable := None;
                  props_kind := None |} in
  match usd_file with
  | None => props
  | Some src_stage =>
      let prim :=
        match GetDefaultPrim src_stage with
        | Some prim => Some prim
        | None =>
            let prim :=
              if truthy expected_name
              then GetPrimAtPath src_stage ("/" +:+ default "" expected_name)
              else None in
            match prim with
            | Some prim => Some prim
            | None => head (GetChildren src_stage)
            end
        end in
      match prim with
      | Some prim =>
          {| props_customData := customData prim;
             props_instanceable := authored_instanceable prim;
             props_kind := if nonempty (model_kind prim)
                           then Some (model_kind prim) else None |}
      | None => props
      end
  end.

(** The document the assembler works with: the properties read from the file,
    [usePayload] looked up in the custom data as at each call site
    ([props.get('customData', {}).get('usePayload', False)]). *)
Definition source_doc (rel_path : string) (props : Props) : SourceDoc :=
  {| ref_path := rel_path;
     use_payload :=
       match dict_get "usePayload" (props_customData props) with
       | Some v => value_truth v
       | None => false
       end;
     src_instanceable := props_instanceable props;
     src_kind := props_kind props |}.

(** [GetDefaultPrim] of [src_stage] made to answer [prim]. *)
Definition with_default_prim (prim : ExportPrim) (src_stage : SourceFile) : SourceFile :=
  {| GetDefaultPrim := Some prim;
     GetPrimAtPath := GetPrimAtPath src_stage;
     GetChildren := GetChildren src_stage |}.

(** The modifier the loop of step 1 finds for a path: that of the node of its
    item. *)
Definition modifier_at (primsToNodeHandles : list (string * option MaxNode))
    (prim_path : string) : option Modifier :=
  match dict_get prim_path primsToNodeHandles with
  | Some (Some node) => _get_usd_properties_modifier node
  | _ => None
  end.

(** The items of [primsToNodeHandles] with a node, a prim that is valid on
    [stage] and the modifier. *)
Definition counted (stage : gmap string ExportPrim) (item : string * option MaxNode) : bool :=
  match snd item with
  | Some node =>
      IsValid stage (fst item)
      && match _get_usd_properties_modifier node with Some _ => true | None => false end
  | None => false
  end.

(** Modifiers that leave [USD_Active] on. *)
Definition keeps_active (primsToNodeHandles : list (string * option MaxNode)) : bool :=
  forallb (fun item => match snd item with
                       | Some node =>
                           match _get_usd_properties_modifier node with
                           | Some m => match USD_Active m with
                                       | Some false => false
                                       | _ => true
                                       end
                           | None => true
                           end
                       | None => true
                       end)
          primsToNodeHandles.

(** A node with the modifier, set to kind [component], instanceable and
    payload, and the prim exported for it. *)
Definition box_prim : ExportPrim :=
  {| customData := []; authored_instanceable := None; model_kind := "";
     purpose_value := None; visibility_token := None; is_active := true;
     asset_version := None; geom_model_api := false; draw_mode_token := None |}.

Definition box_modifier : Modifier :=
  {| mod_name := "USD Properties"; USD_GeomType := Some 1%Z; USD_Kind := Some 4%Z;
     USD_Purpose := Some 1%Z; USD_Instanceable := Some true; USD_Hidden := Some false;
     USD_Active := Some true; USD_AssetVersion := Some ""; USD_DrawMode := Some 1%Z;
     USD_Payload := Some true |}.

Definition box_handles : list (string * option MaxNode) :=
  [("/root/Box", Some {| modifiers := Some [box_modifier] |});
   ("/root/Lamp", Some {| modifiers := Some [] |});
   ("/root/Gone", None)].

(** A parent whose modifier turns [USD_Active] off, before its child. *)
Definition off_modifier : Modifier :=
  {| mod_name := "USD Properties"; USD_GeomType := Some 1%Z; USD_Kind := Some 1%Z;
     USD_Purpose := Some 1%Z; USD_Instanceable := Some false; USD_Hidden := Some false;
     USD_Active := Some false; USD_AssetVersion := Some ""; USD_DrawMode := Some 1%Z;
     USD_Payload := Some false |}.

Definition off_handles : list (string * option MaxNode) :=
  [("/root/A", Some {| modifiers := Some [off_modifier] |});
   ("/root/A/B", Some {| modifiers := Some [box_modifier] |})].

Definition off_stage : gmap string ExportPrim :=
  <["/root" := box_prim]> (<["/root/A" := box_prim]> (<["/root/A/B" := box_prim]> ∅)).

(** A stage after items of step 1, against the stage before them: the same
    paths, and no prim active that was not. *)
Definition no_more_active (before after : gmap string ExportPrim) : Prop :=
  forall path,
    match before !! path, after !! path with
    | Some p, Some q => is_active q = true -> is_active p = true
    | None, None => True
    | _, _ => False
    end.

(* ================================================================== *)
(** * Properties *)
(* ================================================================== *)

Example remap_ex1 :
  _remap_path_str "/root/mtl/Gold" "/root" (Some "Hero") ["mtl"] None
  = Some "/Hero/mtl/Gold".
Proof. reflexivity. Qed.

Example remap_ex2 :
  _remap_path_str "/root/Hero/Mesh" "/root" (Some "Hero") ["mtl"] None
  = Some "/Hero/Mesh".
Proof. reflexivity. Qed.

Example remap_ex3 :
  _remap_path_str "/root/Scene_A/Arm" "/root/Scene_A" None [] (Some "/root")
  = Some "/root/Arm".
Proof. reflexivity. Qed.

Example remap_ex4 :
  _remap_path_str "/rootling/x" "/root" None [] None = None.
Proof. reflexivity. Qed.

Example parse_ex1 :
  @parse_name_suffixes ascii_only "Teapot_VARIANTA_RENDER" = ("Teapot", Some render, Some "A", false).
Proof. reflexivity. Qed.

Example parse_ex2 :
  @parse_name_suffixes ascii_only "Chair_variant_proxy_payload" = ("Chair", Some proxy, Some "1", true).
Proof. reflexivity. Qed.

Example parse_ex3 :
  @parse_name_suffixes ascii_only "A_PAYLOAD_PAYLOAD" = ("A_PAYLOAD", None, None, true).
Proof. reflexivity. Qed.

Example sanitize_ex1 : @make_valid_prim_name ascii_only "9 lives-2" = "_9_lives_2".
Proof. reflexivity. Qed.

Example sanitize_ex2 : @make_valid_prim_name ascii_only "" = "prim".
Proof. reflexivity. Qed.

Example variant_name_ex1 :
  @match_variant_name ascii_only "Teapot_VARIANT1" = Some ("Teapot", "1").
Proof. reflexivity. Qed.

(** ** The name sanitizer *)

Section SanitizerFacts.
Context {table : CodeTable}.

Lemma sanitize_chars_all (name : string) :
  all_chars name_char (sanitize_chars name) = true.
Proof.
  induction name as [|c rest IH]; simpl; [reflexivity|].
  rewrite IH, andb_true_r.
  unfold name_char.
  destruct (isalnum c || Ascii.eqb c underscore) eqn:E; [exact E|].
  apply orb_true_r.
Qed.

Lemma isdigit_underscore : isdigit underscore = false.
Proof. reflexivity. Qed.


End SanitizerFacts.

(** ** Dictionaries *)

Section DictFacts.
Context {V : Type}.
Implicit Types (d : list (string * V)) (k : string).

Lemma dict_get_In k d v : dict_get k d = Some v -> In (k, v) d.
Proof.
  induction d as [|[k' v'] rest IH]; simpl; [discriminate|].
  destruct (String.eqb k' k) eqn:E.
  - apply String.eqb_eq in E. intros [= ->]. left. congruence.
  - intros Hg. right. auto.
Qed.

Lemma dict_get_keys k d : dict_get k d <> None <-> In k (dict_keys d).
Proof.
  induction d as [|[k' v'] rest IH]; simpl; [tauto|].
  destruct (String.eqb k' k) eqn:E.
  - apply String.eqb_eq in E. split; [intros _; left; exact E|discriminate].
  - apply String.eqb_neq in E. rewrite IH. tauto.
Qed.

Lemma dict_mem_keys k d : dict_mem k d = true <-> In k (dict_keys d).
Proof.
  unfold dict_mem. rewrite <- dict_get_keys.
  destruct (dict_get k d); split; congruence.
Qed.

Lemma In_dict_get k v d : List.NoDup (dict_keys d) -> In (k, v) d -> dict_get k d = Some v.
Proof.
  induction d as [|[k' v'] rest IH]; simpl; [tauto|].
  intros Hnd [Heq|Hin].
  - injection Heq as -> ->. now rewrite String.eqb_refl.
  - apply List.NoDup_cons_iff in Hnd as [Hni Hnd].
    destruct (String.eqb k' k) eqn:E.
    + apply String.eqb_eq in E. subst k'. exfalso. apply Hni.
      change (In (fst (k, v)) (map fst rest)). now apply in_map.
    + auto.
Qed.

Lemma dict_keys_alter (f : V -> V) k d : dict_keys (dict_alter f k d) = dict_keys d.
Proof.
  induction d as [|[k' v'] rest IH]; simpl; [reflexivity|].
  destruct (String.eqb k' k); simpl; [reflexivity|]. now rewrite IH.
Qed.

Lemma dict_get_alter (f : V -> V) k k' d :
  dict_get k' (dict_alter f k d)
  = if String.eqb k k' then option_map f (dict_get k' d) else dict_get k' d.
Proof.
  induction d as [|[k0 v0] rest IH]; simpl.
  - now destruct (String.eqb k k').
  - destruct (String.eqb k0 k) eqn:E0; simpl.
    + apply String.eqb_eq in E0. subst k0.
      destruct (String.eqb k k'); reflexivity.
    + destruct (String.eqb k0 k') eqn:E1.
      * apply String.eqb_eq in E1. subst k0.
        rewrite String.eqb_sym, E0. reflexivity.
      * exact IH.
Qed.

Lemma dict_keys_set k v d :
  dict_keys (dict_set k v d) = if dict_mem k d then dict_keys d else dict_keys d ++ [k].
Proof.
  unfold dict_mem.
  induction d as [|[k' v'] rest IH]; simpl; [reflexivity|].
  destruct (String.eqb k' k) eqn:E; simpl; [reflexivity|].
  rewrite IH. now destruct (dict_get k rest).
Qed.

Lemma dict_get_set k v k' d :
  dict_get k' (dict_set k v d) = if String.eqb k k' then Some v else dict_get k' d.
Proof.
  induction d as [|[k0 v0] rest IH]; simpl.
  - reflexivity.
  - destruct (String.eqb k0 k) eqn:E0; simpl.
    + apply String.eqb_eq in E0. subst k0. now destruct (String.eqb k k').
    + destruct (String.eqb k0 k') eqn:E1.
      * apply String.eqb_eq in E1. subst k0.
        rewrite String.eqb_sym, E0. reflexivity.
      * exact IH.
Qed.

Lemma dict_set_NoDup k v d : List.NoDup (dict_keys d) -> List.NoDup (dict_keys (dict_set k v d)).
Proof.
  intros Hnd. rewrite dict_keys_set.
  destruct (dict_mem k d) eqn:E; [exact Hnd|].
  apply List.NoDup_app; [exact Hnd|repeat constructor; simpl; tauto|].
  intros x Hx [<-|[]].
  apply dict_mem_keys in Hx. congruence.
Qed.

End DictFacts.

(** ** The hierarchy tree builder *)

Lemma hierarchy_fold_NoDup (entries acc : list (string * option string)) :
  List.NoDup (dict_keys acc) ->
  List.NoDup (dict_keys (fold_left (fun h e => dict_set (fst e) (snd e) h) entries acc)).
Proof.
  revert acc. induction entries as [|e rest IH]; intros acc Hnd; simpl; [exact Hnd|].
  apply IH. now apply dict_set_NoDup.
Qed.

Lemma hierarchy_fold_keys (entries acc : list (string * option string)) (n : string) :
  In n (dict_keys (fold_left (fun h e => dict_set (fst e) (snd e) h) entries acc))
  <-> In n (dict_keys acc) \/ In n (map fst entries).
Proof.
  revert acc. induction entries as [|e rest IH]; intros acc; simpl; [tauto|].
  rewrite IH, dict_keys_set.
  destruct (dict_mem (fst e) acc) eqn:E.
  - apply dict_mem_keys in E. split; [tauto|].
    intros [H|[H|H]]; auto. subst n. auto.
  - rewrite in_app_iff. simpl. tauto.
Qed.

Lemma hierarchy_fold_get (entries acc : list (string * option string)) (n : string) :
  dict_get n (fold_left (fun h e => dict_set (fst e) (snd e) h) entries acc)
  = match dict_get n (rev entries) with
    | Some v => Some v
    | None => dict_get n acc
    end.
Proof.
  revert acc. induction entries as [|e rest IH]; intros acc; simpl; [reflexivity|].
  rewrite IH, dict_get_set.
  assert (Happ : forall l : list (string * option string),
             dict_get n (l ++ [e])
             = match dict_get n l with
               | Some v => Some v
               | None => if String.eqb (fst e) n then Some (snd e) else None
               end).
  { induction l as [|[k v] l IHl]; simpl.
    - destruct e as [k v]. reflexivity.
    - destruct (String.eqb k n); [reflexivity|exact IHl]. }
  rewrite Happ. destruct (dict_get n (rev rest)); [reflexivity|].
  destruct (String.eqb (fst e) n); reflexivity.
Qed.

Lemma skeleton_alter (c p : string) (tree : list (string * TreeNode)) :
  skeleton (dict_alter (append_child c) p tree) = skeleton tree.
Proof.
  unfold skeleton.
  induction tree as [|[k v] rest IH]; simpl; [reflexivity|].
  destruct (String.eqb k p); simpl; [reflexivity|]. now rewrite IH.
Qed.

Lemma skeleton_link (tree : list (string * TreeNode)) (item : string * option string) :
  skeleton (link_child tree item) = skeleton tree.
Proof.
  unfold link_child. destruct (snd item) as [p|]; [|reflexivity].
  destruct (nonempty p && dict_mem p tree); [apply skeleton_alter|reflexivity].
Qed.

Lemma skeleton_fold (items : list (string * option string)) (tree : list (string * TreeNode)) :
  skeleton (fold_left link_child items tree) = skeleton tree.
Proof.
  revert tree. induction items as [|i rest IH]; intros tree; simpl; [reflexivity|].
  now rewrite IH, skeleton_link.
Qed.

Lemma skeleton_build (h : list (string * option string)) :
  skeleton (build_hierarchy_tree h) = h.
Proof.
  unfold build_hierarchy_tree. rewrite skeleton_fold.
  unfold skeleton. rewrite map_map. simpl.
  induction h as [|[k v] rest IH]; simpl; [reflexivity|]. now rewrite IH.
Qed.

Lemma skeleton_keys (tree : list (string * TreeNode)) :
  dict_keys (skeleton tree) = dict_keys tree.
Proof. unfold skeleton, dict_keys. rewrite map_map. reflexivity. Qed.

Lemma skeleton_get (tree : list (string * TreeNode)) (n : string) :
  dict_get n (skeleton tree) = option_map parent (dict_get n tree).
Proof.
  induction tree as [|[k v] rest IH]; simpl; [reflexivity|].
  destruct (String.eqb k n); [reflexivity|exact IH].
Qed.

Lemma skeleton_roots (tree : list (string * TreeNode)) :
  get_root_nodes tree = null_parent_names (skeleton tree).
Proof.
  unfold get_root_nodes, null_parent_names.
  induction tree as [|[k v] rest IH]; simpl; [reflexivity|].
  destruct (parent v); simpl; [exact IH|]. now rewrite IH.
Qed.

(** Every name in a children list was put there by the item that names that
    node as its parent. *)
Lemma link_child_children (tree : list (string * TreeNode)) (item : string * option string)
    (m c : string) (node : TreeNode) :
  dict_get m (link_child tree item) = Some node ->
  In c (children node) ->
  (exists node0, dict_get m tree = Some node0 /\ In c (children node0))
  \/ item = (c, Some m).
Proof.
  unfold link_child. destruct item as [i [p|]]; simpl; [|eauto].
  destruct (nonempty p && dict_mem p tree); [|eauto].
  rewrite dict_get_alter.
  destruct (String.eqb p m) eqn:E; [|eauto].
  apply String.eqb_eq in E. subst p.
  destruct (dict_get m tree) as [node0|]; simpl; [|discriminate].
  intros [= <-]. simpl. rewrite in_app_iff. simpl.
  intros [H|[H|[]]]; [eauto|]. subst. now right.
Qed.

Lemma fold_link_children (items : list (string * option string))
    (tree : list (string * TreeNode)) (m c : string) (node : TreeNode) :
  dict_get m (fold_left link_child items tree) = Some node ->
  In c (children node) ->
  (exists node0, dict_get m tree = Some node0 /\ In c (children node0))
  \/ In (c, Some m) items.
Proof.
  revert tree. induction items as [|i rest IH]; intros tree Hg Hc; simpl in *; [eauto|].
  destruct (IH _ Hg Hc) as [(node0 & Hg0 & Hc0)|Hin]; [|auto].
  destruct (link_child_children _ _ _ _ _ Hg0 Hc0) as [H|H]; auto.
Qed.

Lemma initial_tree_children (h : list (string * option string)) (m : string) (node0 : TreeNode) :
  dict_get m (map (fun e => (fst e, {| parent := snd e; children := [] |})) h) = Some node0 ->
  children node0 = [].
Proof.
  induction h as [|[k v] rest IH]; simpl; [discriminate|].
  destruct (String.eqb k m); [now intros [= <-]|exact IH].
Qed.

Lemma build_children (h : list (string * option string)) (m c : string) (node : TreeNode) :
  dict_get m (build_hierarchy_tree h) = Some node ->
  In c (children node) ->
  In (c, Some m) h /\ dict_mem m h = true.
Proof.
  intros Hg Hc. split.
  - destruct (fold_link_children _ _ _ _ _ Hg Hc) as [(node0 & Hg0 & Hc0)|H]; [|exact H].
    apply initial_tree_children in Hg0. rewrite Hg0 in Hc0. destruct Hc0.
  - apply dict_mem_keys. rewrite <- (skeleton_build h) at 1. rewrite skeleton_keys.
    apply dict_get_keys. congruence.
Qed.

(** C9. For every list of hierarchy entries the tree has exactly one node per
    entry name, each with the parent the table gives it (the last line of a name
    decides); the roots are exactly the entries whose parent is null; and an
    entry whose parent name has no entry of its own is in the tree but in no
    node's children list. *)
Theorem build_hierarchy_tree_correct (entries : list (string * option string)) :
  List.NoDup (dict_keys (tree_of_entries entries))
  /\ (forall n, In n (dict_keys (tree_of_entries entries)) <-> In n (map fst entries))
  /\ (forall n, option_map parent (dict_get n (tree_of_entries entries))
                = dict_get n (rev entries))
  /\ get_root_nodes (tree_of_entries entries)
     = null_parent_names (hierarchy_of_entries entries)
  /\ (forall n, In n (get_root_nodes (tree_of_entries entries))
                <-> dict_get n (rev entries) = Some None)
  /\ (forall n p, dict_get n (rev entries) = Some (Some p) ->
                  ~ In p (map fst entries) ->
                  In n (dict_keys (tree_of_entries entries))
                  /\ forall m node, dict_get m (tree_of_entries entries) = Some node ->
                                    ~ In n (children node)).
Proof.
  unfold tree_of_entries.
  set (h := hierarchy_of_entries entries).
  assert (Hnd : List.NoDup (dict_keys h)).
  { apply hierarchy_fold_NoDup. constructor. }
  assert (Hkeys : forall n, In n (dict_keys h) <-> In n (map fst entries)).
  { intros n. unfold h, hierarchy_of_entries. rewrite hierarchy_fold_keys. simpl. tauto. }
  assert (Hget : forall n, dict_get n h = dict_get n (rev entries)).
  { intros n. unfold h, hierarchy_of_entries. rewrite hierarchy_fold_get.
    now destruct (dict_get n (rev entries)). }
  assert (Htk : dict_keys (build_hierarchy_tree h) = dict_keys h).
  { rewrite <- skeleton_keys, skeleton_build. reflexivity. }
  assert (Hpar : forall n, option_map parent (dict_get n (build_hierarchy_tree h))
                           = dict_get n (rev entries)).
  { intros n. rewrite <- skeleton_get, skeleton_build. apply Hget. }
  assert (Hroots : forall n, In n (null_parent_names h) <-> dict_get n h = Some None).
  { intros n. unfold null_parent_names. rewrite in_map_iff. split.
    - intros ([k v] & <- & Hin). apply filter_In in Hin as [Hin Hv]. simpl in *.
      destruct v; [discriminate|]. now apply In_dict_get.
    - intros Hg. exists (n, None). split; [reflexivity|].
      apply filter_In. split; [now apply dict_get_In|reflexivity]. }
  split; [rewrite Htk; exact Hnd|].
  split; [intros n; rewrite Htk; apply Hkeys|].
  split; [exact Hpar|].
  split; [rewrite skeleton_roots, skeleton_build; reflexivity|].
  split; [intros n; rewrite skeleton_roots, skeleton_build, <- Hget; apply Hroots|].
  intros n p Hn Hp. split.
  - rewrite Htk. apply dict_get_keys. rewrite Hget. congruence.
  - intros m node Hm Hc. destruct (build_children _ _ _ _ Hm Hc) as [Hin Hmem].
    apply (In_dict_get _ _ _ Hnd) in Hin. rewrite Hget in Hin.
    rewrite Hin in Hn. injection Hn as ->.
    apply Hp. apply Hkeys. now apply dict_mem_keys.
Qed.

(** ** Buckets *)

Section AppendFacts.
Context {A : Type}.
Implicit Types (d : list (string * list A)) (k : string).

Lemma dict_get_snoc {V : Type} k k' (v : V) (d : list (string * V)) :
  dict_get k (d ++ [(k', v)])
  = match dict_get k d with
    | Some x => Some x
    | None => if String.eqb k' k then Some v else None
    end.
Proof.
  induction d as [|[k0 v0] rest IH]; simpl; [reflexivity|].
  destruct (String.eqb k0 k); [reflexivity|exact IH].
Qed.

Lemma dict_get_append k k' (x : A) d :
  dict_get k (dict_append k' x d)
  = if String.eqb k' k
    then Some (match dict_get k d with Some l => l ++ [x] | None => [x] end)
    else dict_get k d.
Proof.
  unfold dict_append, dict_mem.
  destruct (dict_get k' d) as [l'|] eqn:E.
  - rewrite dict_get_alter.
    destruct (String.eqb k' k) eqn:Ek; [|reflexivity].
    apply String.eqb_eq in Ek. subst k'. rewrite E. reflexivity.
  - rewrite dict_get_snoc.
    destruct (String.eqb k' k) eqn:Ek.
    + apply String.eqb_eq in Ek. subst k'. rewrite E. reflexivity.
    + now destruct (dict_get k d).
Qed.

Lemma dict_append_NoDup k (x : A) d :
  List.NoDup (dict_keys d) -> List.NoDup (dict_keys (dict_append k x d)).
Proof.
  intros Hnd. unfold dict_append.
  destruct (dict_mem k d) eqn:E.
  - now rewrite dict_keys_alter.
  - unfold dict_keys. rewrite map_app. simpl.
    apply List.NoDup_app; [exact Hnd|repeat constructor; simpl; tauto|].
    intros y Hy [<-|[]]. apply dict_mem_keys in Hy. congruence.
Qed.

(** Filling buckets item by item: each key ends with its items, in order. *)
Lemma fold_append_get {B : Type} (key : B -> string) (f : B -> A) (l : list B) d k :
  dict_get k (fold_left (fun acc b => dict_append (key b) (f b) acc) l d)
  = match dict_get k d, map f (List.filter (fun b => String.eqb (key b) k) l) with
    | Some old, new => Some (old ++ new)
    | None, [] => None
    | None, new => Some new
    end.
Proof.
  revert d. induction l as [|b rest IH]; intros d; simpl.
  - destruct (dict_get k d); [now rewrite app_nil_r|reflexivity].
  - rewrite IH, dict_get_append.
    destruct (String.eqb (key b) k); simpl.
    + destruct (dict_get k d); [now rewrite <- app_assoc|reflexivity].
    + reflexivity.
Qed.

Lemma fold_append_NoDup {B : Type} (key : B -> string) (f : B -> A) (l : list B) d :
  List.NoDup (dict_keys d) ->
  List.NoDup (dict_keys (fold_left (fun acc b => dict_append (key b) (f b) acc) l d)).
Proof.
  revert d. induction l as [|b rest IH]; intros d Hnd; simpl; [exact Hnd|].
  apply IH. now apply dict_append_NoDup.
Qed.

End AppendFacts.

Lemma dict_get_remove {V : Type} (k k' : string) (d : list (string * V)) :
  List.NoDup (dict_keys d) ->
  dict_get k' (dict_remove k d) = if String.eqb k k' then None else dict_get k' d.
Proof.
  induction d as [|[k0 v0] rest IH]; simpl; intros Hnd.
  - now destruct (String.eqb k k').
  - apply List.NoDup_cons_iff in Hnd as [Hni Hnd].
    destruct (String.eqb k0 k) eqn:E0.
    + apply String.eqb_eq in E0. subst k0.
      destruct (String.eqb k k') eqn:E1; [|reflexivity].
      apply String.eqb_eq in E1. subst k'.
      destruct (dict_get k rest) eqn:G; [|reflexivity].
      exfalso. apply Hni. apply dict_get_keys. congruence.
    + simpl. destruct (String.eqb k0 k') eqn:E1.
      * apply String.eqb_eq in E1. subst k0. now rewrite String.eqb_sym, E0.
      * now apply IH.
Qed.

Lemma dict_remove_NoDup {V : Type} (k : string) (d : list (string * V)) :
  List.NoDup (dict_keys d) -> List.NoDup (dict_keys (dict_remove k d)).
Proof.
  induction d as [|[k0 v0] rest IH]; simpl; intros Hnd; [constructor|].
  apply List.NoDup_cons_iff in Hnd as [Hni Hnd].
  destruct (String.eqb k0 k); [exact Hnd|].
  simpl. constructor; [|now apply IH].
  intros Hin. apply Hni. clear -Hin.
  induction rest as [|[k1 v1] rest IH]; simpl in *; [exact Hin|].
  destruct (String.eqb k1 k); simpl in *; tauto.
Qed.

(** ** Purpose buckets of a group *)


Lemma filled_NoDup (group : list Item) : List.NoDup (dict_keys (filled group)).
Proof.
  unfold filled.
  apply (fold_append_NoDup bucket_key (fun it : Item => it)). constructor.
Qed.





(** ** Strings *)

Lemma append_cons_str (x : ascii) (a b : string) : String x a +:+ b = String x (a +:+ b).
Proof. reflexivity. Qed.

Lemma append_nil_str (b : string) : "" +:+ b = b.
Proof. reflexivity. Qed.

Lemma app_assoc_str (a b c : string) : (a +:+ b) +:+ c = a +:+ (b +:+ c).
Proof.
  induction a as [|x a IH]; [reflexivity|].
  rewrite !append_cons_str. f_equal. exact IH.
Qed.

Lemma app_nil_r_str (a : string) : a +:+ "" = a.
Proof.
  induction a as [|x a IH]; [reflexivity|].
  rewrite append_cons_str. f_equal. exact IH.
Qed.

Lemma length_app_str (a b : string) :
  String.length (a +:+ b) = String.length a + String.length b.
Proof.
  induction a as [|x a IH]; [reflexivity|].
  rewrite append_cons_str. simpl. f_equal. exact IH.
Qed.

Lemma startswith_app (p r : string) : startswith (p +:+ r) p = true.
Proof.
  induction p as [|x p IH]; [reflexivity|].
  rewrite append_cons_str. simpl. now rewrite Ascii.eqb_refl, IH.
Qed.

Lemma drop_app (p r : string) : drop_str (String.length p) (p +:+ r) = r.
Proof.
  induction p as [|x p IH]; [reflexivity|].
  rewrite append_cons_str. simpl. exact IH.
Qed.

Lemma startswith_inv (s p : string) :
  startswith s p = true -> s = p +:+ drop_str (String.length p) s.
Proof.
  revert s. induction p as [|x p IH]; intros s; simpl.
  - reflexivity.
  - destruct s as [|y s]; [discriminate|].
    intros H. apply andb_true_iff in H as [Hxy H].
    apply Ascii.eqb_eq in Hxy. subst y. rewrite append_cons_str. f_equal. now apply IH.
Qed.

Lemma startswith_iff (s p : string) :
  startswith s p = true <-> exists r, s = p +:+ r.
Proof.
  split.
  - intros H. eexists. now apply startswith_inv.
  - intros [r ->]. apply startswith_app.
Qed.

Lemma startswith_slash (s : string) :
  startswith s "/" = true <-> exists r, s = String slash r.
Proof.
  rewrite startswith_iff. split; intros [r ->]; exists r; reflexivity.
Qed.

Lemma app_inv_head_str (p a b : string) : p +:+ a = p +:+ b -> a = b.
Proof.
  induction p as [|x p IH]; [tauto|].
  rewrite !append_cons_str. intros [= H]. auto.
Qed.

Lemma app_inv_tail_str (a b x : string) : a +:+ x = b +:+ x -> a = b.
Proof.
  revert b. induction a as [|c a IH]; intros [|c' b] H.
  - reflexivity.
  - apply (f_equal String.length) in H. rewrite !length_app_str in H. simpl in H. lia.
  - apply (f_equal String.length) in H. rewrite !length_app_str in H. simpl in H. lia.
  - rewrite !append_cons_str in H. injection H as -> H. f_equal. now apply IH.
Qed.

Lemma rstrip_slash_root : rstrip_slash "/" = "".
Proof. reflexivity. Qed.

Lemma lstrip_slash_relative (s : string) : startswith (lstrip_slash s) "/" = false.
Proof.
  induction s as [|c s IH]; simpl; [reflexivity|].
  destruct (Ascii.eqb c slash) eqn:E; [exact IH|].
  change (Ascii.eqb slash c && true = false). now rewrite Ascii.eqb_sym, E.
Qed.

(** ** The path remapper *)

Lemma under_or_at_test (path prefix : string) :
  startswith path (prefix +:+ "/") || String.eqb path prefix = true
  <-> exists rest, under_or_at path prefix rest.
Proof.
  rewrite orb_true_iff, startswith_iff, String.eqb_eq. unfold under_or_at. split.
  - intros [[r ->]| ->].
    + exists ("/" +:+ r). rewrite app_assoc_str. split; [reflexivity|now right].
    + exists "". rewrite app_nil_r_str. split; [reflexivity|now left].
  - intros (rest & -> & [->|H]).
    + right. apply app_nil_r_str.
    + left. apply startswith_slash in H as [r ->]. exists r.
      now rewrite app_assoc_str.
Qed.

Lemma under_or_at_drop (path prefix rest : string) :
  under_or_at path prefix rest -> drop_str (String.length prefix) path = rest.
Proof. intros [-> _]. apply drop_app. Qed.

Lemma remap_mtl_some (path strip nt : string) (mtl_names : list string) (r : string) :
  remap_mtl path strip nt mtl_names = Some r ->
  r = "/" +:+ nt +:+ drop_str (String.length strip) path
  /\ exists m rest, In m mtl_names /\ under_or_at path (strip +:+ "/" +:+ m) rest.
Proof.
  induction mtl_names as [|m ms IH]; cbn [remap_mtl In]; [discriminate|].
  destruct (startswith path ((strip +:+ "/" +:+ m) +:+ "/")
            || String.eqb path (strip +:+ "/" +:+ m)) eqn:E.
  - apply under_or_at_test in E as [rest Hu]. intros [= Hr]. split; [|eauto].
    rewrite <- Hr, (under_or_at_drop _ _ _ Hu). destruct Hu as [Hp _].
    rewrite Hp, !app_assoc_str, drop_app. reflexivity.
  - intros H. destruct (IH H) as (Hr & m' & rest & Hin & Hu).
    split; [exact Hr|]. exists m', rest. auto.
Qed.

Lemma remap_mtl_none (path strip nt : string) (mtl_names : list string) :
  remap_mtl path strip nt mtl_names = None ->
  forall m rest, In m mtl_names -> ~ under_or_at path (strip +:+ "/" +:+ m) rest.
Proof.
  induction mtl_names as [|m0 ms IH]; cbn [remap_mtl In]; [tauto|].
  destruct (startswith path ((strip +:+ "/" +:+ m0) +:+ "/")
            || String.eqb path (strip +:+ "/" +:+ m0)) eqn:E; [discriminate|].
  intros H m rest [<-|Hin] Hu.
  - assert (Ht : startswith path ((strip +:+ "/" +:+ m0) +:+ "/")
                 || String.eqb path (strip +:+ "/" +:+ m0) = true).
    { apply under_or_at_test. eauto. }
    congruence.
  - exact (IH H m rest Hin Hu).
Qed.

Lemma nonempty_iff (s : string) : nonempty s = true <-> s <> "".
Proof. destruct s; simpl; split; congruence. Qed.

Lemma nested_stage_some (path strip : string) (nest_target : option string)
    (mtl_names : list string) (r : string) :
  nested_stage path strip nest_target mtl_names = Some r ->
  in_nested_scope path strip nest_target mtl_names
  /\ exists nt, nest_target = Some nt
                /\ r = "/" +:+ nt +:+ drop_str (String.length strip) path.
Proof.
  unfold nested_stage, in_nested_scope.
  destruct nest_target as [nt|]; [|discriminate].
  destruct mtl_names as [|m0 ms]; [discriminate|].
  destruct (nonempty nt) eqn:En; [|discriminate].
  intros H. apply remap_mtl_some in H as (Hr & m & rest & Hin & Hu).
  apply nonempty_iff in En. split; [|eauto].
  exists nt, m, rest. auto.
Qed.

Lemma nested_stage_none (path strip : string) (nest_target : option string)
    (mtl_names : list string) :
  nested_stage path strip nest_target mtl_names = None ->
  ~ in_nested_scope path strip nest_target mtl_names.
Proof.
  unfold nested_stage, in_nested_scope.
  intros H (nt & m & rest & -> & Hnt & Hin & Hu).
  destruct mtl_names as [|m0 ms]; [destruct Hin|].
  apply nonempty_iff in Hnt. rewrite Hnt in H.
  exact (remap_mtl_none _ _ _ _ H m rest Hin Hu).
Qed.

Lemma startswith_longer (s : string) : startswith s (s +:+ "/") = false.
Proof.
  destruct (startswith s (s +:+ "/")) eqn:E; [|reflexivity].
  apply startswith_iff in E as [r Hr].
  apply (f_equal String.length) in Hr. rewrite !length_app_str in Hr. simpl in Hr. lia.
Qed.

(** What [_remap_path_str] returns once the first stage has found nothing. *)
Lemma remap_unnested (path strip : string) (nest_target : option string)
    (mtl_names : list string) (rp : option string) :
  nested_stage path strip nest_target mtl_names = None ->
  (forall rest, under_or_at path strip rest ->
     _remap_path_str path strip nest_target mtl_names rp
     = Some (if nonempty rest then prefix_of_replacement rp +:+ rest else root_or rp))
  /\ ((forall rest, ~ under_or_at path strip rest) ->
      _remap_path_str path strip nest_target mtl_names rp = None).
Proof.
  intros Hn. unfold _remap_path_str.
  rewrite Hn. split.
  - intros rest [-> [->|Hs]].
    + rewrite app_nil_r_str, startswith_longer, String.eqb_refl. simpl.
      now destruct rp.
    + apply startswith_slash in Hs as [r ->].
      assert (Hp : startswith (strip +:+ String slash r) (strip +:+ "/") = true).
      { apply startswith_iff. exists r. now rewrite app_assoc_str. }
      rewrite Hp, drop_app. simpl.
      destruct rp as [rp|]; [|reflexivity]. simpl.
      destruct (String.eqb rp "/") eqn:E; [|reflexivity].
      apply String.eqb_eq in E. subst rp. reflexivity.
  - intros Hno.
    destruct (startswith path (strip +:+ "/") || String.eqb path strip) eqn:E.
    + apply under_or_at_test in E as [rest Hu]. destruct (Hno rest Hu).
    + apply orb_false_iff in E as [-> ->]. reflexivity.
Qed.

Lemma remap_nested (path strip : string) (nest_target : option string)
    (mtl_names : list string) (rp : option string) (nt m rest : string) :
  nest_target = Some nt -> nt <> "" -> In m mtl_names ->
  under_or_at path (strip +:+ "/" +:+ m) rest ->
  _remap_path_str path strip nest_target mtl_names rp
  = Some ("/" +:+ nt +:+ "/" +:+ m +:+ rest).
Proof.
  intros -> Hnt Hin Hu. unfold _remap_path_str.
  destruct (nested_stage path strip (Some nt) mtl_names) as [r|] eqn:E.
  - apply nested_stage_some in E as (_ & nt' & [= <-] & ->).
    destruct Hu as [-> _]. now rewrite !app_assoc_str, drop_app.
  - exfalso. apply nested_stage_none in E. apply E.
    exists nt, m, rest. auto.
Qed.

Lemma remap_entries_spec (strip : string) (nest_target : option string)
    (mtl_names : list string) (rp : option string) (entries : list string) :
  remap_entries strip nest_target mtl_names rp entries
  = (map (entry_after strip nest_target mtl_names rp) entries,
     existsb (fun t => match _remap_path_str t strip nest_target mtl_names rp with
                       | Some _ => true
                       | None => false
                       end) entries).
Proof.
  induction entries as [|t rest IH]; simpl; [reflexivity|].
  rewrite IH. unfold entry_after.
  destruct (_remap_path_str t strip nest_target mtl_names rp); reflexivity.
Qed.

Lemma reauthor_spec (strip : string) (nest_target : option string)
    (mtl_names : list string) (rp : option string) (entries new : list string) :
  reauthor strip nest_target mtl_names rp entries = Some new
  <-> new = map (entry_after strip nest_target mtl_names rp) entries
      /\ exists t, In t entries
                   /\ _remap_path_str t strip nest_target mtl_names rp <> None.
Proof.
  unfold reauthor.
  assert (Hex : forall l,
    existsb (fun t => match _remap_path_str t strip nest_target mtl_names rp with
                      | Some _ => true
                      | None => false
                      end) l = true
    <-> exists t, In t l /\ _remap_path_str t strip nest_target mtl_names rp <> None).
  { intros l. rewrite existsb_exists. split; intros (t & Hin & Ht); exists t; split; auto.
    - destruct (_remap_path_str t strip nest_target mtl_names rp); congruence.
    - destruct (_remap_path_str t strip nest_target mtl_names rp); congruence. }
  destruct entries as [|e es].
  - split; [discriminate|]. intros (_ & t & [] & _).
  - rewrite remap_entries_spec.
    destruct (existsb _ (e :: es)) eqn:E.
    + split.
      * intros [= <-]. split; [reflexivity|]. now apply Hex.
      * intros [-> _]. reflexivity.
    + split; [discriminate|]. intros [_ H]. apply Hex in H. congruence.
Qed.

Lemma remap_changes (strip : string) (nest_target : option string)
    (mtl_names : list string) (rp : option string) (t q : string) :
  _remap_path_str t strip nest_target mtl_names rp = Some q ->
  (forall nt, nest_target = Some nt -> "/" +:+ nt <> strip) ->
  prefix_of_replacement rp <> strip ->
  root_or rp <> strip ->
  q <> t.
Proof.
  intros Hq Hnest Hpre Hroot Heq. subst q.
  destruct (nested_stage t strip nest_target mtl_names) as [r|] eqn:E.
  - unfold _remap_path_str in Hq. rewrite E in Hq. injection Hq as ->.
    apply nested_stage_some in E as ((nt0 & m & rest & Hn0 & _ & _ & Hu) & nt & Hn & Hr).
    destruct Hu as [Ht _]. subst t.
    rewrite !app_assoc_str, drop_app in Hr.
    rewrite <- (app_assoc_str "/" nt) in Hr.
    apply app_inv_tail_str in Hr. exact (Hnest nt Hn (eq_sym Hr)).
  - destruct (remap_unnested t strip nest_target mtl_names rp E) as [Hin Hout].
    destruct (startswith t (strip +:+ "/") || String.eqb t strip) eqn:Et.
    + apply under_or_at_test in Et as [rest Hu].
      rewrite (Hin rest Hu) in Hq. injection Hq as Hq.
      destruct Hu as [Ht _]. destruct rest as [|c rest]; simpl in Hq.
      * rewrite app_nil_r_str in Ht. congruence.
      * rewrite Ht in Hq. apply app_inv_tail_str in Hq. congruence.
    + rewrite Hout in Hq; [discriminate|].
      intros rest Hu.
      assert (startswith t (strip +:+ "/") || String.eqb t strip = true)
        by (apply under_or_at_test; eauto).
      congruence.
Qed.

(** The precedence of the rules of [_remap_path_str]: (1) with a nest target
    set and the path at or under [strip_prefix/<name>] for a name of the
    material list, the result is [/nest_target/<name>] and the remaining
    suffix; (2) else, with the path at [strip_prefix] or under it, the prefix
    is replaced by the replacement prefix (the document root by default);
    (3) else the result is [None]. A caller calls [SetTargets] exactly when
    the remapper returned a path for at least one entry; a path it returns
    differs from the entry whenever the prefix that is put in differs from
    [strip_prefix]. *)
Lemma remap_path_precedence (path strip : string) (nest_target : option string)
    (mtl_names : list string) (rp : option string) :
  (forall nt m rest,
      nest_target = Some nt -> nt <> "" -> In m mtl_names ->
      under_or_at path (strip +:+ "/" +:+ m) rest ->
      _remap_path_str path strip nest_target mtl_names rp
      = Some ("/" +:+ nt +:+ "/" +:+ m +:+ rest))
  /\ (~ in_nested_scope path strip nest_target mtl_names ->
      forall rest, under_or_at path strip rest ->
      _remap_path_str path strip nest_target mtl_names rp
      = Some (if nonempty rest then prefix_of_replacement rp +:+ rest else root_or rp))
  /\ (~ in_nested_scope path strip nest_target mtl_names ->
      (forall rest, ~ under_or_at path strip rest) ->
      _remap_path_str path strip nest_target mtl_names rp = None)
  /\ (forall entries new,
      reauthor strip nest_target mtl_names rp entries = Some new
      <-> new = map (entry_after strip nest_target mtl_names rp) entries
          /\ exists t, In t entries
                       /\ _remap_path_str t strip nest_target mtl_names rp <> None)
  /\ (forall t q,
      _remap_path_str t strip nest_target mtl_names rp = Some q ->
      (forall nt, nest_target = Some nt -> "/" +:+ nt <> strip) ->
      prefix_of_replacement rp <> strip ->
      root_or rp <> strip ->
      q <> t).
Proof.
  assert (Hnone : ~ in_nested_scope path strip nest_target mtl_names ->
                  nested_stage path strip nest_target mtl_names = None).
  { intros Hn. destruct (nested_stage path strip nest_target mtl_names) eqn:E;
      [|reflexivity].
    apply nested_stage_some in E as [E _]. contradiction. }
  split; [intros nt m rest; apply remap_nested|].
  split; [intros Hn; apply remap_unnested; auto|].
  split; [intros Hn; apply remap_unnested; auto|].
  split; [intros entries new; apply reauthor_spec|].
  intros t q. apply remap_changes.
Qed.



(** ** Skeleton joint tokens *)

Lemma remap_shape (t strip : string) (nest_target : option string)
    (mtl_names : list string) (rp : option string) (q : string) :
  _remap_path_str t strip nest_target mtl_names rp = Some q ->
  (exists nt, q = "/" +:+ nt +:+ drop_str (String.length strip) t)
  \/ (exists rest, under_or_at t strip rest
                   /\ q = if nonempty rest then prefix_of_replacement rp +:+ rest
                          else root_or rp).
Proof.
  intros Hq.
  destruct (nested_stage t strip nest_target mtl_names) as [r|] eqn:E.
  - left. unfold _remap_path_str in Hq. rewrite E in Hq. injection Hq as <-.
    apply nested_stage_some in E as (_ & nt & _ & ->). eauto.
  - right. destruct (remap_unnested t strip nest_target mtl_names rp E) as [Hin Hout].
    destruct (startswith t (strip +:+ "/") || String.eqb t strip) eqn:Et.
    + apply under_or_at_test in Et as [rest Hu]. exists rest. split; [exact Hu|].
      rewrite (Hin rest Hu) in Hq. congruence.
    + rewrite Hout in Hq; [discriminate|].
      intros rest Hu.
      assert (startswith t (strip +:+ "/") || String.eqb t strip = true)
        by (apply under_or_at_test; eauto).
      congruence.
Qed.

Lemma rstrip_slash_absolute (r : string) :
  startswith r "/" = true ->
  rstrip_slash r = "" \/ startswith (rstrip_slash r) "/" = true.
Proof.
  intros H. apply startswith_slash in H as [r' ->]. cbn [rstrip_slash].
  destruct (rstrip_slash r'); [left; reflexivity|right; reflexivity].
Qed.

Lemma startswith_app_l (a b p : string) :
  startswith a p = true -> startswith (a +:+ b) p = true.
Proof.
  intros H. apply startswith_iff in H as [r ->]. apply startswith_iff.
  exists (r +:+ b). apply app_assoc_str.
Qed.

Lemma remap_absolute (t strip : string) (nest_target : option string)
    (mtl_names : list string) (rp : option string) (q : string) :
  absolute_replacement rp ->
  _remap_path_str t strip nest_target mtl_names rp = Some q ->
  startswith q "/" = true.
Proof.
  intros Habs Hq. apply remap_shape in Hq as [[nt ->]|(rest & [_ Hrest] & ->)].
  - reflexivity.
  - destruct rest as [|c rest]; cbn [nonempty].
    + unfold root_or. destruct rp as [r|]; [|reflexivity].
      destruct r as [|c r]; cbn [nonempty]; [reflexivity|].
      destruct Habs as [Habs|Habs]; [discriminate|exact Habs].
    + destruct Hrest as [Hrest|Hrest]; [discriminate|].
      unfold prefix_of_replacement. destruct rp as [r|]; [|exact Hrest].
      destruct Habs as [->|Habs]; [exact Hrest|].
      destruct (rstrip_slash_absolute r Habs) as [->|H]; [exact Hrest|].
      now apply startswith_app_l.
Qed.

Lemma lstrip_slash_plain (s : string) :
  nonempty s = true -> startswith s "/" = false -> lstrip_slash s = s.
Proof.
  destruct s as [|c s]; [discriminate|]. intros _ H.
  change (Ascii.eqb slash c && true = false) in H.
  rewrite andb_true_r, Ascii.eqb_sym in H.
  cbn [lstrip_slash]. now rewrite H.
Qed.

Lemma startswith_app_nonempty (a b p : string) :
  nonempty a = true -> startswith (a +:+ b) "/" = startswith a "/".
Proof. destruct a as [|c a]; [discriminate|]. reflexivity. Qed.

Lemma format_relative (r : string) :
  startswith (_format_joint_token_path r false) "/" = false.
Proof. apply lstrip_slash_relative. Qed.

(** What [_remap_skeleton_joint_token] returns for a non-empty token that step
    1 left unresolved. *)
Lemma joint_token_unresolved (stage : list StagePrim) (token strip : string)
    (nest_target : option string) (mtl_names : list string)
    (content_root rp rel : option string) :
  nonempty token = true ->
  primary_joint_remap token strip nest_target mtl_names rp rel = None ->
  _remap_skeleton_joint_token stage token strip nest_target mtl_names content_root rp rel
  = match content_root with
    | None => token
    | Some root =>
        let token_abs := if startswith token "/" then token else "/" +:+ token in
        if nonempty root && negb (prim_valid stage token_abs)
           && prim_valid stage ("/" +:+ root +:+ token_abs)
        then _format_joint_token_path ("/" +:+ root +:+ token_abs) (startswith token "/")
        else token
    end.
Proof.
  intros Hne Hp. unfold _remap_skeleton_joint_token. rewrite Hne, Hp. cbn [negb].
  destruct content_root as [root|]; [|reflexivity]. cbv zeta.
  destruct (nonempty root); cbn [negb andb]; [|reflexivity].
  destruct (prim_valid stage (if startswith token "/" then token else "/" +:+ token));
    reflexivity.
Qed.

(** The style of a joint token. The output of [_remap_skeleton_joint_token] keeps the style
    of the token: a relative token gives a relative output, and an absolute
    token gives an absolute output provided the replacement prefix is absent,
    empty or itself absolute. A relative token that step 1 leaves unresolved
    gets the content root in front exactly when a content root is given, no
    prim is at the unprefixed path and a prim is at the prefixed path; otherwise
    it is returned unchanged. *)
Lemma joint_token_style (stage : list StagePrim) (token strip : string)
    (nest_target : option string) (mtl_names : list string)
    (content_root rp rel : option string) :
  (startswith token "/" = false ->
   startswith (_remap_skeleton_joint_token stage token strip nest_target mtl_names
                 content_root rp rel) "/" = false)
  /\ (startswith token "/" = true -> absolute_replacement rp ->
      startswith (_remap_skeleton_joint_token stage token strip nest_target mtl_names
                    content_root rp rel) "/" = true)
  /\ (startswith token "/" = false -> nonempty token = true ->
      primary_joint_remap token strip nest_target mtl_names rp rel = None ->
      (forall root, content_root = Some root -> root <> "" ->
         prim_valid stage ("/" +:+ token) = false ->
         prim_valid stage ("/" +:+ root +:+ "/" +:+ token) = true ->
         _remap_skeleton_joint_token stage token strip nest_target mtl_names
           content_root rp rel = lstrip_slash (root +:+ "/" +:+ token)
         /\ (startswith root "/" = false ->
             _remap_skeleton_joint_token stage token strip nest_target mtl_names
               content_root rp rel = root +:+ "/" +:+ token))
      /\ ((truthy content_root = false
           \/ prim_valid stage ("/" +:+ token) = true
           \/ (forall root, content_root = Some root ->
                 prim_valid stage ("/" +:+ root +:+ "/" +:+ token) = false)) ->
          _remap_skeleton_joint_token stage token strip nest_target mtl_names
            content_root rp rel = token)).
Proof.
  split; [|split].
  - (* relative stays relative *)
    intros Hrel. unfold _remap_skeleton_joint_token.
    destruct (nonempty token) eqn:Hne; cbn [negb]; [|exact Hrel].
    rewrite Hrel.
    destruct (primary_joint_remap token strip nest_target mtl_names rp rel);
      [apply format_relative|].
    destruct content_root as [root|]; [|exact Hrel].
    destruct (nonempty root); cbn [negb]; [|exact Hrel].
    destruct (prim_valid stage ("/" +:+ token)); [exact Hrel|].
    destruct (prim_valid stage ("/" +:+ root +:+ "/" +:+ token));
      [apply format_relative|exact Hrel].
  - (* absolute stays absolute *)
    intros Habs Hrp. unfold _remap_skeleton_joint_token.
    destruct (nonempty token) eqn:Hne; cbn [negb]; [|exact Habs].
    rewrite Habs. unfold primary_joint_remap. rewrite Habs. cbn [negb andb].
    destruct (_remap_path_str token strip nest_target mtl_names rp) as [q|] eqn:Hq.
    + cbn [_format_joint_token_path]. exact (remap_absolute _ _ _ _ _ _ Hrp Hq).
    + assert (Hnone : match rel with
                      | Some _ => @None string
                      | None => None
                      end = None) by (now destruct rel).
      rewrite Hnone.
      destruct content_root as [root|]; [|exact Habs].
      destruct (nonempty root); cbn [negb]; [|exact Habs].
      destruct (prim_valid stage token); [exact Habs|].
      destruct (prim_valid stage ("/" +:+ root +:+ token)); [reflexivity|exact Habs].
  - (* the content-root heuristic on a relative token *)
    intros Hrel Hne Hp.
    rewrite (joint_token_unresolved stage token strip nest_target mtl_names
               content_root rp rel Hne Hp).
    rewrite Hrel. cbv zeta. split.
    + intros root -> Hroot Hplain Hpre.
      apply nonempty_iff in Hroot. rewrite Hroot, Hplain, Hpre. cbn [negb andb].
      split; [reflexivity|].
      intros Hr. cbn [_format_joint_token_path].
      change (lstrip_slash ("/" +:+ root +:+ "/" +:+ token))
        with (lstrip_slash (root +:+ "/" +:+ token)).
      apply lstrip_slash_plain.
      * destruct root; [discriminate|reflexivity].
      * now rewrite (startswith_app_nonempty root _ "/" Hroot).
    + intros [Hc|[Hv|Hno]].
      * destruct content_root as [root|]; [|reflexivity].
        cbn [truthy] in Hc. now rewrite Hc.
      * destruct content_root as [root|]; [|reflexivity].
        rewrite Hv. cbn [negb]. now rewrite andb_false_r.
      * destruct content_root as [root|]; [|reflexivity].
        rewrite (Hno root eq_refl). now rewrite andb_false_r.
Qed.

(** C8. A joint token keeps its style where the remapper is called: after the
    wrapper is stripped (also by the fall-back) and after a scene wrapper is
    flattened under a skeletal root, the output starts with a slash exactly
    when the token does. A relative token that the primary remap leaves
    unresolved gets the content root in front only if no prim is at the
    unprefixed path and a prim is at the prefixed path, and is returned
    unchanged otherwise; after the flattening, where no content root is
    given, an unresolved token is returned unchanged. *)
Theorem joint_token_keeps_style (stage : list StagePrim) (token strip : string)
    (nest_target : option string) (mtl_names : list string)
    (default_name scene_wrapper_name : string) :
  startswith (joint_token_after_strip stage token strip nest_target mtl_names default_name)
             "/"
  = startswith token "/"
  /\ startswith (joint_token_after_flatten stage token strip scene_wrapper_name) "/"
     = startswith token "/"
  /\ (startswith token "/" = false -> nonempty token = true ->
      primary_joint_remap token strip nest_target mtl_names None None = None ->
      joint_token_after_strip stage token strip nest_target mtl_names default_name
      = if nonempty default_name
           && negb (prim_valid stage ("/" +:+ token))
           && prim_valid stage ("/" +:+ default_name +:+ "/" +:+ token)
        then lstrip_slash (default_name +:+ "/" +:+ token)
        else token)
  /\ (default_name <> "" -> startswith default_name "/" = false ->
      lstrip_slash (default_name +:+ "/" +:+ token) = default_name +:+ "/" +:+ token)
  /\ (primary_joint_remap token strip None [] (Some "/root") (Some scene_wrapper_name)
      = None ->
      joint_token_after_flatten stage token strip scene_wrapper_name = token).
Proof.
  assert (Hstyle : forall content_root rp rel, absolute_replacement rp ->
            startswith (_remap_skeleton_joint_token stage token strip nest_target
                          mtl_names content_root rp rel) "/"
            = startswith token "/").
  { intros content_root rp rel Hrp.
    destruct (joint_token_style stage token strip nest_target mtl_names content_root
                rp rel) as (Hrel & Habs & _).
    destruct (startswith token "/") eqn:E; [now apply Habs|now apply Hrel]. }
  assert (Hstyle' : forall content_root rp rel, absolute_replacement rp ->
            startswith (_remap_skeleton_joint_token stage token strip None []
                          content_root rp rel) "/"
            = startswith token "/").
  { intros content_root rp rel Hrp.
    destruct (joint_token_style stage token strip None [] content_root rp rel)
      as (Hrel & Habs & _).
    destruct (startswith token "/") eqn:E; [now apply Habs|now apply Hrel]. }
  split; [apply Hstyle; exact I|].
  split; [apply Hstyle'; right; reflexivity|].
  split; [|split].
  - intros Hrel Hne Hprim.
    unfold joint_token_after_strip, _remap_skeleton_joint_token.
    rewrite Hne, Hprim, Hrel. cbn [negb].
    destruct default_name as [|c root]; [reflexivity|]. cbn [nonempty negb andb].
    destruct (prim_valid stage ("/" +:+ token)); [reflexivity|]. cbn [negb andb].
    destruct (prim_valid stage _); reflexivity.
  - intros Hd Hs. destruct default_name as [|c root]; [now destruct Hd|].
    rewrite append_cons_str. cbn [lstrip_slash].
    cbn [startswith] in Hs. rewrite andb_true_r in Hs.
    unfold slash. rewrite Ascii.eqb_sym, Hs. reflexivity.
  - intros Hprim. unfold joint_token_after_flatten, _remap_skeleton_joint_token.
    rewrite Hprim. now destruct (negb (nonempty token)).
Qed.


(** ** The suffix parser *)

Lemma take_app (x m : string) : take_str (String.length x) (x +:+ m) = x.
Proof.
  induction x as [|c x IH]; [now destruct m|].
  rewrite append_cons_str. simpl. now rewrite IH.
Qed.

Section SearchFacts.
Context {A : Type} (here : string -> option A).

Lemma re_search_unfold (s : string) :
  re_search here s
  = match here s with
    | Some a => Some (0, a)
    | None =>
        match s with
        | EmptyString => None
        | String _ s' =>
            match re_search here s' with
            | Some (i, a) => Some (S i, a)
            | None => None
            end
        end
    end.
Proof. destruct s; reflexivity. Qed.

Lemma re_search_none_here (s : string) : re_search here s = None -> here s = None.
Proof. rewrite re_search_unfold. now destruct (here s). Qed.

Lemma re_search_none_tail (c : ascii) (s : string) :
  re_search here (String c s) = None -> re_search here s = None.
Proof.
  rewrite re_search_unfold. destruct (here (String c s)); [discriminate|].
  destruct (re_search here s) as [[i a]|]; [discriminate|reflexivity].
Qed.

(** A marker at the end of the string is found where it starts, provided no
    longer suffix matches. *)
Lemma search_hit (x m : string) (a : A) :
  here m = Some a ->
  (forall x1 y, x = x1 +:+ y -> y <> "" -> here (y +:+ m) = None) ->
  re_search here (x +:+ m) = Some (String.length x, a).
Proof.
  intros Hm. induction x as [|c x IH]; intros Hy.
  - rewrite append_nil_str, re_search_unfold, Hm. reflexivity.
  - rewrite re_search_unfold.
    rewrite (Hy "" (String c x) eq_refl) by discriminate.
    rewrite append_cons_str, IH; [reflexivity|].
    intros x1 y -> Hne. apply (Hy (String c x1) y); [reflexivity|exact Hne].
Qed.

(** No suffix matches when none of the suffixes that reach into [x] does and
    none inside [z] does. *)
Lemma search_miss (x z : string) :
  (forall y, here (y +:+ z) = None) ->
  re_search here z = None ->
  re_search here (x +:+ z) = None.
Proof.
  intros Hy Hz. induction x as [|c x IH]; [exact Hz|].
  rewrite re_search_unfold, (Hy (String c x)), append_cons_str, IH. reflexivity.
Qed.

End SearchFacts.

Lemma match_lit_ci_length (pat s r : string) :
  match_lit_ci pat s = Some r -> String.length s = String.length pat + String.length r.
Proof.
  revert s. induction pat as [|p pat IH]; intros s; simpl.
  - now intros [= ->].
  - destruct s as [|c s]; [discriminate|].
    destruct (ci_eq p c); [|discriminate]. intros H. simpl. f_equal. auto.
Qed.

Lemma at_dollar_length (r : string) : at_dollar r = true -> String.length r <= 1.
Proof. destruct r as [|c [|d r]]; simpl; intros; try lia; discriminate. Qed.

Lemma lit_dollar_length (pat s : string) :
  lit_dollar pat s = true ->
  String.length pat <= String.length s <= String.length pat + 1.
Proof.
  unfold lit_dollar. destruct (match_lit_ci pat s) as [r|] eqn:E; [|discriminate].
  intros Hd. apply match_lit_ci_length in E. apply at_dollar_length in Hd. lia.
Qed.

(** *** Evaluating the patterns on strings with unknown characters *)

#[local] Arguments ci_eq : simpl never.

(** Decides a comparison of two known characters, splits on any other. *)
Ltac ci_case_in H :=
  match type of H with
  | context [ci_eq ?x ?y] =>
      first
        [ let v := eval vm_compute in (ci_eq x y) in
          lazymatch v with
          | true => change (ci_eq x y) with true in H
          | false => change (ci_eq x y) with false in H
          end
        | let E := fresh "Eci" in destruct (ci_eq x y) eqn:E ];
      cbn beta iota in H
  end.

Ltac ci_eval_in H :=
  rewrite ?append_cons_str, ?append_nil_str in H;
  unfold lit_dollar in H; simpl in H;
  repeat ci_case_in H.

Lemma ci_eq_underscore (c : ascii) : ci_eq underscore c = true -> c = underscore.
Proof.
  intros H. destruct c as [[] [] [] [] [] [] [] []];
    try reflexivity; vm_compute in H; discriminate.
Qed.

Lemma lit_needs_underscore (pat : string) (c : ascii) (s : string) :
  c <> underscore -> lit_dollar (String underscore pat) (String c s) = false.
Proof.
  intros Hc. unfold lit_dollar. cbn [match_lit_ci].
  destruct (ci_eq underscore c) eqn:E; [|reflexivity].
  apply ci_eq_underscore in E. contradiction.
Qed.

Section MarkerFacts.
Context {table : CodeTable}.

Lemma isalnum_not_underscore (c : ascii) : isalnum c = true -> c <> underscore.
Proof. intros H ->. vm_compute in H. discriminate. Qed.

Lemma isalnum_word (c : ascii) : isalnum c = true -> is_word c = true.
Proof. intros H. unfold is_word. now rewrite H. Qed.

Lemma payload_here_first (c : ascii) (s : string) :
  c <> underscore -> payload_here (String c s) = None.
Proof. intros Hc. unfold payload_here. now rewrite lit_needs_underscore. Qed.

Lemma purpose_here_first (c : ascii) (s : string) :
  c <> underscore -> purpose_here (String c s) = None.
Proof. intros Hc. unfold purpose_here. now rewrite !lit_needs_underscore. Qed.

Lemma variant_here_first (c : ascii) (s : string) :
  c <> underscore -> variant_here (String c s) = None.
Proof.
  intros Hc. unfold variant_here. cbn [match_lit_ci].
  destruct (ci_eq "_" c) eqn:E; [|reflexivity].
  apply ci_eq_underscore in E. contradiction.
Qed.

(** An alphanumeric string holds no marker. *)
Lemma alnum_marker_free (t : string) :
  all_chars isalnum t = true -> marker_free t.
Proof.
  unfold marker_free. induction t as [|c t IH]; [repeat split; reflexivity|].
  cbn [all_chars]. intros H. apply andb_true_iff in H as [Hc Ht].
  apply isalnum_not_underscore in Hc. destruct (IH Ht) as (I1 & I2 & I3).
  repeat split; rewrite re_search_unfold.
  - now rewrite payload_here_first, I1.
  - now rewrite purpose_here_first, I2.
  - now rewrite variant_here_first, I3.
Qed.

End MarkerFacts.

(** Refutes a match of [pat] and [$] on [y +:+ z], [z] known: the length bound
    leaves a few shapes of [y], and each runs into a character that differs. *)
Ltac refute_lit y :=
  let E := fresh "E" in
  let Hl := fresh "Hl" in
  lazymatch goal with
  | |- lit_dollar ?pat ?s = false =>
      destruct (lit_dollar pat s) eqn:E; [exfalso|reflexivity];
      pose proof (lit_dollar_length _ _ E) as Hl;
      rewrite ?length_app_str in Hl;
      destruct y as [|? [|? [|? [|? ?]]]];
      try congruence;
      try (cbn [String.length] in Hl; lia);
      ci_eval_in E;
      first [discriminate | vm_compute in E; discriminate]
  end.

Lemma payload_not_longer (y : string) :
  y <> "" -> lit_dollar "_PAYLOAD" (y +:+ "_PAYLOAD") = false.
Proof. intros Hy. refute_lit y. Qed.

Lemma payload_not_purpose (p : Purpose) (y : string) :
  lit_dollar "_PAYLOAD" (y +:+ purpose_suffix (Some p)) = false.
Proof. destruct p; cbn [purpose_suffix]; refute_lit y. Qed.

Lemma render_not_longer (p : Purpose) (y : string) :
  (y <> "" \/ p <> render) ->
  lit_dollar "_RENDER" (y +:+ purpose_suffix (Some p)) = false.
Proof.
  intros H. destruct p; cbn [purpose_suffix];
    (destruct H as [Hy|Hp]; [|try congruence]); refute_lit y.
Qed.

Lemma proxy_not_longer (p : Purpose) (y : string) :
  (y <> "" \/ p <> proxy) ->
  lit_dollar "_PROXY" (y +:+ purpose_suffix (Some p)) = false.
Proof.
  intros H. destruct p; cbn [purpose_suffix];
    (destruct H as [Hy|Hp]; [|try congruence]); refute_lit y.
Qed.

Lemma guide_not_longer (p : Purpose) (y : string) :
  (y <> "" \/ p <> guide) ->
  lit_dollar "_GUIDE" (y +:+ purpose_suffix (Some p)) = false.
Proof.
  intros H. destruct p; cbn [purpose_suffix];
    (destruct H as [Hy|Hp]; [|try congruence]); refute_lit y.
Qed.

(** The same for a variant marker and its tag after [y]. *)
Ltac refute_lit_tag y tag :=
  let E := fresh "E" in
  let Hl := fresh "Hl" in
  lazymatch goal with
  | |- lit_dollar ?pat ?s = false =>
      destruct (lit_dollar pat s) eqn:E; [exfalso|reflexivity];
      pose proof (lit_dollar_length _ _ E) as Hl;
      rewrite ?length_app_str in Hl;
      destruct y as [|? [|? ?]]; destruct tag as [|? [|? ?]];
      try (cbn [String.length] in Hl; lia);
      ci_eval_in E;
      first [discriminate | vm_compute in E; discriminate]
  end.

Lemma payload_not_variant (y tag : string) :
  lit_dollar "_PAYLOAD" (y +:+ "_VARIANT" +:+ tag) = false.
Proof. refute_lit_tag y tag. Qed.

Lemma render_not_variant (y tag : string) :
  lit_dollar "_RENDER" (y +:+ "_VARIANT" +:+ tag) = false.
Proof. refute_lit_tag y tag. Qed.

Lemma proxy_not_variant (y tag : string) :
  lit_dollar "_PROXY" (y +:+ "_VARIANT" +:+ tag) = false.
Proof. refute_lit_tag y tag. Qed.

Lemma guide_not_variant (y tag : string) :
  lit_dollar "_GUIDE" (y +:+ "_VARIANT" +:+ tag) = false.
Proof. refute_lit_tag y tag. Qed.

Lemma match_lit_app (pat y m r : string) :
  match_lit_ci pat (y +:+ m) = Some r ->
  String.length pat <= String.length y ->
  exists y', match_lit_ci pat y = Some y' /\ r = y' +:+ m.
Proof.
  revert y. induction pat as [|p pat IH]; intros y; cbn [match_lit_ci].
  - intros [= <-] _. eauto.
  - destruct y as [|c y]; [cbn [String.length]; lia|].
    rewrite append_cons_str. destruct (ci_eq p c); [|discriminate].
    intros H Hl. apply IH; [exact H|cbn [String.length] in Hl; lia].
Qed.

Section VariantFacts.
Context {table : CodeTable}.

Lemma span_word_all (w : string) :
  all_chars is_word w = true -> span_word w = (w, "").
Proof.
  induction w as [|c w IH]; [reflexivity|]. cbn [all_chars span_word].
  intros H. apply andb_true_iff in H as [Hc Hw]. now rewrite Hc, (IH Hw).
Qed.

(** If a run of word characters followed by [$] starts at [y +:+ m], with [m]
    word characters and not empty, then [y] is word characters. *)
Lemma span_dollar_app (y m : string) :
  all_chars is_word m = true -> m <> "" ->
  at_dollar (snd (span_word (y +:+ m))) = true ->
  all_chars is_word y = true.
Proof.
  intros Hm Hne. induction y as [|c y IH]; [reflexivity|].
  rewrite append_cons_str. cbn [span_word all_chars].
  destruct (is_word c) eqn:Ec.
  - destruct (span_word (y +:+ m)) as [w r] eqn:Es. cbn [snd andb] in *. exact IH.
  - cbn [snd]. destruct (y +:+ m) as [|d ym] eqn:Eym; [|discriminate].
    exfalso. apply Hne. destruct y; [exact Eym|discriminate].
Qed.

Lemma all_chars_app (P : ascii -> bool) (a b : string) :
  all_chars P (a +:+ b) = all_chars P a && all_chars P b.
Proof.
  induction a as [|c a IH]; [reflexivity|].
  rewrite append_cons_str. cbn [all_chars]. now rewrite IH, andb_assoc.
Qed.

Lemma alnum_all_word (t : string) :
  all_chars isalnum t = true -> all_chars is_word t = true.
Proof.
  induction t as [|c t IH]; [reflexivity|]. cbn [all_chars].
  intros H. apply andb_true_iff in H as [Hc Ht].
  now rewrite (isalnum_word c Hc), (IH Ht).
Qed.

Lemma variant_marker_word (tag : string) :
  all_chars isalnum tag = true -> all_chars is_word ("_VARIANT" +:+ tag) = true.
Proof.
  intros H. rewrite all_chars_app, (alnum_all_word tag H). reflexivity.
Qed.

Lemma variant_here_marker (tag : string) :
  all_chars isalnum tag = true -> variant_here ("_VARIANT" +:+ tag) = Some tag.
Proof.
  intros H. unfold variant_here.
  change (match_lit_ci "_VARIANT" ("_VARIANT" +:+ tag)) with (Some tag).
  cbn beta iota. now rewrite (span_word_all tag (alnum_all_word tag H)).
Qed.

(** A longer suffix that reaches a variant marker at the end matches only if
    it matched before the marker was there. *)
Lemma variant_not_longer (y tag : string) :
  all_chars isalnum tag = true ->
  variant_here y = None -> y <> "" ->
  variant_here (y +:+ "_VARIANT" +:+ tag) = None.
Proof.
  intros Htag Hy Hne.
  destruct (variant_here (y +:+ "_VARIANT" +:+ tag)) as [w|] eqn:E; [exfalso|reflexivity].
  unfold variant_here in E.
  destruct (match_lit_ci "_VARIANT" (y +:+ "_VARIANT" +:+ tag)) as [r|] eqn:Em;
    [|discriminate].
  destruct (le_lt_dec 8 (String.length y)) as [Hlen|Hlen].
  - (* the marker lies inside [y] *)
    apply match_lit_app in Em as (y' & Hy' & ->); [|exact Hlen].
    assert (Hw : all_chars is_word y' = true).
    { apply (span_dollar_app y' ("_VARIANT" +:+ tag)).
      - now apply variant_marker_word.
      - discriminate.
      - destruct (span_word (y' +:+ "_VARIANT" +:+ tag)) as [w' r'].
        cbn [snd]. now destruct (at_dollar r'). }
    unfold variant_here in Hy. rewrite Hy', (span_word_all y' Hw) in Hy.
    discriminate.
  - (* the marker would straddle [y] and [_VARIANT] *)
    clear E Hy.
    destruct y as [|a1 [|a2 [|a3 [|a4 [|a5 [|a6 [|a7 [|a8 y]]]]]]]];
      try congruence; try (cbn [String.length] in Hlen; lia);
      rewrite ?append_cons_str, ?append_nil_str in Em; simpl in Em;
      repeat ci_case_in Em; discriminate.
Qed.

End VariantFacts.

Ltac not_underscore := let Hc := fresh in intro Hc; vm_compute in Hc; discriminate.

(** Searching a variant marker and its tag: past the marker's own start only
    the tag can match. *)
Lemma search_in_variant_marker {A : Type} (here : string -> option A) (tag : string) :
  here ("_VARIANT" +:+ tag) = None ->
  (forall c s, c <> underscore -> here (String c s) = None) ->
  re_search here tag = None ->
  re_search here ("_VARIANT" +:+ tag) = None.
Proof.
  intros H0 H1 Ht.
  rewrite re_search_unfold, H0.
  change ("_VARIANT" +:+ tag) with (String "_" (String "V" (String "A" (String "R"
    (String "I" (String "A" (String "N" (String "T" tag)))))))).
  cbn beta iota.
  repeat (rewrite re_search_unfold, H1 by not_underscore; cbn beta iota).
  now rewrite Ht.
Qed.

Section ParserFacts.
Context {table : CodeTable}.

Lemma variant_hit (stem tag : string) :
  all_chars isalnum tag = true ->
  re_search variant_here stem = None ->
  re_search variant_here (stem +:+ "_VARIANT" +:+ tag) = Some (String.length stem, tag).
Proof.
  intros Htag. induction stem as [|c s IH]; intros Hs.
  - rewrite append_nil_str, re_search_unfold, (variant_here_marker tag Htag). reflexivity.
  - rewrite re_search_unfold.
    rewrite (variant_not_longer (String c s) tag Htag (re_search_none_here _ _ Hs))
      by discriminate.
    rewrite append_cons_str, (IH (re_search_none_tail _ _ _ Hs)). reflexivity.
Qed.

Lemma step_variant (stem : string) (v : option string) :
  marker_free stem -> alnum_tag v ->
  re_search variant_here (stem +:+ variant_suffix v)
  = match v with Some tag => Some (String.length stem, tag) | None => None end.
Proof.
  intros (_ & _ & Hv) Htag. destruct v as [tag|]; cbn [variant_suffix].
  - now apply variant_hit.
  - now rewrite app_nil_r_str.
Qed.

Lemma purpose_here_variant (y tag : string) :
  purpose_here (y +:+ "_VARIANT" +:+ tag) = None.
Proof.
  unfold purpose_here.
  now rewrite render_not_variant, proxy_not_variant, guide_not_variant.
Qed.

Lemma payload_here_variant (y tag : string) :
  payload_here (y +:+ "_VARIANT" +:+ tag) = None.
Proof. unfold payload_here. now rewrite payload_not_variant. Qed.

(** Before the purpose marker: the stem and the variant hold no purpose
    marker and no payload marker. *)
Lemma body_purpose_free (stem : string) (v : option string) :
  marker_free stem -> alnum_tag v ->
  re_search purpose_here (stem +:+ variant_suffix v) = None.
Proof.
  intros (_ & Hp & _) Htag. destruct v as [tag|]; cbn [variant_suffix].
  - apply search_miss; [intros y; apply purpose_here_variant|].
    apply search_in_variant_marker.
    + apply (purpose_here_variant "" tag).
    + apply purpose_here_first.
    + apply (alnum_marker_free tag Htag).
  - now rewrite app_nil_r_str.
Qed.

Lemma body_payload_free (stem : string) (v : option string) :
  marker_free stem -> alnum_tag v ->
  re_search payload_here (stem +:+ variant_suffix v) = None.
Proof.
  intros (Hl & _ & _) Htag. destruct v as [tag|]; cbn [variant_suffix].
  - apply search_miss; [intros y; apply payload_here_variant|].
    apply search_in_variant_marker.
    + apply (payload_here_variant "" tag).
    + apply payload_here_first.
    + apply (alnum_marker_free tag Htag).
  - now rewrite app_nil_r_str.
Qed.

Lemma step_purpose (body : string) (p : option Purpose) :
  re_search purpose_here body = None ->
  re_search purpose_here (body +:+ purpose_suffix p)
  = match p with Some q => Some (String.length body, q) | None => None end.
Proof.
  intros Hb. destruct p as [q|].
  - apply search_hit; [now destruct q|].
    intros x1 y _ Hy. unfold purpose_here.
    rewrite render_not_longer, proxy_not_longer, guide_not_longer by (left; exact Hy).
    reflexivity.
  - cbn [purpose_suffix]. now rewrite app_nil_r_str.
Qed.

Lemma payload_free_purpose (body : string) (p : option Purpose) :
  re_search payload_here body = None ->
  re_search payload_here (body +:+ purpose_suffix p) = None.
Proof.
  intros Hb. destruct p as [q|].
  - apply search_miss.
    + intros y. unfold payload_here. now rewrite payload_not_purpose.
    + now destruct q.
  - cbn [purpose_suffix]. now rewrite app_nil_r_str.
Qed.

Lemma step_payload (body : string) (pl : bool) :
  re_search payload_here body = None ->
  re_search payload_here (body +:+ payload_suffix pl)
  = if pl then Some (String.length body, tt) else None.
Proof.
  intros Hb. destruct pl; cbn [payload_suffix].
  - apply search_hit; [reflexivity|].
    intros x1 y _ Hy. unfold payload_here. now rewrite payload_not_longer.
  - now rewrite app_nil_r_str.
Qed.

Lemma parse_marker_free (stem : string) :
  marker_free stem -> parse_name_suffixes stem = (stem, None, None, false).
Proof.
  intros (Hl & Hp & Hv). unfold parse_name_suffixes. now rewrite Hl, Hp, Hv.
Qed.

Lemma parse_grammar_name (stem : string) (v : option string) (p : option Purpose)
    (pl : bool) :
  marker_free stem -> alnum_tag v ->
  parse_name_suffixes (grammar_name stem v p pl) = (stem, p, variant_value v, pl).
Proof.
  intros Hm Htag. unfold parse_name_suffixes, grammar_name.
  rewrite (step_payload _ pl
             (payload_free_purpose _ p (body_payload_free stem v Hm Htag))).
  assert (Hrest :
    (let '(base_name, purpose) :=
       match re_search purpose_here ((stem +:+ variant_suffix v) +:+ purpose_suffix p) with
       | Some (start, q) =>
           (take_str start ((stem +:+ variant_suffix v) +:+ purpose_suffix p), Some q)
       | None => ((stem +:+ variant_suffix v) +:+ purpose_suffix p, None)
       end in
     let '(base_name, variant) :=
       match re_search variant_here base_name with
       | Some (start, w) =>
           (take_str start base_name, Some (if nonempty w then w else "1"))
       | None => (base_name, None)
       end in
     (base_name, purpose, variant)) = (stem, p, variant_value v)).
  { rewrite (step_purpose _ p (body_purpose_free stem v Hm Htag)).
    assert (Hbody :
      match re_search variant_here (stem +:+ variant_suffix v) with
      | Some (start, w) =>
          (take_str start (stem +:+ variant_suffix v),
           Some (if nonempty w then w else "1"))
      | None => (stem +:+ variant_suffix v, None)
      end = (stem, variant_value v)).
    { rewrite (step_variant stem v Hm Htag). destruct v as [tag|]; cbn [variant_suffix].
      - now rewrite take_app.
      - now rewrite app_nil_r_str. }
    destruct p as [q|].
    - rewrite take_app, Hbody. reflexivity.
    - cbn [purpose_suffix]. rewrite app_nil_r_str, Hbody. reflexivity. }
  destruct pl; cbn [payload_suffix].
  - rewrite take_app. cbv zeta in Hrest |- *.
    destruct (match re_search purpose_here _ with Some _ => _ | None => _ end)
      as [b1 pu]. 
    destruct (match re_search variant_here b1 with Some _ => _ | None => _ end)
      as [b2 va].
    now injection Hrest as -> -> ->.
  - rewrite app_nil_r_str. cbv zeta in Hrest |- *.
    destruct (match re_search purpose_here _ with Some _ => _ | None => _ end)
      as [b1 pu].
    destruct (match re_search variant_here b1 with Some _ => _ | None => _ end)
      as [b2 va].
    now injection Hrest as -> -> ->.
Qed.

End ParserFacts.

(** The parser on the naming grammar. On a name that follows the naming grammar (a stem that
    ends in no marker, then optionally [_VARIANT] with an alphanumeric tag, a
    purpose marker, [_PAYLOAD], in this order) the parser returns the stem as
    base with the purpose, the variant and the payload flag of the name, and
    applying it to that base returns the base with purpose null, variant null
    and payload false. *)
Lemma parse_idempotent_on_grammar {table : CodeTable} (stem : string)
    (v : option string) (p : option Purpose) (pl : bool) :
  marker_free stem -> alnum_tag v ->
  parse_name_suffixes (grammar_name stem v p pl) = (stem, p, variant_value v, pl)
  /\ parse_name_suffixes (base_of (grammar_name stem v p pl))
     = (base_of (grammar_name stem v p pl), None, None, false).
Proof.
  intros Hm Htag.
  pose proof (parse_grammar_name stem v p pl Hm Htag) as Hparse.
  split; [exact Hparse|].
  unfold base_of. rewrite Hparse. now apply parse_marker_free.
Qed.

(** Every marker is stripped at most once, so a
    repeated payload marker, or a purpose marker before the variant marker,
    stays in the base, and parsing the base strips it. *)
Lemma parse_not_idempotent :
  @base_of ascii_only "A_PAYLOAD_PAYLOAD" = "A_PAYLOAD"
  /\ @parse_name_suffixes ascii_only "A_PAYLOAD" = ("A", None, None, true)
  /\ @base_of ascii_only "Chair_RENDER_VARIANT1" = "Chair_RENDER"
  /\ @parse_name_suffixes ascii_only "Chair_RENDER" = ("Chair", Some render, None, false).
Proof. repeat split; reflexivity. Qed.

Lemma parse_idempotent_on_grammar_witness :
  @parse_name_suffixes ascii_only (grammar_name "Teapot" (Some "A") (Some render) true)
  = ("Teapot", Some render, Some "A", true)
  /\ @parse_name_suffixes ascii_only
       (@base_of ascii_only (grammar_name "Teapot" (Some "A") (Some render) true))
     = (@base_of ascii_only (grammar_name "Teapot" (Some "A") (Some render) true),
        None, None, false).
Proof.
  apply (@parse_idempotent_on_grammar ascii_only "Teapot" (Some "A") (Some render) true).
  - repeat split; reflexivity.
  - reflexivity.
Defined.

(** C5. The parser is not idempotent on a name the assembler documents as
    supported. [get_sibling_groups] gives [Chair_RENDER_VARIANT1],
    [Chair_RENDER_VARIANT2] and [Chair_PROXY] as names grouped under [Chair],
    but the purpose is looked for before the variant and only at the end of
    the name: for [Chair_RENDER_VARIANT1] the purpose marker is not found, the
    base is [Chair_RENDER], and parsing that base gives another base, [Chair],
    with the purpose [render]. The two render variants are grouped under
    [Chair_RENDER], apart from [Chair_PROXY]. The same holds of the markers
    of the other purposes. *)
Theorem purpose_before_variant_is_not_stripped (table : CodeTable) :
  parse_name_suffixes "Chair_RENDER_VARIANT1" = ("Chair_RENDER", None, Some "1", false)
  /\ parse_name_suffixes "Chair_RENDER" = ("Chair", Some render, None, false)
  /\ map (fun g => (fst g, map name (snd g)))
         (get_sibling_groups ["Chair_RENDER_VARIANT1"; "Chair_RENDER_VARIANT2";
                              "Chair_PROXY"])
     = [("Chair_RENDER", ["Chair_RENDER_VARIANT1"; "Chair_RENDER_VARIANT2"]);
        ("Chair", ["Chair_PROXY"])]
  /\ parse_name_suffixes "Chair_PROXY_VARIANT1" = ("Chair_PROXY", None, Some "1", false)
  /\ parse_name_suffixes "Chair_PROXY" = ("Chair", Some proxy, None, false)
  /\ parse_name_suffixes "Chair_GUIDE_VARIANT1" = ("Chair_GUIDE", None, Some "1", false)
  /\ parse_name_suffixes "Chair_GUIDE" = ("Chair", Some guide, None, false).
Proof. repeat split; vm_compute; reflexivity. Qed.


(** ** The assembler: instanceable prims *)

Lemma apply_prim_properties_keeps_flag (prim : Path) (props : SourceDoc) (st : Assembly)
    (p : Path) :
  instanceable_at (snd (apply_prim_properties prim props true st)) p = instanceable_at st p
  /\ fst (apply_prim_properties prim props true st) = false.
Proof.
  unfold apply_prim_properties, instanceable_at.
  destruct (stage st !! prim) as [pr|] eqn:E; [|split; reflexivity].
  assert (Hkind : forall k,
    option_map instanceable (alter (SetKind k) prim (stage st) !! p)
    = option_map instanceable (stage st !! p)).
  { intros k. destruct (decide (prim = p)) as [->|Hne].
    - rewrite lookup_alter_eq. now destruct (stage st !! p).
    - now rewrite lookup_alter_ne. }
  destruct (truthy (src_kind props)); destruct (src_instanceable props) as [[]|];
    cbn; auto.
Qed.

(** ** The assembler: variant validation *)

Lemma first_error_some {A : Type} (f : A -> option string) (l : list A) :
  first_error f l <> None <-> exists x, In x l /\ f x <> None.
Proof.
  induction l as [|a l IH]; simpl.
  - split; [congruence|]. intros (x & [] & _).
  - destruct (f a) eqn:E.
    + split; [|congruence]. intros _. exists a. split; [now left|congruence].
    + rewrite IH. split.
      * intros (x & Hin & Hx). eauto.
      * intros (x & [<-|Hin] & Hx); [congruence|eauto].
Qed.

Lemma fold_left_filter {A B : Type} (P : A -> bool) (f : B -> A -> B) (l : list A) (b : B) :
  fold_left (fun acc x => if P x then f acc x else acc) l b
  = fold_left f (List.filter P l) b.
Proof.
  revert b. induction l as [|a l IH]; intros b; simpl; [reflexivity|].
  destruct (P a); simpl; apply IH.
Qed.

Section ValidationFacts.
Context {table : CodeTable}.

Lemma variant_bases_members (children : list string) (b vn : string) :
  (exists vs, In (b, vs) (variant_bases children) /\ In vn vs)
  <-> In vn children /\ truthy (variant_of vn) = true /\ base_of vn = b.
Proof.
  unfold variant_bases.
  rewrite (fold_left_filter (fun n => truthy (variant_of n))
             (fun vb n => dict_append (base_of n) n vb)).
  set (tagged_children := List.filter (fun n => truthy (variant_of n)) children).
  pose proof (fold_append_get base_of (fun n : string => n) tagged_children [] b) as Hget.
  pose proof (fold_append_NoDup base_of (fun n : string => n) tagged_children [])
    as Hnd.
  specialize (Hnd (List.NoDup_nil _)).
  cbn [dict_get] in Hget. rewrite map_id in Hget.
  assert (Hmem : In vn (List.filter (fun n => String.eqb (base_of n) b) tagged_children)
                 <-> In vn children /\ truthy (variant_of vn) = true /\ base_of vn = b).
  { unfold tagged_children. rewrite !filter_In, String.eqb_eq. tauto. }
  split.
  - intros (vs & Hin & Hvn). apply (In_dict_get _ _ _ Hnd) in Hin.
    rewrite Hin in Hget. apply Hmem.
    destruct (List.filter _ tagged_children); [discriminate|].
    injection Hget as ->. exact Hvn.
  - intros H. apply Hmem in H.
    destruct (List.filter (fun n => String.eqb (base_of n) b) tagged_children)
      as [|x xs] eqn:E; [destruct H|].
    exists (x :: xs). split; [|exact H]. now apply dict_get_In.
Qed.

Lemma nested_variant_some (tree : list (string * TreeNode)) (b vn : string) :
  nested_variant tree b vn <> None
  <-> exists child, In child (children_of tree vn)
                    /\ truthy (variant_of child) = true /\ base_of child = b.
Proof.
  unfold nested_variant. split.
  - destruct (List.find _ _) as [child|] eqn:E; [|congruence]. intros _.
    apply find_some in E as [Hin Hc]. apply andb_true_iff in Hc as [Ht Hb].
    apply String.eqb_eq in Hb. eauto.
  - intros (child & Hin & Ht & Hb) Hnone.
    apply (find_none _ _ Hnone) in Hin. rewrite Ht, Hb, String.eqb_refl in Hin.
    discriminate.
Qed.

(** [validate_variants] reports an error exactly for an illegal nesting one
    level down. *)
Lemma validate_variants_detects (children : list string)
    (tree : list (string * TreeNode)) :
  validate_variants children tree <> None <-> illegal_nesting children tree.
Proof.
  unfold validate_variants, illegal_nesting. rewrite first_error_some. split.
  - intros ([b vs] & Hin & Hf). cbn [fst snd] in Hf.
    apply first_error_some in Hf as (vn & Hvn & Hn).
    assert (Hnest : nested_variant tree b vn <> None)
      by (destruct (nested_variant tree b vn); congruence).
    apply nested_variant_some in Hnest as (child & Hc & Ht & Hb).
    destruct (proj1 (variant_bases_members children b vn)) as (Hin' & Htag & Hbase);
      [eauto|].
    exists vn, child. repeat split; auto. congruence.
  - intros (vn & child & Hin & Htag & Hc & Ht & Hb).
    destruct (proj2 (variant_bases_members children (base_of vn) vn)) as (vs & Hvs & Hvn);
      [auto|].
    exists (base_of vn, vs). split; [exact Hvs|]. cbn [fst snd].
    apply first_error_some. exists vn. split; [exact Hvn|].
    assert (Hnest : nested_variant tree (base_of vn) vn <> None)
      by (apply nested_variant_some; eauto).
    destruct (nested_variant tree (base_of vn) vn); congruence.
Qed.

Lemma validate_no_children (tree : list (string * TreeNode)) :
  validate_variants [] tree = None.
Proof. reflexivity. Qed.

End ValidationFacts.

Section AbortFacts.
Context {table : CodeTable}.
Variable files : list (string * SourceDoc).
Variable tree : list (string * TreeNode).

Lemma create_node_not_instanceable (n : string) (parent_path : Path) (st : Assembly) :
  children_of tree n <> [] -> snd (create_node files tree n parent_path st) = false.
Proof.
  intros Hc. unfold create_node.
  destruct (children_of tree n) as [|c cs]; [congruence|].
  destruct (find_usd_file files n) as [props|]; [|reflexivity].
  unfold add_reference_to_parent.
  match goal with
  | |- context [apply_prim_properties ?p ?d true ?s] =>
      pose proof (proj2 (apply_prim_properties_keeps_flag p d s [])) as Hf;
      destruct (apply_prim_properties p d true s) as [b s']
  end.
  cbn [fst] in Hf. subst b. reflexivity.
Qed.

Lemma children_in_tree (n : string) : children_of tree n <> [] -> dict_mem n tree = true.
Proof.
  unfold children_of, dict_mem. destruct (dict_get n tree); [reflexivity|congruence].
Qed.

(** When the children of a node fail the validation, the call creates the
    prim of the node, records the error and returns. *)
Lemma create_prim_validation_error (fuel : nat) (n : string) (parent_path : Path)
    (st : Assembly) (error : string) :
  validate_variants (children_of tree n) tree = Some error ->
  create_prim_recursive files tree (S fuel) n parent_path st
  = Some (say ("  ERROR: " +:+ error)
            (set_created n (fst (fst (create_node files tree n parent_path st)))
                         (snd (fst (create_node files tree n parent_path st))))).
Proof.
  intros Hv.
  assert (Hc : children_of tree n <> []).
  { intros E. rewrite E in Hv. discriminate. }
  cbn [create_prim_recursive].
  pose proof (create_node_not_instanceable n parent_path st Hc) as Hstop.
  destruct (create_node files tree n parent_path st) as [[prim_path st1] stop].
  cbn [fst snd] in *. subst stop.
  now rewrite (children_in_tree n Hc), Hv.
Qed.

End AbortFacts.

(** C6 (as amended). [validate_variants] reports an error exactly when a
    variant-tagged child of the node has a direct child in the hierarchy that
    is variant-tagged with the same base name. On an error
    [create_prim_recursive] creates the prim of the node, records the error
    and returns: none of the sibling groups under that node is processed, and
    the caller goes on with the siblings of the node. *)
Theorem validation_error_skips_all_children {table : CodeTable}
    (files : list (string * SourceDoc)) (tree : list (string * TreeNode)) :
  (forall children,
      validate_variants children tree <> None <-> illegal_nesting children tree)
  /\ (forall fuel n parent_path st error,
      validate_variants (children_of tree n) tree = Some error ->
      create_prim_recursive files tree (S fuel) n parent_path st
      = Some (say ("  ERROR: " +:+ error)
                (set_created n (fst (fst (create_node files tree n parent_path st)))
                             (snd (fst (create_node files tree n parent_path st)))))).
Proof.
  split.
  - intros children. apply validate_variants_detects.
  - intros fuel n parent_path st error. apply create_prim_validation_error.
Qed.

(** C6, the claim as stated fails: with an illegal nesting in the chair group
    under [Root], the table, a sibling group of the same parent, is not
    created either; and a nesting two levels down is not detected at all. *)
Lemma validation_error_drops_sibling_group :
  (exists st,
      @assemble_hierarchy ascii_only ascii_spaces nested_files (tree_of_entries nested_entries) 6 None
      = Some st
      /\ created_prims st !! "Table" = None
      /\ stage st !! ["Root"; "Table"] = None
      /\ map fst (map_to_list (stage st)) = [["Root"]]
      /\ messages st
         = ["  ERROR: Invalid: Variant 'Chair_VARIANT3' cannot be under variant 'Chair_VARIANT1'"])
  /\ @validate_variants ascii_only ["Chair_VARIANT1"; "Chair_VARIANT2"]
       (tree_of_entries deep_entries) = None.
Proof.
  split; [|vm_compute; reflexivity].
  eexists. split; [vm_compute; reflexivity|]. repeat split; vm_compute; reflexivity.
Qed.

Lemma validation_error_skips_all_children_witness :
  @create_prim_recursive ascii_only nested_files (tree_of_entries nested_entries) 1
     "Root" [] (snd (@initial_assembly ascii_only ascii_spaces None))
  = Some (say "  ERROR: Invalid: Variant 'Chair_VARIANT3' cannot be under variant 'Chair_VARIANT1'"
            (set_created "Root"
               (fst (fst (@create_node ascii_only nested_files (tree_of_entries nested_entries)
                            "Root" [] (snd (@initial_assembly ascii_only ascii_spaces None)))))
               (snd (fst (@create_node ascii_only nested_files (tree_of_entries nested_entries)
                            "Root" [] (snd (@initial_assembly ascii_only ascii_spaces None))))))).
Proof.
  apply (proj2 (@validation_error_skips_all_children ascii_only nested_files
                  (tree_of_entries nested_entries)) 0 "Root" [] (snd (@initial_assembly ascii_only ascii_spaces None))).
  vm_compute. reflexivity.
Defined.

(** ** Variant sets *)

Lemma names_after_app (names a b : list string) :
  names_after names (a ++ b) = names_after (names_after names a) b.
Proof. unfold names_after. apply fold_left_app. Qed.

Lemma existsb_eqb_In (n : string) (l : list string) :
  existsb (String.eqb n) l = true <-> In n l.
Proof.
  rewrite existsb_exists. split.
  - intros (x & Hin & Hx). apply String.eqb_eq in Hx. now subst.
  - intros Hin. exists n. split; [exact Hin|apply String.eqb_refl].
Qed.

(** Names that are pairwise different and not in the set yet are all added. *)
Lemma names_after_fresh (names new : list string) :
  List.NoDup new -> (forall n, In n new -> ~ In n names) ->
  names_after names new = names ++ new.
Proof.
  revert names. induction new as [|n new IH]; intros names Hnd Hfresh.
  - now rewrite app_nil_r.
  - apply List.NoDup_cons_iff in Hnd as [Hn Hnd].
    change (names_after names (n :: new))
      with (names_after (if existsb (String.eqb n) names then names else names ++ [n]) new).
    destruct (existsb (String.eqb n) names) eqn:E.
    + apply existsb_eqb_In in E. exfalso. apply (Hfresh n); [now left|exact E].
    + rewrite IH; [now rewrite <- app_assoc|exact Hnd|].
      intros m Hm Hin. apply in_app_iff in Hin as [Hin|[<-|[]]].
      * apply (Hfresh m); [now right|exact Hin].
      * contradiction.
Qed.

Lemma names_after_incl (names new : list string) (n : string) :
  In n names \/ In n new -> In n (names_after names new).
Proof.
  revert names. induction new as [|m new IH]; intros names [H|H]; try (now destruct H).
  - exact H.
  - apply IH. left.
    destruct (existsb (String.eqb m) names); [exact H|apply in_app_iff; now left].
  - change (names_after names (m :: new))
      with (names_after (if existsb (String.eqb m) names then names else names ++ [m]) new).
    destruct H as [<-|H]; [|apply IH; now right].
    apply IH. left. destruct (existsb (String.eqb m) names) eqn:E.
    + now apply existsb_eqb_In.
    + apply in_app_iff. right. now left.
Qed.

Lemma AddVariant_names {A : Type} (n : string) (vs : VariantSet A) :
  variant_names (AddVariant n vs) = names_after (variant_names vs) [n]
  /\ variant_selection (AddVariant n vs) = variant_selection vs.
Proof.
  unfold AddVariant, names_after. cbn [fold_left].
  destruct (existsb (String.eqb n) (variant_names vs)); split; reflexivity.
Qed.

(** *** The restructurer *)

Lemma is_under_child (parent : Path) (x : string) : is_under (parent ++ [x]) parent = false.
Proof.
  induction parent as [|y parent IH]; [reflexivity|].
  cbn [app is_under]. now rewrite IH, andb_false_r.
Qed.

Section LayerFacts.
Variable parent : Path.

Lemma set_at_on_layer_set (f : VariantSet CopiedSpec -> VariantSet CopiedSpec) (l : Layer) :
  set_at parent (on_layer_set f parent l) = option_map f (set_at parent l).
Proof. unfold set_at, on_layer_set. cbn. now rewrite lookup_alter_eq. Qed.

Lemma set_at_copy (child : Path) (v b : string) (l : Layer) (vs : VariantSet CopiedSpec) :
  set_at parent l = Some vs ->
  exists vs', set_at parent (CopySpec child parent v b l) = Some vs'
              /\ variant_names vs' = variant_names vs
              /\ variant_selection vs' = variant_selection vs.
Proof.
  intros H. unfold CopySpec. destruct (has_spec l child); [|eauto].
  rewrite set_at_on_layer_set, H. cbn. eauto.
Qed.

Lemma set_at_add_copy_loop (base : string) (variants : list (string * Path)) (l : Layer)
    (vs : VariantSet CopiedSpec) :
  set_at parent l = Some vs ->
  exists vs',
    set_at parent (fold_left
              (fun l v => CopySpec (snd v) parent (fst v) base
                            (on_layer_set (AddVariant (fst v)) parent l))
              variants l) = Some vs'
    /\ variant_names vs' = names_after (variant_names vs) (map fst variants)
    /\ variant_selection vs' = variant_selection vs.
Proof.
  revert l vs. induction variants as [|v variants IH]; intros l vs H; [eauto|].
  cbn [fold_left map].
  assert (Hadd : set_at parent (on_layer_set (AddVariant (fst v)) parent l)
                 = Some (AddVariant (fst v) vs))
    by (now rewrite set_at_on_layer_set, H).
  destruct (set_at_copy (snd v) (fst v) base _ _ Hadd) as (vs1 & H1 & Hn1 & Hs1).
  destruct (IH _ _ H1) as (vs' & H' & Hn' & Hs').
  exists vs'. split; [exact H'|].
  destruct (AddVariant_names (fst v) vs) as [Hn Hs].
  split.
  - rewrite Hn', Hn1, Hn. symmetry. apply (names_after_app _ [fst v]).
  - congruence.
Qed.

Lemma set_at_remove (child : Path) (l : Layer) :
  is_under child parent = false -> set_at parent (RemovePrim child l) = set_at parent l.
Proof.
  intros Hu. unfold set_at, RemovePrim. cbn.
  destruct (layer_variant_sets l !! parent) as [vs|] eqn:E.
  - apply map_lookup_filter_Some. split; [exact E|exact Hu].
  - apply map_lookup_filter_None. left. exact E.
Qed.

Lemma set_at_remove_loop (variants : list (string * Path)) (l : Layer) :
  Forall (fun v => exists x, snd v = parent ++ [x]) variants ->
  set_at parent (fold_left (fun l v => RemovePrim (snd v) l) variants l) = set_at parent l.
Proof.
  intros Hf. revert l. induction Hf as [|v variants [x Hx] _ IH]; intros l; [reflexivity|].
  cbn [fold_left]. rewrite IH, Hx. apply set_at_remove, is_under_child.
Qed.

Lemma set_at_add_variant_set (l : Layer) :
  exists vs, set_at parent (layer_add_variant_set parent l) = Some vs
             /\ variant_names vs = set_names (set_at parent l)
             /\ (set_at parent l = None -> variant_selection vs = None).
Proof.
  unfold set_at, layer_add_variant_set. cbn.
  destruct (layer_variant_sets l !! parent) as [vs|] eqn:E.
  - exists vs. rewrite E. repeat split. discriminate.
  - exists empty_variant_set. rewrite lookup_insert_eq. repeat split.
Qed.

End LayerFacts.

(** A group of the restructurer that is processed: the variant set of the
    parent ends with the names it had and the tags of the members, each once,
    and the tag of the first member selected. *)
Lemma process_variant_group_set (l : Layer) (parent : Path)
    (base : string) (variants : list (string * Path)) :
  2 <= length variants -> has_spec l parent = true ->
  Forall (fun v => exists x, snd v = parent ++ [x]) variants ->
  exists vs,
    layer_variant_sets (process_variant_group l ((parent, base), variants)) !! parent
    = Some vs
    /\ variant_names vs
       = names_after (set_names (layer_variant_sets l !! parent)) (map fst variants)
    /\ variant_selection vs = option_map fst (head variants).
Proof.
  intros Hlen Hspec Hchildren. unfold process_variant_group. cbn [fst snd].
  destruct (length variants <? 2) eqn:E; [apply Nat.ltb_lt in E; lia|].
  rewrite Hspec. cbn [negb].
  destruct (set_at_add_variant_set parent l) as (vs0 & H0 & Hn0 & _).
  destruct (set_at_add_copy_loop parent base variants _ _ H0) as (vs1 & H1 & Hn1 & _).
  pose proof (set_at_remove_loop parent variants
                (fold_left
                   (fun l v => CopySpec (snd v) parent (fst v) base
                                 (on_layer_set (AddVariant (fst v)) parent l))
                   variants (layer_add_variant_set parent l)) Hchildren) as H2.
  rewrite H1 in H2.
  destruct variants as [|first rest]; [cbn in Hlen; lia|].
  fold (set_at parent
          (on_layer_set (SetVariantSelection (fst first)) parent
             (fold_left (fun l v => RemovePrim (snd v) l) (first :: rest)
                (fold_left
                   (fun l v => CopySpec (snd v) parent (fst v) base
                                 (on_layer_set (AddVariant (fst v)) parent l))
                   (first :: rest) (layer_add_variant_set parent l))))).
  rewrite set_at_on_layer_set, H2. cbn [option_map].
  eexists. split; [reflexivity|]. cbn. split; [|reflexivity].
  now rewrite Hn1, Hn0.
Qed.

(** *** The assembler *)

Section StageFacts.
Variable prim : Path.

Lemma variant_set_at_on_set (f : VariantSet Arc -> VariantSet Arc) (st : Assembly) :
  variant_set_at (on_stage (alter (on_variant_set f) prim) st) prim
  = option_map f (variant_set_at st prim).
Proof.
  unfold variant_set_at, on_stage. cbn. rewrite lookup_alter_eq.
  destruct (stage st !! prim) as [pr|]; reflexivity.
Qed.

(** An update that leaves the variant set of the prim it touches alone. *)
Lemma variant_set_at_other (f : Prim -> Prim) (q : Path) (st : Assembly) :
  (forall pr, variant_set (f pr) = variant_set pr) ->
  variant_set_at (on_stage (alter f q) st) prim = variant_set_at st prim.
Proof.
  intros Hf. unfold variant_set_at, on_stage. cbn.
  destruct (decide (q = prim)) as [->|Hne].
  - rewrite lookup_alter_eq. destruct (stage st !! prim) as [pr|]; cbn; [apply Hf|reflexivity].
  - now rewrite lookup_alter_ne.
Qed.

Lemma variant_set_at_properties (q : Path) (props : SourceDoc) (b : bool) (st : Assembly) :
  variant_set_at (snd (apply_prim_properties q props b st)) prim = variant_set_at st prim.
Proof.
  unfold apply_prim_properties.
  destruct (stage st !! q) as [pr|] eqn:E; [|reflexivity].
  assert (Hk : variant_set_at
                 (if truthy (src_kind props)
                  then on_stage (alter (SetKind (default "" (src_kind props))) q) st
                  else st) prim = variant_set_at st prim).
  { destruct (truthy (src_kind props)); [|reflexivity].
    now apply variant_set_at_other. }
  destruct (src_instanceable props) as [[]|]; cbn [snd]; try exact Hk.
  destruct b; cbn [snd]; [exact Hk|].
  rewrite variant_set_at_other; [exact Hk|reflexivity].
Qed.

Variable files : list (string * SourceDoc).

Lemma variant_set_at_item (st : Assembly) (it : Item) (vs : VariantSet Arc) :
  variant_set_at st prim = Some vs ->
  exists vs',
    variant_set_at (add_variant_item files prim st it) prim = Some vs'
    /\ variant_names vs'
       = names_after (variant_names vs) (if found files it then [var_name_of it] else []).
Proof.
  intros H. unfold add_variant_item, found.
  destruct (find_usd_file files (name it)) as [props|]; [|eauto].
  unfold set_created, variant_set_at at 1. cbn [stage].
  fold (variant_set_at
          (snd (apply_prim_properties prim props false
                  (on_stage
                     (alter (on_variant_set
                               (add_arc_in_variant
                                  (arc_of props (use_payload props || is_payload it))))
                            prim)
                     (on_stage
                        (alter (on_variant_set
                                  (fun vs => SetVariantSelection (var_name_of it)
                                               (AddVariant (var_name_of it) vs)))
                               prim) st)))) prim).
  rewrite variant_set_at_properties, !variant_set_at_on_set, H. cbn [option_map].
  eexists. split; [reflexivity|].
  unfold add_arc_in_variant. cbn.
  apply (AddVariant_names (var_name_of it) vs).
Qed.

Lemma variant_set_at_items (items : list Item) (st : Assembly) (vs : VariantSet Arc) :
  variant_set_at st prim = Some vs ->
  exists vs',
    variant_set_at (fold_left (add_variant_item files prim) items st) prim = Some vs'
    /\ variant_names vs'
       = names_after (variant_names vs) (map var_name_of (List.filter (found files) items)).
Proof.
  revert st vs. induction items as [|it items IH]; intros st vs H; [eauto|].
  cbn [fold_left List.filter].
  destruct (variant_set_at_item st it vs H) as (vs1 & H1 & Hn1).
  destruct (IH _ _ H1) as (vs' & H' & Hn').
  exists vs'. split; [exact H'|]. rewrite Hn', Hn1.
  destruct (found files it); cbn [map]; [|reflexivity].
  symmetry. apply (names_after_app _ [var_name_of it]).
Qed.

Lemma variant_set_at_select (items variants : list Item) (st : Assembly)
    (vs : VariantSet Arc) :
  variant_set_at st prim = Some vs ->
  exists vs',
    variant_set_at (select_default prim items variants st) prim = Some vs'
    /\ variant_names vs' = variant_names vs
    /\ variant_selection vs'
       = match default_selection items variants with
         | Some s => Some s
         | None => variant_selection vs
         end.
Proof.
  intros H. unfold select_default, default_selection.
  destruct (List.find (fun it => negb (tagged it)) items) as [d|].
  - rewrite variant_set_at_on_set, H. cbn. eauto.
  - destruct variants as [|v variants]; [eauto|].
    rewrite variant_set_at_on_set, H. cbn. eauto.
Qed.

(** The variant set [fill_variant_set] leaves on the prim. *)
Lemma fill_variant_set_names (items variants : list Item) (st : Assembly)
    (vs0 : VariantSet Arc) :
  variant_set_at st prim = Some vs0 ->
  exists vs,
    variant_set_at (fill_variant_set files prim items variants st) prim = Some vs
    /\ variant_names vs
       = names_after (variant_names vs0) (map var_name_of (List.filter (found files) items))
    /\ (forall s, default_selection items variants = Some s -> variant_selection vs = Some s).
Proof.
  intros H. unfold fill_variant_set.
  destruct (variant_set_at_items items st vs0 H) as (vs1 & H1 & Hn1).
  destruct (variant_set_at_select items variants _ _ H1) as (vs & Hvs & Hn & Hs).
  exists vs. split; [exact Hvs|]. split; [congruence|].
  intros s Hd. now rewrite Hs, Hd.
Qed.

End StageFacts.

Lemma filter_all {A : Type} (P : A -> bool) (l : list A) :
  forallb P l = true -> List.filter P l = l.
Proof.
  induction l as [|a l IH]; [reflexivity|]. cbn. intros H.
  apply andb_true_iff in H as [Ha Hl]. now rewrite Ha, (IH Hl).
Qed.

Lemma default_selection_member (items : list Item) (s : string) :
  default_selection items (List.filter tagged items) = Some s ->
  exists it, In it items /\ var_name_of it = s.
Proof.
  unfold default_selection.
  destruct (List.find (fun it => negb (tagged it)) items) as [d|] eqn:E.
  - intros [= <-]. apply find_some in E as [Hin Hd]. exists d. split; [exact Hin|].
    unfold tagged, truthy in Hd. unfold var_name_of.
    destruct (variant d) as [w|]; [|reflexivity]. now destruct (nonempty w).
  - destruct (List.filter tagged items) as [|v vs] eqn:Ef; [discriminate|].
    intros [= <-]. assert (Hv : In v (List.filter tagged items)) by (rewrite Ef; now left).
    apply filter_In in Hv as [Hin Hv]. exists v. split; [exact Hin|].
    unfold tagged, truthy in Hv. unfold var_name_of.
    destruct (variant v) as [w|]; [|discriminate]. now rewrite Hv.
Qed.

(** The prim a variant set is put on exists by then; its set is the one it
    had, or a new empty one. *)
Lemma ensure_prim_lookup (s : gmap Path Prim) (p q : Path) :
  ensure_prim s p !! q
  = match s !! q with
    | Some x => Some x
    | None => if decide (p = q) then Some empty_prim else None
    end.
Proof.
  unfold ensure_prim. destruct (s !! p) as [x|] eqn:E.
  - destruct (s !! q) eqn:Eq; [reflexivity|].
    destruct (decide (p = q)); [congruence|reflexivity].
  - destruct (decide (p = q)) as [->|Hne].
    + now rewrite lookup_insert_eq, E.
    + rewrite lookup_insert_ne by exact Hne. now destruct (s !! q).
Qed.

Lemma fold_ensure_lookup (l : list Path) (s : gmap Path Prim) (q : Path) :
  In q l ->
  fold_left ensure_prim l s !! q
  = match s !! q with Some x => Some x | None => Some empty_prim end.
Proof.
  assert (Hkeep : forall l s x, s !! q = Some x -> fold_left ensure_prim l s !! q = Some x).
  { clear. induction l as [|p l IH]; intros s x H; [exact H|].
    cbn [fold_left]. apply IH. now rewrite ensure_prim_lookup, H. }
  revert s. induction l as [|p l IH]; intros s; [intros []|].
  intros [->|Hin]; cbn [fold_left].
  - destruct (s !! q) as [x|] eqn:E.
    + apply Hkeep. now rewrite ensure_prim_lookup, E.
    + apply Hkeep. rewrite ensure_prim_lookup, E. now destruct (decide (q = q)).
  - rewrite (IH _ Hin), ensure_prim_lookup.
    destruct (s !! q); [reflexivity|]. now destruct (decide (p = q)).
Qed.

Lemma prefixes_self (p : Path) : p <> [] -> In p (prefixes p).
Proof.
  induction p as [|x r IH]; [congruence|]. intros _. cbn [prefixes].
  destruct r as [|y r]; [now left|].
  right. apply in_map. apply IH. discriminate.
Qed.

Lemma variant_branch_starts_with_set (p : Path) (st : Assembly) :
  p <> [] ->
  variant_set_at (on_stage (fun s => alter AddVariantSet p (DefinePrim p s)) st) p
  = Some (default empty_variant_set (variant_set_at st p)).
Proof.
  intros Hp. unfold variant_set_at, on_stage, DefinePrim. cbn [stage].
  rewrite lookup_alter_eq, (fold_ensure_lookup _ _ _ (prefixes_self p Hp)).
  destruct (stage st !! p) as [pr|]; cbn; [|reflexivity].
  now destruct (variant_set pr).
Qed.

(** The members of a variant set. A variant set filled by the assembler for a group ends
    with the names it had and, each once, the variant names of the members
    whose document is found; the selection is ["default"] when a member has no
    tag, else the tag of the first tagged member. A group the restructurer
    processes leaves on the parent the names its variant set had and, each
    once, the tags of the members, with the tag of the first member selected.
    In both, when the set was empty, all documents are found and the variant
    names of the members are pairwise different, the set has exactly one
    variant per member and the selected name is one of them. *)
Lemma variant_set_members :
  (forall (files : list (string * SourceDoc)) (prim : Path) (items : list Item)
          (st : Assembly) (vs0 : VariantSet Arc),
      variant_set_at st prim = Some vs0 ->
      exists vs,
        variant_set_at (fill_variant_set files prim items (List.filter tagged items) st) prim
        = Some vs
        /\ variant_names vs
           = names_after (variant_names vs0)
                         (map var_name_of (List.filter (found files) items))
        /\ (forall s, default_selection items (List.filter tagged items) = Some s ->
                      variant_selection vs = Some s)
        /\ (variant_names vs0 = [] -> forallb (found files) items = true ->
            List.NoDup (map var_name_of items) ->
            length (variant_names vs) = length items
            /\ (1 <= length (List.filter tagged items) ->
                exists s, variant_selection vs = Some s /\ In s (variant_names vs))))
  /\ (forall (l : Layer) (parent : Path) (base : string) (variants : list (string * Path)),
      2 <= length variants -> has_spec l parent = true ->
      Forall (fun v => exists x, snd v = parent ++ [x]) variants ->
      exists vs,
        layer_variant_sets (process_variant_group l ((parent, base), variants)) !! parent
        = Some vs
        /\ variant_names vs
           = names_after (set_names (layer_variant_sets l !! parent)) (map fst variants)
        /\ variant_selection vs = option_map fst (head variants)
        /\ (layer_variant_sets l !! parent = None -> List.NoDup (map fst variants) ->
            length (variant_names vs) = length variants
            /\ exists s, variant_selection vs = Some s /\ In s (variant_names vs))).
Proof.
  split.
  - intros files prim items st vs0 H0.
    destruct (fill_variant_set_names prim files items (List.filter tagged items) st vs0 H0)
      as (vs & Hvs & Hn & Hs).
    exists vs. repeat split; auto.
    + rewrite Hn, H, (filter_all _ _ H1), names_after_fresh by (auto; intros ? ? []).
      cbn. now rewrite length_map.
    + intros Htag.
      destruct (default_selection items (List.filter tagged items)) as [s|] eqn:Ed.
      * exists s. split; [now apply Hs|].
        apply default_selection_member in Ed as (it & Hin & <-).
        rewrite Hn, (filter_all _ _ H1). apply names_after_incl. right.
        now apply in_map.
      * unfold default_selection in Ed.
        destruct (List.find _ items); [discriminate|].
        destruct (List.filter tagged items); [cbn in Htag; lia|discriminate].
  - intros l parent base variants Hlen Hspec Hch.
    destruct (process_variant_group_set l parent base variants Hlen Hspec Hch)
      as (vs & Hvs & Hn & Hs).
    exists vs. repeat split; auto.
    + rewrite Hn, H. cbn [set_names].
      rewrite names_after_fresh by (auto; intros ? ? []). cbn. now rewrite length_map.
    + destruct variants as [|first rest]; [cbn in Hlen; lia|].
      exists (fst first). split; [exact Hs|].
      rewrite Hn. apply names_after_incl. right. now left.
Qed.

(** Variant counts that differ from the group size. Two members whose tags read the same give
    one variant, in the restructurer and in the assembler; two groups under
    one parent share the variant set of the parent, four variants for groups
    of two; and a member without a document gives no variant, while its tag
    is still the one selected. *)
Lemma variant_count_differs :
  @collect_variant_groups ascii_only (layer_specs twin_layer)
  = [((["Set"], "Teapot"),
      [("1", ["Set"; "Teapot_VARIANT"]); ("1", ["Set"; "Teapot_VARIANT1"])])]
  /\ option_map variant_names (set_at ["Set"] (@_process_variants ascii_only twin_layer))
     = Some ["1"]
  /\ option_map variant_names (set_at ["Set"] (@_process_variants ascii_only two_base_layer))
     = Some ["1"; "2"; "3"; "4"]
  /\ (exists st,
        @assemble_hierarchy ascii_only ascii_spaces twin_files (tree_of_entries twin_entries) 5 None
        = Some st
        /\ option_map variant_names (variant_set_at st ["Root"; "Chair"]) = Some ["1"])
  /\ (exists st,
        @assemble_hierarchy ascii_only ascii_spaces missing_files (tree_of_entries missing_entries) 5 None
        = Some st
        /\ option_map variant_names (variant_set_at st ["Root"; "Chair"]) = Some ["2"; "3"]
        /\ option_map variant_selection (variant_set_at st ["Root"; "Chair"])
           = Some (Some "1")).
Proof.
  split; [vm_compute; reflexivity|].
  split; [vm_compute; reflexivity|].
  split; [vm_compute; reflexivity|].
  split; eexists; (split; [vm_compute; reflexivity|]); repeat split; vm_compute; reflexivity.
Qed.

Lemma variant_set_members_witness :
  exists vs,
    layer_variant_sets
      (process_variant_group teapot_layer
         ((["Set"], "Teapot"),
          [("1", ["Set"; "Teapot_VARIANT1"]); ("2", ["Set"; "Teapot_VARIANT2"])]))
      !! ["Set"] = Some vs
    /\ variant_names vs
       = names_after (set_names (layer_variant_sets teapot_layer !! ["Set"])) ["1"; "2"]
    /\ variant_selection vs = Some "1"
    /\ (layer_variant_sets teapot_layer !! ["Set"] = None -> List.NoDup ["1"; "2"] ->
        length (variant_names vs) = 2
        /\ exists s, variant_selection vs = Some s /\ In s (variant_names vs)).
Proof.
  apply (proj2 variant_set_members teapot_layer ["Set"] "Teapot"
           [("1", ["Set"; "Teapot_VARIANT1"]); ("2", ["Set"; "Teapot_VARIANT2"])]).
  - cbn. lia.
  - reflexivity.
  - repeat constructor; eexists; reflexivity.
Defined.

Lemma names_after_length (names new : list string) :
  length (names_after names new) <= length names + length new.
Proof.
  unfold names_after. revert names.
  induction new as [|n new IH]; intros names; cbn [fold_left length]; [lia|].
  destruct (existsb (String.eqb n) names).
  - specialize (IH names). lia.
  - specialize (IH (names ++ [n])). rewrite length_app in IH. cbn [length] in IH. lia.
Qed.

Lemma names_after_from (names new : list string) (n : string) :
  In n (names_after names new) -> In n names \/ In n new.
Proof.
  unfold names_after. revert names.
  induction new as [|x new IH]; intros names; cbn [fold_left In]; [auto|].
  intros H. apply IH in H as [H|H]; [|auto].
  destruct (existsb (String.eqb x) names); [auto|].
  apply in_app_iff in H as [H|[->|[]]]; auto.
Qed.

Lemma filter_length_lt {A : Type} (f : A -> bool) (l : list A) (x : A) :
  In x l -> f x = false -> length (List.filter f l) < length l.
Proof.
  induction l as [|y l IH]; cbn [In List.filter length]; [intros []|].
  intros [->|Hin] Hx.
  - rewrite Hx. pose proof (List.filter_length_le f l). lia.
  - specialize (IH Hin Hx). destruct (f y); cbn [length]; lia.
Qed.

(** C2. The assembler can select a variant that the set does not have, and
    author fewer variants than the group has members. In a group whose members
    are all tagged, a member without a document is skipped ([if not
    item_file: continue]), but when it is the first tagged member its tag is
    still what [SetVariantSelection] is called with at the end: the selection
    names no variant of the set. So it is for a chair with the variants 1, 2
    and 3 of which the first has no file: the set has the variants 2 and 3,
    and 1 is selected. *)
Theorem selection_names_no_variant :
  (forall (files : list (string * SourceDoc)) (prim : Path) (items : list Item)
          (st : Assembly) (vs0 : VariantSet Arc) (v : Item),
      variant_set_at st prim = Some vs0 -> variant_names vs0 = [] ->
      List.find (fun it => negb (tagged it)) items = None ->
      head (List.filter tagged items) = Some v ->
      found files v = false ->
      (forall it, In it items -> found files it = true ->
                  var_name_of it <> default "" (variant v)) ->
      exists vs,
        variant_set_at (fill_variant_set files prim items (List.filter tagged items) st) prim
        = Some vs
        /\ variant_selection vs = Some (default "" (variant v))
        /\ ~ In (default "" (variant v)) (variant_names vs)
        /\ length (variant_names vs) < length items)
  /\ (exists st,
        @assemble_hierarchy ascii_only ascii_spaces missing_files
          (tree_of_entries missing_entries) 5 None = Some st
        /\ option_map variant_names (variant_set_at st ["Root"; "Chair"])
           = Some ["2"; "3"]
        /\ option_map variant_selection (variant_set_at st ["Root"; "Chair"])
           = Some (Some "1")).
Proof.
  split.
  - intros files prim items st vs0 v Hvs Hempty Hall Hhead Hmiss Hfresh.
    destruct (proj1 variant_set_members files prim items st vs0 Hvs)
      as (vs & Hat & Hnames & Hsel & _).
    exists vs. split; [exact Hat|].
    assert (Hv : In v items).
    { destruct (List.filter tagged items) as [|v0 rest] eqn:E; [discriminate|].
      injection Hhead as ->.
      assert (Hin : In v (List.filter tagged items)) by (rewrite E; now left).
      now apply List.filter_In in Hin as [Hin _]. }
    split; [|split].
    + apply Hsel. unfold default_selection. rewrite Hall.
      destruct (List.filter tagged items) as [|v0 rest]; [discriminate|].
      now injection Hhead as ->.
    + rewrite Hnames, Hempty. intros Hin.
      apply names_after_from in Hin as [[]|Hin].
      apply in_map_iff in Hin as (it & Heq & Hit).
      apply List.filter_In in Hit as [Hit Hf].
      exact (Hfresh it Hit Hf Heq).
    + rewrite Hnames, Hempty.
      pose proof (names_after_length [] (map var_name_of (List.filter (found files) items)))
        as Hle.
      rewrite length_map in Hle. cbn [length] in Hle.
      pose proof (filter_length_lt (found files) items v Hv Hmiss). lia.
  - eexists. split; [vm_compute; reflexivity|]. split; vm_compute; reflexivity.
Qed.

(* ------------------------------------------------------------------ *)
(** ** Wrapper stripping: the default prim and the removal of [/root] *)

Lemma find_spec_in (n : string) (specs : list PrimSpec) :
  In n (map spec_name specs) <-> find_spec n specs <> None.
Proof.
  unfold find_spec. induction specs as [|s specs IH]; simpl.
  - split; [intros [] | congruence].
  - destruct (String.eqb (spec_name s) n) eqn:E.
    + apply String.eqb_eq in E. split; [discriminate | auto].
    + apply String.eqb_neq in E. rewrite <- IH. split; [intros [?|?]; [contradiction | assumption] | auto].
Qed.

Lemma remove_root_no_wrapper (specs : list PrimSpec) :
  find_spec "root" (remove_root "root" specs) = None.
Proof.
  unfold find_spec, remove_root. induction specs as [|s specs IH]; simpl; [reflexivity|].
  destruct (String.eqb (spec_name s) "root") eqn:E; simpl; [assumption|].
  rewrite E. assumption.
Qed.

Lemma update_at_names (p : Path) (f : PrimSpec -> PrimSpec) (specs : list PrimSpec) :
  (forall s, spec_name (f s) = spec_name s) ->
  map spec_name (update_at p f specs) = map spec_name specs.
Proof.
  intros Hf. destruct p as [|n rest]; [reflexivity|].
  cbn [update_at]. rewrite List.map_map. apply List.map_ext. intros s.
  destruct (String.eqb (spec_name s) n); [|reflexivity].
  destruct rest; [apply Hf | reflexivity].
Qed.

Lemma put_spec_names (n : string) (s : PrimSpec) (specs : list PrimSpec) :
  In n (map spec_name specs) -> In n (map spec_name (put_spec s specs)).
Proof.
  intros Hin. unfold put_spec.
  destruct (existsb _ specs).
  - rewrite List.map_map.
    replace (map (fun t => spec_name (if String.eqb (spec_name t) (spec_name s) then s else t)) specs)
      with (map spec_name specs); [assumption|].
    apply List.map_ext. intros t.
    destruct (String.eqb (spec_name t) (spec_name s)) eqn:E; [|reflexivity].
    apply String.eqb_eq in E. congruence.
  - rewrite List.map_app. apply List.in_or_app. left. assumption.
Qed.

Lemma place_spec_names (n : string) (keep : bool) (src dst : Path) (specs : list PrimSpec) :
  In n (map spec_name specs) ->
  In n (map spec_name (fst (place_spec keep src dst specs))).
Proof.
  intros Hin. unfold place_spec.
  destruct (spec_at specs src) as [s|]; [|assumption].
  set (removed := if keep then specs else _).
  assert (Hrem : In n (map spec_name removed)).
  { subst removed. destruct keep; [assumption|].
    rewrite update_at_names; [assumption | reflexivity]. }
  destruct dst as [|d1 [|d2 [|d3 dst]]]; cbn [fst]; try assumption.
  - apply put_spec_names. assumption.
  - destruct (find_spec d1 removed); cbn [fst]; [|assumption].
    rewrite update_at_names; [assumption | reflexivity].
Qed.

Lemma apply_edit_names (n : string) (edit : list (Path * Path)) (specs : list PrimSpec) :
  In n (map spec_name specs) -> In n (map spec_name (apply_edit edit specs)).
Proof.
  unfold apply_edit. revert specs.
  induction edit as [|e edit IH]; intros specs Hin; [assumption|].
  cbn [fold_left]. apply IH. apply place_spec_names. assumption.
Qed.

(** The copies of the fall-back leave the default prim as it was, in the
    layer they end with and in every layer of their trace. *)
Lemma copy_step_default_prim (cp : Path) (dn : string) (nested : bool)
    (acc : SdfLayer * list (Event * SdfLayer)) (n d : string) :
  defaultPrim (fst acc) = d ->
  Forall (fun st => defaultPrim (snd st) = d) (snd acc) ->
  defaultPrim (fst (copy_step cp dn nested acc n)) = d
  /\ Forall (fun st => defaultPrim (snd st) = d) (snd (copy_step cp dn nested acc n)).
Proof.
  intros Hd Hall. unfold copy_step.
  destruct (place_spec true (cp ++ [n]) _ (rootPrims (fst acc))) as [specs ok].
  destruct (nested && negb ok).
  - destruct (place_spec true (cp ++ [n]) [n] _) as [specs2 ok2]. cbn [fst snd].
    split; [exact Hd|].
    apply Forall_app; split; [assumption|].
    repeat constructor; exact Hd.
  - cbn [fst snd]. split; [exact Hd|].
    apply Forall_app; split; [assumption|].
    repeat constructor; exact Hd.
Qed.

Lemma copy_steps_default_prim (cp : Path) (dn : string) (nested : bool) (names : list string)
    (acc : SdfLayer * list (Event * SdfLayer)) (d : string) :
  defaultPrim (fst acc) = d ->
  Forall (fun st => defaultPrim (snd st) = d) (snd acc) ->
  defaultPrim (fst (fold_left (copy_step cp dn nested) names acc)) = d
  /\ Forall (fun st => defaultPrim (snd st) = d)
            (snd (fold_left (copy_step cp dn nested) names acc)).
Proof.
  revert acc. induction names as [|n names IH]; intros acc Hd Hall; [split; assumption|].
  cbn [fold_left].
  destruct (copy_step_default_prim cp dn nested acc n d Hd Hall) as [H1 H2].
  apply IH; assumption.
Qed.

(** [_strip_root_fallback] ends with the removal of [/root]: the layer it
    returns has no wrapper, and its default prim is the one it started with. *)
Lemma fallback_ends_with_removal (l : SdfLayer) (wrapper_path : Path)
    (main_children mtl_children : list string) (default_name : string) (nest_mtl : bool) :
  exists copies removed,
    _strip_root_fallback l wrapper_path main_children mtl_children default_name nest_mtl
      = (removed, copies ++ [(ERemovePrim ["root"], removed)])
    /\ has_wrapper removed = false
    /\ defaultPrim removed = defaultPrim l
    /\ Forall (fun st => defaultPrim (snd st) = defaultPrim l) copies.
Proof.
  unfold _strip_root_fallback.
  set (acc1 := fold_left (copy_step wrapper_path default_name false) main_children (l, [])).
  set (acc2 := fold_left (copy_step wrapper_path default_name nest_mtl) mtl_children acc1).
  assert (H1 : defaultPrim (fst acc1) = defaultPrim l
               /\ Forall (fun st => defaultPrim (snd st) = defaultPrim l) (snd acc1)).
  { subst acc1. apply copy_steps_default_prim; [reflexivity | constructor]. }
  assert (H2 : defaultPrim (fst acc2) = defaultPrim l
               /\ Forall (fun st => defaultPrim (snd st) = defaultPrim l) (snd acc2)).
  { subst acc2. apply copy_steps_default_prim; tauto. }
  exists (snd acc2), (with_prims (remove_root "root" (rootPrims (fst acc2))) (fst acc2)).
  split; [reflexivity|]. split; [|split].
  - unfold has_wrapper, with_prims. cbn [rootPrims].
    rewrite remove_root_no_wrapper. reflexivity.
  - apply H2.
  - apply H2.
Qed.

(** When the namespace edit applies, the order is the one the comment in the
    source promises: the default prim is set on a layer that still has the
    wrapper, and the wrapper goes last. *)
Lemma apply_ok_sets_default_prim_first (l : SdfLayer) :
  _strip_root_wrapper true l = []
  \/ exists moved default_name named final,
       _strip_root_wrapper true l
         = [(EApply true, moved); (ESetDefaultPrim default_name, named);
            (EDeleteRootPrim "root", final)]
       /\ has_wrapper moved = true
       /\ has_wrapper named = true
       /\ defaultPrim named = default_name
       /\ has_wrapper final = false
       /\ defaultPrim final = default_name.
Proof.
  unfold _strip_root_wrapper.
  destruct (find_spec "root" (rootPrims l)) as [root_spec|] eqn:Hroot; [|left; reflexivity].
  destruct (spec_at (rootPrims l) (deepest_wrapper root_spec ["root"])) as [wrapper_spec|];
    [|left; reflexivity].
  destruct (nameChildren wrapper_spec) as [|c cs] eqn:Hall; [left; reflexivity|].
  destruct (map spec_name (List.filter _ (c :: cs))) as [|first_main mains] eqn:Hmain;
    [left; reflexivity|].
  right. cbv zeta. unfold with_prims. cbn [app rootPrims defaultPrim].
  match goal with
  | |- context [apply_edit ?e (rootPrims l)] => set (edit := e)
  end.
  assert (Hkept : find_spec "root" (apply_edit edit (rootPrims l)) <> None).
  { apply find_spec_in. apply apply_edit_names. apply find_spec_in. congruence. }
  destruct (find_spec "root" (apply_edit edit (rootPrims l))) as [kept|] eqn:Hk;
    [|congruence].
  do 4 eexists. split; [reflexivity|].
  unfold has_wrapper. cbn [rootPrims defaultPrim].
  rewrite Hk, remove_root_no_wrapper. repeat split; reflexivity.
Qed.

(** C4. The document's default prim is not committed before the wrapper is
    deleted in every run of [_strip_root_wrapper]. When the namespace edit
    fails and the run goes on (it is not one of the early returns), the
    fall-back removes [/root] first: on a layer that starts without a default
    prim, no layer of the trace up to the removal has one, the layer the
    removal leaves has neither the wrapper nor a default prim, and the
    assignment of [layer.defaultPrim] is the step after it, the last of the
    run. *)
Theorem fallback_removes_wrapper_before_default_prim (l : SdfLayer) :
  defaultPrim l = "" ->
  _strip_root_wrapper false l <> [] ->
  exists before removed default_name final,
    _strip_root_wrapper false l
      = before ++ [(ERemovePrim ["root"], removed); (ESetDefaultPrim default_name, final)]
    /\ Forall (fun st => defaultPrim (snd st) = "") before
    /\ has_wrapper removed = false
    /\ entry_reachable removed = false
    /\ defaultPrim final = default_name.
Proof.
  intros Hd Hrun. revert Hrun. unfold _strip_root_wrapper.
  destruct (find_spec "root" (rootPrims l)) as [root_spec|]; [|congruence].
  destruct (spec_at (rootPrims l) (deepest_wrapper root_spec ["root"])) as [wrapper_spec|];
    [|congruence].
  destruct (nameChildren wrapper_spec) as [|c cs]; [congruence|].
  destruct (map spec_name (List.filter _ (c :: cs))) as [|first_main mains];
    [congruence|].
  intros _. cbv zeta.
  match goal with
  | |- context [_strip_root_fallback l ?wp ?ma ?mt ?dn ?ne] =>
      destruct (fallback_ends_with_removal l wp ma mt dn ne)
        as (copies & removed & Heq & Hw & Hdef & Hall);
      rewrite Heq; set (default_name := dn)
  end.
  cbn [rootPrims].
  unfold has_wrapper in Hw.
  destruct (find_spec "root" (rootPrims removed)) eqn:E; [discriminate|].
  exists ((EApply false, l) :: copies), removed, default_name,
         {| rootPrims := rootPrims removed; defaultPrim := default_name |}.
  split; [|split; [|split; [|split]]].
  - cbn [app]. rewrite <- List.app_assoc. reflexivity.
  - constructor; [exact Hd|]. rewrite Hd in Hall. exact Hall.
  - unfold has_wrapper. rewrite E. reflexivity.
  - unfold entry_reachable, has_default_prim, has_wrapper.
    rewrite Hdef, Hd, E. reflexivity.
  - reflexivity.
Qed.

(** The run on the layer whose root prim [Hero] takes the destination of the
    move: after the removal of [/root] the layer has the copied [Hero] and no
    default prim. *)
Lemma fallback_removes_wrapper_before_default_prim_witness :
  exists before removed default_name final,
    _strip_root_wrapper false occupied_layer
      = before ++ [(ERemovePrim ["root"], removed); (ESetDefaultPrim default_name, final)]
    /\ Forall (fun st => defaultPrim (snd st) = "") before
    /\ has_wrapper removed = false
    /\ entry_reachable removed = false
    /\ defaultPrim final = default_name.
Proof.
  apply (fallback_removes_wrapper_before_default_prim occupied_layer).
  - reflexivity.
  - vm_compute. discriminate.
Defined.

(* ------------------------------------------------------------------ *)
(** ** The stage pass of the remapper *)

Lemma remap_property_facts (sp : string) (nt : option string) (mtl : list string)
    (rp : option string) (p : PathProperty) :
  let '(p', n, raised) := remap_property sp nt mtl rp p in
  prop_name p' = prop_name p
  /\ n <= 1
  /\ raised = authors_root sp nt mtl rp p
  /\ (raised = false -> n = 0 -> p' = p).
Proof.
  unfold remap_property, authors_root, SetTargets.
  destruct (reauthor sp nt mtl rp (prop_paths p)) as [l|]; cbn [prop_name].
  - destruct (existsb (String.eqb "/") l); repeat split; auto; try lia;
      try discriminate.
  - repeat split; auto.
Qed.

Lemma remap_properties_facts (sp : string) (nt : option string) (mtl : list string)
    (rp : option string) (ps : list PathProperty) :
  let '(ps', n, raised) := remap_properties sp nt mtl rp ps in
  property_names ps' = property_names ps
  /\ n <= length ps
  /\ raised = existsb (authors_root sp nt mtl rp) ps
  /\ (raised = false -> n = 0 -> ps' = ps).
Proof.
  induction ps as [|p ps IH]; cbn [remap_properties].
  - repeat split; auto.
  - pose proof (remap_property_facts sp nt mtl rp p) as Hp.
    destruct (remap_property sp nt mtl rp p) as [[p' n] raised].
    destruct Hp as (Hn & Hle & Hr & Hsame).
    destruct (remap_properties sp nt mtl rp ps) as [[ps' m] raised'].
    destruct IH as (IHn & IHle & IHr & IHsame).
    unfold property_names in *. cbn [existsb].
    rewrite <- Hr. destruct raised; cbn [orb map length].
    + repeat split; try discriminate.
      * now rewrite Hn.
      * lia.
    + repeat split.
      * now rewrite Hn, IHn.
      * lia.
      * exact IHr.
      * intros Hf H0. rewrite Hsame by (auto; lia). rewrite IHsame by (auto; lia).
        reflexivity.
Qed.

Lemma existsb_app_bool {A : Type} (f : A -> bool) (l1 l2 : list A) :
  existsb f (l1 ++ l2) = existsb f l1 || existsb f l2.
Proof. apply List.existsb_app. Qed.

Lemma remap_paths_in_place_facts (sp : string) (nt : option string) (mtl : list string)
    (rp : option string) (stage : list StagePrim) :
  let '(stage', remapped, raised) := _remap_paths_in_place sp nt mtl rp stage in
  stage_names stage' = stage_names stage
  /\ remapped <= property_count stage
  /\ raised = existsb (fun prim => existsb (authors_root sp nt mtl rp)
                                           (relationships prim ++ attributes prim))
                      stage
  /\ (raised = false -> remapped = 0 -> stage' = stage).
Proof.
  induction stage as [|prim stage IH]; cbn [_remap_paths_in_place].
  - repeat split; auto.
  - pose proof (remap_properties_facts sp nt mtl rp (relationships prim)) as Hr.
    destruct (remap_properties sp nt mtl rp (relationships prim)) as [[rels n] r1].
    destruct Hr as (Hrn & Hrle & Hrr & Hrsame).
    pose proof (remap_properties_facts sp nt mtl rp (attributes prim)) as Ha.
    destruct (remap_properties sp nt mtl rp (attributes prim)) as [[atts m] r2].
    destruct Ha as (Han & Hale & Har & Hasame).
    destruct (_remap_paths_in_place sp nt mtl rp stage) as [[rest k] r3].
    destruct IH as (IHn & IHle & IHr & IHsame).
    assert (Hcount : property_count (prim :: stage)
                     = length (relationships prim) + length (attributes prim)
                       + property_count stage).
    { unfold property_count, list_sum. reflexivity. }
    rewrite Hcount. cbn [existsb]. rewrite existsb_app_bool, <- Hrr, <- Har.
    unfold stage_names in *.
    destruct r1; cbn [orb].
    { repeat split; try discriminate; try lia.
      cbn [map prim_path relationships attributes]. now rewrite Hrn. }
    destruct r2; cbn [orb].
    { repeat split; try discriminate; try lia.
      cbn [map prim_path relationships attributes]. now rewrite Hrn, Han. }
    repeat split.
    + cbn [map prim_path relationships attributes]. now rewrite Hrn, Han, IHn.
    + lia.
    + exact IHr.
    + intros Hf H0. rewrite Hrsame, Hasame, IHsame by (auto; lia).
      now destruct prim.
Qed.

Lemma strip_prefix_to_root (sp : string) (nt : option string) (mtl : list string) :
  _remap_path_str sp sp nt mtl None = Some "/".
Proof.
  assert (Hn : nested_stage sp sp nt mtl = None).
  { destruct (nested_stage sp sp nt mtl) as [r|] eqn:E; [|reflexivity].
    apply nested_stage_some in E as ((nt0 & m & rest & _ & _ & _ & [H _]) & _).
    apply (f_equal String.length) in H. rewrite !length_app_str in H.
    cbn [String.length] in H. lia. }
  destruct (remap_unnested sp sp nt mtl None Hn) as [H _].
  rewrite (H ""); [reflexivity|].
  split; [now rewrite app_nil_r_str|now left].
Qed.

(** X1. [_remap_paths_in_place] changes nothing but the paths of the
    properties: the prims and the names of their relationships and attributes
    stay as they were, also when the run is ended by an exception. The count
    is at most the number of properties of the stage, and a run that returns
    0 leaves the stage as it was. The run is ended by an exception exactly
    when a list handed to [SetTargets] or [SetConnections] holds the root
    path; with no replacement prefix that is so for every property with a
    path equal to the strip prefix. *)
Theorem remap_paths_in_place_keeps_names (sp : string) (nt : option string)
    (mtl : list string) (rp : option string) (stage : list StagePrim) :
  let '(stage', remapped, raised) := _remap_paths_in_place sp nt mtl rp stage in
  stage_names stage' = stage_names stage
  /\ remapped <= property_count stage
  /\ (raised = false -> remapped = 0 -> stage' = stage)
  /\ raised = existsb (fun prim => existsb (authors_root sp nt mtl rp)
                                           (relationships prim ++ attributes prim))
                      stage
  /\ (rp = None ->
      forall prim p, In prim stage -> In p (relationships prim ++ attributes prim) ->
                     In sp (prop_paths p) -> raised = true).
Proof.
  pose proof (remap_paths_in_place_facts sp nt mtl rp stage) as H.
  destruct (_remap_paths_in_place sp nt mtl rp stage) as [[stage' remapped] raised].
  destruct H as (Hn & Hle & Hr & Hsame).
  repeat split; try assumption.
  intros -> prim p Hprim Hp Hsp. rewrite Hr.
  apply existsb_exists. exists prim. split; [exact Hprim|].
  apply existsb_exists. exists p. split; [exact Hp|].
  unfold authors_root.
  destruct (reauthor sp nt mtl None (prop_paths p)) as [l|] eqn:E.
  - apply reauthor_spec in E as [-> _].
    apply existsb_exists. exists "/". split; [|reflexivity].
    apply in_map_iff. exists sp. split; [|exact Hsp].
    unfold entry_after. now rewrite strip_prefix_to_root.
  - exfalso.
    assert (Hsome : exists new, reauthor sp nt mtl None (prop_paths p) = Some new).
    { eexists. apply reauthor_spec. split; [reflexivity|].
      exists sp. split; [exact Hsp|]. rewrite strip_prefix_to_root. discriminate. }
    destruct Hsome as [new Hnew]. congruence.
Qed.

(** X2. [_remap_path_str] answers [None] exactly for the paths that are not
    the strip prefix and do not continue it with a slash: a path that merely
    starts with the letters of the prefix is never rewritten, and every path at
    or under the prefix is. *)
Theorem remap_path_str_none_iff (path sp : string) (nt : option string)
    (mtl : list string) (rp : option string) :
  _remap_path_str path sp nt mtl rp = None
  <-> startswith path (sp +:+ "/") = false /\ path <> sp.
Proof.
  unfold _remap_path_str.
  destruct (nested_stage path sp nt mtl) as [r|] eqn:En.
  - split; [discriminate|]. intros [Hs Hne]. exfalso.
    apply nested_stage_some in En as [(n & m & rest & _ & _ & _ & Hu & _) _].
    assert (startswith path (sp +:+ "/") = true); [|congruence].
    rewrite Hu. rewrite !app_assoc_str.
    rewrite <- (app_assoc_str sp "/"). apply startswith_app.
  - destruct (startswith path (sp +:+ "/")) eqn:Es.
    + split; [|intros [? _]; discriminate].
      destruct rp as [rp|]; [destruct (String.eqb rp "/")|]; discriminate.
    + destruct (String.eqb path sp) eqn:Ee.
      * apply String.eqb_eq in Ee.
        split; [destruct rp; discriminate | intros [_ ?]; contradiction].
      * apply String.eqb_neq in Ee. split; [auto | reflexivity].
Qed.

Lemma rstrip_slash_fixed_not_root (b : string) : rstrip_slash b = b -> b <> "/".
Proof. intros H ->. vm_compute in H. discriminate. Qed.

(** X3. A relocation can be undone. With no nest target, moving a path from
    under [a] to under [b] and then from under [b] back to under [a] gives the
    path that was there, for prefixes that are not empty and do not end with a
    slash (as [/root/Scene_A] and [/root], the prefixes of the flatten). *)
Theorem remap_path_str_round_trip (path a b q : string) :
  rstrip_slash a = a -> rstrip_slash b = b -> a <> "" -> b <> "" ->
  _remap_path_str path a None [] (Some b) = Some q ->
  _remap_path_str q b None [] (Some a) = Some path.
Proof.
  intros Ha Hb Hna Hnb.
  pose proof (rstrip_slash_fixed_not_root a Ha) as Hra.
  pose proof (rstrip_slash_fixed_not_root b Hb) as Hrb.
  unfold _remap_path_str. cbn [nested_stage].
  destruct (startswith path (a +:+ "/")) eqn:Es.
  - apply String.eqb_neq in Hrb. rewrite Hrb, Hb. intros [= <-].
    apply startswith_inv in Es.
    assert (Hd : drop_str (String.length a) path
                 = "/" +:+ drop_str (String.length (a +:+ "/")) path).
    { rewrite Es at 1. rewrite app_assoc_str. apply drop_app. }
    rewrite Hd. rewrite <- app_assoc_str. rewrite startswith_app.
    rewrite app_assoc_str, drop_app.
    apply String.eqb_neq in Hra. rewrite Hra, Ha.
    rewrite <- app_assoc_str. rewrite <- Es. reflexivity.
  - destruct (String.eqb path a) eqn:Ee; [|discriminate].
    apply String.eqb_eq in Ee. subst path.
    apply nonempty_iff in Hnb. rewrite Hnb. intros [= <-].
    rewrite startswith_longer, String.eqb_refl.
    apply nonempty_iff in Hna. rewrite Hna. reflexivity.
Qed.

Lemma remap_path_str_round_trip_witness :
  _remap_path_str "/root/Arm" "/root" None [] (Some "/root/Scene_A")
  = Some "/root/Scene_A/Arm".
Proof.
  apply (remap_path_str_round_trip "/root/Scene_A/Arm" "/root/Scene_A" "/root" "/root/Arm");
    try reflexivity; discriminate.
Defined.

(* ------------------------------------------------------------------ *)
(** ** More about the name sanitizer *)

Section SanitizerFixedPoints.
Context {table : CodeTable}.

Lemma sanitize_chars_fixed (name : string) :
  all_chars name_char name = true -> sanitize_chars name = name.
Proof.
  induction name as [|c name IH]; cbn [all_chars sanitize_chars]; [reflexivity|].
  intros H. apply andb_prop in H as [Hc Hr]. unfold name_char in Hc.
  rewrite Hc, IH by assumption. reflexivity.
Qed.

Lemma make_valid_prim_name_fixed (name : string) :
  all_chars name_char name = true -> nonempty name = true ->
  (forall c, first_char name = Some c -> isdigit c = false) ->
  make_valid_prim_name name = name.
Proof.
  intros Hall Hne Hfirst. unfold make_valid_prim_name.
  rewrite sanitize_chars_fixed by assumption.
  destruct name as [|c name]; [discriminate|].
  rewrite (Hfirst c eq_refl). reflexivity.
Qed.

(** X4. [make_valid_prim_name] is idempotent: the name it returns is a name
    it returns unchanged. *)
Theorem make_valid_prim_name_idempotent (name : string) :
  make_valid_prim_name (make_valid_prim_name name) = make_valid_prim_name name.
Proof.
  apply make_valid_prim_name_fixed.
  - unfold make_valid_prim_name.
    pose proof (sanitize_chars_all name) as Hall.
    destruct (sanitize_chars name) as [|c r]; [reflexivity|].
    destruct (isdigit c); cbn [nonempty]; [|exact Hall].
    cbn [all_chars] in Hall |- *. rewrite Hall. reflexivity.
  - unfold make_valid_prim_name.
    destruct (sanitize_chars name) as [|c r]; [reflexivity|].
    destruct (isdigit c); reflexivity.
  - unfold make_valid_prim_name.
    destruct (sanitize_chars name) as [|c r].
    + cbn. intros c [= <-]. reflexivity.
    + destruct (isdigit c) eqn:Ed; cbn [nonempty first_char]; intros c' [= <-].
      * apply isdigit_underscore.
      * exact Ed.
Qed.

End SanitizerFixedPoints.

(* ------------------------------------------------------------------ *)
(** ** Sibling groups *)

Section GroupFacts.
Context {table : CodeTable}.

Lemma group_key_item_of (n : string) : group_key (item_of n) = base_of n.
Proof.
  unfold item_of, base_of.
  destruct (parse_name_suffixes n) as [[[b p] v] pl]. reflexivity.
Qed.

Lemma name_item_of (n : string) : name (item_of n) = n.
Proof.
  unfold item_of. destruct (parse_name_suffixes n) as [[[b p] v] pl]. reflexivity.
Qed.

(** X5. [get_sibling_groups] is a partition of the children by base name:
    the keys are distinct, the group of a key holds the items of exactly the
    children with that base name, in the order of the children, and a key is
    there exactly when a child has it as base name. *)
Theorem sibling_groups_partition (children : list string) :
  List.NoDup (dict_keys (get_sibling_groups children))
  /\ (forall k,
        dict_get k (get_sibling_groups children)
        = bucket_of (map item_of
                         (List.filter (fun n => String.eqb (base_of n) k) children)))
  /\ (forall k,
        In k (dict_keys (get_sibling_groups children))
        <-> exists n, In n children /\ base_of n = k).
Proof.
  assert (Hget : forall k,
             dict_get k (get_sibling_groups children)
             = bucket_of (map item_of
                              (List.filter (fun n => String.eqb (base_of n) k) children))).
  { intros k. unfold get_sibling_groups. cbv zeta.
    rewrite (fold_append_get (fun n => group_key (item_of n)) item_of).
    cbn [dict_get].
    replace (List.filter (fun b => String.eqb (group_key (item_of b)) k) children)
      with (List.filter (fun n => String.eqb (base_of n) k) children).
    - destruct (map item_of _); reflexivity.
    - apply List.filter_ext. intros n. rewrite group_key_item_of. reflexivity. }
  split; [|split].
  - unfold get_sibling_groups. cbv zeta.
    apply (fold_append_NoDup (fun n => group_key (item_of n)) item_of).
    constructor.
  - exact Hget.
  - intros k. rewrite <- dict_get_keys, Hget.
    split.
    + intros Hne.
      destruct (List.filter (fun n => String.eqb (base_of n) k) children) as [|n l] eqn:Ef;
        [contradiction|].
      assert (Hin : In n (List.filter (fun n => String.eqb (base_of n) k) children))
        by (rewrite Ef; left; reflexivity).
      apply List.filter_In in Hin as [Hin Hb]. apply String.eqb_eq in Hb.
      exists n. split; assumption.
    + intros (n & Hin & Hb).
      assert (Hf : In n (List.filter (fun n => String.eqb (base_of n) k) children)).
      { apply List.filter_In. split; [assumption|]. apply String.eqb_eq. assumption. }
      destruct (List.filter (fun n => String.eqb (base_of n) k) children); [contradiction|].
      discriminate.
Qed.

End GroupFacts.

(* ------------------------------------------------------------------ *)
(** ** The children lists of the hierarchy tree *)

Lemma dict_mem_alter {V : Type} (f : V -> V) (k k' : string) (d : list (string * V)) :
  dict_mem k' (dict_alter f k d) = dict_mem k' d.
Proof.
  unfold dict_mem. rewrite dict_get_alter.
  destruct (String.eqb k k'); [|reflexivity].
  destruct (dict_get k' d); reflexivity.
Qed.

Lemma link_child_mem (tree : list (string * TreeNode)) (item : string * option string)
    (m : string) :
  dict_mem m (link_child tree item) = dict_mem m tree.
Proof.
  unfold link_child. destruct (snd item) as [p|]; [|reflexivity].
  destruct (nonempty p && dict_mem p tree); [apply dict_mem_alter | reflexivity].
Qed.

Lemma link_child_children_of (tree : list (string * TreeNode))
    (item : string * option string) (m : string) :
  children_of (link_child tree item) m
  = children_of tree m
    ++ (if dict_mem m tree && nonempty m && parent_is m item then [fst item] else []).
Proof.
  unfold link_child, parent_is, children_of.
  destruct (snd item) as [p|]; [|rewrite andb_false_r, app_nil_r; reflexivity].
  destruct (String.eqb p m) eqn:Ep.
  - apply String.eqb_eq in Ep. subst p.
    rewrite andb_true_r, (andb_comm (dict_mem m tree)).
    destruct (nonempty m && dict_mem m tree) eqn:E; [|rewrite app_nil_r; reflexivity].
    rewrite dict_get_alter, String.eqb_refl.
    apply andb_prop in E as [_ E]. unfold dict_mem in E.
    destruct (dict_get m tree); [reflexivity | discriminate].
  - rewrite andb_false_r, app_nil_r.
    destruct (nonempty p && dict_mem p tree); [|reflexivity].
    rewrite dict_get_alter, Ep. reflexivity.
Qed.

Lemma fold_link_children_of (items : list (string * option string))
    (tree : list (string * TreeNode)) (m : string) :
  children_of (fold_left link_child items tree) m
  = children_of tree m
    ++ (if dict_mem m tree && nonempty m
        then map fst (List.filter (parent_is m) items) else []).
Proof.
  revert tree. induction items as [|item items IH]; intros tree; cbn [fold_left].
  - destruct (dict_mem m tree && nonempty m); rewrite app_nil_r; reflexivity.
  - rewrite IH, link_child_children_of, link_child_mem.
    rewrite <- List.app_assoc. f_equal.
    cbn [List.filter].
    destruct (dict_mem m tree && nonempty m); [|reflexivity].
    cbn [andb]. destruct (parent_is m item); reflexivity.
Qed.

Lemma initial_tree_mem (h : list (string * option string)) (m : string) :
  dict_mem m (map (fun e => (fst e, {| parent := snd e; children := [] |})) h)
  = dict_mem m h.
Proof.
  unfold dict_mem. induction h as [|[k v] h IH]; [reflexivity|].
  cbn [map dict_get fst snd]. destruct (String.eqb k m); [reflexivity | exact IH].
Qed.

(** X6. The children list [build_hierarchy_tree] gives a node: the names of
    the entries whose parent is the node, in the order of the hierarchy; no
    children for a name that is no key or is the empty string. (An entry that
    names itself as parent is a child of itself.) *)
Theorem build_hierarchy_tree_children (h : list (string * option string)) (m : string) :
  children_of (build_hierarchy_tree h) m
  = if dict_mem m h && nonempty m
    then map fst (List.filter (parent_is m) h)
    else [].
Proof.
  unfold build_hierarchy_tree. rewrite fold_link_children_of, initial_tree_mem.
  replace (children_of (map (fun e => (fst e, {| parent := snd e; children := [] |})) h) m)
    with (@nil string); [reflexivity|].
  unfold children_of.
  destruct (dict_get m (map (fun e => (fst e, {| parent := snd e; children := [] |})) h))
    as [node|] eqn:E; [|reflexivity].
  symmetry. exact (initial_tree_children h m node E).
Qed.

(* ------------------------------------------------------------------ *)
(** ** The purpose buckets keep the group *)

Section BucketItems.
Context {A : Type}.

Lemma bucket_items_alter (y : list A) (k : string) (d : list (string * list A)) :
  dict_mem k d = true ->
  Permutation (bucket_items (dict_alter (fun l => l ++ y) k d)) (bucket_items d ++ y).
Proof.
  unfold bucket_items, dict_mem.
  induction d as [|[k' l] d IH]; cbn [dict_get dict_alter]; [discriminate|].
  destruct (String.eqb k' k); intros H; cbn [map concat snd].
  - rewrite <- !List.app_assoc. apply Permutation_app_head. apply Permutation_app_comm.
  - rewrite <- List.app_assoc. apply Permutation_app_head. apply IH. exact H.
Qed.

Lemma bucket_items_append (k : string) (x : A) (d : list (string * list A)) :
  Permutation (bucket_items (dict_append k x d)) (bucket_items d ++ [x]).
Proof.
  unfold dict_append. destruct (dict_mem k d) eqn:E.
  - apply bucket_items_alter. exact E.
  - unfold bucket_items. rewrite List.map_app, List.concat_app. cbn. reflexivity.
Qed.

Lemma bucket_items_fold {B : Type} (key : B -> string) (f : B -> A) (l : list B)
    (d : list (string * list A)) :
  Permutation (bucket_items (fold_left (fun acc b => dict_append (key b) (f b) acc) l d))
              (bucket_items d ++ map f l).
Proof.
  revert d. induction l as [|b l IH]; intros d; cbn [fold_left map].
  - rewrite app_nil_r. reflexivity.
  - rewrite IH, bucket_items_append, <- List.app_assoc. reflexivity.
Qed.

Lemma bucket_items_remove (k : string) (v : list A) (d : list (string * list A)) :
  dict_get k d = Some v ->
  Permutation (bucket_items d) (bucket_items (dict_remove k d) ++ v).
Proof.
  unfold bucket_items.
  induction d as [|[k' l] d IH]; cbn [dict_get dict_remove]; [discriminate|].
  destruct (String.eqb k' k); intros H; cbn [map concat snd].
  - injection H as ->. apply Permutation_app_comm.
  - rewrite <- List.app_assoc. apply Permutation_app_head. apply IH. exact H.
Qed.

Lemma dict_keys_remove_incl (k k' : string) (d : list (string * list A)) :
  In k' (dict_keys (dict_remove k d)) -> In k' (dict_keys d).
Proof.
  unfold dict_keys. induction d as [|[k0 l] d IH]; cbn [dict_remove]; [auto|].
  destruct (String.eqb k0 k); cbn [map fst In]; [auto|].
  intros [H|H]; [left; exact H | right; apply IH; exact H].
Qed.

End BucketItems.

(** X7. The purpose buckets lose no member of the group and repeat none: the
    items of the buckets of [by_purpose], put together, are a permutation of
    the group, and no purpose name is the key of two buckets. *)
Theorem by_purpose_keeps_items (group : list Item) :
  Permutation (bucket_items (by_purpose group)) group
  /\ List.NoDup (dict_keys (by_purpose group)).
Proof.
  assert (Hfill : Permutation (bucket_items (filled group)) group).
  { unfold filled.
    rewrite (bucket_items_fold bucket_key (fun it => it) group []).
    rewrite List.map_id. reflexivity. }
  pose proof (filled_NoDup group) as Hnd.
  unfold by_purpose.
  destruct (dict_get "default" (filled group)) as [defaults|] eqn:Ed; [|split; assumption].
  destruct (has_proxy_or_guide group); [|split; assumption].
  pose proof (bucket_items_remove "default" defaults (filled group) Ed) as Hrem.
  destruct (dict_mem "render" (filled group)) eqn:Er.
  - split.
    + rewrite bucket_items_alter.
      * rewrite <- Hrem. exact Hfill.
      * unfold dict_mem in *. rewrite dict_get_remove by exact Hnd. exact Er.
    + rewrite dict_keys_alter. apply dict_remove_NoDup. exact Hnd.
  - split.
    + unfold bucket_items in *. rewrite List.map_app, List.concat_app. cbn [map concat snd].
      rewrite app_nil_r, <- Hrem. exact Hfill.
    + unfold dict_keys. rewrite List.map_app. cbn [map fst].
      apply List.NoDup_app.
      * apply dict_remove_NoDup. exact Hnd.
      * repeat constructor. intros [].
      * intros k Hin [<-|[]].
        apply dict_keys_remove_incl in Hin. apply dict_mem_keys in Hin. congruence.
Qed.

(* ------------------------------------------------------------------ *)
(** ** The recursion of the assembler ends

    A node has one parent, and a root has none: the nodes that can be reached
    from a root are at a depth below the number of nodes, whatever cycles the
    parent fields of the other nodes form. *)

Section DepthFacts.
Variable entries : list (string * option string).

Lemma hierarchy_NoDup : List.NoDup (dict_keys (hierarchy_of_entries entries)).
Proof. apply hierarchy_fold_NoDup. constructor. Qed.

Lemma tree_length :
  length (tree_of_entries entries) = length (hierarchy_of_entries entries).
Proof.
  unfold tree_of_entries.
  rewrite <- (skeleton_build (hierarchy_of_entries entries)) at 2.
  unfold skeleton. rewrite length_map. reflexivity.
Qed.

Lemma child_parent (c m : string) :
  In c (children_of (tree_of_entries entries) m) ->
  dict_get c (hierarchy_of_entries entries) = Some (Some m).
Proof.
  unfold children_of. intros Hin.
  destruct (dict_get m (tree_of_entries entries)) as [node|] eqn:E; [|contradiction].
  destruct (build_children (hierarchy_of_entries entries) m c node E Hin) as [Hh _].
  apply In_dict_get; [apply hierarchy_NoDup | exact Hh].
Qed.

Lemma root_parent (r : string) :
  In r (get_root_nodes (tree_of_entries entries)) ->
  dict_get r (hierarchy_of_entries entries) = Some None.
Proof.
  unfold tree_of_entries. rewrite skeleton_roots, skeleton_build.
  unfold null_parent_names. intros Hin.
  apply List.in_map_iff in Hin as ([k v] & <- & Hin).
  apply List.filter_In in Hin as [Hin Hv]. cbn [snd fst] in *.
  destruct v; [discriminate|].
  apply In_dict_get; [apply hierarchy_NoDup | exact Hin].
Qed.

Lemma depth_key (n : string) (d : nat) :
  depth_in (tree_of_entries entries) n d -> In n (dict_keys (hierarchy_of_entries entries)).
Proof.
  intros H. apply dict_get_keys.
  destruct H as [r Hr | c m d Hc _].
  - rewrite (root_parent r Hr). discriminate.
  - rewrite (child_parent c m Hc). discriminate.
Qed.

Lemma depth_unique (n : string) (d d' : nat) :
  depth_in (tree_of_entries entries) n d -> depth_in (tree_of_entries entries) n d' -> d = d'.
Proof.
  intros H. revert d'. induction H as [r Hr | c m d Hc Hm IH]; intros d' H'.
  - destruct H' as [r' _ | c' m' d' Hc' _]; [reflexivity|].
    apply root_parent in Hr. apply child_parent in Hc'. congruence.
  - inversion H' as [r' Hr' | c' m' d'' Hc' Hm']; subst.
    + apply root_parent in Hr'. apply child_parent in Hc. congruence.
    + apply child_parent in Hc. apply child_parent in Hc'.
      assert (m' = m) by congruence. subst m'.
      f_equal. apply IH. exact Hm'.
Qed.

Lemma depth_chain (n : string) (d : nat) :
  depth_in (tree_of_entries entries) n d ->
  exists chain,
    length chain = S d /\ List.NoDup chain
    /\ (forall x, In x chain -> In x (dict_keys (hierarchy_of_entries entries)))
    /\ (forall x, In x chain -> exists i, i <= d /\ depth_in (tree_of_entries entries) x i).
Proof.
  induction 1 as [r Hr | c m d Hc Hm (chain & Hlen & Hnd & Hkeys & Hdepth)].
  - exists [r]. split; [reflexivity|]. split; [repeat constructor; intros []|].
    split.
    + intros x [<-|[]]. apply (depth_key r 0). constructor. exact Hr.
    + intros x [<-|[]]. exists 0. split; [lia | constructor; exact Hr].
  - exists (c :: chain). split; [cbn [length]; lia|]. split; [|split].
    + constructor; [|exact Hnd].
      intros Hin. destruct (Hdepth c Hin) as (i & Hi & Hci).
      assert (i = S d); [|lia].
      apply (depth_unique c); [exact Hci | econstructor; eassumption].
    + intros x [<-|Hin]; [|apply Hkeys; exact Hin].
      apply (depth_key c (S d)). econstructor; eassumption.
    + intros x [<-|Hin].
      * exists (S d). split; [lia | econstructor; eassumption].
      * destruct (Hdepth x Hin) as (i & Hi & Hxi). exists i. split; [lia | exact Hxi].
Qed.

Lemma depth_bound (n : string) (d : nat) :
  depth_in (tree_of_entries entries) n d -> d < length (tree_of_entries entries).
Proof.
  intros H. destruct (depth_chain n d H) as (chain & Hlen & Hnd & Hkeys & _).
  pose proof (List.NoDup_incl_length Hnd Hkeys) as Hle.
  rewrite tree_length. unfold dict_keys in Hle. rewrite length_map in Hle. lia.
Qed.

End DepthFacts.

Lemma fold_option_total {A S : Type} (f : A -> S -> option S) (l : list A) :
  (forall x s, In x l -> exists s', f x s = Some s') ->
  forall s, exists s', fold_option f l s = Some s'.
Proof.
  induction l as [|x l IH]; intros Hf s; cbn [fold_option]; [eauto|].
  destruct (Hf x s (or_introl eq_refl)) as [s' ->].
  apply IH. intros y s0 Hy. apply Hf. right. exact Hy.
Qed.

Section Termination.
Context {table : CodeTable}.
Variable files : list (string * SourceDoc).
Variable tree : list (string * TreeNode).

Lemma sibling_group_names (children : list string) (g : string * list Item) (it : Item) :
  In g (get_sibling_groups children) -> In it (snd g) -> In (name it) children.
Proof.
  intros Hg Hit. destruct g as [k items]. cbn [snd] in Hit.
  assert (Hget : dict_get k (get_sibling_groups children) = Some items).
  { apply In_dict_get; [|exact Hg].
    unfold get_sibling_groups. cbv zeta.
    apply (fold_append_NoDup (fun n => group_key (item_of n)) item_of). constructor. }
  unfold get_sibling_groups in Hget. cbv zeta in Hget.
  rewrite (fold_append_get (fun n => group_key (item_of n)) item_of) in Hget.
  cbn [dict_get] in Hget.
  destruct (map item_of (List.filter (fun b => String.eqb (group_key (item_of b)) k) children))
    as [|x l] eqn:E; [discriminate|].
  injection Hget as <-. rewrite <- E in Hit.
  apply List.in_map_iff in Hit as (n & <- & Hn).
  apply List.filter_In in Hn as [Hn _]. rewrite name_item_of. exact Hn.
Qed.

(** A group is processed to the end when the recursive calls it makes, on its
    members and on their children, come back. *)
Lemma process_group_total (rec : string -> Path -> Assembly -> option Assembly)
    (prim_path : Path) (g : string * list Item) (st : Assembly) :
  (forall it p s, In it (snd g) -> exists s', rec (name it) p s = Some s') ->
  (forall it c p s, In it (snd g) -> In c (children_of tree (name it)) ->
                    exists s', rec c p s = Some s') ->
  exists st', process_group files tree rec prim_path g st = Some st'.
Proof.
  intros Hself Hkids. unfold process_group.
  assert (Hvar : forall s,
             exists s',
               fold_option
                 (fun item st =>
                    fold_option (fun child st => rec child
                                   (prim_path ++ [make_valid_prim_name (fst g)]) st)
                                (children_of tree (name item)) st)
                 (snd g) s = Some s').
  { apply fold_option_total. intros it s Hit.
    apply fold_option_total. intros c s0 Hc. eapply Hkids; eassumption. }
  assert (Hall : forall s,
             exists s', fold_option (fun item st => rec (name item) prim_path st) (snd g) s
                        = Some s').
  { apply fold_option_total. intros it s Hit. apply Hself. exact Hit. }
  destruct (snd g) as [|single [|second rest]] eqn:Eg.
  - destruct (has_purposes []); [eauto|].
    destruct (0 <? length (List.filter tagged [])); [apply Hvar | apply Hall].
  - destruct (negb (has_purposes [single]) && negb (0 <? length (List.filter tagged [single]))).
    + apply Hself. left. reflexivity.
    + destruct (has_purposes [single]); [eauto | apply Hvar].
  - destruct (has_purposes (single :: second :: rest)); [eauto|].
    destruct (0 <? length (List.filter tagged (single :: second :: rest)));
      [apply Hvar | apply Hall].
Qed.

End Termination.

Section Returns.
Context {table : CodeTable} {spaces : SpaceTable}.
Variable files : list (string * SourceDoc).
Variable entries : list (string * option string).

Lemma create_prim_recursive_returns (fuel : nat) :
  forall (n : string) (d : nat) (parent_path : Path) (st : Assembly),
    depth_in (tree_of_entries entries) n d -> length (tree_of_entries entries) <= fuel + d ->
    exists st',
      create_prim_recursive files (tree_of_entries entries) fuel n parent_path st = Some st'.
Proof.
  induction fuel as [|fuel IH]; intros n d parent_path st Hd Hlen.
  - apply depth_bound in Hd. lia.
  - cbn [create_prim_recursive].
    destruct (create_node files (tree_of_entries entries) n parent_path st)
      as [[prim_path st1] inst].
    destruct inst; [eauto|].
    destruct (dict_mem n (tree_of_entries entries)); [|eauto].
    destruct (validate_variants (children_of (tree_of_entries entries) n)
                (tree_of_entries entries)); [eauto|].
    apply fold_option_total. intros g s Hg.
    apply process_group_total.
    + intros it p s0 Hit.
      apply (IH (name it) (S d)); [|lia].
      econstructor; [|exact Hd].
      eapply sibling_group_names; eassumption.
    + intros it c p s0 Hit Hc.
      apply (IH c (S (S d))); [|lia].
      econstructor; [exact Hc|].
      econstructor; [|exact Hd].
      eapply sibling_group_names; eassumption.
Qed.

(** X8. The assembly of a hierarchy comes back: with as many steps of recursion
    depth as the tree has nodes (or more), [create_prim_recursive] reaches the
    leaves below every root and the run returns a stage, for every hierarchy
    table, also one whose parent fields form a cycle, and for every set of
    documents. *)
Theorem assemble_hierarchy_returns (default_prim_name : option string) (extra : nat) :
  exists st,
    assemble_hierarchy files (tree_of_entries entries)
      (length (tree_of_entries entries) + extra) default_prim_name = Some st.
Proof.
  unfold assemble_hierarchy.
  destruct (initial_assembly default_prim_name) as [root st0].
  set (configured := match configured_default_prim default_prim_name with
                     | Some _ => true
                     | None => false
                     end).
  destruct (fold_option_total
              (assemble_root files (tree_of_entries entries)
                 (length (tree_of_entries entries) + extra) root configured)
              (get_root_nodes (tree_of_entries entries))) with (s := (st0, false)) as [[st b] ->]; [|eauto].
  intros r acc Hr. unfold assemble_root.
  destruct (create_prim_recursive_returns (length (tree_of_entries entries) + extra) r 0 root
              (fst acc))
    as [st' ->]; [constructor; exact Hr | lia |].
  destruct (created_prims st' !! r) as [p|]; [|eauto].
  destruct (negb configured && negb (snd acc)); eauto.
Qed.

End Returns.

(* ------------------------------------------------------------------ *)
(** ** Invariants of the assembly

    What holds of the state before a prim is created and is kept by the four
    ways the assembler changes it (a prim defined, a prim altered, a name
    recorded in [created_prims] for a prim that is there, a message) holds
    when the recursion comes back. The prims are authored at paths [at_prim],
    one name below a path [at_parent]. *)

Lemma fold_option_preserves {A S : Type} (Q : S -> Prop) (f : A -> S -> option S)
    (l : list A) :
  (forall x s s', Q s -> f x s = Some s' -> Q s') ->
  forall s s', Q s -> fold_option f l s = Some s' -> Q s'.
Proof.
  intros Hf. induction l as [|x l IH]; intros s s' Hs; cbn [fold_option].
  - intros [= <-]. exact Hs.
  - destruct (f x s) as [s1|] eqn:E; [|discriminate].
    apply IH. eapply Hf; eassumption.
Qed.

Lemma fold_ensure_keeps (l : list Path) (s : gmap Path Prim) (q : Path) (x : Prim) :
  s !! q = Some x -> fold_left ensure_prim l s !! q = Some x.
Proof.
  revert s. induction l as [|p l IH]; intros s Hs; [exact Hs|].
  cbn [fold_left]. apply IH. rewrite ensure_prim_lookup, Hs. reflexivity.
Qed.

Lemma fold_ensure_keys (l : list Path) (s : gmap Path Prim) (k : Path) :
  is_Some (fold_left ensure_prim l s !! k) -> is_Some (s !! k) \/ In k l.
Proof.
  revert s. induction l as [|p l IH]; intros s; cbn [fold_left]; [auto|].
  intros H. apply IH in H as [H|H]; [|right; right; exact H].
  rewrite ensure_prim_lookup in H.
  destruct (s !! k) eqn:E; [left; eauto|].
  destruct (decide (p = k)) as [->|]; [right; left; reflexivity|].
  destruct H as [? H]. discriminate.
Qed.

Lemma alter_is_Some (f : Prim -> Prim) (p k : Path) (s : gmap Path Prim) :
  is_Some (alter f p s !! k) <-> is_Some (s !! k).
Proof.
  destruct (decide (p = k)) as [->|Hne].
  - rewrite lookup_alter_eq. apply fmap_is_Some.
  - rewrite lookup_alter_ne by exact Hne. reflexivity.
Qed.

Lemma define_alter_here (f : Prim -> Prim) (p : Path) (x : string) (s : gmap Path Prim) :
  is_Some (alter f (p ++ [x]) (DefinePrim (p ++ [x]) s) !! (p ++ [x])).
Proof.
  apply alter_is_Some. unfold DefinePrim.
  rewrite fold_ensure_lookup.
  - destruct (s !! (p ++ [x])); eauto.
  - apply prefixes_self. destruct p; discriminate.
Qed.

Lemma define_alter_keeps (f : Prim -> Prim) (p q : Path) (s : gmap Path Prim) :
  is_Some (s !! q) -> is_Some (alter f p (DefinePrim p s) !! q).
Proof.
  intros [x Hx]. apply alter_is_Some. unfold DefinePrim.
  rewrite (fold_ensure_keeps _ _ _ _ Hx). eauto.
Qed.

Section AssemblyInvariant.
Context {table : CodeTable}.
Variable files : list (string * SourceDoc).
Variable tree : list (string * TreeNode).
Variable P : Assembly -> Prop.
Variables at_prim at_parent : Path -> Prop.
Hypothesis parent_child : forall p x, at_parent p -> at_prim (p ++ [x]).
Hypothesis prim_parent : forall p, at_prim p -> at_parent p.
Hypothesis P_alter : forall f p st, at_prim p -> P st -> P (on_stage (alter f p) st).
Hypothesis P_define : forall p st, at_prim p -> P st -> P (on_stage (DefinePrim p) st).
Hypothesis P_created :
  forall n p st, at_prim p -> is_Some (stage st !! p) -> P st -> P (set_created n p st).
Hypothesis P_say : forall m st, P st -> P (say m st).

Lemma inv_define_alter (f : Prim -> Prim) (p : Path) (x : string) (st : Assembly) :
  at_prim (p ++ [x]) -> P st ->
  P (on_stage (fun s => alter f (p ++ [x]) (DefinePrim (p ++ [x]) s)) st)
  /\ is_Some (stage (on_stage (fun s => alter f (p ++ [x]) (DefinePrim (p ++ [x]) s)) st)
              !! (p ++ [x])).
Proof.
  intros Hp Hst. split.
  - change (P (on_stage (alter f (p ++ [x])) (on_stage (DefinePrim (p ++ [x])) st))).
    apply P_alter; [exact Hp|]. apply P_define; assumption.
  - apply define_alter_here.
Qed.

Lemma inv_alter (f : Prim -> Prim) (p q : Path) (st : Assembly) :
  at_prim p -> P st /\ is_Some (stage st !! q) ->
  P (on_stage (alter f p) st) /\ is_Some (stage (on_stage (alter f p) st) !! q).
Proof.
  intros Hp [Hst Hq]. split; [apply P_alter; assumption|].
  apply alter_is_Some. exact Hq.
Qed.

Lemma inv_apply_prim_properties (prim q : Path) (props : SourceDoc) (hc : bool)
    (st : Assembly) :
  at_prim prim -> P st /\ is_Some (stage st !! q) ->
  P (snd (apply_prim_properties prim props hc st))
  /\ is_Some (stage (snd (apply_prim_properties prim props hc st)) !! q).
Proof.
  intros Hp Hst. unfold apply_prim_properties.
  destruct (stage st !! prim); [|exact Hst].
  assert (Hk : P (if truthy (src_kind props)
                  then on_stage (alter (SetKind (default "" (src_kind props))) prim) st
                  else st)
               /\ is_Some (stage (if truthy (src_kind props)
                                  then on_stage (alter (SetKind (default "" (src_kind props)))
                                                       prim) st
                                  else st) !! q)).
  { destruct (truthy (src_kind props)); [apply inv_alter|]; assumption. }
  destruct (src_instanceable props) as [[|]|]; [|exact Hk|exact Hk].
  destruct hc; cbn [snd]; [|apply inv_alter; assumption].
  destruct Hk as [Hk1 Hk2]. split; [apply P_say; exact Hk1 | exact Hk2].
Qed.

Lemma inv_add_variant_item (prim : Path) (st : Assembly) (it : Item) :
  at_prim prim -> P st /\ is_Some (stage st !! prim) ->
  P (add_variant_item files prim st it)
  /\ is_Some (stage (add_variant_item files prim st it) !! prim).
Proof.
  intros Hp Hst. unfold add_variant_item.
  destruct (find_usd_file files (name it)); [|exact Hst].
  match goal with
  | |- context [apply_prim_properties prim ?pr false ?s] =>
      assert (Happ : P (snd (apply_prim_properties prim pr false s))
                     /\ is_Some (stage (snd (apply_prim_properties prim pr false s)) !! prim))
  end.
  { apply inv_apply_prim_properties; [exact Hp|].
    apply inv_alter; [exact Hp|]. apply inv_alter; assumption. }
  destruct Happ as [H1 H2]. split; [apply P_created; assumption | exact H2].
Qed.

Lemma inv_fill_variant_set (prim : Path) (items variants : list Item) (st : Assembly) :
  at_prim prim -> P st /\ is_Some (stage st !! prim) ->
  P (fill_variant_set files prim items variants st).
Proof.
  intros Hp Hst. unfold fill_variant_set, select_default.
  assert (Hfold : P (fold_left (add_variant_item files prim) items st)
                  /\ is_Some (stage (fold_left (add_variant_item files prim) items st)
                              !! prim)).
  { revert st Hst. induction items as [|it items IH]; intros st Hst; [exact Hst|].
    cbn [fold_left]. apply IH. apply inv_add_variant_item; assumption. }
  destruct Hfold as [Hfold _].
  destruct (List.find (fun it => negb (tagged it)) items); [apply P_alter; assumption|].
  destruct variants; [exact Hfold | apply P_alter; assumption].
Qed.

Lemma inv_stamp_purpose (prim q : Path) (purpose_name : string) (st : Assembly) :
  at_prim prim -> P st /\ is_Some (stage st !! q) ->
  P (stamp_purpose prim purpose_name st)
  /\ is_Some (stage (stamp_purpose prim purpose_name st) !! q).
Proof.
  intros Hp Hst. unfold stamp_purpose.
  destruct (purpose_of_bucket purpose_name); [apply inv_alter|]; assumption.
Qed.

Lemma inv_process_bucket (group_prim_path : Path) (st : Assembly)
    (bucket : string * list Item) :
  at_parent group_prim_path -> P st -> P (process_bucket files group_prim_path st bucket).
Proof.
  intros Hg Hst. pose proof (parent_child group_prim_path (fst bucket) Hg) as Hp.
  unfold process_bucket.
  destruct ((1 <? length (List.filter tagged (snd bucket)))
            || ((length (List.filter tagged (snd bucket)) =? 1)
                && (1 <? length (snd bucket)))).
  - apply inv_fill_variant_set; [exact Hp|].
    apply inv_stamp_purpose; [exact Hp|].
    apply inv_define_alter; assumption.
  - destruct (snd bucket) as [|item [|]]; try exact Hst.
    destruct (find_usd_file files (name item)) as [item_props|]; [|exact Hst].
    match goal with
    | |- context [apply_prim_properties ?p ?pr false ?s] =>
        assert (Happ : P (snd (apply_prim_properties p pr false s))
                       /\ is_Some (stage (snd (apply_prim_properties p pr false s)) !! p))
    end.
    { apply inv_apply_prim_properties; [exact Hp|].
      apply inv_stamp_purpose; [exact Hp|].
      apply inv_define_alter; assumption. }
    destruct Happ as [H1 H2]. apply P_created; assumption.
Qed.

Lemma inv_buckets (group_prim_path : Path) (buckets : list (string * list Item))
    (st : Assembly) :
  at_parent group_prim_path -> P st ->
  P (fold_left (process_bucket files group_prim_path) buckets st).
Proof.
  intros Hg. revert st. induction buckets as [|b buckets IH]; intros st Hst; [exact Hst|].
  cbn [fold_left]. apply IH. apply inv_process_bucket; assumption.
Qed.

Lemma inv_create_node (n : string) (parent_path : Path) (st : Assembly) :
  at_parent parent_path -> P st ->
  P (snd (fst (create_node files tree n parent_path st)))
  /\ is_Some (stage (snd (fst (create_node files tree n parent_path st)))
              !! fst (fst (create_node files tree n parent_path st)))
  /\ at_prim (fst (fst (create_node files tree n parent_path st))).
Proof.
  intros Hpar Hst. unfold create_node, add_reference_to_parent.
  destruct (find_usd_file files n) as [props|].
  - pose proof (parent_child parent_path n Hpar) as Hp.
    match goal with
    | |- context [apply_prim_properties ?p ?pr ?hc ?s] =>
        pose proof (inv_apply_prim_properties p p pr hc s Hp) as Happ;
        destruct (apply_prim_properties p pr hc s) as [inst st1]
    end.
    cbn [fst snd] in *.
    assert (H1 : P st1 /\ is_Some (stage st1 !! (parent_path ++ [n])))
      by (apply Happ; apply inv_define_alter; assumption).
    split; [|split; [|exact Hp]].
    + destruct (purpose_of n); [apply P_alter|]; tauto.
    + destruct (purpose_of n); [apply inv_alter|]; tauto.
  - pose proof (parent_child parent_path (make_valid_prim_name n) Hpar) as Hp.
    cbn [fst snd]. unfold XformDefine.
    destruct (inv_define_alter (set_type "Xform") parent_path (make_valid_prim_name n) st
                Hp Hst) as [H1 H2].
    split; [exact H1 | split; [exact H2 | exact Hp]].
Qed.

Lemma inv_process_group (rec : string -> Path -> Assembly -> option Assembly)
    (prim_path : Path) (g : string * list Item) (st st' : Assembly) :
  (forall c p s s', at_parent p -> P s -> rec c p s = Some s' -> P s') ->
  at_parent prim_path -> P st ->
  process_group files tree rec prim_path g st = Some st' -> P st'.
Proof.
  intros Hrec Hpar Hst. unfold process_group.
  pose proof (parent_child prim_path (make_valid_prim_name (fst g)) Hpar) as Hp.
  pose proof (prim_parent _ Hp) as Hgp.
  assert (Hpurpose :
            Some (fold_left (process_bucket files (prim_path ++ [make_valid_prim_name (fst g)]))
                            (by_purpose (snd g))
                            (set_created (fst g) (prim_path ++ [make_valid_prim_name (fst g)])
                               (on_stage (XformDefine (prim_path ++ [make_valid_prim_name (fst g)]))
                                         st)))
            = Some st' -> P st').
  { intros [= <-]. apply inv_buckets; [exact Hgp|].
    unfold XformDefine.
    destruct (inv_define_alter (set_type "Xform") prim_path (make_valid_prim_name (fst g)) st
                Hp Hst) as [H1 H2].
    apply P_created; assumption. }
  assert (Hvariants :
            fold_option
              (fun item st =>
                 fold_option (fun child st =>
                                rec child (prim_path ++ [make_valid_prim_name (fst g)]) st)
                             (children_of tree (name item)) st)
              (snd g)
              (fill_variant_set files (prim_path ++ [make_valid_prim_name (fst g)]) (snd g)
                 (List.filter tagged (snd g))
                 (on_stage (fun s => alter AddVariantSet
                                       (prim_path ++ [make_valid_prim_name (fst g)])
                                       (DefinePrim (prim_path ++ [make_valid_prim_name (fst g)]) s))
                           st))
            = Some st' -> P st').
  { apply fold_option_preserves.
    - intros it s s' Hs. apply fold_option_preserves; [|exact Hs].
      intros c s0 s0' Hs0. apply Hrec; assumption.
    - apply inv_fill_variant_set; [exact Hp|]. apply inv_define_alter; assumption. }
  assert (Hplain :
            fold_option (fun item st => rec (name item) prim_path st) (snd g) st = Some st'
            -> P st').
  { apply fold_option_preserves; [|exact Hst].
    intros it s s' Hs. apply Hrec; assumption. }
  destruct (snd g) as [|single [|second rest]] eqn:Eg.
  - destruct (has_purposes []); [exact Hpurpose|].
    destruct (0 <? length (List.filter tagged [])); [exact Hvariants | exact Hplain].
  - destruct (negb (has_purposes [single]) && negb (0 <? length (List.filter tagged [single]))).
    + apply Hrec; assumption.
    + destruct (has_purposes [single]); [exact Hpurpose | exact Hvariants].
  - destruct (has_purposes (single :: second :: rest)); [exact Hpurpose|].
    destruct (0 <? length (List.filter tagged (single :: second :: rest)));
      [exact Hvariants | exact Hplain].
Qed.

Lemma inv_create_prim_recursive (fuel : nat) :
  forall (n : string) (parent_path : Path) (st st' : Assembly),
    at_parent parent_path -> P st ->
    create_prim_recursive files tree fuel n parent_path st = Some st' -> P st'.
Proof.
  induction fuel as [|fuel IH]; intros n parent_path st st' Hpar Hst; [discriminate|].
  cbn [create_prim_recursive].
  destruct (inv_create_node n parent_path st Hpar Hst) as (Hst1 & Hhere & Hp).
  destruct (create_node files tree n parent_path st) as [[prim_path st1] inst].
  cbn [fst snd] in Hst1, Hhere, Hp.
  assert (Hc : P (set_created n prim_path st1)) by (apply P_created; assumption).
  destruct inst; [intros [= <-]; exact Hc|].
  destruct (dict_mem n tree); [|intros [= <-]; exact Hc].
  destruct (validate_variants (children_of tree n) tree);
    [intros [= <-]; apply P_say; exact Hc|].
  apply fold_option_preserves; [|exact Hc].
  intros g s s' Hs. apply inv_process_group; [|apply prim_parent; exact Hp|exact Hs].
  intros c p s0 s0'. apply IH.
Qed.

End AssemblyInvariant.
(* ------------------------------------------------------------------ *)
(** ** The default prim and the registry of created prims *)

Lemma prefixes_head (p k : Path) : In k (prefixes p) -> head k = head p.
Proof.
  destruct p as [|x rest]; cbn [prefixes]; [intros []|].
  intros [<-|H]; [reflexivity|].
  apply List.in_map_iff in H as (k' & <- & _). reflexivity.
Qed.

Section DefaultPrimFacts.
Context {table : CodeTable} {spaces : SpaceTable}.
Variable files : list (string * SourceDoc).
Variable tree : list (string * TreeNode).

Lemma create_prim_recursive_default_prim (fuel : nat) (n : string) (parent_path : Path)
    (st st' : Assembly) :
  create_prim_recursive files tree fuel n parent_path st = Some st' ->
  default_prim st' = default_prim st.
Proof.
  apply (inv_create_prim_recursive files tree
           (fun s => default_prim s = default_prim st) (fun _ => True) (fun _ => True));
    auto.
Qed.

Lemma create_prim_recursive_keeps_prims (fuel : nat) (n : string) (parent_path q : Path)
    (st st' : Assembly) :
  create_prim_recursive files tree fuel n parent_path st = Some st' ->
  is_Some (stage st !! q) -> is_Some (stage st' !! q).
Proof.
  intros Hrun Hq. revert Hrun.
  apply (inv_create_prim_recursive files tree
           (fun s => is_Some (stage s !! q)) (fun _ => True) (fun _ => True));
    auto.
  - intros f p s _ H. apply alter_is_Some. exact H.
  - intros p s _ [x Hx]. cbn [stage on_stage]. unfold DefinePrim.
    rewrite (fold_ensure_keeps _ _ _ _ Hx). eauto.
Qed.

Lemma create_prim_recursive_created (fuel : nat) (n : string) (parent_path : Path)
    (st st' : Assembly) :
  created_are_prims st ->
  create_prim_recursive files tree fuel n parent_path st = Some st' ->
  created_are_prims st'.
Proof.
  intros Hst.
  apply (inv_create_prim_recursive files tree created_are_prims
           (fun _ => True) (fun _ => True)); auto.
  - intros f p s _ H k q Hk. apply alter_is_Some. exact (H k q Hk).
  - intros p s _ H k q Hk. destruct (H k q Hk) as [x Hx].
    cbn [stage on_stage]. unfold DefinePrim.
    rewrite (fold_ensure_keeps _ _ _ _ Hx). eauto.
  - intros k p s _ Hp H k' q. cbn [created_prims stage set_created].
    destruct (decide (k = k')) as [->|Hne].
    + rewrite lookup_insert_eq. intros [= <-]. exact Hp.
    + rewrite lookup_insert_ne by exact Hne. apply H.
Qed.

Lemma create_prim_recursive_records (fuel : nat) (n : string) (parent_path : Path)
    (st st' : Assembly) :
  create_prim_recursive files tree fuel n parent_path st = Some st' ->
  is_Some (created_prims st' !! n).
Proof.
  destruct fuel as [|fuel]; [discriminate|].
  cbn [create_prim_recursive].
  destruct (create_node files tree n parent_path st) as [[prim_path st1] inst].
  assert (Hc : is_Some (created_prims (set_created n prim_path st1) !! n)).
  { cbn [created_prims set_created]. rewrite lookup_insert_eq. eauto. }
  destruct inst; [intros [= <-]; exact Hc|].
  destruct (dict_mem n tree); [|intros [= <-]; exact Hc].
  destruct (validate_variants (children_of tree n) tree); [intros [= <-]; exact Hc|].
  apply (fold_option_preserves (fun s => is_Some (created_prims s !! n))); [|exact Hc].
  intros g s s' Hs.
  apply (inv_process_group files tree (fun s => is_Some (created_prims s !! n))
           (fun _ => True) (fun _ => True)); auto.
  - intros k p s0 _ _ H. cbn [created_prims set_created].
    destruct (decide (k = n)) as [->|Hne].
    + rewrite lookup_insert_eq. eauto.
    + rewrite lookup_insert_ne by exact Hne. exact H.
  - intros c p s0 s0' _ H0.
    apply (inv_create_prim_recursive files tree (fun s => is_Some (created_prims s !! n))
             (fun _ => True) (fun _ => True)); auto.
    intros k p' s1 _ _ H. cbn [created_prims set_created].
    destruct (decide (k = n)) as [->|Hne].
    + rewrite lookup_insert_eq. eauto.
    + rewrite lookup_insert_ne by exact Hne. exact H.
Qed.

Lemma configured_default_prim_some (d : string) :
  strip d <> "" ->
  configured_default_prim (Some d) = Some (make_valid_prim_name (strip d)).
Proof.
  intros Hd. unfold configured_default_prim.
  assert (H1 : nonempty (strip d) = true) by now apply nonempty_iff.
  assert (H2 : nonempty d = true).
  { destruct d; [|reflexivity]. now destruct Hd. }
  now rewrite H1, H2.
Qed.

(** X9. With a configured default prim name (a name that is not blank), the
    assembled stage has one root prim: the default prim of the stage is the
    prim named by the sanitized name without the white space around it, that
    prim is the Xform of kind assembly the assembler defined first, untouched
    by what was assembled, and every prim of the stage is that prim or below
    it. *)
Theorem configured_default_prim_is_single_root (fuel : nat) (d : string) (st : Assembly) :
  strip d <> "" ->
  assemble_hierarchy files tree fuel (Some d) = Some st ->
  default_prim st = Some [make_valid_prim_name (strip d)]
  /\ stage st !! [make_valid_prim_name (strip d)] = Some assembly_root_prim
  /\ (forall k, is_Some (stage st !! k) -> head k = Some (make_valid_prim_name (strip d))).
Proof.
  intros Hd. unfold assemble_hierarchy, initial_assembly.
  rewrite (configured_default_prim_some d Hd).
  set (D := make_valid_prim_name (strip d)).
  set (P := fun s : Assembly =>
              default_prim s = Some [D]
              /\ stage s !! [D] = Some assembly_root_prim
              /\ (forall k, is_Some (stage s !! k) -> head k = Some D)).
  match goal with
  | |- context [fold_option ?f ?l ?acc] =>
      destruct (fold_option f l acc) as [[st' b]|] eqn:E; [|discriminate];
      pose proof (fold_option_preserves (fun a => P (fst a)) f l) as Hfold
  end.
  intros [= <-].
  apply (fun H1 H2 => Hfold H1 _ (st', b) H2 E); clear Hfold E.
  - intros r acc acc' Hacc. unfold assemble_root.
    destruct (create_prim_recursive files tree fuel r [D] (fst acc)) as [s|] eqn:Er;
      [|discriminate].
    assert (Hs : P s).
    { revert Er.
      apply (inv_create_prim_recursive files tree P
               (fun p => head p = Some D /\ 1 < length p) (fun p => head p = Some D));
        try exact Hacc; try reflexivity.
      - intros p x Hp. destruct p as [|y p]; [discriminate|].
        split; [exact Hp|]. cbn [app length]. rewrite length_app. cbn [length]. lia.
      - intros p [Hp _]. exact Hp.
      - intros f p s0 [Hh Hl] (H1 & H2 & H3). split; [exact H1|]. split.
        + cbn [stage on_stage]. rewrite lookup_alter_ne; [exact H2|].
          intros ->. cbn [length] in Hl. lia.
        + intros k Hk. apply H3. apply (alter_is_Some f p k). exact Hk.
      - intros p s0 [Hh Hl] (H1 & H2 & H3). split; [exact H1|]. split.
        + cbn [stage on_stage]. unfold DefinePrim. apply fold_ensure_keeps. exact H2.
        + intros k Hk. cbn [stage on_stage] in Hk. unfold DefinePrim in Hk.
          apply fold_ensure_keys in Hk as [Hk|Hk]; [apply H3; exact Hk|].
          rewrite (prefixes_head p k Hk). exact Hh.
      - intros n p s0 _ _ H. exact H.
      - intros m s0 H. exact H. }
    cbn [negb andb]. destruct (created_prims s !! r); intros [= <-]; exact Hs.
  - cbn [fst]. subst P. cbn beta. cbn [default_prim stage].
    split; [reflexivity|]. split.
    + rewrite lookup_alter_eq. unfold XformDefine. rewrite lookup_alter_eq.
      unfold DefinePrim. rewrite fold_ensure_lookup by (left; reflexivity).
      rewrite lookup_empty. reflexivity.
    + intros k Hk. apply alter_is_Some in Hk. unfold XformDefine in Hk.
      apply alter_is_Some in Hk. unfold DefinePrim in Hk.
      apply fold_ensure_keys in Hk as [[x Hx]|[<-|[]]]; [|reflexivity].
      rewrite lookup_empty in Hx. discriminate.
Qed.

Lemma assemble_roots_created (fuel : nat) (root : Path) (configured : bool)
    (roots : list string) (acc acc' : Assembly * bool) :
  created_are_prims (fst acc) ->
  fold_option (assemble_root files tree fuel root configured) roots acc = Some acc' ->
  created_are_prims (fst acc').
Proof.
  apply (fold_option_preserves (fun a => created_are_prims (fst a))).
  intros r a a' Ha. unfold assemble_root.
  destruct (create_prim_recursive files tree fuel r root (fst a)) as [s|] eqn:Er;
    [|discriminate].
  pose proof (create_prim_recursive_created _ _ _ _ _ Ha Er) as Hs.
  destruct (created_prims s !! r); [|intros [= <-]; exact Hs].
  destruct (negb configured && negb (snd a)); intros [= <-]; exact Hs.
Qed.

(** X10. The registry of the assembler is sound: when the run returns, every
    name of [created_prims] is recorded with the path of a prim that is on the
    stage. *)
Theorem created_prims_are_on_stage (fuel : nat) (default_prim_name : option string)
    (st : Assembly) :
  assemble_hierarchy files tree fuel default_prim_name = Some st ->
  created_are_prims st.
Proof.
  unfold assemble_hierarchy.
  destruct (initial_assembly default_prim_name) as [root st0] eqn:E0.
  match goal with
  | |- context [fold_option ?f ?l ?acc] =>
      destruct (fold_option f l acc) as [[st' b]|] eqn:E; [|discriminate]
  end.
  intros [= <-].
  apply (fun H => assemble_roots_created _ _ _ _ _ _ H E).
  cbn [fst]. intros n p Hn.
  unfold initial_assembly in E0.
  destruct (configured_default_prim default_prim_name);
    injection E0 as <- <-; cbn [created_prims] in Hn;
    rewrite lookup_empty in Hn; discriminate.
Qed.

Lemma assemble_roots_default (fuel : nat) (root : Path) (roots : list string)
    (acc acc' : Assembly * bool) :
  (snd acc = true -> exists p, default_prim (fst acc) = Some p
                               /\ is_Some (stage (fst acc) !! p)) ->
  created_are_prims (fst acc) ->
  fold_option (assemble_root files tree fuel root false) roots acc = Some acc' ->
  (roots <> [] \/ snd acc = true) ->
  exists p, default_prim (fst acc') = Some p /\ is_Some (stage (fst acc') !! p).
Proof.
  revert acc. induction roots as [|r roots IH]; intros acc Hdef Hcr; cbn [fold_option].
  - intros [= <-] [H|H]; [contradiction | apply Hdef; exact H].
  - destruct (assemble_root files tree fuel root false r acc) as [a|] eqn:Er; [|discriminate].
    intros Hrest _. unfold assemble_root in Er.
    destruct (create_prim_recursive files tree fuel r root (fst acc)) as [s|] eqn:Es;
      [|discriminate].
    pose proof (create_prim_recursive_created _ _ _ _ _ Hcr Es) as Hs.
    destruct (create_prim_recursive_records _ _ _ _ _ Es) as [p Hp].
    rewrite Hp in Er. cbn [negb andb] in Er.
    destruct (Hs r p Hp) as [x Hx].
    destruct (snd acc) eqn:Eb; cbn [negb] in Er; injection Er as <-.
    + match type of Hrest with
      | fold_option _ _ ?a = _ => refine (IH a _ Hs Hrest (or_intror eq_refl))
      end.
      intros _. destruct (Hdef eq_refl) as (q & Hq & Hsq).
      exists q. cbn [fst].
      rewrite (create_prim_recursive_default_prim _ _ _ _ _ Es).
      split; [exact Hq|].
      eapply create_prim_recursive_keeps_prims; eassumption.
    + match type of Hrest with
      | fold_option _ _ ?a = _ => refine (IH a _ Hs Hrest (or_intror eq_refl))
      end.
      intros _. exists p. cbn [fst default_prim stage]. rewrite Hx. eauto.
Qed.

(** Without a configured name, a hierarchy with a root gets a default prim
    when every call returns. *)
Lemma unconfigured_default_prim_total (fuel : nat) (st : Assembly) :
  get_root_nodes tree <> [] ->
  assemble_hierarchy files tree fuel None = Some st ->
  exists p, default_prim st = Some p /\ is_Some (stage st !! p).
Proof.
  intros Hroots. unfold assemble_hierarchy.
  cbn [initial_assembly configured_default_prim].
  match goal with
  | |- context [fold_option ?f ?l ?acc] =>
      destruct (fold_option f l acc) as [[st' b]|] eqn:E; [|discriminate]
  end.
  intros [= <-].
  apply (fun H1 H2 => assemble_roots_default _ _ _ _ _ H1 H2 E).
  - cbn [snd]. discriminate.
  - cbn [fst]. intros n p Hn. cbn [created_prims] in Hn.
    rewrite lookup_empty in Hn. discriminate.
  - left. exact Hroots.
Qed.

End DefaultPrimFacts.
Lemma configured_default_prim_is_single_root_witness :
  exists st,
    @assemble_hierarchy ascii_only ascii_spaces missing_files (tree_of_entries missing_entries) 5
      (Some " My Stage ") = Some st
    /\ default_prim st = Some ["My_Stage"]
    /\ stage st !! ["My_Stage"] = Some assembly_root_prim
    /\ (forall k, is_Some (stage st !! k) -> head k = Some "My_Stage").
Proof.
  destruct (@assemble_hierarchy ascii_only ascii_spaces missing_files (tree_of_entries missing_entries) 5
              (Some " My Stage ")) as [st|] eqn:E; [|vm_compute in E; discriminate].
  exists st. split; [reflexivity|].
  apply (@configured_default_prim_is_single_root ascii_only ascii_spaces missing_files
           (tree_of_entries missing_entries) 5 " My Stage " st); [|exact E].
  intros H. vm_compute in H. discriminate.
Defined.

Lemma created_prims_are_on_stage_witness :
  exists st,
    @assemble_hierarchy ascii_only ascii_spaces missing_files (tree_of_entries missing_entries) 5 None
    = Some st
    /\ created_are_prims st.
Proof.
  destruct (@assemble_hierarchy ascii_only ascii_spaces missing_files (tree_of_entries missing_entries) 5
              None) as [st|] eqn:E; [|vm_compute in E; discriminate].
  exists st. split; [reflexivity|].
  exact (@created_prims_are_on_stage ascii_only ascii_spaces missing_files
           (tree_of_entries missing_entries) 5 None st E).
Defined.

(* ------------------------------------------------------------------ *)
(** ** The checked run and the run that takes every call to return *)

Lemma checked_define_returned {ids : IdentifierTable} {A : Type} (p : Path)
    (st : Assembly) (k : Run A) (a : A) (st' : Assembly) :
  checked_define p st k = Returned a st' ->
  define_raises p (stage st) = false /\ k = Returned a st'.
Proof.
  unfold checked_define. destruct (define_raises p (stage st)); [discriminate|auto].
Qed.

Lemma fold_run_option {A : Type} (fc : A -> Assembly -> option (Run unit))
    (f : A -> Assembly -> option Assembly) (l : list A) :
  (forall x s s', fc x s = Some (Returned tt s') -> f x s = Some s') ->
  forall st st', fold_run fc l st = Some (Returned tt st') ->
                 fold_option f l st = Some st'.
Proof.
  intros H. induction l as [|x l IH]; intros st st'; cbn [fold_run fold_option].
  - now intros [= <-].
  - destruct (fc x st) as [[[] s|s]|] eqn:E; try discriminate.
    rewrite (H x st s E). apply IH.
Qed.

Lemma fold_run_left {A : Type} (fc : A -> Assembly -> option (Run unit))
    (f : Assembly -> A -> Assembly) (l : list A) :
  (forall x s s', fc x s = Some (Returned tt s') -> f s x = s') ->
  forall st st', fold_run fc l st = Some (Returned tt st') -> fold_left f l st = st'.
Proof.
  intros H. induction l as [|x l IH]; intros st st'; cbn [fold_run fold_left].
  - now intros [= <-].
  - destruct (fc x st) as [[[] s|s]|] eqn:E; try discriminate.
    rewrite (H x st s E). apply IH.
Qed.

Section CheckedFacts.
Context {table : CodeTable} {spaces : SpaceTable} {ids : IdentifierTable}.
Variable files : list (string * SourceDoc).
Variable tree : list (string * TreeNode).

Lemma create_node_checked_returned (n : string) (parent_path prim_path : Path)
    (st st' : Assembly) (inst : bool) :
  create_node_checked files tree n parent_path st = Returned (prim_path, inst) st' ->
  create_node files tree n parent_path st = (prim_path, st', inst).
Proof.
  unfold create_node_checked. intros H.
  apply checked_define_returned in H as [_ H].
  destruct (create_node files tree n parent_path st) as [[p s] i].
  now injection H as -> -> ->.
Qed.

Lemma process_bucket_checked_returned (group_prim_path : Path)
    (bucket : string * list Item) (st st' : Assembly) :
  process_bucket_checked files group_prim_path bucket st = Some (Returned tt st') ->
  process_bucket files group_prim_path st bucket = st'.
Proof.
  destruct bucket as [purpose_name purpose_items].
  unfold process_bucket_checked, process_bucket. cbn [fst snd].
  destruct ((1 <? length (List.filter tagged purpose_items))
            || ((length (List.filter tagged purpose_items) =? 1)
                && (1 <? length purpose_items))).
  - intros [= H]. apply checked_define_returned in H as [_ [= <-]]. reflexivity.
  - destruct purpose_items as [|item [|second rest]]; try now intros [= <-].
    destruct (find_usd_file files (name item)) as [props|].
    + intros [= H]. apply checked_define_returned in H as [_ [= <-]]. reflexivity.
    + now intros [= <-].
Qed.

Lemma process_group_checked_returned
    (rec_c : string -> Path -> Assembly -> option (Run unit))
    (rec : string -> Path -> Assembly -> option Assembly) :
  (forall n p s s', rec_c n p s = Some (Returned tt s') -> rec n p s = Some s') ->
  forall prim_path g st st',
    process_group_checked files tree rec_c prim_path g st = Some (Returned tt st') ->
    process_group files tree rec prim_path g st = Some st'.
Proof.
  intros Hrec prim_path [group_key group] st st'.
  unfold process_group_checked, process_group. cbn [fst snd].
  set (gp := prim_path ++ [make_valid_prim_name group_key]).
  assert (Hgrouped :
    (if has_purposes group
     then match checked_define gp st
                  (Returned tt (set_created group_key gp (on_stage (XformDefine gp) st))) with
          | Returned _ st0 =>
              fold_run (process_bucket_checked files gp) (by_purpose group) st0
          | Raised st0 => Some (Raised st0)
          end
     else if 0 <? length (List.filter tagged group)
          then match checked_define gp st
                       (Returned tt
                          (fill_variant_set files gp group (List.filter tagged group)
                             (on_stage (fun s => alter AddVariantSet gp (DefinePrim gp s))
                                       st))) with
               | Returned _ st0 =>
                   fold_run
                     (fun item st1 =>
                        fold_run (fun child st2 => rec_c child gp st2)
                                 (children_of tree (name item)) st1)
                     group st0
               | Raised st0 => Some (Raised st0)
               end
          else fold_run (fun item st0 => rec_c (name item) prim_path st0) group st)
    = Some (Returned tt st') ->
    (if has_purposes group
     then Some (fold_left (process_bucket files gp) (by_purpose group)
                  (set_created group_key gp (on_stage (XformDefine gp) st)))
     else if 0 <? length (List.filter tagged group)
          then fold_option
                 (fun item st0 =>
                    fold_option (fun child st1 => rec child gp st1)
                                (children_of tree (name item)) st0)
                 group
                 (fill_variant_set files gp group (List.filter tagged group)
                    (on_stage (fun s => alter AddVariantSet gp (DefinePrim gp s)) st))
          else fold_option (fun item st0 => rec (name item) prim_path st0) group st)
    = Some st').
  { destruct (has_purposes group).
    - destruct (checked_define gp st _) as [[] s|s] eqn:E; [|discriminate].
      apply checked_define_returned in E as [_ [= <-]].
      intros H. f_equal. revert H. apply fold_run_left.
      intros b s s'. apply process_bucket_checked_returned.
    - destruct (0 <? length (List.filter tagged group)).
      + destruct (checked_define gp st _) as [[] s|s] eqn:E; [|discriminate].
        apply checked_define_returned in E as [_ [= <-]].
        apply fold_run_option. intros item s s'.
        apply fold_run_option. intros child s0 s0'. apply Hrec.
      + apply fold_run_option. intros item s s'. apply Hrec. }
  destruct group as [|single [|second rest]]; try exact Hgrouped.
  destruct (negb (has_purposes [single]) && negb (0 <? length (List.filter tagged [single])))
    eqn:Es.
  - destruct (rec_c (name single) prim_path st) as [[[] s|s]|] eqn:E; try discriminate.
    intros [= <-]. apply Hrec. exact E.
  - apply andb_false_iff in Es.
    destruct (has_purposes [single]) eqn:Ep; [exact Hgrouped|].
    destruct Es as [Es|Es]; [discriminate|].
    apply negb_false_iff in Es. rewrite Es in Hgrouped |- *. exact Hgrouped.
Qed.

Lemma create_prim_recursive_checked_returned (fuel : nat) (n : string)
    (parent_path : Path) (st st' : Assembly) :
  create_prim_recursive_checked files tree fuel n parent_path st
  = Some (Returned tt st') ->
  create_prim_recursive files tree fuel n parent_path st = Some st'.
Proof.
  revert n parent_path st st'.
  induction fuel as [|fuel IH]; intros n parent_path st st'; [discriminate|].
  cbn [create_prim_recursive_checked create_prim_recursive].
  destruct (create_node_checked files tree n parent_path st) as [[p inst] s|s] eqn:E;
    [|discriminate].
  rewrite (create_node_checked_returned _ _ _ _ _ _ E).
  destruct inst; [now intros [= <-]|].
  destruct (dict_mem n tree); [|now intros [= <-]].
  destruct (validate_variants (children_of tree n) tree); [now intros [= <-]|].
  apply fold_run_option. intros g s0 s0'.
  apply process_group_checked_returned. intros c q s1 s1'. apply IH.
Qed.

Lemma assemble_roots_checked_returned (fuel : nat) (root : Path) (configured : bool)
    (roots : list string) (first_prim : bool) (st st' : Assembly) :
  assemble_roots_checked files tree fuel root configured roots first_prim st
  = Some (Returned tt st') ->
  exists b, fold_option (assemble_root files tree fuel root configured) roots
              (st, first_prim) = Some (st', b).
Proof.
  revert first_prim st.
  induction roots as [|r roots IH]; intros first_prim st;
    cbn [assemble_roots_checked fold_option].
  - intros [= <-]. eauto.
  - destruct (create_prim_recursive_checked files tree fuel r root st)
      as [[[] s|s]|] eqn:E; try discriminate.
    unfold assemble_root. cbn [fst snd].
    rewrite (create_prim_recursive_checked_returned _ _ _ _ _ E).
    destruct (created_prims s !! r) as [p|]; [|apply IH].
    destruct (negb configured && negb first_prim); apply IH.
Qed.

(** A run of the checked assembler that returns is a run of the assembler
    that takes every call to return, with the same stage, registry, default
    prim and messages. *)
Lemma assemble_hierarchy_checked_returned (fuel : nat)
    (default_prim_name : option string) (st : Assembly) :
  assemble_hierarchy_checked files tree fuel default_prim_name = Some (Returned tt st) ->
  assemble_hierarchy files tree fuel default_prim_name = Some st.
Proof.
  unfold assemble_hierarchy_checked, assemble_hierarchy.
  destruct (initial_assembly default_prim_name) as [root st0].
  destruct (configured_default_prim default_prim_name) as [c|].
  - destruct (checked_define [c] _ (Returned tt st0)) as [[] s|s] eqn:E; [|discriminate].
    apply checked_define_returned in E as [_ [= <-]].
    intros H. apply assemble_roots_checked_returned in H as [b ->]. reflexivity.
  - intros H. apply assemble_roots_checked_returned in H as [b ->]. reflexivity.
Qed.

End CheckedFacts.

Lemma prefixes_snoc (p : Path) (x : string) :
  prefixes (p ++ [x]) = prefixes p ++ [p ++ [x]].
Proof.
  induction p as [|y p IH]; [reflexivity|].
  cbn [app prefixes]. rewrite IH, map_app. reflexivity.
Qed.

(** Below an instance every creation of a prim raises at once. *)
Lemma create_under_instance_raises {table : CodeTable} {ids : IdentifierTable}
    (files : list (string * SourceDoc)) (tree : list (string * TreeNode)) (fuel : nat)
    (n : string) (parent_path : Path) (prim : Prim) (st : Assembly) :
  parent_path <> [] -> stage st !! parent_path = Some prim -> IsInstance prim = true ->
  create_prim_recursive_checked files tree (S fuel) n parent_path st = Some (Raised st).
Proof.
  intros Hne Hp Hi. cbn [create_prim_recursive_checked].
  unfold create_node_checked, checked_define.
  assert (Hraise : forall x, define_raises (parent_path ++ [x]) (stage st) = true).
  { intros x. unfold define_raises, under_instance.
    rewrite prefixes_snoc, List.removelast_last.
    apply orb_true_iff. right. apply existsb_exists.
    exists parent_path. split; [|now rewrite Hp].
    apply prefixes_self. exact Hne. }
  destruct (find_usd_file files n); now rewrite Hraise.
Qed.

(** C3. On the variant branch the flag is not skipped and the children are not
    kept. With a chair in two variants under [Root], the first with a child
    [Leg] in the hierarchy and an instanceable document, the properties of the
    member are applied as if it had no children (line 613): the variant prim
    [/Root/Chair] is made instanceable, nothing is logged, and the recursion
    into the children then calls [stage.DefinePrim] for [/Root/Chair/Leg]
    under what is now an instance. The call raises and the run ends there:
    [Leg] is never authored and the stage has no default prim. So it is for
    every child created under an instance; and where [apply_prim_properties]
    is told of the children it never sets the flag. *)
Theorem instanceable_variant_drops_children :
  (exists st,
      @assemble_hierarchy_checked ascii_only ascii_spaces ascii_identifiers chair_files
        (tree_of_entries chair_entries) 5 None = Some (Raised st)
      /\ instanceable_at st ["Root"; "Chair"] = Some true
      /\ @define_raises ascii_identifiers ["Root"; "Chair"; "Leg"] (stage st) = true
      /\ authored_children (stage st) ["Root"; "Chair"] = []
      /\ created_prims st !! "Leg" = None
      /\ default_prim st = None
      /\ messages st = [])
  /\ (forall (table : CodeTable) (ids : IdentifierTable) files tree fuel n parent_path
             prim st,
        parent_path <> [] -> stage st !! parent_path = Some prim ->
        IsInstance prim = true ->
        create_prim_recursive_checked files tree (S fuel) n parent_path st
        = Some (Raised st))
  /\ (forall prim props st p,
        instanceable_at (snd (apply_prim_properties prim props true st)) p
        = instanceable_at st p
        /\ fst (apply_prim_properties prim props true st) = false).
Proof.
  split; [|split].
  - eexists. split; [vm_compute; reflexivity|].
    repeat split; vm_compute; reflexivity.
  - intros table ids files tree fuel n parent_path prim st.
    apply create_under_instance_raises.
  - intros prim props st p. apply apply_prim_properties_keeps_flag.
Qed.


Section CheckedDefaultPrim.
Context {table : CodeTable} {spaces : SpaceTable} {ids : IdentifierTable}.
Variable files : list (string * SourceDoc).
Variable tree : list (string * TreeNode).

(** X11. Without a configured name, a hierarchy with a root gets a default
    prim in every run that returns: when no call of the library raises, the
    stage has a default prim and it is a prim of the stage. *)
Theorem unconfigured_default_prim_is_set (fuel : nat) (st : Assembly) :
  get_root_nodes tree <> [] ->
  assemble_hierarchy_checked files tree fuel None = Some (Returned tt st) ->
  exists p, default_prim st = Some p /\ is_Some (stage st !! p).
Proof.
  intros Hroots Hrun.
  apply assemble_hierarchy_checked_returned in Hrun.
  exact (unconfigured_default_prim_total files tree fuel st Hroots Hrun).
Qed.

End CheckedDefaultPrim.

Lemma unconfigured_default_prim_is_set_witness :
  exists st,
    @assemble_hierarchy_checked ascii_only ascii_spaces ascii_identifiers missing_files
      (tree_of_entries missing_entries) 5 None = Some (Returned tt st)
    /\ exists p, default_prim st = Some p /\ is_Some (stage st !! p).
Proof.
  destruct (@assemble_hierarchy_checked ascii_only ascii_spaces ascii_identifiers
              missing_files (tree_of_entries missing_entries) 5 None)
    as [[[] st|st]|] eqn:E; [|vm_compute in E; discriminate..].
  exists st. split; [reflexivity|].
  apply (@unconfigured_default_prim_is_set ascii_only ascii_spaces ascii_identifiers
           missing_files (tree_of_entries missing_entries) 5 st); [|exact E].
  intros H. vm_compute in H. discriminate.
Defined.


(* ------------------------------------------------------------------ *)
(** ** Siblings that share purpose and base name *)

Lemma filled_one_key_from (k : string) (l0 items : list Item) :
  Forall (fun it => bucket_key it = k) items ->
  fold_left (fun bp it => dict_append (bucket_key it) it bp) items [(k, l0)]
  = [(k, l0 ++ items)].
Proof.
  revert l0. induction items as [|it items IH]; intros l0 Hall; cbn [fold_left].
  - rewrite app_nil_r. reflexivity.
  - pose proof (List.Forall_inv Hall) as Hk. pose proof (List.Forall_inv_tail Hall) as Hrest.
    cbv beta in Hk.
    unfold dict_append at 2. unfold dict_mem. cbn [dict_get].
    rewrite Hk, String.eqb_refl. cbn [dict_alter]. rewrite String.eqb_refl.
    rewrite IH by exact Hrest. rewrite <- List.app_assoc. reflexivity.
Qed.

Lemma filled_one_key (k : string) (it : Item) (items : list Item) :
  Forall (fun it => bucket_key it = k) (it :: items) ->
  filled (it :: items) = [(k, it :: items)].
Proof.
  intros Hall.
  pose proof (List.Forall_inv Hall) as Hk. pose proof (List.Forall_inv_tail Hall) as Hrest.
  cbv beta in Hk. subst k.
  unfold filled. cbn [fold_left]. unfold dict_append at 2. cbn [dict_mem dict_get app].
  apply (filled_one_key_from (bucket_key it) [it] items). exact Hrest.
Qed.

Section DroppedSiblings.
Context {table : CodeTable}.
Variable files : list (string * SourceDoc).
Variable tree : list (string * TreeNode).

(** X12. Two or more siblings with one base name and one purpose, none of
    them variant-tagged (as [Chair_RENDER] and [Chair_RENDER_PAYLOAD]), author
    nothing but their group: the group Xform is defined and recorded, and no
    member is referenced, recorded in [created_prims] or recursed into. *)
Theorem untagged_purpose_siblings_are_dropped
    (rec : string -> Path -> Assembly -> option Assembly) (prim_path : Path)
    (key : string) (group : list Item) (q : Purpose) (st : Assembly) :
  2 <= length group ->
  Forall (fun it => purpose it = Some q /\ tagged it = false) group ->
  process_group files tree rec prim_path (key, group) st
  = Some (set_created key (prim_path ++ [make_valid_prim_name key])
            (on_stage (XformDefine (prim_path ++ [make_valid_prim_name key])) st)).
Proof.
  intros Hlen Hall.
  destruct group as [|a [|b rest]]; cbn [length] in Hlen; try lia.
  assert (Hkey : Forall (fun it => bucket_key it = purpose_token q) (a :: b :: rest)).
  { eapply List.Forall_impl; [|exact Hall]. intros it [Hp _]. unfold bucket_key. rewrite Hp.
    reflexivity. }
  assert (Htag : List.filter tagged (a :: b :: rest) = []).
  { clear -Hall. induction Hall as [|it l [_ Ht] Hl IH]; [reflexivity|].
    cbn [List.filter]. rewrite Ht. exact IH. }
  assert (Hpur : has_purposes (a :: b :: rest) = true).
  { destruct (List.Forall_inv Hall) as [Hp _]. unfold has_purposes. cbn [existsb].
    rewrite Hp. reflexivity. }
  unfold process_group. cbn [fst snd]. rewrite Hpur. f_equal.
  unfold by_purpose. rewrite (filled_one_key _ _ _ Hkey).
  assert (Hdef : dict_get "default" [(purpose_token q, a :: b :: rest)] = None)
    by (destruct q; reflexivity).
  rewrite Hdef. cbn [fold_left]. unfold process_bucket. cbn [fst snd].
  rewrite Htag. reflexivity.
Qed.

End DroppedSiblings.

Lemma untagged_purpose_siblings_are_dropped_witness :
  @process_group ascii_only chair_files (tree_of_entries chair_entries)
    (fun _ _ s => Some s) ["Root"]
    ("Chair", map (@item_of ascii_only) ["Chair_RENDER"; "Chair_RENDER_PAYLOAD"])
    (snd (@initial_assembly ascii_only ascii_spaces None))
  = Some (set_created "Chair" (["Root"] ++ [@make_valid_prim_name ascii_only "Chair"])
            (on_stage (XformDefine (["Root"] ++ [@make_valid_prim_name ascii_only "Chair"]))
                      (snd (@initial_assembly ascii_only ascii_spaces None)))).
Proof.
  apply (@untagged_purpose_siblings_are_dropped ascii_only chair_files
           (tree_of_entries chair_entries) (fun _ _ s => Some s) ["Root"] "Chair"
           (map (@item_of ascii_only) ["Chair_RENDER"; "Chair_RENDER_PAYLOAD"]) render).
  - cbn [map length]. lia.
  - repeat constructor.
Defined.

(* ------------------------------------------------------------------ *)
(** ** The contract of [apply_prim_properties] *)

(** X13. [apply_prim_properties] returns [True] exactly when the prim is
    valid, the document is instanceable and the prim has no children in the
    hierarchy, and then the prim is instanceable on the stage. When it returns
    [False] no prim changes its instanceable flag. In both cases the other
    prims, [created_prims] and the default prim stay as they were. *)
Theorem apply_prim_properties_contract (prim : Path) (props : SourceDoc)
    (has_children : bool) (st : Assembly) :
  (fst (apply_prim_properties prim props has_children st) = true
   <-> is_Some (stage st !! prim) /\ src_instanceable props = Some true
       /\ has_children = false)
  /\ (fst (apply_prim_properties prim props has_children st) = true ->
      instanceable_at (snd (apply_prim_properties prim props has_children st)) prim
      = Some true)
  /\ (fst (apply_prim_properties prim props has_children st) = false ->
      forall q, instanceable_at (snd (apply_prim_properties prim props has_children st)) q
                = instanceable_at st q)
  /\ (forall q, q <> prim ->
        stage (snd (apply_prim_properties prim props has_children st)) !! q
        = stage st !! q)
  /\ created_prims (snd (apply_prim_properties prim props has_children st))
     = created_prims st
  /\ default_prim (snd (apply_prim_properties prim props has_children st))
     = default_prim st.
Proof.
  unfold apply_prim_properties, instanceable_at.
  destruct (stage st !! prim) as [x|] eqn:Ex.
  2:{ cbn [fst snd]. repeat split; try discriminate; try reflexivity.
      intros (H & _). destruct H as [? H]. discriminate. }
  set (st1 := if truthy (src_kind props)
              then on_stage (alter (SetKind (default "" (src_kind props))) prim) st
              else st).
  assert (Hkind : forall q, option_map instanceable (stage st1 !! q)
                            = option_map instanceable (stage st !! q)).
  { intros q. subst st1. destruct (truthy (src_kind props)); [|reflexivity].
    cbn [stage on_stage]. destruct (decide (prim = q)) as [->|Hne].
    - rewrite lookup_alter_eq. destruct (stage st !! q); reflexivity.
    - rewrite lookup_alter_ne by exact Hne. reflexivity. }
  assert (Hother : forall q, q <> prim -> stage st1 !! q = stage st !! q).
  { intros q Hq. subst st1. destruct (truthy (src_kind props)); [|reflexivity].
    cbn [stage on_stage]. rewrite lookup_alter_ne by congruence. reflexivity. }
  assert (Hhere : is_Some (stage st1 !! prim)).
  { subst st1. destruct (truthy (src_kind props)); [|rewrite Ex; eauto].
    cbn [stage on_stage]. rewrite lookup_alter_eq, Ex. cbn. eauto. }
  assert (Hframe : created_prims st1 = created_prims st /\ default_prim st1 = default_prim st).
  { subst st1. destruct (truthy (src_kind props)); split; reflexivity. }
  clearbody st1.
  destruct (src_instanceable props) as [[|]|]; [destruct has_children|..]; cbn [fst snd].
  - split; [split; [discriminate | intros (_ & _ & ?); discriminate]|].
    split; [discriminate|]. split; [intros _; exact Hkind|].
    split; [exact Hother | exact Hframe].
  - split; [split; [intros _; repeat split; eauto | reflexivity]|].
    split; [|split; [discriminate|split]].
    + intros _. cbn [stage on_stage]. rewrite lookup_alter_eq.
      destruct Hhere as [y ->]. reflexivity.
    + intros q Hq. cbn [stage on_stage]. rewrite lookup_alter_ne by congruence.
      apply Hother. exact Hq.
    + exact Hframe.
  - split; [split; [discriminate | intros (_ & ? & _); discriminate]|].
    split; [discriminate|]. split; [intros _; exact Hkind|].
    split; [exact Hother | exact Hframe].
  - split; [split; [discriminate | intros (_ & ? & _); discriminate]|].
    split; [discriminate|]. split; [intros _; exact Hkind|].
    split; [exact Hother | exact Hframe].
Qed.

(* ------------------------------------------------------------------ *)
(** ** What the variant restructurer removes *)

Lemma group_append_members {A : Type} (k : Path * string) (x : A)
    (d : list ((Path * string) * list A)) (g : (Path * string) * list A) (v : A) :
  In g (group_append k x d) -> In v (snd g) ->
  (exists g0, In g0 d /\ In v (snd g0)) \/ v = x.
Proof.
  induction d as [|[k' l] d IH]; cbn [group_append].
  - intros [<-|[]] [<-|[]]. right. reflexivity.
  - destruct (bool_decide (k' = k)).
    + intros [<-|Hg] Hv.
      * cbn [snd] in Hv. apply List.in_app_or in Hv as [Hv|[<-|[]]]; [|right; reflexivity].
        left. exists (k', l). split; [left; reflexivity | exact Hv].
      * left. exists g. split; [right; exact Hg | exact Hv].
    + intros [<-|Hg] Hv.
      * left. exists (k', l). split; [left; reflexivity | exact Hv].
      * destruct (IH Hg Hv) as [(g0 & Hg0 & Hv0) | ->]; [|right; reflexivity].
        left. exists g0. split; [right; exact Hg0 | exact Hv0].
Qed.

Lemma remove_loop_specs (variants : list (string * Path)) (l : Layer) :
  layer_specs (fold_left (fun l v => RemovePrim (snd v) l) variants l)
  = List.filter (fun q => forallb (fun v => negb (is_under (snd v) q)) variants)
                (layer_specs l).
Proof.
  revert l. induction variants as [|v variants IH]; intros l; cbn [fold_left forallb].
  - symmetry. apply filter_all. apply List.forallb_forall. reflexivity.
  - rewrite IH. cbn [RemovePrim layer_specs].
    induction (layer_specs l) as [|q specs IHs]; [reflexivity|].
    cbn [List.filter]. destruct (negb (is_under (snd v) q)); cbn [List.filter andb].
    + destruct (forallb _ variants); [rewrite IHs|]; auto.
    + exact IHs.
Qed.

Lemma copy_loop_specs (parent : Path) (base : string) (variants : list (string * Path))
    (l : Layer) :
  layer_specs (fold_left
                 (fun l v => CopySpec (snd v) parent (fst v) base
                               (on_layer_set (AddVariant (fst v)) parent l))
                 variants l)
  = layer_specs l.
Proof.
  revert l. induction variants as [|v variants IH]; intros l; cbn [fold_left]; [reflexivity|].
  rewrite IH. unfold CopySpec. destruct (has_spec _ (snd v)); reflexivity.
Qed.

Lemma process_variant_group_specs (l : Layer)
    (g : (Path * string) * list (string * Path)) :
  layer_specs (process_variant_group l g) = layer_specs l
  \/ layer_specs (process_variant_group l g)
     = List.filter (fun q => forallb (fun v => negb (is_under (snd v) q)) (snd g))
                   (layer_specs l).
Proof.
  unfold process_variant_group.
  destruct (length (snd g) <? 2); [left; reflexivity|].
  destruct (negb (has_spec l (fst (fst g)))); [left; reflexivity|].
  right.
  assert (Hloops :
            layer_specs
              (fold_left (fun l v => RemovePrim (snd v) l) (snd g)
                 (fold_left
                    (fun l v => CopySpec (snd v) (fst (fst g)) (fst v) (snd (fst g))
                                  (on_layer_set (AddVariant (fst v)) (fst (fst g)) l))
                    (snd g) (layer_add_variant_set (fst (fst g)) l)))
            = List.filter (fun q => forallb (fun v => negb (is_under (snd v) q)) (snd g))
                          (layer_specs l)).
  { rewrite remove_loop_specs, copy_loop_specs. reflexivity. }
  destruct (snd g); exact Hloops.
Qed.

Section RestructurerFacts.
Context {table : CodeTable}.

Lemma collect_variant_groups_members (prims : list Path)
    (g : (Path * string) * list (string * Path)) (v : string * Path) :
  In g (collect_variant_groups prims) -> In v (snd g) ->
  In (snd v) prims
  /\ match_variant_name (List.last (snd v) "") <> None
  /\ removelast (snd v) <> [].
Proof.
  unfold collect_variant_groups.
  assert (Hgen : forall (all done : list Path) acc,
             (forall p, In p done -> In p all) ->
             (forall g v, In g acc -> In v (snd g) ->
                          In (snd v) all
                          /\ match_variant_name (List.last (snd v) "") <> None
                          /\ removelast (snd v) <> []) ->
             forall g v,
               In g (fold_left
                       (fun groups prim =>
                          match match_variant_name (List.last prim "") with
                          | None => groups
                          | Some (base_name, tag) =>
                              match removelast prim with
                              | [] => groups
                              | parent_path =>
                                  group_append (parent_path, base_name)
                                    (if nonempty tag then tag else "1", prim) groups
                              end
                          end) done acc) ->
               In v (snd g) ->
               In (snd v) all
               /\ match_variant_name (List.last (snd v) "") <> None
               /\ removelast (snd v) <> []).
  { intros all done. induction done as [|prim done IH]; intros acc Hdone Hacc;
      cbn [fold_left]; [exact Hacc|].
    apply IH; [intros p Hp; apply Hdone; right; exact Hp|].
    destruct (match_variant_name (List.last prim "")) as [[base_name tag]|] eqn:Em;
      [|exact Hacc].
    destruct (removelast prim) as [|x rest] eqn:Er; [exact Hacc|].
    intros g0 v0 Hg0 Hv0.
    destruct (group_append_members _ _ _ _ _ Hg0 Hv0) as [(g1 & Hg1 & Hv1)| ->].
    - exact (Hacc g1 v0 Hg1 Hv1).
    - cbn [snd]. split; [apply Hdone; left; reflexivity|].
      split; [rewrite Em; discriminate | rewrite Er; discriminate]. }
  apply (Hgen prims prims []); [auto | intros ? ? []].
Qed.

(** X14. [_process_variants] removes prim specs and adds none, and what it
    removes is variant content: a spec that is gone is, or lies under, a prim
    whose name carries a variant marker and that is not a root prim. *)
Theorem process_variants_removes_only_variants (l : Layer) :
  (forall p, In p (layer_specs (_process_variants l)) -> In p (layer_specs l))
  /\ (forall p, In p (layer_specs l) -> ~ In p (layer_specs (_process_variants l)) ->
        exists c, In c (layer_specs l) /\ is_under c p = true
                  /\ match_variant_name (List.last c "") <> None
                  /\ removelast c <> []).
Proof.
  unfold _process_variants.
  assert (Hgen : forall groups l',
             (forall g, In g groups -> In g (collect_variant_groups (layer_specs l))) ->
             ((forall p, In p (layer_specs l') -> In p (layer_specs l))
              /\ (forall p, In p (layer_specs l) -> ~ In p (layer_specs l') ->
                    exists g v, In g (collect_variant_groups (layer_specs l))
                                /\ In v (snd g) /\ is_under (snd v) p = true)) ->
             (forall p, In p (layer_specs (fold_left process_variant_group groups l')) ->
                        In p (layer_specs l))
             /\ (forall p, In p (layer_specs l) ->
                   ~ In p (layer_specs (fold_left process_variant_group groups l')) ->
                   exists g v, In g (collect_variant_groups (layer_specs l))
                               /\ In v (snd g) /\ is_under (snd v) p = true)).
  { induction groups as [|g groups IH]; intros l' Hgroups Hinv; cbn [fold_left];
      [exact Hinv|].
    apply IH; [intros g0 Hg0; apply Hgroups; right; exact Hg0|].
    destruct Hinv as [Hsub Hgone].
    destruct (process_variant_group_specs l' g) as [-> | ->]; [split; assumption|].
    split.
    - intros p Hp. apply List.filter_In in Hp as [Hp _]. apply Hsub. exact Hp.
    - intros p Hp Hnot.
      destruct (List.in_dec (List.list_eq_dec String.string_dec) p (layer_specs l'))
        as [Hin|Hout]; [|apply Hgone; assumption].
      destruct (forallb (fun v => negb (is_under (snd v) p)) (snd g)) eqn:Ef.
      + exfalso. apply Hnot. apply List.filter_In. split; assumption.
      + assert (Hex : exists v, In v (snd g) /\ is_under (snd v) p = true).
        { clear -Ef. induction (snd g) as [|v vs IHv]; [discriminate|].
          cbn [forallb] in Ef. destruct (is_under (snd v) p) eqn:Eu.
          - exists v. split; [left; reflexivity | exact Eu].
          - cbn [negb andb] in Ef. destruct (IHv Ef) as (w & Hw & Hu).
            exists w. split; [right; exact Hw | exact Hu]. }
        destruct Hex as (v & Hv & Hu).
        exists g, v. split; [apply Hgroups; left; reflexivity|]. split; assumption. }
  destruct (Hgen (collect_variant_groups (layer_specs l)) l) as [Hsub Hgone].
  - auto.
  - split; [auto|]. intros p Hp Hnot. contradiction.
  - split; [exact Hsub|]. intros p Hp Hnot.
    destruct (Hgone p Hp Hnot) as (g & v & Hg & Hv & Hu).
    destruct (collect_variant_groups_members _ g v Hg Hv) as (H1 & H2 & H3).
    exists (snd v). repeat split; assumption.
Qed.

End RestructurerFacts.

(* ------------------------------------------------------------------ *)
(** ** The default prim the wrapper stripping chooses *)

Lemma copy_steps_events (cp : Path) (dn : string) (nested : bool) (names : list string)
    (acc : SdfLayer * list (Event * SdfLayer)) :
  Forall (fun ev => forall n, fst ev <> ESetDefaultPrim n) (snd acc) ->
  Forall (fun ev => forall n, fst ev <> ESetDefaultPrim n)
         (snd (fold_left (copy_step cp dn nested) names acc)).
Proof.
  revert acc. induction names as [|x names IH]; intros acc Hacc; [exact Hacc|].
  cbn [fold_left]. apply IH. unfold copy_step.
  destruct (place_spec true (cp ++ [x]) _ (rootPrims (fst acc))) as [specs ok].
  destruct (nested && negb ok).
  - destruct (place_spec true (cp ++ [x]) [x] _) as [specs2 ok2]. cbn [snd].
    apply Forall_app. split; [exact Hacc|]. repeat constructor; discriminate.
  - cbn [snd]. apply Forall_app. split; [exact Hacc|]. repeat constructor; discriminate.
Qed.

Lemma fallback_events (l : SdfLayer) (wrapper_path : Path)
    (main_children mtl_children : list string) (default_name : string) (nest_mtl : bool) :
  Forall (fun ev => forall n, fst ev <> ESetDefaultPrim n)
         (snd (_strip_root_fallback l wrapper_path main_children mtl_children default_name
                 nest_mtl)).
Proof.
  unfold _strip_root_fallback. cbn [snd].
  apply Forall_app. split; [|repeat constructor; discriminate].
  apply copy_steps_events. apply copy_steps_events. constructor.
Qed.

Lemma main_names_not_material (n : string) (specs : list PrimSpec)
    (keep : PrimSpec -> bool) :
  In n (map spec_name
            (List.filter keep
               (List.filter (fun c => negb (is_mtl_scope (spec_name c))) specs))) ->
  is_mtl_scope n = false.
Proof.
  intros H. apply List.in_map_iff in H as (c & <- & H).
  apply List.filter_In in H as [H _]. apply List.filter_In in H as [_ H].
  apply negb_true_iff. exact H.
Qed.

(** X15. The default prim [_strip_root_wrapper] designates is never a
    material scope ([mtl], [Looks], [Materials]), whether the namespace edit
    applies or the fall-back runs, and the layer left by the assignment has
    that name as default prim. When the namespace edit applies, every run
    that does anything makes the assignment: it is the step after the edit.
    (After a failed edit the remap calls of the fall-back come first, and the
    assignment is made only if they return.) *)
Theorem strip_default_prim_is_content (apply_ok : bool) (l : SdfLayer) :
  (forall n l', In (ESetDefaultPrim n, l') (_strip_root_wrapper apply_ok l) ->
                is_mtl_scope n = false /\ defaultPrim l' = n)
  /\ (_strip_root_wrapper true l <> [] ->
      exists n l' rest,
        _strip_root_wrapper true l
        = (EApply true, with_prims (rootPrims l') l) :: (ESetDefaultPrim n, l') :: rest).
Proof.
  split.
  2:{ unfold _strip_root_wrapper.
      destruct (find_spec "root" (rootPrims l)) as [root_spec|]; [|congruence].
      destruct (spec_at (rootPrims l) (deepest_wrapper root_spec ["root"]))
        as [wrapper_spec|]; [|congruence].
      destruct (nameChildren wrapper_spec) as [|c cs]; [congruence|].
      destruct (map spec_name (List.filter _ (c :: cs))) as [|first_main mains];
        [congruence|].
      cbv zeta. intros _.
      match goal with
      | |- context [(ESetDefaultPrim ?d, ?l2)] =>
          exists d, l2
      end.
      cbn [rootPrims app].
      match goal with
      | |- context [find_spec "root" ?x] => destruct (find_spec "root" x)
      end; cbn [app]; eexists; reflexivity. }
  revert l. intros l.
  assert (Hboth :
    (forall n l', In (ESetDefaultPrim n, l') (_strip_root_wrapper apply_ok l) ->
                  is_mtl_scope n = false /\ defaultPrim l' = n)
    /\ (_strip_root_wrapper apply_ok l <> [] ->
        exists n l', In (ESetDefaultPrim n, l') (_strip_root_wrapper apply_ok l)));
    [|exact (proj1 Hboth)].
  unfold _strip_root_wrapper.
  destruct (find_spec "root" (rootPrims l)) as [root_spec|];
    [|split; [intros ? ? [] | congruence]].
  destruct (spec_at (rootPrims l) (deepest_wrapper root_spec ["root"])) as [wrapper_spec|];
    [|split; [intros ? ? [] | congruence]].
  destruct (nameChildren wrapper_spec) as [|c cs] eqn:Hall;
    [split; [intros ? ? [] | congruence]|].
  destruct (map spec_name (List.filter _ (c :: cs))) as [|first_main mains] eqn:Hmain;
    [split; [intros ? ? [] | congruence]|].
  cbv zeta.
  set (content := map spec_name
                      (List.filter (fun c0 => negb (spec_is_class c0)
                                              && negb (startswith (spec_name c0) "_class_"))
                         (List.filter (fun c0 => negb (is_mtl_scope (spec_name c0)))
                                      (c :: cs)))).
  set (default_name := match content with c0 :: _ => c0 | [] => first_main end).
  assert (Hdn : is_mtl_scope default_name = false).
  { subst default_name. destruct content as [|c0 content'] eqn:Ec.
    - apply (main_names_not_material first_main (c :: cs) (fun _ => true)).
      rewrite filter_all by (apply List.forallb_forall; reflexivity).
      rewrite Hmain. left. reflexivity.
    - apply (main_names_not_material c0 (c :: cs)
               (fun c1 => negb (spec_is_class c1)
                          && negb (startswith (spec_name c1) "_class_"))).
      fold content. rewrite Ec. left. reflexivity. }
  match goal with
  | |- context [let '(l1, trace) := ?run in _] =>
      assert (Hrun : Forall (fun ev => forall n, fst ev <> ESetDefaultPrim n) (snd run));
      [|destruct run as [l1 trace]]
  end.
  { destruct apply_ok; cbn [snd]; [repeat constructor; discriminate|].
    match goal with
    | |- context [_strip_root_fallback ?a ?b ?c ?d ?e ?f] =>
        pose proof (fallback_events a b c d e f) as Hfb;
        destruct (_strip_root_fallback a b c d e f) as [l1 copies]
    end.
    cbn [snd] in *. constructor; [discriminate | exact Hfb]. }
  cbn [snd] in Hrun. cbn [rootPrims].
  assert (Hpre : forall n l', ~ In (ESetDefaultPrim n, l') trace).
  { intros n l' Hin. rewrite List.Forall_forall in Hrun.
    apply (Hrun _ Hin n). reflexivity. }
  split.
  - intros n l' Hin.
    destruct (find_spec "root" (rootPrims l1)).
    + apply List.in_app_or in Hin as [Hin|[Hin|[]]]; [|discriminate].
      apply List.in_app_or in Hin as [Hin|[Hin|[]]]; [exfalso; exact (Hpre _ _ Hin)|].
      injection Hin as <- <-. split; [exact Hdn | reflexivity].
    + apply List.in_app_or in Hin as [Hin|[Hin|[]]]; [exfalso; exact (Hpre _ _ Hin)|].
      injection Hin as <- <-. split; [exact Hdn | reflexivity].
  - intros _. exists default_name, {| rootPrims := rootPrims l1; defaultPrim := default_name |}.
    destruct (find_spec "root" (rootPrims l1)).
    + apply List.in_or_app. left. apply List.in_or_app. right. left. reflexivity.
    + apply List.in_or_app. right. left. reflexivity.
Qed.

(* ------------------------------------------------------------------ *)
(** ** The pass over the joint tokens *)

Lemma remap_tokens_spec (f : string -> string) (tokens : list string) :
  fst (remap_tokens f tokens) = map f tokens
  /\ (snd (remap_tokens f tokens) = 0 -> map f tokens = tokens)
  /\ (map f tokens = tokens -> snd (remap_tokens f tokens) = 0).
Proof.
  induction tokens as [|t tokens (IH1 & IH2 & IH3)]; cbn [remap_tokens map].
  - repeat split; reflexivity.
  - destruct (remap_tokens f tokens) as [r n]. cbn [fst snd] in *.
    destruct (String.eqb (f t) t) eqn:E.
    + apply String.eqb_eq in E. split; [rewrite IH1; reflexivity|]. split.
      * intros Hn. rewrite E, IH2 by exact Hn. reflexivity.
      * intros [= _ H]. apply IH3. exact H.
    + apply String.eqb_neq in E. split; [rewrite IH1; reflexivity|]. split.
      * discriminate.
      * intros [= H _]. contradiction.
Qed.

Lemma remap_joint_attr_facts (f : string -> string) (a : TokenAttr) :
  attr_name (fst (fst (remap_joint_attr f a))) = attr_name a
  /\ attr_type (fst (fst (remap_joint_attr f a))) = attr_type a
  /\ length (attr_tokens (fst (fst (remap_joint_attr f a)))) = length (attr_tokens a)
  /\ is_joint_attr (fst (fst (remap_joint_attr f a))) = is_joint_attr a
  /\ (is_joint_attr a = false -> fst (fst (remap_joint_attr f a)) = a)
  /\ (snd (remap_joint_attr f a) = 0 <-> fst (fst (remap_joint_attr f a)) = a)
  /\ (snd (fst (remap_joint_attr f a)) = 0 <-> snd (remap_joint_attr f a) = 0)
  /\ snd (fst (remap_joint_attr f a)) <= snd (remap_joint_attr f a).
Proof.
  unfold remap_joint_attr.
  destruct (is_joint_attr a) eqn:Ej.
  2:{ cbn [fst snd]. rewrite Ej. repeat split; auto. }
  destruct (remap_tokens_spec f (attr_tokens a)) as (H1 & H2 & H3).
  destruct (remap_tokens f (attr_tokens a)) as [new n]. cbn [fst snd] in *.
  destruct (0 <? n) eqn:En; cbn [fst snd attr_name attr_type attr_tokens].
  2:{ rewrite Ej. repeat split; auto. }
  apply Nat.ltb_lt in En. subst new.
  split; [reflexivity|]. split; [reflexivity|]. split; [apply length_map|].
  split; [|split; [discriminate|split; [|split; [|lia]]]].
  - unfold is_joint_attr in *. cbn [attr_name attr_type attr_tokens].
    destruct (attr_tokens a); [rewrite andb_false_r in Ej; discriminate|].
    cbn [map]. exact Ej.
  - split; [lia|]. intros Heq. exfalso.
    assert (Hm : map f (attr_tokens a) = attr_tokens a).
    { apply (f_equal attr_tokens) in Heq. exact Heq. }
    apply H3 in Hm. lia.
  - split; [discriminate | lia].
Qed.

Lemma remap_joint_attrs_facts (f : string -> string) (attrs : list TokenAttr) :
  attrs_shape (fst (fst (remap_joint_attrs f attrs))) = attrs_shape attrs
  /\ List.filter (fun a => negb (is_joint_attr a)) (fst (fst (remap_joint_attrs f attrs)))
     = List.filter (fun a => negb (is_joint_attr a)) attrs
  /\ (snd (remap_joint_attrs f attrs) = 0 <-> fst (fst (remap_joint_attrs f attrs)) = attrs)
  /\ (snd (fst (remap_joint_attrs f attrs)) = 0 <-> snd (remap_joint_attrs f attrs) = 0)
  /\ snd (fst (remap_joint_attrs f attrs)) <= snd (remap_joint_attrs f attrs).
Proof.
  induction attrs as [|a attrs IH]; cbn [remap_joint_attrs].
  - repeat split; reflexivity.
  - destruct (remap_joint_attr_facts f a) as (Hn & Ht & Hl & Hj & Hskip & Hz & Hza & Hle).
    destruct (remap_joint_attr f a) as [[a' n] k].
    destruct (remap_joint_attrs f attrs) as [[rest' m] j].
    cbn [fst snd] in *. destruct IH as (IHs & IHo & IHz & IHza & IHle).
    split; [|split; [|split; [|split]]].
    + unfold attrs_shape in *. cbn [map]. rewrite Hn, Ht, Hl, IHs. reflexivity.
    + cbn [List.filter]. rewrite Hj, IHo.
      destruct (is_joint_attr a) eqn:Ej; cbn [negb]; [reflexivity|].
      rewrite (Hskip eq_refl). reflexivity.
    + split.
      * intros H0. assert (k = 0 /\ j = 0) as [Hk Hj0] by lia.
        apply Hz in Hk. apply IHz in Hj0. congruence.
      * intros [= Ha Hr]. apply Hz in Ha. apply IHz in Hr. lia.
    + split; intros H0.
      * assert (n = 0 /\ m = 0) as [Hn0 Hm0] by lia.
        apply Hza in Hn0. apply IHza in Hm0. lia.
      * assert (k = 0 /\ j = 0) as [Hk Hj0] by lia.
        apply Hza in Hk. apply IHza in Hj0. lia.
    + lia.
Qed.

Lemma remap_joint_prims_facts (f : string -> string) (prims : list JointPrim) :
  joints_shape (fst (fst (remap_joint_prims f prims))) = joints_shape prims
  /\ other_attrs (fst (fst (remap_joint_prims f prims))) = other_attrs prims
  /\ (snd (remap_joint_prims f prims) = 0 <-> fst (fst (remap_joint_prims f prims)) = prims)
  /\ (snd (fst (remap_joint_prims f prims)) = 0 <-> snd (remap_joint_prims f prims) = 0)
  /\ snd (fst (remap_joint_prims f prims)) <= snd (remap_joint_prims f prims).
Proof.
  induction prims as [|p prims IH]; cbn [remap_joint_prims].
  - repeat split; reflexivity.
  - destruct (remap_joint_attrs_facts f (joint_attrs p)) as (Hs & Ho & Hz & Hza & Hle).
    destruct (remap_joint_attrs f (joint_attrs p)) as [[attrs n] k].
    destruct (remap_joint_prims f prims) as [[rest' m] j].
    cbn [fst snd] in *. destruct IH as (IHs & IHo & IHz & IHza & IHle).
    split; [|split; [|split; [|split]]].
    + unfold joints_shape in *. cbn [map joint_prim_path joint_attrs].
      rewrite Hs, IHs. reflexivity.
    + unfold other_attrs in *. cbn [map joint_attrs]. rewrite Ho, IHo. reflexivity.
    + split.
      * intros H0. assert (k = 0 /\ j = 0) as [Hk Hj0] by lia.
        apply Hz in Hk. apply IHz in Hj0. subst attrs rest'. destruct p; reflexivity.
      * intros Heq. injection Heq as Ha Hr.
        assert (Hattrs : attrs = joint_attrs p) by (rewrite <- Ha; reflexivity).
        apply Hz in Hattrs. apply IHz in Hr. lia.
    + split; intros H0.
      * assert (n = 0 /\ m = 0) as [Hn0 Hm0] by lia.
        apply Hza in Hn0. apply IHza in Hm0. lia.
      * assert (k = 0 /\ j = 0) as [Hk Hj0] by lia.
        apply Hza in Hk. apply IHza in Hj0. lia.
    + lia.
Qed.

(** X16. [_remap_skeleton_joint_tokens] rewrites tokens and nothing else:
    the prims, the names and types of their attributes and the number of
    tokens of each stay as they were, and the attributes that are not a
    non-empty [token[]] named [skel:joints] or [joints] are untouched. The two
    counts tell the truth: no token is counted exactly when the stage is the
    one given, no attribute is counted exactly when no token is, and the
    attributes counted are at most the tokens counted. *)
Theorem remap_skeleton_joint_tokens_counts (stage : list JointPrim) (sp : string)
    (nt : option string) (mtl : list string) (cr rp rel : option string) :
  joints_shape (fst (fst (_remap_skeleton_joint_tokens stage sp nt mtl cr rp rel)))
  = joints_shape stage
  /\ other_attrs (fst (fst (_remap_skeleton_joint_tokens stage sp nt mtl cr rp rel)))
     = other_attrs stage
  /\ (snd (_remap_skeleton_joint_tokens stage sp nt mtl cr rp rel) = 0
      <-> fst (fst (_remap_skeleton_joint_tokens stage sp nt mtl cr rp rel)) = stage)
  /\ (snd (fst (_remap_skeleton_joint_tokens stage sp nt mtl cr rp rel)) = 0
      <-> snd (_remap_skeleton_joint_tokens stage sp nt mtl cr rp rel) = 0)
  /\ snd (fst (_remap_skeleton_joint_tokens stage sp nt mtl cr rp rel))
     <= snd (_remap_skeleton_joint_tokens stage sp nt mtl cr rp rel).
Proof.
  unfold _remap_skeleton_joint_tokens.
  set (f := fun token =>
              _remap_skeleton_joint_token (prims_of stage) token sp nt mtl cr rp rel).
  destruct (remap_joint_prims_facts f stage) as (Hshape & Hother & Hzero & Hattrs & Hle).
  split; [exact Hshape|]. split; [exact Hother|]. split; [exact Hzero|].
  split; [exact Hattrs | exact Hle].
Qed.

(* ------------------------------------------------------------------ *)
(** ** The skeletal root is kept *)

Lemma place_spec_child_names (keep : bool) (src : Path) (p n : string)
    (specs : list PrimSpec) :
  map spec_name (fst (place_spec keep src [p; n] specs)) = map spec_name specs.
Proof.
  unfold place_spec. destruct (spec_at specs src) as [s|]; [|reflexivity].
  set (removed := if keep then specs else _).
  assert (Hrem : map spec_name removed = map spec_name specs).
  { subst removed. destruct keep; [reflexivity|]. apply update_at_names. reflexivity. }
  destruct (find_spec p removed); cbn [fst]; [|reflexivity].
  rewrite update_at_names by reflexivity. exact Hrem.
Qed.

Lemma apply_edit_child_names (src_parent : Path) (p : string) (names : list string)
    (specs : list PrimSpec) :
  map spec_name
      (apply_edit (map (fun n => (src_parent ++ [n], [p] ++ [n])) names) specs)
  = map spec_name specs.
Proof.
  unfold apply_edit. revert specs.
  induction names as [|n names IH]; intros specs; cbn [map fold_left]; [reflexivity|].
  rewrite IH. cbn [fst snd app]. apply place_spec_child_names.
Qed.

Lemma remove_spec_long_names (p : Path) (specs : list PrimSpec) :
  2 <= length p -> map spec_name (remove_spec p specs) = map spec_name specs.
Proof.
  destruct p as [|a [|b p]]; cbn [length]; try lia. intros _.
  unfold remove_spec. apply update_at_names. reflexivity.
Qed.

Lemma remove_spec_root_in (p : Path) (specs : list PrimSpec) :
  p <> ["root"] ->
  (In "root" (map spec_name (remove_spec p specs)) <-> In "root" (map spec_name specs)).
Proof.
  intros Hp. destruct p as [|a [|b p]].
  - reflexivity.
  - unfold remove_spec, remove_root. rewrite !List.in_map_iff. split.
    + intros (s & Hs & Hin). apply List.filter_In in Hin as [Hin _]. eauto.
    + intros (s & Hs & Hin). exists s. split; [exact Hs|].
      apply List.filter_In. split; [exact Hin|].
      apply negb_true_iff. apply String.eqb_neq. congruence.
  - rewrite remove_spec_long_names by (cbn [length]; lia). reflexivity.
Qed.

Lemma spec_at_nonempty (specs : list PrimSpec) (p : Path) (s : PrimSpec) :
  spec_at specs p = Some s -> p <> [].
Proof. destruct p; [discriminate | discriminate]. Qed.

Lemma move_children_names (apply_ok : bool) (specs : list PrimSpec) (src_parent : Path) :
  map spec_name (fst (_move_children_to_parent apply_ok specs src_parent ["root"]))
  = map spec_name specs.
Proof.
  unfold _move_children_to_parent.
  destruct (spec_at specs src_parent) as [src_spec|] eqn:Es; [|reflexivity].
  apply spec_at_nonempty in Es.
  destruct (map spec_name (nameChildren src_spec)) as [|c cs]; [reflexivity|].
  destruct apply_ok; cbn [fst].
  - apply apply_edit_child_names.
  - generalize (c :: cs). intros names.
    assert (Hgen : forall acc,
               map spec_name (fst (fold_left (copy_child src_parent ["root"]) names acc))
               = map spec_name (fst acc)).
    { induction names as [|n names IH]; intros acc; cbn [fold_left]; [reflexivity|].
      rewrite IH. unfold copy_child.
      pose proof (place_spec_child_names true (src_parent ++ [n]) "root" n (fst acc)) as Hp.
      cbn [app] in *.
      destruct (place_spec true (src_parent ++ [n]) ["root"; n] (fst acc)) as [specs' ok].
      cbn [fst] in Hp. destruct ok; cbn [fst]; [|reflexivity].
      rewrite remove_spec_long_names; [exact Hp|].
      rewrite length_app. cbn [length]. destruct src_parent; [contradiction|].
      cbn [length]. lia. }
    apply Hgen.
Qed.

Lemma has_root_iff (specs specs' : list PrimSpec) :
  (In "root" (map spec_name specs') <-> In "root" (map spec_name specs)) ->
  match find_spec "root" specs' with Some _ => true | None => false end
  = match find_spec "root" specs with Some _ => true | None => false end.
Proof.
  intros H. rewrite !find_spec_in in H.
  destruct (find_spec "root" specs'), (find_spec "root" specs); try reflexivity.
  - exfalso. apply (proj1 H); [discriminate | reflexivity].
  - exfalso. apply (proj2 H); [discriminate | reflexivity].
Qed.

Lemma flatten_keeps_root (ok1 ok2 : bool) (child_type : string -> string) (l : SdfLayer)
    (current_path : Path) :
  has_wrapper (_flatten_scene_wrapper_under_skel_root ok1 ok2 child_type l current_path)
  = has_wrapper l
  /\ (has_wrapper l = true ->
      defaultPrim (_flatten_scene_wrapper_under_skel_root ok1 ok2 child_type l current_path)
      = "root").
Proof.
  unfold _flatten_scene_wrapper_under_skel_root, has_wrapper.
  set (specs := if bool_decide (current_path = ["root"]) then rootPrims l else _).
  assert (Hspecs : match find_spec "root" specs with Some _ => true | None => false end
                   = match find_spec "root" (rootPrims l) with
                     | Some _ => true | None => false end).
  { apply has_root_iff. subst specs.
    destruct (bool_decide (current_path = ["root"])) eqn:Ecp; [reflexivity|].
    apply bool_decide_eq_false in Ecp.
    rewrite remove_spec_root_in by exact Ecp. rewrite move_children_names. reflexivity. }
  clearbody specs.
  destruct (find_spec "root" specs) as [root_spec|] eqn:Er.
  - destruct (nameChildren root_spec) as [|c cs].
    + cbn [rootPrims defaultPrim]. rewrite Er. split; [exact Hspecs | reflexivity].
    + cbv zeta. cbn [rootPrims defaultPrim]. split; [|reflexivity].
      transitivity (match find_spec "root" specs with Some _ => true | None => false end);
        [|rewrite Er; exact Hspecs].
      apply has_root_iff.
      match goal with
      | |- context [match ?scene with Some _ => _ | None => specs end] =>
          destruct scene as [name|]; [|reflexivity]
      end.
      rewrite remove_spec_long_names by (cbn [length]; lia).
      rewrite move_children_names. reflexivity.
  - cbn [with_prims rootPrims defaultPrim]. rewrite Er. split; [exact Hspecs|].
    rewrite <- Hspecs. discriminate.
Qed.

Example flatten_skel_layer :
  strip_skel_root true false (fun _ => "Xform") skel_layer
  = {| rootPrims := [Spec "root" false
                       [Spec "Bones" false [Spec "Hip" false []];
                        Spec "mtl" false [Spec "Skin" false []];
                        Spec "Body" false []]];
       defaultPrim := "root" |}.
Proof. reflexivity. Qed.

(** X17. A skeletal export keeps [/root]. Whatever the two namespace edits
    answer, [_flatten_scene_wrapper_under_skel_root] neither removes the spec
    [/root] nor creates one, and on a layer that has it the default prim ends
    as [root]; so does the stripping step that calls it. With no skeleton
    scope under [/root] (no child named [Bones] or of type Skeleton) and no
    nested wrapper, the prim specs of the layer are left as they are. *)
Theorem skel_root_is_kept (ok1 ok2 : bool) (child_type : string -> string)
    (l : SdfLayer) :
  (forall current_path,
      has_wrapper (_flatten_scene_wrapper_under_skel_root ok1 ok2 child_type l current_path)
      = has_wrapper l
      /\ (has_wrapper l = true ->
          defaultPrim (_flatten_scene_wrapper_under_skel_root ok1 ok2 child_type l
                         current_path) = "root"))
  /\ has_wrapper (strip_skel_root ok1 ok2 child_type l) = has_wrapper l
  /\ (defaultPrim (strip_skel_root ok1 ok2 child_type l) = "root"
      \/ strip_skel_root ok1 ok2 child_type l = l)
  /\ (existsb (is_skeleton_scope child_type) (root_children_of l) = false ->
      rootPrims (_flatten_scene_wrapper_under_skel_root ok1 ok2 child_type l ["root"])
      = rootPrims l).
Proof.
  split; [intros cp; apply flatten_keeps_root|].
  split; [|split].
  - unfold strip_skel_root.
    destruct (find_spec "root" (rootPrims l)) as [root_spec|]; [|reflexivity].
    destruct (spec_at (rootPrims l) (deepest_wrapper root_spec ["root"]))
      as [wrapper_spec|]; [|reflexivity].
    destruct (nameChildren wrapper_spec); [reflexivity|]. apply flatten_keeps_root.
  - unfold strip_skel_root.
    destruct (find_spec "root" (rootPrims l)) as [root_spec|] eqn:Er; [|right; reflexivity].
    destruct (spec_at (rootPrims l) (deepest_wrapper root_spec ["root"]))
      as [wrapper_spec|]; [|right; reflexivity].
    destruct (nameChildren wrapper_spec); [right; reflexivity|]. left.
    apply flatten_keeps_root. unfold has_wrapper. rewrite Er. reflexivity.
  - unfold _flatten_scene_wrapper_under_skel_root, root_children_of.
    rewrite bool_decide_eq_true_2 by reflexivity.
    destruct (find_spec "root" (rootPrims l)) as [root_spec|]; [|reflexivity].
    destruct (nameChildren root_spec) as [|c cs]; [reflexivity|].
    intros Hno. cbv zeta. rewrite Hno. cbn [andb rootPrims].
    destruct (map spec_name (List.filter (is_content_candidate child_type) (c :: cs)))
      as [|a [|b rest]]; reflexivity.
Qed.

(* ------------------------------------------------------------------ *)
(** ** Reading the hierarchy table *)

Example parse_line_ex1 :
  @parse_hierarchy_line ascii_spaces ("  Chair_VARIANT1|Root|extra" +:+ line_feed)
  = Some ("Chair_VARIANT1", Some "Root").
Proof. reflexivity. Qed.

Example parse_line_ex2 :
  @parse_hierarchy_line ascii_spaces ("Root|" +:+ line_feed) = Some ("Root", None).
Proof. reflexivity. Qed.

Lemma split_bar_no_bar (s : string) : no_bar s = true -> split_bar s = [s].
Proof.
  unfold no_bar. induction s as [|c s IH]; cbn [all_chars split_bar]; [reflexivity|].
  intros H. apply andb_prop in H as [Hc Hs]. apply negb_true_iff in Hc.
  rewrite Hc, IH by exact Hs. reflexivity.
Qed.

Lemma split_bar_app (a b : string) :
  no_bar a = true -> split_bar (a +:+ String bar b) = a :: split_bar b.
Proof.
  unfold no_bar. induction a as [|c a IH]; cbn [all_chars].
  - intros _. rewrite append_nil_str. cbn [split_bar]. rewrite Ascii.eqb_refl. reflexivity.
  - intros H. apply andb_prop in H as [Hc Hs]. apply negb_true_iff in Hc.
    rewrite append_cons_str. cbn [split_bar]. rewrite Hc, IH by exact Hs. reflexivity.
Qed.

Section MetadataFacts.
Context {spaces : SpaceTable}.

Lemma isspace_bar : isspace bar = false.
Proof. reflexivity. Qed.

Lemma isspace_newline : isspace newline = true.
Proof. reflexivity. Qed.

Lemma rstrip_app (a b : string) :
  rstrip (a +:+ b) = match rstrip b with
                     | EmptyString => rstrip a
                     | String c r => a +:+ String c r
                     end.
Proof.
  induction a as [|x a IH].
  - rewrite append_nil_str. destruct (rstrip b); reflexivity.
  - rewrite append_cons_str. cbn [rstrip]. rewrite IH.
    destruct (rstrip b) as [|c r]; [reflexivity|].
    rewrite append_cons_str.
    destruct a; [rewrite append_nil_str|rewrite append_cons_str]; reflexivity.
Qed.

Lemma lstrip_app (a b : string) :
  nonempty a = true -> lstrip a = a -> lstrip (a +:+ b) = a +:+ b.
Proof.
  destruct a as [|c a]; [discriminate|]. intros _. rewrite append_cons_str.
  cbn [lstrip]. destruct (isspace c) eqn:Ec; [|reflexivity].
  intros H. exfalso.
  assert (Hlen : forall s, String.length (lstrip s) <= String.length s).
  { induction s as [|y s IHs]; cbn [lstrip String.length]; [lia|].
    destruct (isspace y); cbn [String.length]; lia. }
  pose proof (Hlen a) as Ha. rewrite H in Ha. cbn [String.length] in Ha. lia.
Qed.

Lemma all_space_strip (s : string) : all_chars isspace s = true -> strip s = "".
Proof.
  unfold strip. induction s as [|c s IH]; cbn [all_chars lstrip]; [reflexivity|].
  intros H. apply andb_prop in H as [Hc Hs]. rewrite Hc. apply IH. exact Hs.
Qed.

Lemma startswith_hash_app (a b : string) :
  nonempty a = true -> startswith (a +:+ b) "#" = startswith a "#".
Proof. destruct a as [|c a]; [discriminate|]. intros _. rewrite append_cons_str. reflexivity. Qed.

Lemma no_bar_lstrip (s : string) : no_bar s = true -> no_bar (lstrip s) = true.
Proof.
  unfold no_bar. induction s as [|c s IH]; cbn [lstrip all_chars]; [reflexivity|].
  intros H. destruct (isspace c); [|exact H].
  apply andb_prop in H as [_ H]. apply IH. exact H.
Qed.

Lemma no_bar_rstrip (s : string) : no_bar s = true -> no_bar (rstrip s) = true.
Proof.
  unfold no_bar. induction s as [|c s IH]; cbn [rstrip all_chars]; [reflexivity|].
  intros H. apply andb_prop in H as [Hc Hs]. specialize (IH Hs).
  destruct (rstrip s) as [|y r].
  - destruct (isspace c); [reflexivity|]. cbn [all_chars]. rewrite Hc. reflexivity.
  - cbn [all_chars] in *. rewrite Hc. exact IH.
Qed.

(** A line [name|parent] with its line feed gives the entry of that name
    with that parent, or with no parent when the parent field is empty. *)
Lemma parse_line_round_trip (name parent : string) :
  no_bar name = true -> no_bar parent = true ->
  lstrip name = name -> startswith name "#" = false -> rstrip parent = parent ->
  parse_hierarchy_line (name +:+ String bar parent +:+ line_feed)
  = Some (name, if nonempty parent then Some parent else None).
Proof.
  intros Hn Hp Hl Hh Hr. unfold parse_hierarchy_line, strip.
  assert (Hstrip : rstrip (lstrip (name +:+ String bar parent +:+ line_feed))
                   = name +:+ String bar parent).
  { assert (Hleft : lstrip (name +:+ String bar parent +:+ line_feed)
                    = name +:+ String bar parent +:+ line_feed).
    { destruct name as [|c name'] eqn:En.
      - rewrite append_nil_str. rewrite append_cons_str. cbn [lstrip].
        rewrite isspace_bar. reflexivity.
      - apply lstrip_app; [reflexivity | exact Hl]. }
    rewrite Hleft.
    replace (name +:+ String bar parent +:+ line_feed)
      with ((name +:+ String bar parent) +:+ line_feed)
      by (rewrite app_assoc_str, append_cons_str; reflexivity).
    rewrite (rstrip_app (name +:+ String bar parent) line_feed).
    unfold line_feed. cbn [rstrip]. rewrite isspace_newline.
    change (String bar parent) with (String bar "" +:+ parent).
    rewrite <- app_assoc_str.
    rewrite (rstrip_app (name +:+ String bar "") parent), Hr.
    destruct parent as [|c r]; [|reflexivity].
    rewrite app_nil_r_str. rewrite (rstrip_app name (String bar "")).
    cbn [rstrip]. rewrite isspace_bar. reflexivity. }
  cbv zeta. rewrite Hstrip.
  assert (Hne : nonempty (name +:+ String bar parent) = true).
  { destruct name; [rewrite append_nil_str | rewrite append_cons_str]; reflexivity. }
  assert (Hhash : startswith (name +:+ String bar parent) "#" = false).
  { destruct name as [|c name'] eqn:En.
    - rewrite append_nil_str. reflexivity.
    - rewrite startswith_hash_app by reflexivity. exact Hh. }
  rewrite Hne, Hhash. cbn [negb orb].
  rewrite split_bar_app by exact Hn. rewrite split_bar_no_bar by exact Hp.
  reflexivity.
Qed.

Lemma file_lines_single (s : string) :
  no_line_break s = true -> file_lines (s +:+ line_feed) = [s +:+ line_feed].
Proof.
  unfold no_line_break. induction s as [|c s IH]; [reflexivity|].
  cbn [all_chars]. intros H. apply andb_true_iff in H as [Hc Hs].
  apply andb_true_iff in Hc as [Hn Hr].
  apply negb_true_iff in Hn. apply negb_true_iff in Hr.
  rewrite append_cons_str. cbn [file_lines]. rewrite Hn, Hr, (IH Hs). reflexivity.
Qed.

(** X18. An entry of the table is read back as it was written: for a name
    and a parent without a bar and without a line break, the name not
    starting with white space or [#] and the parent not ending with white
    space, the file whose text is the line [name|parent] and a line feed
    gives the table with the one entry of that name with that parent, or with
    no parent when the parent field is empty. *)
Theorem hierarchy_line_round_trip (name parent : string) :
  no_bar name = true -> no_bar parent = true ->
  no_line_break name = true -> no_line_break parent = true ->
  lstrip name = name -> startswith name "#" = false -> rstrip parent = parent ->
  read_hierarchy_metadata
    (Some (file_lines (name +:+ String bar parent +:+ line_feed)))
  = [(name, if nonempty parent then Some parent else None)].
Proof.
  intros Hn Hp Hln Hlp Hl Hh Hr.
  assert (Hline : no_line_break (name +:+ String bar parent) = true).
  { unfold no_line_break in *. rewrite all_chars_app. cbn [all_chars].
    rewrite Hln, Hlp. reflexivity. }
  replace (name +:+ String bar parent +:+ line_feed)
    with ((name +:+ String bar parent) +:+ line_feed)
    by (rewrite app_assoc_str, append_cons_str; reflexivity).
  rewrite (file_lines_single _ Hline).
  replace ((name +:+ String bar parent) +:+ line_feed)
    with (name +:+ String bar parent +:+ line_feed)
    by (rewrite app_assoc_str, append_cons_str; reflexivity).
  unfold read_hierarchy_metadata. cbn [fold_left].
  rewrite (parse_line_round_trip name parent Hn Hp Hl Hh Hr). reflexivity.
Qed.

Lemma read_as_entries (lines : list string) :
  read_hierarchy_metadata (Some lines) = hierarchy_of_entries (line_entries lines).
Proof.
  unfold read_hierarchy_metadata, hierarchy_of_entries.
  generalize (@nil (string * option string)).
  induction lines as [|line lines IH]; intros acc; cbn [fold_left line_entries];
    [reflexivity|].
  rewrite IH. destruct (parse_hierarchy_line line) as [[name parent]|]; reflexivity.
Qed.

(** X19. What [read_hierarchy_metadata] skips and how it resolves repeats. A
    line of white space, a line whose first character after the white space is
    [#], and a line without a bar give no entry. A missing file gives the
    empty hierarchy. No name is a key twice, and the parent of a name is the
    one on the last line that gives an entry for it. *)
Theorem read_hierarchy_metadata_skips (lines : list string) :
  (forall line, all_chars isspace line = true -> parse_hierarchy_line line = None)
  /\ (forall line, startswith (strip line) "#" = true -> parse_hierarchy_line line = None)
  /\ (forall line, no_bar line = true -> parse_hierarchy_line line = None)
  /\ read_hierarchy_metadata None = []
  /\ List.NoDup (dict_keys (read_hierarchy_metadata (Some lines)))
  /\ (forall n, dict_get n (read_hierarchy_metadata (Some lines))
                = dict_get n (rev (line_entries lines))).
Proof.
  split; [|split; [|split; [|split; [|split]]]].
  - intros line H. unfold parse_hierarchy_line. rewrite (all_space_strip line H). reflexivity.
  - intros line H. unfold parse_hierarchy_line. cbv zeta. rewrite H.
    rewrite orb_true_r. reflexivity.
  - intros line H. unfold parse_hierarchy_line. cbv zeta.
    destruct (negb (nonempty (strip line)) || startswith (strip line) "#"); [reflexivity|].
    rewrite split_bar_no_bar; [reflexivity|].
    unfold strip. apply no_bar_rstrip. apply no_bar_lstrip. exact H.
  - reflexivity.
  - rewrite read_as_entries. apply hierarchy_fold_NoDup. constructor.
  - intros n. rewrite read_as_entries. unfold hierarchy_of_entries.
    rewrite hierarchy_fold_get. destruct (dict_get n (rev (line_entries lines))); reflexivity.
Qed.

End MetadataFacts.

Lemma hierarchy_line_round_trip_witness :
  @read_hierarchy_metadata ascii_spaces
    (Some (file_lines ("Chair_VARIANT1" +:+ String bar "Root" +:+ line_feed)))
  = [("Chair_VARIANT1", Some "Root")].
Proof.
  apply (@hierarchy_line_round_trip ascii_spaces "Chair_VARIANT1" "Root"); reflexivity.
Defined.

(* ------------------------------------------------------------------ *)
(** ** The pass over inherit and specialize arcs *)

Lemma ArcSpec_induction (P : ArcSpec -> Prop) :
  (forall n i s cs, Forall P cs -> P (ASpec n i s cs)) -> forall s, P s.
Proof.
  intros H. fix IH 1. intros [n i s cs]. apply H.
  induction cs as [|c cs IHcs]; constructor; [apply IH | exact IHcs].
Qed.

Section ListOpFacts.
Variable sp : string.
Variable nt : option string.
Variable mtl : list string.
Variable rp : option string.

Lemma remap_items_facts (items : list string) :
  length (fst (remap_items sp nt mtl rp items)) = length items
  /\ (snd (remap_items sp nt mtl rp items) = false ->
      fst (remap_items sp nt mtl rp items) = items).
Proof.
  unfold remap_items.
  destruct (reauthor sp nt mtl rp items) as [l|] eqn:E; cbn [fst snd].
  - apply reauthor_spec in E as [-> _]. rewrite length_map. split; [reflexivity | discriminate].
  - split; reflexivity.
Qed.

Lemma remap_path_list_op_facts (op : PathListOp) :
  list_op_shape (fst (_remap_path_list_op sp nt mtl rp op)) = list_op_shape op
  /\ (snd (_remap_path_list_op sp nt mtl rp op) = false ->
      fst (_remap_path_list_op sp nt mtl rp op) = op).
Proof.
  unfold _remap_path_list_op. cbv zeta.
  destruct (remap_items_facts (explicitItems op)) as [L1 Z1].
  destruct (remap_items_facts (addedItems op)) as [L2 Z2].
  destruct (remap_items_facts (prependedItems op)) as [L3 Z3].
  destruct (remap_items_facts (appendedItems op)) as [L4 Z4].
  destruct (remap_items_facts (deletedItems op)) as [L5 Z5].
  destruct (remap_items sp nt mtl rp (explicitItems op)) as [e c1].
  destruct (remap_items sp nt mtl rp (addedItems op)) as [a c2].
  destruct (remap_items sp nt mtl rp (prependedItems op)) as [p c3].
  destruct (remap_items sp nt mtl rp (appendedItems op)) as [q c4].
  destruct (remap_items sp nt mtl rp (deletedItems op)) as [d c5].
  cbn [fst snd] in *. split.
  - unfold list_op_shape. cbn [explicitItems addedItems prependedItems appendedItems
                                 deletedItems].
    rewrite L1, L2, L3, L4, L5. reflexivity.
  - intros H. destruct c1, c2, c3, c4, c5; try discriminate.
    rewrite Z1, Z2, Z3, Z4, Z5 by reflexivity. destruct op; reflexivity.
Qed.

Lemma remap_spec_tree_iter (s : ArcSpec) :
  map (fun x => (arc_spec_name x, list_op_shape (arc_inherits x),
                 list_op_shape (arc_specializes x)))
      (_iter_prim_specs (remap_spec_tree sp nt mtl rp s))
  = map (fun x => (arc_spec_name x, list_op_shape (arc_inherits x),
                   list_op_shape (arc_specializes x)))
        (_iter_prim_specs s).
Proof.
  induction s as [n i p cs IH] using ArcSpec_induction.
  cbn [remap_spec_tree _iter_prim_specs map arc_spec_name arc_inherits arc_specializes].
  rewrite (proj1 (remap_path_list_op_facts i)), (proj1 (remap_path_list_op_facts p)).
  f_equal.
  induction IH as [|c cs Hc _ IHcs]; [reflexivity|].
  cbn [map flat_map]. rewrite !List.map_app, Hc, IHcs. reflexivity.
Qed.

Lemma remap_spec_tree_unchanged (s : ArcSpec) :
  List.filter (changes_spec sp nt mtl rp) (_iter_prim_specs s) = [] ->
  remap_spec_tree sp nt mtl rp s = s.
Proof.
  induction s as [n i p cs IH] using ArcSpec_induction.
  cbn [_iter_prim_specs List.filter remap_spec_tree].
  destruct (changes_spec sp nt mtl rp (ASpec n i p cs)) eqn:Ec; [discriminate|].
  unfold changes_spec in Ec. cbn [arc_inherits arc_specializes] in Ec.
  apply orb_false_elim in Ec as [Ei Ep]. intros Hcs.
  rewrite (proj2 (remap_path_list_op_facts i) Ei), (proj2 (remap_path_list_op_facts p) Ep).
  f_equal.
  induction IH as [|c cs Hc _ IHcs]; [reflexivity|].
  cbn [flat_map] in Hcs. rewrite List.filter_app in Hcs.
  apply List.app_eq_nil in Hcs as [H1 H2].
  cbn [map]. rewrite Hc, IHcs by assumption. reflexivity.
Qed.

(** X20. [_remap_primspec_path_lists] rewrites the items of inherit and
    specialize list-ops and nothing else: the specs of the layer, in the order
    of [_iter_prim_specs] (a spec before its children, every spec once), keep
    their names and the number of items of every field; the count it returns
    is at most the number of specs; and when it returns 0 the layer is the one
    it was given. *)
Theorem remap_primspec_path_lists_keeps_shape (layer : list ArcSpec) :
  arcs_shape (fst (_remap_primspec_path_lists layer sp nt mtl rp)) = arcs_shape layer
  /\ snd (_remap_primspec_path_lists layer sp nt mtl rp)
     <= length (flat_map _iter_prim_specs layer)
  /\ (snd (_remap_primspec_path_lists layer sp nt mtl rp) = 0 ->
      fst (_remap_primspec_path_lists layer sp nt mtl rp) = layer).
Proof.
  unfold _remap_primspec_path_lists, arcs_shape. cbn [fst snd].
  split; [|split].
  - induction layer as [|s layer IH]; [reflexivity|].
    cbn [map flat_map]. rewrite !List.map_app, remap_spec_tree_iter, IH. reflexivity.
  - apply List.filter_length_le.
  - intros H0. apply List.length_zero_iff_nil in H0.
    induction layer as [|s layer IH]; [reflexivity|].
    cbn [flat_map] in H0. rewrite List.filter_app in H0.
    apply List.app_eq_nil in H0 as [H1 H2].
    cbn [map]. rewrite remap_spec_tree_unchanged, IH by assumption. reflexivity.
Qed.

End ListOpFacts.

(* ------------------------------------------------------------------ *)
(** ** The flat branch and the hierarchy branch agree *)

Section MapValues.
Context {A B : Type} (f : A -> B).





End MapValues.






Section FlatFacts.
Context {table : CodeTable}.
Variable files : list (string * SourceDoc).


















End FlatFacts.

Section FlatAgreement.
Context {table : CodeTable} {spaces : SpaceTable}.


End FlatAgreement.


(* ------------------------------------------------------------------ *)
(** ** The default prim of the flat branch *)

Lemma apply_prim_properties_default (prim : Path) (props : SourceDoc) (hc : bool)
    (st : Assembly) :
  default_prim (snd (apply_prim_properties prim props hc st)) = default_prim st.
Proof.
  unfold apply_prim_properties.
  destruct (stage st !! prim); [|reflexivity].
  destruct (truthy (src_kind props)), (src_instanceable props) as [[|]|], hc; reflexivity.
Qed.

Lemma select_default_default (prim : Path) (items variants : list Item) (st : Assembly) :
  default_prim (select_default prim items variants st) = default_prim st.
Proof.
  unfold select_default.
  destruct (List.find (fun it => negb (tagged it)) items); [reflexivity|].
  destruct variants; reflexivity.
Qed.

Lemma stamp_purpose_default (prim : Path) (purpose_name : string) (st : Assembly) :
  default_prim (stamp_purpose prim purpose_name st) = default_prim st.
Proof. unfold stamp_purpose. destruct (purpose_of_bucket purpose_name); reflexivity. Qed.

Lemma fold_left_default {A : Type} (f : Assembly -> A -> Assembly) (l : list A)
    (st : Assembly) :
  (forall s x, default_prim (f s x) = default_prim s) ->
  default_prim (fold_left f l st) = default_prim st.
Proof.
  intros Hf. revert st. induction l as [|x l IH]; intros st; [reflexivity|].
  cbn [fold_left]. rewrite IH. apply Hf.
Qed.

Section FlatDefault.
Context {table : CodeTable} {spaces : SpaceTable}.

Lemma flat_add_variant_item_default (prim : Path) (st : Assembly) (it : Item * SourceDoc) :
  default_prim (flat_add_variant_item prim st it) = default_prim st.
Proof.
  unfold flat_add_variant_item. cbv zeta. cbn [default_prim set_created].
  rewrite apply_prim_properties_default. reflexivity.
Qed.

Lemma flat_fill_variant_set_default (prim : Path) (items variants : list (Item * SourceDoc))
    (st : Assembly) :
  default_prim (flat_fill_variant_set prim items variants st) = default_prim st.
Proof.
  unfold flat_fill_variant_set. rewrite select_default_default.
  apply fold_left_default. intros s x. apply flat_add_variant_item_default.
Qed.

Lemma flat_process_bucket_default (group_prim_path : Path) (st : Assembly)
    (bucket : string * list (Item * SourceDoc)) :
  default_prim (flat_process_bucket group_prim_path st bucket) = default_prim st.
Proof.
  unfold flat_process_bucket. cbv zeta.
  destruct ((1 <? length _) || _).
  - rewrite flat_fill_variant_set_default, stamp_purpose_default. reflexivity.
  - destruct (snd bucket) as [|item [|]]; try reflexivity.
    cbn [default_prim set_created].
    rewrite apply_prim_properties_default, stamp_purpose_default. reflexivity.
Qed.

Lemma flat_add_reference_default (root : Path) (st : Assembly) (it : Item * SourceDoc) :
  default_prim (flat_add_reference root st it) = default_prim st.
Proof.
  unfold flat_add_reference, add_reference_to_parent. cbv zeta.
  cbn [default_prim set_created]. rewrite apply_prim_properties_default. reflexivity.
Qed.

Lemma flat_process_group_default (root : Path) (st : Assembly)
    (g : string * list (Item * SourceDoc)) :
  default_prim (flat_process_group root st g) = default_prim st.
Proof.
  unfold flat_process_group. cbv zeta.
  assert (Hgrouped :
            default_prim
              (if has_purposes (map fst (snd g))
               then fold_left
                      (flat_process_bucket (root ++ [make_valid_prim_name (fst g)]))
                      (flat_by_purpose (snd g))
                      (set_created (fst g) (root ++ [make_valid_prim_name (fst g)])
                         (on_stage (XformDefine (root ++ [make_valid_prim_name (fst g)])) st))
               else if 0 <? length (List.filter (fun it => tagged (fst it)) (snd g))
                    then flat_fill_variant_set (root ++ [make_valid_prim_name (fst g)])
                           (snd g) (List.filter (fun it => tagged (fst it)) (snd g))
                           (on_stage
                              (fun s => alter AddVariantSet
                                          (root ++ [make_valid_prim_name (fst g)])
                                          (DefinePrim (root ++ [make_valid_prim_name (fst g)])
                                                      s)) st)
                    else fold_left (flat_add_reference root) (snd g) st)
            = default_prim st).
  { destruct (has_purposes (map fst (snd g))).
    - rewrite fold_left_default; [reflexivity|].
      intros s x. apply flat_process_bucket_default.
    - destruct (0 <? length _).
      + rewrite flat_fill_variant_set_default. reflexivity.
      + apply fold_left_default. intros s x. apply flat_add_reference_default. }
  destruct (snd g) as [|item [|second rest]]; try exact Hgrouped.
  destruct (negb (has_purposes (map fst [item])) && negb (0 <? length _));
    [apply flat_add_reference_default | exact Hgrouped].
Qed.

(** X22. The flat branch designates no default prim of its own: the default
    prim of the stage it assembles is the configured one, under the sanitized
    name without the white space around it, and there is none when no name is
    given or the name is blank, whatever documents the directory holds. *)
Theorem flat_branch_default_prim (all_files : list (string * SourceDoc)) :
  (forall d, strip d <> "" ->
     default_prim (assemble_flat all_files (Some d))
     = Some [make_valid_prim_name (strip d)])
  /\ (forall d, strip d = "" ->
       default_prim (assemble_flat all_files (Some d)) = None)
  /\ default_prim (assemble_flat all_files None) = None.
Proof.
  assert (H : forall default_prim_name,
            default_prim (assemble_flat all_files default_prim_name)
            = option_map (fun c => [c]) (configured_default_prim default_prim_name)).
  { intros default_prim_name. unfold assemble_flat.
    destruct (initial_assembly default_prim_name) as [root st0] eqn:E0.
    rewrite fold_left_default by (intros s x; apply flat_process_group_default).
    unfold initial_assembly in E0.
    destruct (configured_default_prim default_prim_name);
      injection E0 as <- <-; reflexivity. }
  split; [|split].
  - intros d Hd. rewrite H. unfold configured_default_prim.
    assert (H1 : nonempty (strip d) = true) by now apply nonempty_iff.
    assert (H2 : nonempty d = true).
    { destruct d; [|reflexivity]. now destruct Hd. }
    now rewrite H1, H2.
  - intros d Hd. rewrite H. unfold configured_default_prim. rewrite Hd.
    now rewrite andb_false_r.
  - rewrite H. reflexivity.
Qed.

End FlatDefault.

(** ** The remapped paths and the namespace edit *)

Lemma path_text_from (p : Path) (acc : string) :
  fold_left (fun acc n => acc +:+ "/" +:+ n) p acc = acc +:+ path_text p.
Proof.
  unfold path_text. revert acc.
  induction p as [|n p IH]; intros acc; cbn [fold_left].
  - now rewrite app_nil_r_str.
  - rewrite IH, (IH ("" +:+ "/" +:+ n)), append_nil_str.
    now rewrite !app_assoc_str.
Qed.

Lemma path_text_app (a b : Path) : path_text (a ++ b) = path_text a +:+ path_text b.
Proof.
  unfold path_text at 1. rewrite fold_left_app.
  fold (path_text a). apply path_text_from.
Qed.

Lemma path_text_cons (n : string) (p : Path) :
  path_text (n :: p) = "/" +:+ n +:+ path_text p.
Proof.
  change (n :: p) with ([n] ++ p). rewrite path_text_app.
  unfold path_text at 1. cbn [fold_left]. rewrite append_nil_str.
  now rewrite !app_assoc_str.
Qed.

Lemma path_text_rest (p : Path) :
  path_text p = "" \/ startswith (path_text p) "/" = true.
Proof.
  destruct p as [|n p]; [now left|right].
  rewrite path_text_cons. apply startswith_iff. eexists. reflexivity.
Qed.

(** Two names without a slash, each followed by nothing or by a slash, are
    the same name when the whole texts agree. *)
Lemma no_slash_split (a b ra rb : string) :
  no_slash a = true -> no_slash b = true ->
  (ra = "" \/ startswith ra "/" = true) ->
  (rb = "" \/ startswith rb "/" = true) ->
  a +:+ ra = b +:+ rb -> a = b.
Proof.
  unfold no_slash. revert b.
  induction a as [|c a IH]; intros b Ha Hb Hra Hrb E.
  - destruct b as [|d b]; [reflexivity|exfalso].
    rewrite append_nil_str, append_cons_str in E.
    cbn [all_chars] in Hb. apply andb_true_iff in Hb as [Hd _].
    destruct Hra as [-> | Hs]; [discriminate|].
    apply startswith_slash in Hs as [r ->]. injection E as E _. subst d.
    unfold slash in Hd. now rewrite Ascii.eqb_refl in Hd.
  - destruct b as [|d b].
    + exfalso. rewrite append_nil_str, append_cons_str in E.
      cbn [all_chars] in Ha. apply andb_true_iff in Ha as [Hc _].
      destruct Hrb as [-> | Hs]; [discriminate|].
      apply startswith_slash in Hs as [r ->]. injection E as E _. subst c.
      unfold slash in Hc. now rewrite Ascii.eqb_refl in Hc.
    + rewrite !append_cons_str in E. injection E as -> E.
      cbn [all_chars] in Ha, Hb.
      apply andb_true_iff in Ha as [_ Ha]. apply andb_true_iff in Hb as [_ Hb].
      f_equal. exact (IH b Ha Hb Hra Hrb E).
Qed.

Lemma is_mtl_scope_no_slash (n : string) : is_mtl_scope n = true -> no_slash n = true.
Proof.
  unfold is_mtl_scope, mtl_scope_names. cbn [existsb].
  rewrite !orb_true_iff, !String.eqb_eq.
  intros [->|[->|[->|H]]]; try reflexivity; discriminate.
Qed.

Lemma strip_plan_names (l : SdfLayer) (p : StripPlan) :
  strip_plan l = Some p ->
  List.Forall (fun n => is_mtl_scope n = false) (plan_main p)
  /\ List.Forall (fun n => is_mtl_scope n = true) (plan_mtl p)
  /\ In (plan_default p) (plan_main p).
Proof.
  unfold strip_plan.
  destruct (find_spec "root" (rootPrims l)) as [root_spec|]; [|discriminate].
  destruct (spec_at (rootPrims l) (deepest_wrapper root_spec ["root"]))
    as [w|]; [|discriminate].
  set (kids := nameChildren w).
  set (main_specs := List.filter (fun c => negb (is_mtl_scope (spec_name c))) kids).
  set (content := List.filter _ main_specs).
  destruct kids as [|k0 kids'] eqn:Ek; [discriminate|].
  destruct (map spec_name main_specs) as [|m0 ms] eqn:Em; [discriminate|].
  intros [= <-]. cbn [plan_main plan_mtl plan_default].
  split; [|split].
  - rewrite <- Em. apply List.Forall_forall. intros n Hn.
    apply in_map_iff in Hn as (c & <- & Hc).
    apply List.filter_In in Hc as [_ Hc]. now apply negb_true_iff in Hc.
  - apply List.Forall_forall. intros n Hn.
    apply in_map_iff in Hn as (c & <- & Hc).
    change (In c (List.filter (fun c => is_mtl_scope (spec_name c)) (k0 :: kids'))) in Hc.
    now apply List.filter_In in Hc as [_ Hc].
  - destruct (map spec_name content) as [|c0 cs] eqn:Ec; [now left|].
    rewrite <- Em.
    assert (Hin : In c0 (map spec_name content)) by (rewrite Ec; now left).
    apply in_map_iff in Hin as (c & <- & Hc).
    apply in_map_iff. exists c. split; [reflexivity|].
    now apply List.filter_In in Hc as [Hc _].
Qed.

Lemma strip_root_wrapper_plan (l : SdfLayer) (p : StripPlan) :
  strip_plan l = Some p ->
  exists rest,
    _strip_root_wrapper true l
    = (EApply true, with_prims (apply_edit (plan_edit p) (rootPrims l)) l)
      :: (ESetDefaultPrim (plan_default p),
          {| rootPrims := apply_edit (plan_edit p) (rootPrims l);
             defaultPrim := plan_default p |})
      :: rest.
Proof.
  unfold strip_plan, _strip_root_wrapper.
  destruct (find_spec "root" (rootPrims l)) as [root_spec|]; [|discriminate].
  destruct (spec_at (rootPrims l) (deepest_wrapper root_spec ["root"]))
    as [w|]; [|discriminate].
  cbv zeta.
  destruct (nameChildren w) as [|k0 kids'] eqn:Ek; [discriminate|].
  destruct (map spec_name
              (List.filter (fun c => negb (is_mtl_scope (spec_name c))) (k0 :: kids')))
    as [|m0 ms] eqn:Em; [discriminate|].
  intros [= <-]. unfold plan_edit.
  cbn [plan_path plan_main plan_mtl plan_default plan_nest].
  match goal with |- context [find_spec "root" ?x] => destruct (find_spec "root" x) end;
    cbn [app]; eexists; reflexivity.
Qed.

(** X23. The remapped text of a path is where the namespace edit of
    [_strip_root_wrapper] puts the prim: for an edit entry [(src, dst)] and
    any path [rest] below it, [_remap_path_str], called with the arguments of
    lines 318-321, sends the text of [src ++ rest] to the text of
    [dst ++ rest]; the edit is the one the function applies first.  The names
    of the main children hold no slash and are not empty. *)
Theorem remap_follows_namespace_edit (l : SdfLayer) (p : StripPlan)
    (src dst rest : Path) :
  strip_plan l = Some p ->
  List.Forall (fun n => plain_name n = true) (plan_main p) ->
  In (src, dst) (plan_edit p) ->
  head (_strip_root_wrapper true l)
  = Some (EApply true, with_prims (apply_edit (plan_edit p) (rootPrims l)) l)
  /\ _remap_path_str (path_text (src ++ rest)) (path_text (plan_path p))
                     (plan_nest_target p) (plan_mtl p) None
     = Some (path_text (dst ++ rest)).
Proof.
  intros Hp Hplain Hin. split.
  { destruct (strip_root_wrapper_plan l p Hp) as [tl ->]. reflexivity. }
  destruct (strip_plan_names l p Hp) as (Hmain & Hmtl & Hdef).
  assert (Hd : plan_default p <> "").
  { pose proof (proj1 (List.Forall_forall _ _) Hplain _ Hdef) as H.
    apply andb_true_iff in H as [H _]. now apply nonempty_iff. }
  (* the unnested result *)
  assert (Hflat : forall c,
            ~ in_nested_scope (path_text ((plan_path p ++ [c]) ++ rest))
                (path_text (plan_path p)) (plan_nest_target p) (plan_mtl p) ->
            _remap_path_str (path_text ((plan_path p ++ [c]) ++ rest))
              (path_text (plan_path p)) (plan_nest_target p) (plan_mtl p) None
            = Some (path_text ([c] ++ rest))).
  { intros c Hno.
    destruct (nested_stage (path_text ((plan_path p ++ [c]) ++ rest))
                (path_text (plan_path p)) (plan_nest_target p) (plan_mtl p))
      as [r|] eqn:E.
    { apply nested_stage_some in E as [E _]. now destruct Hno. }
    destruct (remap_unnested _ _ _ _ None E) as [Hu _].
    rewrite (Hu (path_text ([c] ++ rest))).
    - cbn [app]. rewrite path_text_cons. reflexivity.
    - split; [now rewrite <- app_assoc, path_text_app|].
      right. cbn [app]. rewrite path_text_cons.
      apply startswith_iff. eexists. reflexivity. }
  unfold plan_edit in Hin. apply in_app_iff in Hin as [Hin|Hin];
    apply in_map_iff in Hin as (c & [= <- <-] & Hc).
  - (* a main child *)
    apply Hflat. intros (nt & m & r & Hnt & _ & Hm & [E Hr]).
    pose proof (proj1 (List.Forall_forall _ _) Hmain _ Hc) as Hcm.
    pose proof (proj1 (List.Forall_forall _ _) Hmtl _ Hm) as Hmm.
    pose proof (proj1 (List.Forall_forall _ _) Hplain _ Hc) as Hcp.
    apply andb_true_iff in Hcp as [_ Hcs].
    rewrite <- app_assoc, path_text_app in E. cbn [app] in E.
    rewrite path_text_cons, !app_assoc_str in E.
    apply app_inv_head_str in E.
    apply app_inv_head_str in E.
    assert (c = m).
    { exact (no_slash_split c m _ _ Hcs (is_mtl_scope_no_slash m Hmm)
               (path_text_rest rest) Hr E). }
    subst m. congruence.
  - (* a material scope *)
    destruct (plan_nest p) eqn:En.
    + unfold plan_nest_target. rewrite En.
      rewrite (remap_nested _ _ _ _ None (plan_default p) c (path_text rest)
                 eq_refl Hd Hc).
      * cbn [app]. rewrite !path_text_cons. reflexivity.
      * split; [|apply path_text_rest].
        rewrite <- app_assoc, path_text_app. cbn [app].
        rewrite path_text_cons, !app_assoc_str. reflexivity.
    + apply Hflat. unfold plan_nest_target. rewrite En.
      intros (nt & m & r & Hnt & _). discriminate.
Qed.

Lemma remap_follows_namespace_edit_witness :
  head (_strip_root_wrapper true hero_layer)
  = Some (EApply true,
          with_prims
            (apply_edit [(["root"; "Hero"], ["Hero"]); (["root"; "mtl"], ["Hero"; "mtl"])]
                        (rootPrims hero_layer)) hero_layer)
  /\ _remap_path_str "/root/mtl/Gold" "/root" (Some "Hero") ["mtl"] None
     = Some "/Hero/mtl/Gold".
Proof.
  apply (remap_follows_namespace_edit hero_layer
           {| plan_path := ["root"]; plan_main := ["Hero"]; plan_mtl := ["mtl"];
              plan_default := "Hero"; plan_nest := true |}
           ["root"; "mtl"] ["Hero"; "mtl"] ["Gold"]).
  - reflexivity.
  - apply List.Forall_cons; [reflexivity|apply List.Forall_nil].
  - right. left. reflexivity.
Defined.

(** ** Where [parse_name_suffixes] cuts a name *)

Section CutFacts.
Context {A : Type} (here : string -> option A).
Hypothesis here_underscore :
  forall s a, here s = Some a -> exists r, s = String underscore r.

(** A match begins at an underscore: the text is what is kept, then an
    underscore and more. *)
Lemma re_search_cut (s : string) (i : nat) (a : A) :
  re_search here s = Some (i, a) ->
  exists r, s = take_str i s +:+ String underscore r.
Proof.
  revert i. induction s as [|c s IH]; intros i; rewrite re_search_unfold.
  - destruct (here "") as [a'|] eqn:E; [|discriminate].
    apply here_underscore in E as [r E]. discriminate.
  - destruct (here (String c s)) as [a'|] eqn:E.
    + intros [= <- <-]. apply here_underscore in E as [r ->].
      exists r. reflexivity.
    + destruct (re_search here s) as [[j a']|] eqn:Es; [|discriminate].
      intros [= <- <-]. destruct (IH j eq_refl) as [r Hr].
      exists r. cbn [take_str]. rewrite append_cons_str. now f_equal.
Qed.

End CutFacts.

Section ParserCuts.
Context {table : CodeTable}.

Lemma here_first_underscore {A : Type} (here : string -> option A) :
  here "" = None ->
  (forall c s, c <> underscore -> here (String c s) = None) ->
  forall s a, here s = Some a -> exists r, s = String underscore r.
Proof.
  intros H0 H1 [|c s] a E; [congruence|].
  destruct (Ascii.ascii_dec c underscore) as [->|Hc]; [eauto|].
  rewrite (H1 c s Hc) in E. discriminate.
Qed.

Lemma payload_here_underscore (s : string) (a : unit) :
  payload_here s = Some a -> exists r, s = String underscore r.
Proof.
  apply here_first_underscore; [reflexivity|apply payload_here_first].
Qed.

Lemma purpose_here_underscore (s : string) (a : Purpose) :
  purpose_here s = Some a -> exists r, s = String underscore r.
Proof.
  apply here_first_underscore; [reflexivity|apply purpose_here_first].
Qed.

Lemma variant_here_underscore (s : string) (a : string) :
  variant_here s = Some a -> exists r, s = String underscore r.
Proof.
  apply here_first_underscore; [reflexivity|apply variant_here_first].
Qed.

(** Two cuts one after the other are one cut. *)
Lemma cut_twice (name b1 b2 r1 r2 : string) :
  name = b1 +:+ r1 -> b1 = b2 +:+ r2 ->
  (r1 = "" \/ startswith r1 "_" = true) ->
  (r2 = "" \/ startswith r2 "_" = true) ->
  name = b2 +:+ (r2 +:+ r1)
  /\ (r2 +:+ r1 = "" \/ startswith (r2 +:+ r1) "_" = true)
  /\ (r2 +:+ r1 = "" <-> r2 = "" /\ r1 = "").
Proof.
  intros -> -> H1 H2. rewrite app_assoc_str. split; [reflexivity|].
  destruct H2 as [->|H2].
  - rewrite append_nil_str. split; [exact H1|]. tauto.
  - apply startswith_iff in H2 as [r ->]. split.
    + right. apply startswith_iff. exists (r +:+ r1).
      now rewrite app_assoc_str.
    + rewrite !append_cons_str. split; [discriminate|]. intros [H _]. discriminate.
Qed.

(** X24. [parse_name_suffixes] only cuts a tail off the name, and cuts at an
    underscore: the name is the base name followed by a rest that is empty
    exactly when no suffix was found and begins with an underscore otherwise.
    The variant is never the empty text, and a name without an underscore
    comes back whole. *)
Theorem parse_name_suffixes_cuts_at_underscore (name : string) :
  match parse_name_suffixes name with
  | (base_name, purpose, variant, is_payload) =>
      variant <> Some ""
      /\ (exists rest,
            name = base_name +:+ rest
            /\ (rest = "" <-> purpose = None /\ variant = None /\ is_payload = false)
            /\ (rest = "" \/ startswith rest "_" = true))
      /\ (all_chars (fun c => negb (Ascii.eqb c underscore)) name = true ->
          base_name = name /\ purpose = None /\ variant = None /\ is_payload = false)
  end.
Proof.
  assert (Hcut : forall {A} (here : string -> option A) (s : string),
            (forall s a, here s = Some a -> exists r, s = String underscore r) ->
            exists b r (found : option A),
              (match re_search here s with
               | Some (i, a) => (take_str i s, Some a)
               | None => (s, None)
               end) = (b, found)
              /\ s = b +:+ r
              /\ (r = "" \/ startswith r "_" = true)
              /\ (r = "" <-> found = None)).
  { intros A here s Hh. destruct (re_search here s) as [[i a]|] eqn:E.
    - destruct (re_search_cut here Hh s i a E) as [r Hr].
      exists (take_str i s), (String underscore r), (Some a).
      repeat split; try assumption; try discriminate.
      right. reflexivity.
    - exists s, "", None. rewrite app_nil_r_str. repeat split; auto. }
  unfold parse_name_suffixes.
  destruct (Hcut _ payload_here name payload_here_underscore)
    as (b1 & r1 & f1 & E1 & N1 & S1 & Z1).
  destruct (Hcut _ purpose_here b1 purpose_here_underscore)
    as (b2 & r2 & f2 & E2 & N2 & S2 & Z2).
  destruct (Hcut _ variant_here b2 variant_here_underscore)
    as (b3 & r3 & f3 & E3 & N3 & S3 & Z3).
  destruct (re_search payload_here name) as [[i1 a1]|];
    injection E1 as <- <-;
  (destruct (re_search purpose_here _) as [[i2 a2]|];
    injection E2 as <- <-);
  (destruct (re_search variant_here _) as [[i3 a3]|];
    injection E3 as <- <-).
  all: destruct (cut_twice _ _ _ _ _ N1 N2 S1 S2) as (M1 & T1 & Y1).
  all: destruct (cut_twice _ _ _ _ _ M1 N3 T1 S3) as (M2 & T2 & Y2).
  all: (split;
        [first [discriminate
               |destruct (nonempty a3) eqn:En;
                [intros [= ->]; discriminate|discriminate]]|]).
  all: (split;
        [exists (r3 +:+ r2 +:+ r1); split; [exact M2|]; split; [|exact T2];
         rewrite Y2, Y1, Z1, Z2, Z3; split;
         [intros (H3 & H2 & H1); try discriminate; auto
         |intros (H2 & H3 & H1); try discriminate; auto]|]).
  all: intros Hno; rewrite M2 in Hno; rewrite all_chars_app in Hno;
       apply andb_true_iff in Hno as [_ Hno];
       destruct T2 as [T2|T2];
       [|apply startswith_iff in T2 as [r T2]; rewrite T2 in Hno; discriminate].
  all: apply Y2 in T2 as [Q3 Q]; apply Y1 in Q as [Q2 Q1];
       apply Z1 in Q1; apply Z2 in Q2; apply Z3 in Q3; try discriminate.
  apply Z1 in Q1; apply Z2 in Q2; apply Z3 in Q3. subst r1 r2 r3.
  rewrite M2 at 2. rewrite !app_nil_r_str. auto.
Qed.

End ParserCuts.

(** ** The settings of the modifier, field by field *)

Ltac by_cases :=
  repeat match goal with
         | |- context [match ?x with _ => _ end] => destruct x
         end;
  cbn; repeat split; reflexivity.

Section ModifierFacts.
Context {spaces : SpaceTable}.

Lemma apply_geom_type_fields (prim : ExportPrim) (m : Modifier) :
  customData (_apply_geom_type prim m)
    = match USD_GeomType m with
      | Some v => match geom_type_map v with
                  | Some t => dict_set "geomType" (CStr t) (customData prim)
                  | None => customData prim
                  end
      | None => customData prim
      end
  /\ authored_instanceable (_apply_geom_type prim m) = authored_instanceable prim
  /\ model_kind (_apply_geom_type prim m) = model_kind prim
  /\ purpose_value (_apply_geom_type prim m) = purpose_value prim
  /\ visibility_token (_apply_geom_type prim m) = visibility_token prim
  /\ is_active (_apply_geom_type prim m) = is_active prim
  /\ asset_version (_apply_geom_type prim m) = asset_version prim
  /\ geom_model_api (_apply_geom_type prim m) = geom_model_api prim
  /\ draw_mode_token (_apply_geom_type prim m) = draw_mode_token prim.
Proof. unfold _apply_geom_type, SetCustomDataByKey. by_cases. Qed.

Lemma apply_kind_fields (prim : ExportPrim) (m : Modifier) :
  customData (_apply_kind prim m) = customData prim
  /\ authored_instanceable (_apply_kind prim m) = authored_instanceable prim
  /\ model_kind (_apply_kind prim m)
    = match USD_Kind m with
      | Some v => match kind_map v with Some k => k | None => model_kind prim end
      | None => model_kind prim
      end
  /\ purpose_value (_apply_kind prim m) = purpose_value prim
  /\ visibility_token (_apply_kind prim m) = visibility_token prim
  /\ is_active (_apply_kind prim m) = is_active prim
  /\ asset_version (_apply_kind prim m) = asset_version prim
  /\ geom_model_api (_apply_kind prim m) = geom_model_api prim
  /\ draw_mode_token (_apply_kind prim m) = draw_mode_token prim.
Proof. unfold _apply_kind. by_cases. Qed.

Lemma apply_purpose_fields (prim : ExportPrim) (m : Modifier) :
  customData (_apply_purpose prim m) = customData prim
  /\ authored_instanceable (_apply_purpose prim m) = authored_instanceable prim
  /\ model_kind (_apply_purpose prim m) = model_kind prim
  /\ purpose_value (_apply_purpose prim m)
    = match USD_Purpose m with
      | Some v => match purpose_map v with Some p => Some p | None => purpose_value prim end
      | None => purpose_value prim
      end
  /\ visibility_token (_apply_purpose prim m) = visibility_token prim
  /\ is_active (_apply_purpose prim m) = is_active prim
  /\ asset_version (_apply_purpose prim m) = asset_version prim
  /\ geom_model_api (_apply_purpose prim m) = geom_model_api prim
  /\ draw_mode_token (_apply_purpose prim m) = draw_mode_token prim.
Proof. unfold _apply_purpose. by_cases. Qed.

Lemma apply_instanceable_fields (prim : ExportPrim) (m : Modifier) :
  customData (_apply_instanceable prim m) = customData prim
  /\ authored_instanceable (_apply_instanceable prim m)
    = match USD_Instanceable m with
      | Some true => Some true
      | _ => authored_instanceable prim
      end
  /\ model_kind (_apply_instanceable prim m) = model_kind prim
  /\ purpose_value (_apply_instanceable prim m) = purpose_value prim
  /\ visibility_token (_apply_instanceable prim m) = visibility_token prim
  /\ is_active (_apply_instanceable prim m) = is_active prim
  /\ asset_version (_apply_instanceable prim m) = asset_version prim
  /\ geom_model_api (_apply_instanceable prim m) = geom_model_api prim
  /\ draw_mode_token (_apply_instanceable prim m) = draw_mode_token prim.
Proof. unfold _apply_instanceable. by_cases. Qed.

Lemma apply_hidden_fields (prim : ExportPrim) (m : Modifier) :
  customData (_apply_hidden prim m) = customData prim
  /\ authored_instanceable (_apply_hidden prim m) = authored_instanceable prim
  /\ model_kind (_apply_hidden prim m) = model_kind prim
  /\ purpose_value (_apply_hidden prim m) = purpose_value prim
  /\ visibility_token (_apply_hidden prim m)
    = match USD_Hidden m with
      | Some true => Some "invisible"
      | _ => visibility_token prim
      end
  /\ is_active (_apply_hidden prim m) = is_active prim
  /\ asset_version (_apply_hidden prim m) = asset_version prim
  /\ geom_model_api (_apply_hidden prim m) = geom_model_api prim
  /\ draw_mode_token (_apply_hidden prim m) = draw_mode_token prim.
Proof. unfold _apply_hidden. by_cases. Qed.

Lemma apply_active_fields (prim : ExportPrim) (m : Modifier) :
  customData (_apply_active prim m) = customData prim
  /\ authored_instanceable (_apply_active prim m) = authored_instanceable prim
  /\ model_kind (_apply_active prim m) = model_kind prim
  /\ purpose_value (_apply_active prim m) = purpose_value prim
  /\ visibility_token (_apply_active prim m) = visibility_token prim
  /\ is_active (_apply_active prim m)
    = match USD_Active m with
      | Some false => false
      | _ => is_active prim
      end
  /\ asset_version (_apply_active prim m) = asset_version prim
  /\ geom_model_api (_apply_active prim m) = geom_model_api prim
  /\ draw_mode_token (_apply_active prim m) = draw_mode_token prim.
Proof. unfold _apply_active. by_cases. Qed.

Lemma apply_asset_version_fields (prim : ExportPrim) (m : Modifier) :
  customData (_apply_asset_version prim m) = customData prim
  /\ authored_instanceable (_apply_asset_version prim m) = authored_instanceable prim
  /\ model_kind (_apply_asset_version prim m) = model_kind prim
  /\ purpose_value (_apply_asset_version prim m) = purpose_value prim
  /\ visibility_token (_apply_asset_version prim m) = visibility_token prim
  /\ is_active (_apply_asset_version prim m) = is_active prim
  /\ asset_version (_apply_asset_version prim m)
    = match USD_AssetVersion m with
      | Some version => if nonempty version && nonempty (strip version)
                        then Some (strip version) else asset_version prim
      | None => asset_version prim
      end
  /\ geom_model_api (_apply_asset_version prim m) = geom_model_api prim
  /\ draw_mode_token (_apply_asset_version prim m) = draw_mode_token prim.
Proof. unfold _apply_asset_version. by_cases. Qed.

Lemma apply_draw_mode_fields (prim : ExportPrim) (m : Modifier) :
  customData (_apply_draw_mode prim m) = customData prim
  /\ authored_instanceable (_apply_draw_mode prim m) = authored_instanceable prim
  /\ model_kind (_apply_draw_mode prim m) = model_kind prim
  /\ purpose_value (_apply_draw_mode prim m) = purpose_value prim
  /\ visibility_token (_apply_draw_mode prim m) = visibility_token prim
  /\ is_active (_apply_draw_mode prim m) = is_active prim
  /\ asset_version (_apply_draw_mode prim m) = asset_version prim
  /\ geom_model_api (_apply_draw_mode prim m)
    = match USD_DrawMode m with
      | Some v => if (1 <? v)%Z then true else geom_model_api prim
      | None => geom_model_api prim
      end
  /\ draw_mode_token (_apply_draw_mode prim m)
    = match USD_DrawMode m with
      | Some v => if (1 <? v)%Z
                  then match draw_mode_map v with
                       | Some d => Some d
                       | None => draw_mode_token prim
                       end
                  else draw_mode_token prim
      | None => draw_mode_token prim
      end.
Proof. unfold _apply_draw_mode. by_cases. Qed.

Lemma apply_payload_flag_fields (prim : ExportPrim) (m : Modifier) :
  customData (_apply_payload_flag prim m)
    = match USD_Payload m with
      | Some true => dict_set "usePayload" (CBool true) (customData prim)
      | _ => customData prim
      end
  /\ authored_instanceable (_apply_payload_flag prim m) = authored_instanceable prim
  /\ model_kind (_apply_payload_flag prim m) = model_kind prim
  /\ purpose_value (_apply_payload_flag prim m) = purpose_value prim
  /\ visibility_token (_apply_payload_flag prim m) = visibility_token prim
  /\ is_active (_apply_payload_flag prim m) = is_active prim
  /\ asset_version (_apply_payload_flag prim m) = asset_version prim
  /\ geom_model_api (_apply_payload_flag prim m) = geom_model_api prim
  /\ draw_mode_token (_apply_payload_flag prim m) = draw_mode_token prim.
Proof. unfold _apply_payload_flag, SetCustomDataByKey. by_cases. Qed.

Lemma apply_modifier_fields (prim : ExportPrim) (m : Modifier) :
  customData (apply_modifier prim m)
  = match USD_Payload m with
    | Some true => dict_set "usePayload" (CBool true)
                     (customData (_apply_geom_type prim m))
    | _ => customData (_apply_geom_type prim m)
    end
  /\ authored_instanceable (apply_modifier prim m)
     = match USD_Instanceable m with
       | Some true => Some true
       | _ => authored_instanceable prim
       end
  /\ model_kind (apply_modifier prim m)
     = match USD_Kind m with
       | Some v => match kind_map v with Some k => k | None => model_kind prim end
       | None => model_kind prim
       end
  /\ purpose_value (apply_modifier prim m)
     = match USD_Purpose m with
       | Some v => match purpose_map v with Some p => Some p | None => purpose_value prim end
       | None => purpose_value prim
       end
  /\ visibility_token (apply_modifier prim m)
     = match USD_Hidden m with
       | Some true => Some "invisible"
       | _ => visibility_token prim
       end
  /\ is_active (apply_modifier prim m)
     = match USD_Active m with
       | Some false => false
       | _ => is_active prim
       end
  /\ asset_version (apply_modifier prim m)
     = match USD_AssetVersion m with
       | Some version => if nonempty version && nonempty (strip version)
                         then Some (strip version) else asset_version prim
       | None => asset_version prim
       end
  /\ geom_model_api (apply_modifier prim m)
     = match USD_DrawMode m with
       | Some v => if (1 <? v)%Z then true else geom_model_api prim
       | None => geom_model_api prim
       end
  /\ draw_mode_token (apply_modifier prim m)
     = match USD_DrawMode m with
       | Some v => if (1 <? v)%Z
                   then match draw_mode_map v with
                        | Some d => Some d
                        | None => draw_mode_token prim
                        end
                   else draw_mode_token prim
       | None => draw_mode_token prim
       end.
Proof.
  unfold apply_modifier. cbv zeta.
  destruct (apply_geom_type_fields prim m) as (_ & ? & ? & ? & ? & ? & ? & ? & ?).
  set (p1 := _apply_geom_type prim m) in *.
  set (p2 := _apply_kind p1 m). set (p3 := _apply_purpose p2 m).
  set (p4 := _apply_instanceable p3 m). set (p5 := _apply_hidden p4 m).
  set (p6 := _apply_active p5 m). set (p7 := _apply_asset_version p6 m).
  set (p8 := _apply_draw_mode p7 m).
  destruct (apply_kind_fields p1 m) as (? & ? & ? & ? & ? & ? & ? & ? & ?).
  destruct (apply_purpose_fields p2 m) as (? & ? & ? & ? & ? & ? & ? & ? & ?).
  destruct (apply_instanceable_fields p3 m) as (? & ? & ? & ? & ? & ? & ? & ? & ?).
  destruct (apply_hidden_fields p4 m) as (? & ? & ? & ? & ? & ? & ? & ? & ?).
  destruct (apply_active_fields p5 m) as (? & ? & ? & ? & ? & ? & ? & ? & ?).
  destruct (apply_asset_version_fields p6 m) as (? & ? & ? & ? & ? & ? & ? & ? & ?).
  destruct (apply_draw_mode_fields p7 m) as (? & ? & ? & ? & ? & ? & ? & ? & ?).
  destruct (apply_payload_flag_fields p8 m) as (? & ? & ? & ? & ? & ? & ? & ? & ?).
  subst p8 p7 p6 p5 p4 p3 p2 p1.
  repeat split;
    repeat match goal with
           | H : ?l = _ |- context [?l] => rewrite H
           end; reflexivity.
Qed.

Lemma ExportPrim_ext (a b : ExportPrim) :
  customData a = customData b ->
  authored_instanceable a = authored_instanceable b ->
  model_kind a = model_kind b ->
  purpose_value a = purpose_value b ->
  visibility_token a = visibility_token b ->
  is_active a = is_active b ->
  asset_version a = asset_version b ->
  geom_model_api a = geom_model_api b ->
  draw_mode_token a = draw_mode_token b ->
  a = b.
Proof. destruct a, b; cbn; intros; subst; reflexivity. Qed.

Lemma dict_set_same {V : Type} (k : string) (v : V) (d : list (string * V)) :
  dict_get k d = Some v -> dict_set k v d = d.
Proof.
  induction d as [|[k' v'] rest IH]; cbn [dict_get dict_set]; [discriminate|].
  destruct (String.eqb k' k); [now intros [= ->]|].
  intros H. now rewrite (IH H).
Qed.

(** The custom data after the settings are applied hold what was set. *)
Lemma custom_data_settled (prim : ExportPrim) (m : Modifier) :
  let cd := customData (apply_modifier prim m) in
  match USD_Payload m with
  | Some true => dict_set "usePayload" (CBool true)
                   (match USD_GeomType m with
                    | Some v => match geom_type_map v with
                                | Some t => dict_set "geomType" (CStr t) cd
                                | None => cd
                                end
                    | None => cd
                    end)
  | _ => match USD_GeomType m with
         | Some v => match geom_type_map v with
                     | Some t => dict_set "geomType" (CStr t) cd
                     | None => cd
                     end
         | None => cd
         end
  end = cd.
Proof.
  cbv zeta. destruct (apply_modifier_fields prim m) as (-> & _).
  destruct (apply_geom_type_fields prim m) as (-> & _).
  destruct (USD_Payload m) as [[|]|];
    (destruct (USD_GeomType m) as [v|]; [destruct (geom_type_map v) as [t|]|]);
    repeat (rewrite dict_set_same; [|rewrite ?dict_get_set; reflexivity]);
    reflexivity.
Qed.

Lemma apply_modifier_idempotent (prim : ExportPrim) (m : Modifier) :
  apply_modifier (apply_modifier prim m) m = apply_modifier prim m.
Proof.
  pose proof (custom_data_settled prim m) as Hcd. cbv zeta in Hcd.
  destruct (apply_modifier_fields (apply_modifier prim m) m)
    as (H1 & H2 & H3 & H4 & H5 & H6 & H7 & H8 & H9).
  destruct (apply_geom_type_fields (apply_modifier prim m) m) as (G1 & _).
  destruct (apply_modifier_fields prim m)
    as (_ & K2 & K3 & K4 & K5 & K6 & K7 & K8 & K9).
  apply ExportPrim_ext.
  - rewrite H1, G1. exact Hcd.
  - rewrite H2, K2. now destruct (USD_Instanceable m) as [[|]|].
  - rewrite H3, K3. destruct (USD_Kind m) as [v|]; [|reflexivity].
    now destruct (kind_map v).
  - rewrite H4, K4. destruct (USD_Purpose m) as [v|]; [|reflexivity].
    now destruct (purpose_map v).
  - rewrite H5, K5. now destruct (USD_Hidden m) as [[|]|].
  - rewrite H6, K6. now destruct (USD_Active m) as [[|]|].
  - rewrite H7, K7. destruct (USD_AssetVersion m) as [v|]; [|reflexivity].
    now destruct (nonempty v && nonempty (strip v)).
  - rewrite H8, K8. destruct (USD_DrawMode m) as [v|]; [|reflexivity].
    now destruct (1 <? v)%Z.
  - rewrite H9, K9. destruct (USD_DrawMode m) as [v|]; [|reflexivity].
    destruct (1 <? v)%Z; [|reflexivity]. now destruct (draw_mode_map v).
Qed.

Lemma kind_map_nonempty (v : Z) (k : string) : kind_map v = Some k -> nonempty k = true.
Proof.
  unfold kind_map.
  repeat match goal with
         | |- context [if ?c then _ else _] => destruct c
         end; intros [= <-]; reflexivity.
Qed.

(** X25. What the chaser writes for a node is what the assembler reads for
    its file. When the default prim of the file is the exported prim with the
    settings of the modifier applied, [read_prim_custom_data] gives the
    payload flag, instanceable [True] and the kind of the modifier where the
    modifier sets them ([USD_Payload], [USD_Instanceable], a [USD_Kind]
    between 2 and 6), and what it reads from the prim as exported where the
    modifier does not; no other setting of the modifier changes what is
    read. *)
Theorem modifier_settings_reach_the_assembler (prim : ExportPrim) (m : Modifier)
    (src_stage : SourceFile) (expected_name : option string) (rel_path : string) :
  let exported :=
    source_doc rel_path
      (read_prim_custom_data (Some (with_default_prim prim src_stage)) expected_name) in
  let chased :=
    source_doc rel_path
      (read_prim_custom_data
         (Some (with_default_prim (apply_modifier prim m) src_stage)) expected_name) in
  ref_path chased = rel_path
  /\ use_payload chased
     = match USD_Payload m with
       | Some true => true
       | _ => use_payload exported
       end
  /\ src_instanceable chased
     = match USD_Instanceable m with
       | Some true => Some true
       | _ => src_instanceable exported
       end
  /\ src_kind chased
     = match USD_Kind m with
       | Some v => match kind_map v with
                   | Some k => Some k
                   | None => src_kind exported
                   end
       | None => src_kind exported
       end.
Proof.
  cbv zeta. unfold source_doc, read_prim_custom_data, with_default_prim.
  cbn [GetDefaultPrim props_customData props_instanceable props_kind
       ref_path use_payload src_instanceable src_kind].
  destruct (apply_modifier_fields prim m) as (-> & -> & -> & _).
  destruct (apply_geom_type_fields prim m) as (-> & _).
  split; [reflexivity|]. split; [|split].
  - assert (Hg : forall d,
              dict_get "usePayload"
                (match USD_GeomType m with
                 | Some v => match geom_type_map v with
                             | Some t => dict_set "geomType" (CStr t) d
                             | None => d
                             end
                 | None => d
                 end) = dict_get "usePayload" d).
    { intros d. destruct (USD_GeomType m) as [v|]; [|reflexivity].
      destruct (geom_type_map v); [|reflexivity].
      now rewrite dict_get_set. }
    destruct (USD_Payload m) as [[|]|]; rewrite ?dict_get_set, ?Hg; reflexivity.
  - reflexivity.
  - destruct (USD_Kind m) as [v|]; [|reflexivity].
    destruct (kind_map v) as [k|] eqn:E; [|reflexivity].
    now rewrite (kind_map_nonempty v k E).
Qed.

(** ** The loop of step 1 *)

Lemma modifier_at_cons (k : string) (node : option MaxNode)
    (rest : list (string * option MaxNode)) (path : string) :
  modifier_at ((k, node) :: rest) path
  = if String.eqb k path
    then match node with
         | Some node => _get_usd_properties_modifier node
         | None => None
         end
    else modifier_at rest path.
Proof.
  unfold modifier_at. cbn [dict_get]. now destruct (String.eqb k path).
Qed.

Lemma modifier_at_absent (handles : list (string * option MaxNode)) (path : string) :
  ~ In path (dict_keys handles) -> modifier_at handles path = None.
Proof.
  intros H. unfold modifier_at.
  destruct (dict_get path handles) eqn:E; [|reflexivity].
  exfalso. apply H. apply dict_get_keys. congruence.
Qed.

Lemma modifier_at_key (handles : list (string * option MaxNode)) (path : string)
    (m : Modifier) :
  modifier_at handles path = Some m -> In path (dict_keys handles).
Proof.
  intros H. destruct (in_dec string_dec path (dict_keys handles)) as [Hin|Hout];
    [exact Hin|].
  rewrite (modifier_at_absent handles path Hout) in H. discriminate.
Qed.

Lemma apply_properties_shift (handles : list (string * option MaxNode))
    (stage : gmap string ExportPrim) (n : nat) :
  fold_left
    (fun acc item =>
       let '(stage, processed) := acc in
       let '(prim_path, node) := item in
       match node with
       | None => acc
       | Some node =>
           match stage !! prim_path with
           | None => acc
           | Some prim =>
               if IsValid stage prim_path then
                 match _get_usd_properties_modifier node with
                 | None => acc
                 | Some usd_props_mod =>
                     (<[prim_path := apply_modifier prim usd_props_mod]> stage,
                      S processed)
                 end
               else acc
           end
       end)
    handles (stage, n)
  = (fst (apply_properties handles stage), n + snd (apply_properties handles stage)).
Proof.
  unfold apply_properties. revert stage n.
  induction handles as [|[k node] rest IH]; intros stage n.
  - cbn. f_equal. lia.
  - cbn [fold_left].
    destruct node as [node|]; [|apply IH].
    destruct (stage !! k) as [prim|]; [|apply IH].
    destruct (IsValid stage k); [|apply IH].
    destruct (_get_usd_properties_modifier node) as [m|]; [|apply IH].
    rewrite (IH _ (S n)), (IH _ 1). cbn [fst snd]. f_equal. lia.
Qed.

Lemma apply_properties_cons (item : string * option MaxNode)
    (rest : list (string * option MaxNode)) (stage : gmap string ExportPrim) :
  apply_properties (item :: rest) stage
  = (fst (apply_properties rest (fst (apply_properties [item] stage))),
     snd (apply_properties [item] stage)
     + snd (apply_properties rest (fst (apply_properties [item] stage)))).
Proof.
  unfold apply_properties at 1. cbn [fold_left].
  change (fold_left _ [item] (stage, 0)) with (apply_properties [item] stage).
  destruct item as [k node].
  assert (E : apply_properties [(k, node)] stage
              = match node with
                | None => (stage, 0)
                | Some node =>
                    match stage !! k with
                    | None => (stage, 0)
                    | Some prim =>
                        if IsValid stage k then
                          match _get_usd_properties_modifier node with
                          | None => (stage, 0)
                          | Some usd_props_mod =>
                              (<[k := apply_modifier prim usd_props_mod]> stage, 1)
                          end
                        else (stage, 0)
                    end
                end) by reflexivity.
  rewrite E.
  destruct node as [node|]; [|apply apply_properties_shift].
  destruct (stage !! k) as [prim|]; [|apply apply_properties_shift].
  destruct (IsValid stage k); [|apply apply_properties_shift].
  destruct (_get_usd_properties_modifier node) as [m|]; apply apply_properties_shift.
Qed.

Lemma IsValid_has_prim (stage : gmap string ExportPrim) (path : string) :
  IsValid stage path = true -> is_Some (stage !! path).
Proof.
  unfold IsValid. destruct (stage !! path); [eauto|discriminate].
Qed.

(** One item: passed over, or its prim changed by its modifier. *)
Lemma apply_properties_one (k : string) (node : option MaxNode)
    (stage : gmap string ExportPrim) :
  (apply_properties [(k, node)] stage = (stage, 0)
   /\ counted stage (k, node) = false)
  \/ (exists nd prim m,
        node = Some nd /\ _get_usd_properties_modifier nd = Some m
        /\ stage !! k = Some prim /\ IsValid stage k = true
        /\ counted stage (k, node) = true
        /\ apply_properties [(k, node)] stage
           = (<[k := apply_modifier prim m]> stage, 1)).
Proof.
  unfold apply_properties, counted. cbn [fold_left fst snd].
  destruct node as [nd|]; [|left; split; reflexivity].
  destruct (stage !! k) as [prim|] eqn:Es.
  - destruct (IsValid stage k) eqn:Ev; [|left; split; reflexivity].
    destruct (_get_usd_properties_modifier nd) as [m|] eqn:Em;
      [|left; split; reflexivity].
    right. exists nd, prim, m. repeat split; try assumption; reflexivity.
  - left. split; [reflexivity|].
    destruct (IsValid stage k) eqn:Ev; [|reflexivity].
    apply IsValid_has_prim in Ev. rewrite Es in Ev. destruct Ev. discriminate.
Qed.

Lemma apply_modifier_active (prim : ExportPrim) (m : Modifier) :
  is_active (apply_modifier prim m) = true -> is_active prim = true.
Proof.
  destruct (apply_modifier_fields prim m) as (_ & _ & _ & _ & _ & E & _).
  rewrite E. destruct (USD_Active m) as [[|]|]; auto; discriminate.
Qed.

Lemma no_more_active_refl (s : gmap string ExportPrim) : no_more_active s s.
Proof. intros path. destruct (s !! path); auto. Qed.

Lemma no_more_active_trans (s1 s2 s3 : gmap string ExportPrim) :
  no_more_active s1 s2 -> no_more_active s2 s3 -> no_more_active s1 s3.
Proof.
  intros H12 H23 path. specialize (H12 path). specialize (H23 path).
  destruct (s1 !! path), (s2 !! path), (s3 !! path); auto; contradiction.
Qed.

Lemma no_more_active_insert (s : gmap string ExportPrim) (k : string)
    (prim : ExportPrim) (m : Modifier) :
  s !! k = Some prim -> no_more_active s (<[k := apply_modifier prim m]> s).
Proof.
  intros Es path. destruct (String.eqb k path) eqn:Ek.
  - apply String.eqb_eq in Ek. subst path. rewrite lookup_insert_eq, Es.
    apply apply_modifier_active.
  - apply String.eqb_neq in Ek. rewrite lookup_insert_ne by exact Ek.
    destruct (s !! path); auto.
Qed.

Lemma IsValid_mono (s r : gmap string ExportPrim) (path : string) :
  no_more_active s r -> IsValid r path = true -> IsValid s path = true.
Proof.
  intros Hm. unfold IsValid. pose proof (Hm path) as Hp.
  destruct (s !! path), (r !! path); try contradiction; try discriminate.
  intros H. apply forallb_forall. intros a Ha.
  pose proof (proj1 (forallb_forall _ _) H a Ha) as Hr. cbv beta in Hr.
  specialize (Hm a). destruct (s !! a), (r !! a); auto; contradiction.
Qed.

Lemma counted_mono (s r : gmap string ExportPrim) (item : string * option MaxNode) :
  no_more_active s r -> counted r item = true -> counted s item = true.
Proof.
  intros Hm. unfold counted. destruct (snd item) as [nd|]; [|auto].
  intros H. apply andb_true_iff in H as [Hv Hmod].
  apply andb_true_iff. split; [|exact Hmod].
  exact (IsValid_mono s r _ Hm Hv).
Qed.

Lemma filter_length_mono {A : Type} (f g : A -> bool) (l : list A) :
  (forall x, f x = true -> g x = true) ->
  length (List.filter f l) <= length (List.filter g l).
Proof.
  intros H. induction l as [|x l IH]; [reflexivity|].
  cbn [List.filter]. destruct (f x) eqn:Ef.
  - rewrite (H x Ef). cbn [length]. lia.
  - destruct (g x); cbn [length]; lia.
Qed.

Lemma apply_properties_changes (handles : list (string * option MaxNode)) :
  forall stage : gmap string ExportPrim,
  List.NoDup (dict_keys handles) ->
  (forall path,
     fst (apply_properties handles stage) !! path = stage !! path
     \/ exists prim m,
          stage !! path = Some prim /\ modifier_at handles path = Some m
          /\ IsValid stage path = true
          /\ fst (apply_properties handles stage) !! path
             = Some (apply_modifier prim m))
  /\ no_more_active stage (fst (apply_properties handles stage))
  /\ snd (apply_properties handles stage)
     <= length (List.filter (counted stage) handles).
Proof.
  induction handles as [|[k node] rest IH]; intros stage Hnd.
  - cbn. split; [auto|]. split; [apply no_more_active_refl|lia].
  - cbn [dict_keys map fst] in Hnd.
    pose proof (List.NoDup_cons_iff k (map fst rest)) as Hc.
    apply Hc in Hnd as [Hk Hnd]. clear Hc.
    rewrite apply_properties_cons. cbn [fst snd List.filter].
    destruct (apply_properties_one k node stage)
      as [[E Hc]|(nd & prim & m & -> & Em & Es & Ev & Hc & E)];
      rewrite E, Hc; cbn [fst snd].
    + destruct (IH stage Hnd) as (Hp & Ha & Hn).
      split; [|split; [exact Ha|exact Hn]].
      intros path. destruct (Hp path) as [H|(p & m & H1 & H2 & H3 & H4)];
        [left; exact H|].
      right. exists p, m. repeat split; try assumption.
      rewrite modifier_at_cons.
      destruct (String.eqb k path) eqn:Ek; [|exact H2].
      apply String.eqb_eq in Ek. subst path.
      exfalso. apply Hk. exact (modifier_at_key rest k m H2).
    + set (s1 := <[k := apply_modifier prim m]> stage).
      assert (H01 : no_more_active stage s1)
        by (apply no_more_active_insert; exact Es).
      destruct (IH s1 Hnd) as (Hp & Ha & Hn).
      split; [|split].
      * intros path. destruct (Hp path) as [H|(p & m' & H1 & H2 & H3 & H4)].
        -- destruct (String.eqb k path) eqn:Ek.
           ++ apply String.eqb_eq in Ek. subst path.
              right. exists prim, m. repeat split; try assumption.
              ** rewrite modifier_at_cons, String.eqb_refl. exact Em.
              ** rewrite H. subst s1. now rewrite lookup_insert_eq.
           ++ apply String.eqb_neq in Ek. left. rewrite H. subst s1.
              now rewrite lookup_insert_ne.
        -- assert (Hne : k <> path).
           { intros ->. apply Hk. exact (modifier_at_key rest path m' H2). }
           right. exists p, m'. repeat split.
           ++ rewrite <- H1. subst s1. now rewrite lookup_insert_ne.
           ++ rewrite modifier_at_cons.
              apply String.eqb_neq in Hne. now rewrite Hne.
           ++ exact (IsValid_mono stage s1 path H01 H3).
           ++ exact H4.
      * exact (no_more_active_trans _ _ _ H01 Ha).
      * cbn [length].
        pose proof (filter_length_mono (counted s1) (counted stage) rest
                      (fun x => counted_mono stage s1 x H01)).
        lia.
Qed.

Lemma IsValid_same_activity (s r : gmap string ExportPrim) (path : string) :
  (forall a, is_active <$> r !! a = is_active <$> s !! a) ->
  IsValid r path = IsValid s path.
Proof.
  intros H. unfold IsValid. pose proof (H path) as Hp.
  destruct (s !! path), (r !! path); try discriminate; [|reflexivity].
  induction (ancestor_paths path) as [|a l IH]; [reflexivity|].
  cbn [forallb]. rewrite IH. f_equal. specialize (H a).
  destruct (s !! a), (r !! a); cbn in H; congruence.
Qed.

Lemma keeps_active_cons (item : string * option MaxNode)
    (rest : list (string * option MaxNode)) :
  keeps_active (item :: rest) = true ->
  (forall nd m, snd item = Some nd -> _get_usd_properties_modifier nd = Some m ->
                forall prim, is_active (apply_modifier prim m) = is_active prim)
  /\ keeps_active rest = true.
Proof.
  unfold keeps_active. cbn [forallb]. intros H.
  apply andb_true_iff in H as [H1 H2]. split; [|exact H2].
  intros nd m E1 E2 prim. rewrite E1, E2 in H1.
  destruct (apply_modifier_fields prim m) as (_ & _ & _ & _ & _ & E & _).
  rewrite E. destruct (USD_Active m) as [[|]|]; auto; discriminate.
Qed.

Lemma apply_properties_exact (handles : list (string * option MaxNode)) :
  forall stage : gmap string ExportPrim,
  List.NoDup (dict_keys handles) -> keeps_active handles = true ->
  (forall path,
     fst (apply_properties handles stage) !! path
     = (fun prim => if IsValid stage path
                    then match modifier_at handles path with
                         | Some m => apply_modifier prim m
                         | None => prim
                         end
                    else prim) <$> stage !! path)
  /\ snd (apply_properties handles stage)
     = length (List.filter (counted stage) handles).
Proof.
  induction handles as [|[k node] rest IH]; intros stage Hnd Hka.
  - cbn. split; [|reflexivity]. intros path.
    destruct (stage !! path); cbn; [|reflexivity]. now destruct (IsValid stage path).
  - cbn [dict_keys map fst] in Hnd.
    pose proof (List.NoDup_cons_iff k (map fst rest)) as Hc.
    apply Hc in Hnd as [Hk Hnd]. clear Hc.
    apply keeps_active_cons in Hka as [Hact Hka]. cbn [snd] in Hact.
    rewrite apply_properties_cons. cbn [fst snd List.filter].
    destruct (apply_properties_one k node stage)
      as [[E Hc]|(nd & prim & m & -> & Em & Es & Ev & Hc & E)];
      rewrite E, Hc; cbn [fst snd].
    + destruct (IH stage Hnd Hka) as (Hp & Hn). split; [|exact Hn].
      intros path. rewrite Hp, modifier_at_cons.
      destruct (String.eqb k path) eqn:Ek; [|reflexivity].
      apply String.eqb_eq in Ek. subst path.
      rewrite (modifier_at_absent rest k Hk).
      destruct (stage !! k) as [p|]; [|reflexivity]. cbn.
      unfold counted in Hc. cbn [fst snd] in Hc.
      destruct (IsValid stage k); [|reflexivity].
      destruct node as [nd|]; [|reflexivity].
      destruct (_get_usd_properties_modifier nd); [discriminate|reflexivity].
    + set (s1 := <[k := apply_modifier prim m]> stage).
      assert (Hsame : forall a, is_active <$> s1 !! a = is_active <$> stage !! a).
      { intros a. subst s1. destruct (String.eqb k a) eqn:Ek.
        - apply String.eqb_eq in Ek. subst a. rewrite lookup_insert_eq, Es. cbn.
          f_equal. exact (Hact nd m eq_refl Em prim).
        - apply String.eqb_neq in Ek. now rewrite lookup_insert_ne. }
      destruct (IH s1 Hnd Hka) as (Hp & Hn). split.
      * intros path. rewrite Hp, modifier_at_cons.
        rewrite (IsValid_same_activity stage s1 path Hsame).
        destruct (String.eqb k path) eqn:Ek.
        -- apply String.eqb_eq in Ek. subst path.
           rewrite (modifier_at_absent rest k Hk), Ev, Em. subst s1.
           rewrite lookup_insert_eq, Es. reflexivity.
        -- apply String.eqb_neq in Ek. subst s1.
           now rewrite lookup_insert_ne.
      * rewrite Hn. cbn [length]. f_equal.
        f_equal. apply List.filter_ext. intros [k' node']. unfold counted.
        cbn [fst snd]. destruct node' as [nd'|]; [|reflexivity].
        now rewrite (IsValid_same_activity stage s1 k' Hsame).
Qed.

Lemma apply_properties_fixed (handles : list (string * option MaxNode))
    (stage : gmap string ExportPrim) :
  (forall k nd m prim,
     In (k, Some nd) handles -> _get_usd_properties_modifier nd = Some m ->
     IsValid stage k = true -> stage !! k = Some prim ->
     apply_modifier prim m = prim) ->
  fst (apply_properties handles stage) = stage.
Proof.
  induction handles as [|[k node] rest IH]; intros H; [reflexivity|].
  rewrite apply_properties_cons. cbn [fst].
  assert (E : fst (apply_properties [(k, node)] stage) = stage).
  { destruct (apply_properties_one k node stage)
      as [[E _]|(nd & prim & m & -> & Em & Es & Ev & _ & E)]; rewrite E; cbn [fst];
      [reflexivity|].
    rewrite (H k nd m prim (or_introl eq_refl) Em Ev Es).
    apply insert_id. exact Es. }
  rewrite E. apply IH. intros k' nd m prim Hin. apply H. right. exact Hin.
Qed.

Lemma apply_properties_settled (handles : list (string * option MaxNode)) :
  forall stage : gmap string ExportPrim,
  List.NoDup (dict_keys handles) ->
  forall k nd m prim,
    In (k, Some nd) handles -> _get_usd_properties_modifier nd = Some m ->
    IsValid (fst (apply_properties handles stage)) k = true ->
    fst (apply_properties handles stage) !! k = Some prim ->
    apply_modifier prim m = prim.
Proof.
  induction handles as [|[k0 node0] rest IH]; intros stage Hnd k nd m prim Hin Em;
    [destruct Hin|].
  cbn [dict_keys map fst] in Hnd.
  pose proof (List.NoDup_cons_iff k0 (map fst rest)) as Hc.
  apply Hc in Hnd as [Hk Hnd]. clear Hc.
  rewrite apply_properties_cons. cbn [fst].
  destruct Hin as [Hhead|Hrest]; [|exact (IH _ Hnd k nd m prim Hrest Em)].
  injection Hhead as -> ->.
  set (s1 := fst (apply_properties [(k, Some nd)] stage)).
  intros Hv Hl.
  destruct (apply_properties_changes rest s1 Hnd) as (Hp & Ha & _).
  assert (Hl1 : s1 !! k = Some prim).
  { destruct (Hp k) as [H|(p & m' & _ & H2 & _)]; [now rewrite <- H|].
    exfalso. apply Hk. exact (modifier_at_key rest k m' H2). }
  assert (Hv1 : IsValid s1 k = true) by exact (IsValid_mono s1 _ k Ha Hv).
  subst s1.
  destruct (apply_properties_one k (Some nd) stage)
    as [[E Hc]|(nd' & prim0 & m0 & Hnd' & Em0 & Es & Ev & _ & E)];
    rewrite E in Hl1, Hv1; cbn [fst] in Hl1, Hv1.
  - unfold counted in Hc. cbn [fst snd] in Hc. rewrite Hv1, Em in Hc. discriminate.
  - injection Hnd' as <-. rewrite Em in Em0. injection Em0 as <-.
    rewrite lookup_insert_eq in Hl1. injection Hl1 as <-.
    apply apply_modifier_idempotent.
Qed.

(** X26. Step 1 of [PostExport], the keys of [primsToNodeHandles] being
    distinct as in a dictionary. No prim is added or removed, and a prim is
    changed only when its item has a node with the modifier and the prim is
    valid on the stage given, and then by the settings of that modifier.
    [processed] is at most the number of items with a node, a valid prim and
    the modifier: an item below a prim that an earlier item made inactive is
    passed over. When no modifier turns [USD_Active] off, every such item is
    processed and [processed] is their number. Running the step again on its
    result leaves the stage as it is. *)
Theorem apply_properties_effect (primsToNodeHandles : list (string * option MaxNode))
    (stage : gmap string ExportPrim) :
  List.NoDup (dict_keys primsToNodeHandles) ->
  (forall path,
     fst (apply_properties primsToNodeHandles stage) !! path = stage !! path
     \/ exists prim m,
          stage !! path = Some prim
          /\ modifier_at primsToNodeHandles path = Some m
          /\ IsValid stage path = true
          /\ fst (apply_properties primsToNodeHandles stage) !! path
             = Some (apply_modifier prim m))
  /\ snd (apply_properties primsToNodeHandles stage)
     <= length (List.filter (counted stage) primsToNodeHandles)
  /\ (keeps_active primsToNodeHandles = true ->
      (forall path,
         fst (apply_properties primsToNodeHandles stage) !! path
         = (fun prim => if IsValid stage path
                        then match modifier_at primsToNodeHandles path with
                             | Some m => apply_modifier prim m
                             | None => prim
                             end
                        else prim) <$> stage !! path)
      /\ snd (apply_properties primsToNodeHandles stage)
         = length (List.filter (counted stage) primsToNodeHandles))
  /\ fst (apply_properties primsToNodeHandles
            (fst (apply_properties primsToNodeHandles stage)))
     = fst (apply_properties primsToNodeHandles stage).
Proof.
  intros Hnd.
  destruct (apply_properties_changes primsToNodeHandles stage Hnd) as (Hp & _ & Hn).
  split; [exact Hp|]. split; [exact Hn|]. split.
  - intros Hka. exact (apply_properties_exact primsToNodeHandles stage Hnd Hka).
  - apply apply_properties_fixed. intros k nd m prim Hin Em Hv Hl.
    exact (apply_properties_settled primsToNodeHandles stage Hnd k nd m prim
             Hin Em Hv Hl).
Qed.

End ModifierFacts.

Lemma apply_properties_effect_witness :
  List.NoDup (dict_keys box_handles)
  /\ snd (@apply_properties ascii_spaces box_handles
            (<["/root/Box" := box_prim]> (<["/root/Lamp" := box_prim]> ∅)))
     = 1.
Proof.
  assert (Hnd : List.NoDup (dict_keys box_handles)).
  { apply List.NoDup_cons; [cbn; intros [H|[H|[]]]; discriminate|].
    apply List.NoDup_cons; [cbn; intros [H|[]]; discriminate|].
    apply List.NoDup_cons; [cbn; intros []|apply List.NoDup_nil]. }
  split; [exact Hnd|].
  destruct (@apply_properties_effect ascii_spaces box_handles
              (<["/root/Box" := box_prim]> (<["/root/Lamp" := box_prim]> ∅)) Hnd)
    as (_ & _ & Hex & _).
  destruct (Hex eq_refl) as [_ Hn]. rewrite Hn. reflexivity.
Defined.

(** A parent made inactive before its child: the child is no more valid when
    its item comes, and stays as it was. *)
Example inactive_parent_hides_child :
  snd (@apply_properties ascii_spaces off_handles off_stage) = 1
  /\ length (List.filter (counted off_stage) off_handles) = 2
  /\ fst (@apply_properties ascii_spaces off_handles off_stage) !! "/root/A/B"
     = Some box_prim
  /\ (is_active <$>
        fst (@apply_properties ascii_spaces off_handles off_stage) !! "/root/A")
     = Some false
  /\ ancestor_paths "/root/A/B" = ["/root"; "/root/A"].
Proof. repeat split; vm_compute; reflexivity. Qed.
